(** * auto-detect-walls: a shallow embedding of the image pipeline

    The JavaScript sources are embedded function by function.  Typed arrays
    ([Uint8ClampedArray]) are lists of integers read and written through
    integer indices; a read outside the array is [None] (JavaScript's
    [undefined]) and a write outside the array does nothing.  JavaScript
    numbers that may be fractional are rationals.  Where a comparison or a
    ceiling decides what the program does next ([Ops.kernelSize],
    [Inside.exceeds]) the rounding of the operation to the nearest double is
    written out with [JS.double]; the sums and quotients whose results are
    rounded to bytes (luminance, blur, centroids) are kept exact. *)

From Stdlib Require Import ZArith QArith Qround Qminmax Qabs Lia Lqa.
From Stdlib Require Import Reals Qreals Lra.
From stdpp Require Import base list gmap strings.

Open Scope Z_scope.

(** ** The JavaScript run time the sources rely on *)
Module JS.

(** [a[i]]: [None] stands for [undefined]. *)
Definition get {A} (a : list A) (i : Z) : option A :=
  if i <? 0 then None else a !! Z.to_nat i.

(** [a[i] = v] on a typed array: ignored outside the array. *)
Definition set {A} (a : list A) (i : Z) (v : A) : list A :=
  if i <? 0 then a else <[Z.to_nat i := v]> a.

(** [a.length] *)
Definition len {A} (a : list A) : Z := Z.of_nat (length a).

(** [new Uint8ClampedArray(n)]: [n] zeros. *)
Definition new_array (n : Z) : list Z := replicate (Z.to_nat n) 0.

(** Rounding to the nearest integer, ties to the even one: the conversion a
    [Uint8ClampedArray] applies to a number it stores. *)
Definition round_half_even (q : Q) : Z :=
  let f := Qfloor q in
  match ((q - inject_Z f) ?= (1 # 2))%Q with
  | Lt => f
  | Gt => f + 1
  | Eq => if Z.even f then f else f + 1
  end.

Definition clamp (lo hi x : Z) : Z := Z.min (Z.max x lo) hi.

(** The double nearest to the rational [q], ties to the even significand:
    the rounding an arithmetic operation of the program applies to its
    exact result.  The significand has 53 bits, [k] is the exponent of the
    leading bit of [q]; the range of the exponent is not limited, so
    overflow and gradual underflow are left out. *)
Definition double (q : Q) : Q :=
  match Qnum q with
  | 0 => 0%Q
  | _ =>
      let a := Qabs q in
      let k := Z.log2 (Qnum a) - Z.log2 (Zpos (Qden a)) in
      let k := if Qle_bool (2 ^ k) a then k else k - 1 in
      let e := k - 52 in
      let m := round_half_even (a / 2 ^ e) in
      let r := (inject_Z m * 2 ^ e)%Q in
      if Qle_bool 0 q then r else (- r)%Q
  end.

(** The byte a [Uint8ClampedArray] keeps for a number; [None] is [NaN],
    which is kept as 0. *)
Definition to_uint8_clamped (v : option Q) : Z :=
  match v with
  | Some q => clamp 0 255 (round_half_even q)
  | None => 0
  end.

(** [a[i] = v] for a number [v]. *)
Definition store (a : list Z) (i : Z) (v : option Q) : list Z :=
  set a i (to_uint8_clamped v).

(** The values the variable of
    [for (let i = lo; i < hi; i += step)] takes, for a positive [step]. *)
Definition loop_values (lo hi step : Z) : list Z :=
  map (fun k => lo + Z.of_nat k * step)
      (seq 0 (Z.to_nat ((hi - lo + step - 1) / step))).

(** [for (let i = lo; i < hi; i++)] *)
Definition range (lo hi : Z) : list Z := loop_values lo hi 1.

(** A loop whose body updates the state [s]. *)
Definition for_ {S : Type} (vals : list Z) (body : Z -> S -> S) (s : S) : S :=
  fold_left (fun s i => body i s) vals s.

(** A loop that is left by [break] at the first value that satisfies
    [test]; the result tells whether it was left that way. *)
Fixpoint for_break (vals : list Z) (test : Z -> bool) : bool :=
  match vals with
  | [] => false
  | i :: rest => if test i then true else for_break rest test
  end.

(** [Math.min(Math.max(v, 0), n - 1)] *)
Definition clamp_index (v n : Z) : Z := Z.min (Z.max v 0) (n - 1).

(** [Math.round]: the nearest integer, a half goes up. *)
Definition Math_round (q : Q) : Z := Qfloor (q + (1 # 2)).

(** Numbers that may be [NaN] ([None]), as reads outside an array give. *)
Definition num (v : option Z) : option Q := inject_Z <$> v.

Definition nadd (a b : option Q) : option Q :=
  match a, b with Some x, Some y => Some (x + y)%Q | _, _ => None end.

Definition nmul (a b : option Q) : option Q :=
  match a, b with Some x, Some y => Some (x * y)%Q | _, _ => None end.

(** [v > 0], false for [NaN]. *)
Definition positive (v : option Q) : bool :=
  match v with Some q => negb (Qle_bool q 0) | None => false end.

(** Four consecutive writes [a[o] = r; a[o + 1] = g; a[o + 2] = b;
    a[o + 3] = al], of bytes and of numbers. *)
Definition write4 (a : list Z) (o : Z) (r g b al : Z) : list Z :=
  set (set (set (set a o r) (o + 1) g) (o + 2) b) (o + 3) al.

Definition set4 (a : list Z) (o : Z) (r g b al : option Q) : list Z :=
  write4 a o (to_uint8_clamped r) (to_uint8_clamped g)
         (to_uint8_clamped b) (to_uint8_clamped al).

End JS.

(** Image data: [ImageData] objects and the single channel images of the
    edge detectors have the same three fields. *)
Record ImageData := mkImage { data : list Z; width : Z; height : Z }.

(** The sample at index [i], and the kernel coefficient at index [i]. *)
Definition sample (d : list Z) (i : Z) : Z := default 0 (JS.get d i).
Definition coeff (kernel : list Q) (i : Z) : Q := default 0%Q (JS.get kernel i).

(** ** Filters (ops.mjs) *)
Module Ops.
Import JS.

(** [0.299 * r + 0.587 * g + 0.114 * b]; a missing sample makes it [NaN]. *)
Definition luminance (r g b : option Z) : option Q :=
  match r, g, b with
  | Some r, Some g, Some b =>
      Some ((299 # 1000) * inject_Z r + (587 # 1000) * inject_Z g
            + (114 # 1000) * inject_Z b)%Q
  | _, _, _ => None
  end.

Definition convertToGrayscale (imageData : ImageData) : ImageData :=
  let d := data imageData in
  let grayscale := new_array (width imageData * height imageData) in
  let grayscale :=
    for_ (loop_values 0 (len d) 4)
      (fun i grayscale =>
         let value := luminance (get d i) (get d (i + 1)) (get d (i + 2)) in
         store grayscale (i / 4) value)
      grayscale in
  mkImage grayscale (width imageData) (height imageData).

(** *** applyGaussianBlur

    [Math.exp] is a parameter of the embedding.  The quotient by
    [2 * sigma * sigma] is that of the rationals: for [sigma = 0], where
    the program divides by zero and goes on with [NaN] or [-Infinity], the
    embedding does not follow it. *)
Section GaussianBlur.
Variable Math_exp : Q -> Q.

(** [Math.max(3, Math.ceil(sigma * 3) * 2 + 1)]: the ceiling is taken
    of the product as the program has it, a double. *)
Definition kernelSize (sigma : Q) : Z :=
  Z.max 3 (Qceiling (double (sigma * 3)) * 2 + 1).

Definition halfSize (sigma : Q) : Z := kernelSize sigma / 2.

(** The first loop: the weights and their sum. *)
Definition rawKernel (sigma : Q) : list Q * Q :=
  for_ (range 0 (kernelSize sigma))
    (fun i '(kernel, sum) =>
       let x := inject_Z (i - halfSize sigma) in
       let w := Math_exp (- (x * x) / (2 * sigma * sigma))%Q in
       (set kernel i w, (sum + w)%Q))
    (replicate (Z.to_nat (kernelSize sigma)) 0%Q, 0%Q).

(** The second loop: [kernel[i] /= sum]. *)
Definition gaussianKernel (sigma : Q) : list Q :=
  let '(kernel, sum) := rawKernel sigma in
  for_ (range 0 (kernelSize sigma))
    (fun i kernel =>
       match get kernel i with
       | Some w => set kernel i (w / sum)%Q
       | None => kernel
       end)
    kernel.

Definition horizontalBlur (kernel : list Q) (hs : Z) (d : list Z)
    (width height : Z) : list Z :=
  for_ (range 0 height)
    (fun y tempData =>
       for_ (range 0 width)
         (fun x tempData =>
            let sum :=
              for_ (range (- hs) (hs + 1))
                (fun k sum =>
                   let xPos := clamp_index (x + k) width in
                   nadd sum (nmul (num (get d (y * width + xPos)))
                                  (get kernel (k + hs))))
                (Some 0%Q) in
            store tempData (y * width + x) sum)
         tempData)
    (new_array (width * height)).

Definition verticalBlur (kernel : list Q) (hs : Z) (tempData : list Z)
    (width height : Z) : list Z :=
  for_ (range 0 height)
    (fun y blurredData =>
       for_ (range 0 width)
         (fun x blurredData =>
            let sum :=
              for_ (range (- hs) (hs + 1))
                (fun k sum =>
                   let yPos := clamp_index (y + k) height in
                   nadd sum (nmul (num (get tempData (yPos * width + x)))
                                  (get kernel (k + hs))))
                (Some 0%Q) in
            store blurredData (y * width + x) sum)
         blurredData)
    (new_array (width * height)).

Definition applyGaussianBlur (imageData : ImageData) (sigma : Q) : ImageData :=
  let kernel := gaussianKernel sigma in
  let hs := halfSize sigma in
  let tempData :=
    horizontalBlur kernel hs (data imageData)
                   (width imageData) (height imageData) in
  let blurredData :=
    verticalBlur kernel hs tempData (width imageData) (height imageData) in
  mkImage blurredData (width imageData) (height imageData).

End GaussianBlur.

(** *** applyMedianFilter *)

(** The objects pushed on [pixels]. *)
Record Pixel := mkPixel {
  px_r : option Z; px_g : option Z; px_b : option Z; px_a : option Z;
  px_luminance : option Q; px_sourceIdx : Z }.

(** [a.luminance - b.luminance < 0]; false when the difference is [NaN]. *)
Definition before (a b : Pixel) : bool :=
  match px_luminance a, px_luminance b with
  | Some x, Some y => negb (Qle_bool y x)
  | _, _ => false
  end.

(** [pixels.sort(...)]: the sort is stable. *)
Fixpoint insert_sorted (p : Pixel) (sorted : list Pixel) : list Pixel :=
  match sorted with
  | [] => [p]
  | q :: rest => if before p q then p :: q :: rest
                 else q :: insert_sorted p rest
  end.

Definition sort (pixels : list Pixel) : list Pixel :=
  fold_left (fun sorted p => insert_sorted p sorted) pixels [].

(** [if (kernelSize % 2 === 0) kernelSize++] *)
Definition oddKernel (kernelSize : Z) : Z :=
  if Z.rem kernelSize 2 =? 0 then kernelSize + 1 else kernelSize.

(** The pixels gathered within the kernel around [(x, y)]. *)
Definition gather (d : list Z) (width height halfKernel x y : Z) : list Pixel :=
  for_ (range (- halfKernel) (halfKernel + 1))
    (fun ky pixels =>
       for_ (range (- halfKernel) (halfKernel + 1))
         (fun kx pixels =>
            let pixelX := clamp_index (x + kx) width in
            let pixelY := clamp_index (y + ky) height in
            let idx := (pixelY * width + pixelX) * 4 in
            pixels ++ [mkPixel (get d idx) (get d (idx + 1)) (get d (idx + 2))
                               (get d (idx + 3))
                               (luminance (get d idx) (get d (idx + 1))
                                          (get d (idx + 2)))
                               idx])
         pixels)
    [].

(** A loop over a state that a [TypeError] may end: [None]. *)
Definition for_try {S : Type} (vals : list Z) (body : Z -> S -> option S)
    (s : S) : option S :=
  fold_left (fun s i => s ≫= body i) vals (Some s).

(** The canvas holds the returned image afterwards; [None] when reading
    [medianPixel.r] of an empty [pixels] throws. *)
Definition applyMedianFilter (imageData : ImageData) (kernelSize : Z)
    : option ImageData :=
  let d := data imageData in
  let w := width imageData in
  let h := height imageData in
  let kernelSize := oddKernel kernelSize in
  let halfKernel := kernelSize / 2 in
  let outputData := new_array (len d) in
  outputData ←
    for_try (range 0 h)
      (fun y outputData =>
         for_try (range 0 w)
           (fun x outputData =>
              let pixels := sort (gather d w h halfKernel x y) in
              medianPixel ← pixels !! (length pixels / 2)%nat;
              let outputIdx := (y * w + x) * 4 in
              Some (set4 outputData outputIdx
                      (num (px_r medianPixel)) (num (px_g medianPixel))
                      (num (px_b medianPixel)) (num (px_a medianPixel))))
           outputData)
      outputData;
  Some (mkImage outputData w h).

(** *** applyBrightenFilter *)

(** The two kernel loops, left by [break] at the first pixel whose
    luminance is positive. *)
Definition brightenAt (d : list Z) (width height halfKernel x y : Z) : bool :=
  for_break (range (- halfKernel) (halfKernel + 1))
    (fun ky =>
       for_break (range (- halfKernel) (halfKernel + 1))
         (fun kx =>
            let pixelX := clamp_index (x + kx) width in
            let pixelY := clamp_index (y + ky) height in
            let idx := (pixelY * width + pixelX) * 4 in
            positive (luminance (get d idx) (get d (idx + 1))
                                (get d (idx + 2))))).

Definition applyBrightenFilter (imageData : ImageData) (kernelSize : Z)
    : ImageData :=
  let d := data imageData in
  let w := width imageData in
  let h := height imageData in
  let kernelSize := oddKernel kernelSize in
  let halfKernel := kernelSize / 2 in
  let outputData := new_array (len d) in
  let outputData :=
    for_ (range 0 h)
      (fun y outputData =>
         for_ (range 0 w)
           (fun x outputData =>
              let brighten := brightenAt d w h halfKernel x y in
              let outputIdx := (y * w + x) * 4 in
              if brighten
              then set4 outputData outputIdx
                        (Some 255%Q) (Some 255%Q) (Some 255%Q) (Some 255%Q)
              else set4 outputData outputIdx
                        (Some 0%Q) (Some 0%Q) (Some 0%Q) (Some 0%Q))
           outputData)
      outputData in
  mkImage outputData w h.

End Ops.

(** ** The Canny edge detector (canny.mjs)

    [Math.exp] and the angle [Math.atan2(gy, gx) * 180 / Math.PI] are
    parameters of the embedding.  The gradient sums are integers; a sum that
    met a read outside the array is [NaN] ([None]). *)
Module Canny.
Import JS.

Inductive Failure := NoEdgesDetected.

(** What a call leaves: an exception, or the image put on the canvas. *)
Inductive Outcome :=
| Throws (e : Failure)
| Returns (canvas : ImageData).

Definition sobelX : list Z := [-1; 0; 1; -2; 0; 2; -1; 0; 1].
Definition sobelY : list Z := [-1; -2; -1; 0; 0; 0; 1; 2; 1].

Definition zadd (a b : option Z) : option Z :=
  match a, b with Some x, Some y => Some (x + y) | _, _ => None end.

Definition zmul (a b : option Z) : option Z :=
  match a, b with Some x, Some y => Some (x * y) | _, _ => None end.

(** The integer nearest to the square root of [n]; the square root of an
    integer is never half way between two integers. *)
Definition sqrt_round (n : Z) : Z := (Z.sqrt (4 * n) + 1) / 2.

(** The byte kept for [Math.min(255, Math.sqrt(gx * gx + gy * gy))]. *)
Definition magnitudeByte (gx gy : option Z) : Z :=
  match gx, gy with
  | Some gx, Some gy => Z.min 255 (sqrt_round (gx * gx + gy * gy))
  | _, _ => 0
  end.

Section Detector.
Variable Math_exp : Q -> Q.
Variable Math_atan2_deg : Z -> Z -> Q.

(** The quantised direction of the gradient. *)
Definition quantise (gx gy : option Z) : Z :=
  match gx, gy with
  | Some gx, Some gy =>
      let angle := Math_atan2_deg gy gx in
      let angle := if negb (Qle_bool 0 angle) then (angle + 180)%Q else angle in
      if (Qle_bool 0 angle && negb (Qle_bool (45 # 2) angle)
          || Qle_bool (315 # 2) angle && Qle_bool angle 180)%bool then 0
      else if (Qle_bool (45 # 2) angle && negb (Qle_bool (135 # 2) angle))%bool
      then 45
      else if (Qle_bool (135 # 2) angle && negb (Qle_bool (225 # 2) angle))%bool
      then 90
      else 135
  | _, _ => 135
  end.

(** The two Sobel sums at [(x, y)]. *)
Definition sobel (d : list Z) (width x y : Z) : option Z * option Z :=
  for_ (range (-1) 2)
    (fun ky g =>
       for_ (range (-1) 2)
         (fun kx '(gx, gy) =>
            let idx := (y + ky) * width + (x + kx) in
            let kernelIdx := (ky + 1) * 3 + (kx + 1) in
            (zadd gx (zmul (get d idx) (get sobelX kernelIdx)),
             zadd gy (zmul (get d idx) (get sobelY kernelIdx))))
         g)
    (Some 0, Some 0).

(** The gradient magnitudes and directions. *)
Definition calculateGradients (imageData : ImageData) : list Z * list Z :=
  let d := data imageData in
  let w := width imageData in
  let h := height imageData in
  for_ (range 1 (h - 1))
    (fun y g =>
       for_ (range 1 (w - 1))
         (fun x '(gradientMagnitude, gradientDirection) =>
            let '(gx, gy) := sobel d w x y in
            let direction := quantise gx gy in
            let idx := y * w + x in
            (set gradientMagnitude idx (magnitudeByte gx gy),
             set gradientDirection idx direction))
         g)
    (new_array (w * h), new_array (w * h)).

(** [a < b] and [a >= b] on values that may be [undefined]. *)
Definition lt_num (a : option Z) (b : Z) : bool :=
  match a with Some x => x <? b | None => false end.

Definition ge_num (a b : option Z) : bool :=
  match a, b with Some x, Some y => y <=? x | _, _ => false end.

(** The two neighbours along the direction of the gradient. *)
Definition neighbours (direction : option Z) (x y : Z) : (Z * Z) * (Z * Z) :=
  if bool_decide (direction = Some 0) then ((x - 1, y), (x + 1, y))
  else if bool_decide (direction = Some 45) then ((x + 1, y - 1), (x - 1, y + 1))
  else if bool_decide (direction = Some 90) then ((x, y - 1), (x, y + 1))
  else ((x - 1, y - 1), (x + 1, y + 1)).

Definition applyNonMaximumSuppression (magnitudeData directionData : list Z)
    (width height : Z) : ImageData :=
  let suppressed :=
    for_ (range 1 (height - 1))
      (fun y suppressed =>
         for_ (range 1 (width - 1))
           (fun x suppressed =>
              let idx := y * width + x in
              let magnitude := get magnitudeData idx in
              if lt_num magnitude 10 then set suppressed idx 0
              else
                let direction := get directionData idx in
                let '((neighbor1X, neighbor1Y), (neighbor2X, neighbor2Y)) :=
                  neighbours direction x y in
                let neighbor1X := Z.max 0 (Z.min (width - 1) neighbor1X) in
                let neighbor1Y := Z.max 0 (Z.min (height - 1) neighbor1Y) in
                let neighbor2X := Z.max 0 (Z.min (width - 1) neighbor2X) in
                let neighbor2Y := Z.max 0 (Z.min (height - 1) neighbor2Y) in
                let neighbor1Idx := neighbor1Y * width + neighbor1X in
                let neighbor2Idx := neighbor2Y * width + neighbor2X in
                let neighbor1Value := get magnitudeData neighbor1Idx in
                let neighbor2Value := get magnitudeData neighbor2Idx in
                if (ge_num magnitude neighbor1Value
                    && ge_num magnitude neighbor2Value)%bool
                then store suppressed idx (num magnitude)
                else set suppressed idx 0)
           suppressed)
      (new_array (width * height)) in
  mkImage suppressed width height.

(** *** Hysteresis *)

Definition dx : list Z := [-1; -1; 0; 1; 1; 1; 0; -1].
Definition dy : list Z := [0; -1; -1; -1; 0; 1; 1; 1].

(** [!v] *)
Definition falsy (v : option Z) : bool :=
  match v with Some x => x =? 0 | None => true end.

(** [v >= threshold], false for [undefined]. *)
Definition reaches (v : option Z) (threshold : Q) : bool :=
  match v with Some x => Qle_bool threshold (inject_Z x) | None => false end.

(** The state of a trace: the edge map, the visited map and the stack,
    its top first. *)
Definition Tracing : Type := list Z * list Z * list (Z * Z).

(** The loop over the eight neighbours of [(x, y)]. *)
Definition visitNeighbours (d : list Z) (width height : Z) (lowThreshold : Q)
    (x y : Z) (st : Tracing) : Tracing :=
  for_ (range 0 8)
    (fun i '(edges, visited, stack) =>
       let nx := x + sample dx i in
       let ny := y + sample dy i in
       if ((0 <=? nx) && (nx <? width) && (0 <=? ny) && (ny <? height))%bool
       then
         let neighborIdx := ny * width + nx in
         if (falsy (get visited neighborIdx)
             && reaches (get d neighborIdx) lowThreshold)%bool
         then (set edges neighborIdx 255, set visited neighborIdx 1,
               (nx, ny) :: stack)
         else (edges, visited, stack)
       else (edges, visited, stack))
    st.

(** [while (stack.length > 0)], for [fuel] rounds at most.  Every push
    marks a pixel that was not visited, so that the loop has emptied the
    stack within [fuel] rounds when [fuel] is above the number of pixels
    (lemma [trace_completes]). *)
Fixpoint traceLoop (fuel : nat) (d : list Z) (width height : Z)
    (lowThreshold : Q) (st : Tracing) : Tracing :=
  match fuel with
  | O => st
  | S fuel =>
      match st with
      | (edges, visited, []) => st
      | (edges, visited, (x, y) :: stack) =>
          traceLoop fuel d width height lowThreshold
            (visitNeighbours d width height lowThreshold x y
                             (edges, visited, stack))
      end
  end.

Definition trace (d : list Z) (width height : Z) (lowThreshold : Q)
    (x y : Z) (edges visited : list Z) : list Z * list Z :=
  let '(edges, visited, _) :=
    traceLoop (S (Z.to_nat (width * height))) d width height lowThreshold
              (edges, visited, [(x, y)]) in
  (edges, visited).

Definition applyHysteresis (suppressedEdges : ImageData)
    (lowThreshold highThreshold : Q) : list Z :=
  let d := data suppressedEdges in
  let w := width suppressedEdges in
  let h := height suppressedEdges in
  let '(edges, visited) :=
    for_ (range 0 (len d))
      (fun i '(edges, visited) =>
         if reaches (get d i) highThreshold
         then (set edges i 255, set visited i 1)
         else (edges, visited))
      (new_array (w * h), new_array (w * h)) in
  let '(edges, visited) :=
    for_ (range 0 h)
      (fun y ev =>
         for_ (range 0 w)
           (fun x '(edges, visited) =>
              let idx := y * w + x in
              if (bool_decide (get edges idx = Some 255)
                  && bool_decide (get visited idx = Some 1))%bool
              then trace d w h lowThreshold x y edges visited
              else (edges, visited))
           ev)
      (edges, visited) in
  edges.

(** The loop that finds the largest suppressed magnitude, from 1. *)
Definition maxValue (suppressed : list Z) : Z :=
  for_ (range 0 (len suppressed))
    (fun i maxValue =>
       match get suppressed i with
       | Some v => if maxValue <? v then v else maxValue
       | None => maxValue
       end)
    1.

(** The image of the normalised suppressed magnitudes that is put on the
    canvas for debugging is replaced by the edge image before the
    function returns. *)
Definition cannyEdgeDetection (canvas : ImageData)
    (lowThreshold highThreshold sigma : Q) : Outcome :=
  let w := width canvas in
  let h := height canvas in
  let grayscaleData := Ops.convertToGrayscale canvas in
  let blurredData := Ops.applyGaussianBlur Math_exp grayscaleData sigma in
  let '(gradientMagnitude, gradientDirection) := calculateGradients blurredData in
  let suppressedEdges :=
    applyNonMaximumSuppression gradientMagnitude gradientDirection w h in
  if maxValue (data suppressedEdges) <=? 1 then Throws NoEdgesDetected
  else
    let edges := applyHysteresis suppressedEdges lowThreshold highThreshold in
    let outputData :=
      for_ (range 0 (len edges))
        (fun i outputData =>
           let offset := i * 4 in
           let edgeValue := if bool_decide (get edges i = Some 255) then 255 else 0 in
           write4 outputData offset edgeValue edgeValue edgeValue 255)
        (new_array (w * h * 4)) in
    Returns (mkImage outputData w h).

(** The suppressed magnitudes the detector computes for an image. *)
Definition suppressedMagnitudes (canvas : ImageData) (sigma : Q) : list Z :=
  let grayscaleData := Ops.convertToGrayscale canvas in
  let blurredData := Ops.applyGaussianBlur Math_exp grayscaleData sigma in
  let '(gradientMagnitude, gradientDirection) := calculateGradients blurredData in
  data (applyNonMaximumSuppression gradientMagnitude gradientDirection
          (width canvas) (height canvas)).

End Detector.

End Canny.

(** ** The grid wall extractor (walls.mjs) *)
Module Walls.
Import JS.

(** A wall [[x1, y1, x2, y2]]. *)
Definition Segment : Type := Z * Z * Z * Z.

(** [v >= threshold], false for [undefined]. *)
Definition reaches (v : option Z) (threshold : Z) : bool :=
  match v with Some x => threshold <=? x | None => false end.

(** The test on the sample [i] of the top row of the tile at [(x, y)] and
    on the sample above it. *)
Definition brightH (d : list Z) (width threshold x y i : Z) : bool :=
  let indexH := (y * width + x + i) * 4 in
  let indexH2 := ((y - 1) * width + x + i) * 4 in
  reaches (get d indexH) threshold
  || ((0 <=? indexH2) && (indexH2 <? len d) && reaches (get d indexH2) threshold).

(** The test on the sample [i] of the left column of the tile and on the
    sample left of it. *)
Definition brightV (d : list Z) (width threshold x y i : Z) : bool :=
  let indexV := ((y + i) * width + x) * 4 in
  let indexV2 := ((y + i) * width + (x - 1)) * 4 in
  reaches (get d indexV) threshold
  || ((0 <=? indexV2) && (indexV2 <? len d) && reaches (get d indexV2) threshold).

(** The counters [mhorizontal], [mvertical], [horizontal] and [vertical]. *)
Definition Runs : Type := Z * Z * Z * Z.

(** The loop over the samples of a tile. *)
Definition tileRuns (d : list Z) (width threshold grid x y : Z) : Runs :=
  for_ (range 0 grid)
    (fun i '(mhorizontal, mvertical, horizontal, vertical) =>
       let '(mhorizontal, horizontal) :=
         if brightH d width threshold x y i
         then (Z.max mhorizontal (horizontal + 1), horizontal + 1)
         else (mhorizontal, 0) in
       let '(mvertical, vertical) :=
         if brightV d width threshold x y i
         then (Z.max mvertical (vertical + 1), vertical + 1)
         else (mvertical, 0) in
       (mhorizontal, mvertical, horizontal, vertical))
    (0, 0, 0, 0).

(** [identifyWalls(canvas, grid, { threshold })] for a positive [grid];
    [m > grid / 2] is [grid < 2 * m]. *)
Definition identifyWalls (canvas : ImageData) (grid threshold : Z)
    : list Segment :=
  let d := data canvas in
  for_ (loop_values 0 (height canvas) grid)
    (fun y walls =>
       for_ (loop_values 0 (width canvas) grid)
         (fun x walls =>
            let '(mhorizontal, mvertical, _, _) :=
              tileRuns d (width canvas) threshold grid x y in
            let walls :=
              if grid <? 2 * mhorizontal
              then walls ++ [(x, y, x + grid, y)] else walls in
            if grid <? 2 * mvertical
            then walls ++ [(x, y, x, y + grid)] else walls)
         walls)
    [].

End Walls.

(** ** Inside and outside (separate-inside.mjs) *)
Module Inside.
Import JS.

(** The template string [`${data[i]},${data[i + 1]},${data[i + 2]}`], as
    the triple it prints. *)
Definition Color : Type := option Z * option Z * option Z.

Definition colorAt (d : list Z) (i : Z) : Color :=
  (get d i, get d (i + 1), get d (i + 2)).

(** [edgePixels.set(c, (edgePixels.get(c) || 0) + 1)] *)
Definition countColor (c : Color) (edgePixels : gmap Color Z) : gmap Color Z :=
  <[c := default 0 (edgePixels !! c) + 1]> edgePixels.

(** [count / totalEdgePixels > threshold], for a positive [count]: the
    quotient is [Infinity] when [totalEdgePixels] is 0, and else the double
    nearest to the exact quotient of the two integers. *)
Definition exceeds (count totalEdgePixels : Z) (threshold : Q) : bool :=
  if totalEdgePixels =? 0 then 0 <? count
  else negb (Qle_bool (double (inject_Z count / inject_Z totalEdgePixels))
                      threshold).

Definition edgeColors (d : list Z) (width height : Z) : gmap Color Z :=
  let edgePixels : gmap Color Z := ∅ in
  let edgePixels :=
    for_ (range 0 width)
      (fun x edgePixels =>
         let topIdx := (x + 0 * width) * 4 in
         let edgePixels := countColor (colorAt d topIdx) edgePixels in
         let bottomIdx := (x + (height - 1) * width) * 4 in
         countColor (colorAt d bottomIdx) edgePixels)
      edgePixels in
  for_ (range 1 (height - 1))
    (fun y edgePixels =>
       let leftIdx := (0 + y * width) * 4 in
       let edgePixels := countColor (colorAt d leftIdx) edgePixels in
       let rightIdx := ((width - 1) + y * width) * 4 in
       countColor (colorAt d rightIdx) edgePixels)
    edgePixels.

Definition outsideColors (d : list Z) (width height : Z) (threshold : Q)
    : gset Color :=
  let totalEdgePixels := 2 * width + 2 * height - 4 in
  map_fold
    (fun color count (outside : gset Color) =>
       if exceeds count totalEdgePixels threshold
       then {[color]} ∪ outside else outside)
    ∅ (edgeColors d width height).

(** The canvas holds the returned image afterwards. *)
Definition separateInside (imageData : ImageData) (threshold : Q) : ImageData :=
  let d := data imageData in
  let w := width imageData in
  let h := height imageData in
  let outside := outsideColors d w h threshold in
  let d :=
    for_ (loop_values 0 (len d) 4)
      (fun i d =>
         let pixelColor := colorAt d i in
         if bool_decide (pixelColor ∈ outside)
         then write4 d i 0 0 0 255
         else write4 d i 255 255 255 255)
      d in
  mkImage d w h.

End Inside.

(** ** Merging the walls of a scene (scene.mjs)

    The constants of the host ([CONST]) and [Math.atan2] are parameters of
    the embedding. *)
Module Scene.

Record Constants := mkConstants {
  WALL_DOOR_TYPES_NONE : Z;
  WALL_DIRECTIONS_BOTH : Z;
  WALL_SENSE_TYPES_NORMAL : Z;
  WALL_MOVEMENT_TYPES_NORMAL : Z }.

(** The coordinates [c] of a wall, [[x1, y1, x2, y2]]. *)
Definition Coords : Type := Q * Q * Q * Q.

(** A wall document of the scene. *)
Record Wall := mkWall {
  id : string;
  c : Coords;
  door : Z; dir : Z; light : Z; sight : Z; sound : Z; move : Z;
  attenuation : bool;
  threshold_light : option Q;
  threshold_sight : option Q;
  threshold_sound : option Q }.

(** The key [`${Math.round(x)},${Math.round(y)},${dir}`] of an endpoint, as
    the triple it prints. *)
Definition Key : Type := Z * Z * Z.

(** [wallMap]: its keys in the order they were added, each with a set of
    walls; a wall is the position it has in [walls]. *)
Definition WallMap : Type := list (Key * list nat).

(** [set.add(w)] *)
Definition setAdd (w : nat) (s : list nat) : list nat :=
  if bool_decide (w ∈ s) then s else s ++ [w].

(** [wallMap[k] ??= new Set(); wallMap[k].add(w)] *)
Fixpoint mapAdd (k : Key) (w : nat) (m : WallMap) : WallMap :=
  match m with
  | [] => [(k, [w])]
  | (k', s) :: m' =>
      if bool_decide (k = k') then (k', setAdd w s) :: m'
      else (k', s) :: mapAdd k w m'
  end.

(** [wallMap[k]] *)
Fixpoint mapGet (k : Key) (m : WallMap) : option (list nat) :=
  match m with
  | [] => None
  | (k', s) :: m' => if bool_decide (k = k') then Some s else mapGet k m'
  end.

(** [Math.min(...l)] and [Math.max(...l)] of a list that is not empty (the
    sets of walls never are). *)
Definition Math_min (l : list Q) : Q :=
  match l with [] => 0%Q | x :: rest => fold_left Qmin rest x end.

Definition Math_max (l : list Q) : Q :=
  match l with [] => 0%Q | x :: rest => fold_left Qmax rest x end.

Section Merger.
Variable CONST : Constants.
Variable Math_atan2 : Q -> Q -> Q.

(** The walls without a door, a direction, a sense or a threshold of
    their own. *)
Definition plain (w : Wall) : bool :=
  (door w =? WALL_DOOR_TYPES_NONE CONST)
  && (dir w =? WALL_DIRECTIONS_BOTH CONST)
  && (light w =? WALL_SENSE_TYPES_NORMAL CONST)
  && (sight w =? WALL_SENSE_TYPES_NORMAL CONST)
  && (sound w =? WALL_SENSE_TYPES_NORMAL CONST)
  && (move w =? WALL_MOVEMENT_TYPES_NORMAL CONST)
  && negb (attenuation w)
  && bool_decide (threshold_light w = None)
  && bool_decide (threshold_sight w = None)
  && bool_decide (threshold_sound w = None).

(** The direction bucket and the keys [a] and [b] of a wall. *)
Definition bucket (w : Wall) : Z :=
  let '(x1, y1, x2, y2) := c w in
  JS.Math_round (Math_atan2 (Qabs (y2 - y1)) (Qabs (x2 - x1)) * 30).

Definition keys (w : Wall) : Key * Key :=
  let '(x1, y1, x2, y2) := c w in
  let dir := bucket w in
  ((JS.Math_round x1, JS.Math_round y1, dir),
   (JS.Math_round x2, JS.Math_round y2, dir)).

(** The first loop over the walls: [wallMap] and [wallIdToAB]. *)
Definition buildMaps (walls : list Wall)
    : WallMap * gmap string (Key * Key) :=
  fold_left
    (fun '(wallMap, wallIdToAB) '(n, w) =>
       let '(a, b) := keys w in
       let wallMap := mapAdd b n (mapAdd a n wallMap) in
       (wallMap, <[id w := (a, b)]> wallIdToAB))
    (imap (fun n w => (n, w)) walls) ([], ∅).

(** The state of the traversal: [visitedK] and the set being filled. *)
Definition Visit : Type := list Key * list nat.

(** [visit(w, set)], nested [fuel] calls deep at most: [None] when [fuel]
    is below the depth, or when a lookup fails.  Every nested call comes
    after a key was added to [visitedK], so that the calls are never
    nested deeper than the number of keys plus one, and neither happens
    on the maps of [buildMaps] (lemma [combineSceneWalls_returns]). *)
Fixpoint visit (walls : list Wall) (wallMap : WallMap)
    (wallIdToAB : gmap string (Key * Key))
    (fuel : nat) (n : nat) (st : Visit) : option Visit :=
  match fuel with
  | O => None
  | S fuel =>
      let '(visitedK, set) := st in
      let set := setAdd n set in
      w ← walls !! n;
      '(a, b) ← wallIdToAB !! id w;
      st ← (if bool_decide (a ∈ visitedK) then Some (visitedK, set)
            else
              ws ← mapGet a wallMap;
              fold_left
                (fun st n' => st ≫= visit walls wallMap wallIdToAB fuel n')
                ws (Some (visitedK ++ [a], set)));
      let '(visitedK, set) := st in
      if bool_decide (b ∈ visitedK) then Some (visitedK, set)
      else
        ws ← mapGet b wallMap;
        fold_left
          (fun st n' => st ≫= visit walls wallMap wallIdToAB fuel n')
          ws (Some (visitedK ++ [b], set))
  end.

(** The loop over the entries of [wallMap]: the connected sets. *)
Definition wallSets (walls : list Wall) (wallMap : WallMap)
    (wallIdToAB : gmap string (Key * Key)) : option (list (list nat)) :=
  let fuel := S (length wallMap) in
  r ← fold_left
        (fun r '(k, v) =>
           '(visitedK, sets) ← r;
           if bool_decide (k ∈ visitedK) then Some (visitedK, sets)
           else
             '(visitedK, set) ←
               fold_left
                 (fun st n => st ≫= visit walls wallMap wallIdToAB fuel n)
                 v (Some (visitedK, []));
             Some (visitedK, sets ++ [set]))
        wallMap (Some ([], []));
  Some r.2.

(** The bounding segment of a set of walls. *)
Definition bounding (walls : list Wall) (set : list nat) : Coords :=
  let coords := omap (fun n => c <$> walls !! n) set in
  let x1 := Math_min (map (fun '(x1, _, x2, _) => Qmin x1 x2) coords) in
  let y1 := Math_min (map (fun '(_, y1, _, y2) => Qmin y1 y2) coords) in
  let x2 := Math_max (map (fun '(x1, _, x2, _) => Qmax x1 x2) coords) in
  let y2 := Math_max (map (fun '(_, y1, _, y2) => Qmax y1 y2) coords) in
  (x1, y1, x2, y2).

(** The coordinates of the walls that replace the plain walls of the
    scene. *)
Definition combineSceneWalls (sceneWalls : list Wall) : option (list Coords) :=
  let walls := filter (fun w => plain w = true) sceneWalls in
  let '(wallMap, wallIdToAB) := buildMaps walls in
  sets ← wallSets walls wallMap wallIdToAB;
  Some (map (bounding walls) sets).

End Merger.

End Scene.

(** ** k-means segmentation (kmeans.mjs)

    [Math.random] is a parameter of the embedding: [Math_random n] is what
    its call number [n] returns.  The program compares the Euclidean
    distances [Math.sqrt(...)]; the embedding compares their squares, which
    are rationals and are ordered as the distances are.  The embedding is of
    calls with [k >= 1]: the seeding then returns [k] centroids (lemma
    [initializeCentroidsKMeansPP_length]), every cluster index is below [k],
    and [centroids.splice(0, k, ...newCentroids)] replaces all the
    centroids. *)
Module KMeans.
Import JS.

(** A pixel or a centroid, [[r, g, b]]. *)
Definition Point : Type := Q * Q * Q.

(** The square of [euclideanDistance(v1, v2)]. *)
Definition dist2 (v1 v2 : Point) : Q :=
  let '(r1, g1, b1) := v1 in
  let '(r2, g2, b2) := v2 in
  ((r1 - r2) * (r1 - r2) + (g1 - g2) * (g1 - g2) + (b1 - b2) * (b1 - b2))%Q.

(** [pixels]: one point for every four bytes of [data].  The data of a
    canvas has four bytes for every pixel, so that the three samples of a
    point exist. *)
Definition pixelsOf (d : list Z) : list Point :=
  map (fun i => (inject_Z (sample d i), inject_Z (sample d (i + 1)),
                 inject_Z (sample d (i + 2))))
      (loop_values 0 (len d) 4).

(** [centroids[j]]; [centroids] has [k] entries. *)
Definition centroid (centroids : list Point) (j : nat) : Point :=
  default (0, 0, 0)%Q (centroids !! j).

(** The loop over the centroids that finds the nearest one: the state is
    [minDist] ([None] for [Infinity]) and [closestCluster]. *)
Definition closest (centroids : list Point) (k : nat) (pixel : Point) : nat :=
  snd (fold_left
         (fun '(minDist, closestCluster) j =>
            let dist := dist2 pixel (centroid centroids j) in
            match minDist with
            | Some m => if Qlt_le_dec dist m then (Some dist, j)
                        else (minDist, closestCluster)
            | None => (Some dist, j)
            end)
         (seq 0 k) (None, 0%nat)).

(** The first loop of an iteration: [clusters]. *)
Definition assign (pixels centroids : list Point) (k : nat) : list nat :=
  map (closest centroids k) pixels.

Definition padd (a b : Point) : Point :=
  let '(r1, g1, b1) := a in
  let '(r2, g2, b2) := b in
  (r1 + r2, g1 + g2, b1 + b2)%Q.

Definition pdiv (a : Point) (n : Z) : Point :=
  let '(r, g, b) := a in
  (r / inject_Z n, g / inject_Z n, b / inject_Z n)%Q.

(** The second loop: the sums and the counts of the clusters. *)
Definition accumulate (pixels : list Point) (clusters : list nat) (k : nat)
    : list Point * list Z :=
  fold_left
    (fun '(newCentroids, counts) '(pixel, cluster) =>
       (alter (fun s => padd s pixel) cluster newCentroids,
        alter (fun n => n + 1) cluster counts))
    (zip pixels clusters)
    (replicate k (0, 0, 0)%Q, replicate k 0).

(** The third loop: the averages; an empty cluster keeps [[0, 0, 0]]. *)
Definition newCentroids (pixels : list Point) (clusters : list nat) (k : nat)
    : list Point :=
  let '(sums, counts) := accumulate pixels clusters k in
  zip_with (fun s n => if 0 <? n then pdiv s n else s) sums counts.

(** [euclideanDistance(a, b) > threshold] *)
Definition further (a b : Point) (threshold : Q) : bool :=
  if Qlt_le_dec threshold 0 then true
  else negb (Qle_bool (dist2 a b) (threshold * threshold)).

(** The loop that checks for convergence, left by [break]. *)
Definition converged (centroids new : list Point) (k : nat) (threshold : Q)
    : bool :=
  negb (existsb (fun i => further (centroid centroids i) (centroid new i) threshold)
                (seq 0 k)).

(** [while (!converged && iterations < maxIterations)], by the number of
    iterations that are left: the final [clusters] and [centroids].  The
    centroids are replaced by the new ones at the end of every iteration,
    also of the one that finds them converged. *)
Fixpoint mainLoop (remaining : nat) (pixels : list Point) (k : nat) (threshold : Q)
    (centroids : list Point) (clusters : list nat) : list nat * list Point :=
  match remaining with
  | O => (clusters, centroids)
  | S remaining =>
      let clusters := assign pixels centroids k in
      let new := newCentroids pixels clusters k in
      if converged centroids new k threshold then (clusters, new)
      else mainLoop remaining pixels k threshold new clusters
  end.

(** The iterations the loop goes through: the centroids at the start of
    each and the clusters it assigns. *)
Fixpoint iterations (remaining : nat) (pixels : list Point) (k : nat) (threshold : Q)
    (centroids : list Point) : list (list Point * list nat) :=
  match remaining with
  | O => []
  | S remaining =>
      let clusters := assign pixels centroids k in
      let new := newCentroids pixels clusters k in
      (centroids, clusters)
      :: (if converged centroids new k threshold then []
          else iterations remaining pixels k threshold new)
  end.

(** *** k-means++ seeding *)

(** [while (threshold > 0 && j < distances.length)] *)
Fixpoint pick (threshold : Q) (distances : list Q) (j : nat) : nat :=
  match distances with
  | [] => j
  | d :: rest =>
      if Qlt_le_dec 0 threshold then pick (threshold - d) rest (S j) else j
  end.

(** The square of the distance to the nearest centroid. *)
Definition nearest2 (centroids : list Point) (pixel : Point) : Q :=
  match map (dist2 pixel) centroids with
  | [] => 0%Q
  | d :: ds => fold_left Qmin ds d
  end.

Section Seeding.
Variable Math_random : nat -> Q.

(** [None] when [pixels[firstIndex]] is [undefined]. *)
Definition initializeCentroidsKMeansPP (pixels : list Point) (k : nat)
    : option (list Point) :=
  let firstIndex := Qfloor (Math_random 0%nat * inject_Z (len pixels)) in
  first ← get pixels firstIndex;
  fold_left
    (fun centroids i =>
       centroids ← centroids;
       let distances := map (nearest2 centroids) pixels in
       let sum := fold_left Qplus distances 0%Q in
       let threshold := (Math_random i * sum)%Q in
       let j := pick threshold distances 0%nat in
       next ← pixels !! (Nat.max 0 (j - 1));
       Some (centroids ++ [next]))
    (seq 1 (k - 1)) (Some [first]).

(** The image the canvas holds afterwards. *)
Definition kMeansImageSegmentation (canvas : ImageData) (k : nat)
    (maxIterations : nat) (threshold : Q) : option ImageData :=
  let d := data canvas in
  let pixels := pixelsOf d in
  centroids ← initializeCentroidsKMeansPP pixels k;
  let clusters := replicate (length pixels) 0%nat in
  let '(clusters, centroids) :=
    mainLoop maxIterations pixels k threshold centroids clusters in
  let segmentedData :=
    for_ (range 0 (len pixels))
      (fun i segmentedData =>
         let cluster := default 0%nat (clusters !! Z.to_nat i) in
         let '(r, g, b) := centroid centroids cluster in
         let offset := i * 4 in
         set4 segmentedData offset
              (Some (inject_Z (Math_round r))) (Some (inject_Z (Math_round g)))
              (Some (inject_Z (Math_round b))) (num (get d (offset + 3))))
      (new_array (len d)) in
  Some (mkImage segmentedData (width canvas) (height canvas)).

(** The iterations of the main loop of a call. *)
Definition runIterations (canvas : ImageData) (k : nat) (maxIterations : nat)
    (threshold : Q) : option (list (list Point * list nat)) :=
  let pixels := pixelsOf (data canvas) in
  centroids ← initializeCentroidsKMeansPP pixels k;
  Some (iterations maxIterations pixels k threshold centroids).

End Seeding.

End KMeans.

(** ** Well-formed pixel buffers *)

Definition byte (v : Z) : Prop := 0 <= v <= 255.

(** An RGBA buffer: positive dimensions, four bytes per pixel. *)
Definition rgba_buffer (img : ImageData) : Prop :=
  0 < width img /\ 0 < height img /\
  JS.len (data img) = 4 * (width img * height img) /\
  Forall byte (data img).

(** A single channel buffer. *)
Definition gray_buffer (img : ImageData) : Prop :=
  0 < width img /\ 0 < height img /\
  JS.len (data img) = width img * height img /\
  Forall byte (data img).

(** The luminance of three bytes, as a rational. *)
Definition lum (r g b : Z) : Q :=
  ((299 # 1000) * inject_Z r + (587 # 1000) * inject_Z g
   + (114 # 1000) * inject_Z b)%Q.


(** The pixel at column [x] of row [y] of an RGBA buffer. *)
Definition pixel_at (img : ImageData) (x y : Z) : option (Z * Z * Z * Z) :=
  let o := (y * width img + x) * 4 in
  r ← JS.get (data img) o;
  g ← JS.get (data img) (o + 1);
  b ← JS.get (data img) (o + 2);
  a ← JS.get (data img) (o + 3);
  Some (r, g, b, a).

(** Some pixel of the border-clamped neighbourhood of radius [radius] around
    [(x, y)] has a positive luminance. *)
Definition bright_neighbour (img : ImageData) (radius x y : Z) : Prop :=
  exists kx ky r g b a,
    - radius <= kx <= radius /\ - radius <= ky <= radius /\
    pixel_at img (JS.clamp_index (x + kx) (width img))
                 (JS.clamp_index (y + ky) (height img)) = Some (r, g, b, a) /\
    (0 < lum r g b)%Q.

(** The sum of a list of rationals. *)
Definition Qsum (l : list Q) : Q := fold_right Qplus 0%Q l.

(** The sum a loop accumulates: [sum += term(k)] for [k] in [vals]. *)
Definition sum_over (vals : list Z) (term : Z -> Q) : Q :=
  fold_left (fun s k => (s + term k)%Q) vals 0%Q.

(** [Math.max(1, Math.round(sigma * 3))], the radius the specification
    gives. *)
Definition rounded_radius (sigma : Q) : Z := Z.max 1 (JS.Math_round (sigma * 3)).


(** The byte a [Uint8ClampedArray] keeps for the number [q]. *)
Definition to_byte (q : Q) : Z := JS.to_uint8_clamped (Some q).

(** The weighted sums of the two passes of the blur at [(x, y)]: the
    neighbours are sampled at coordinates clamped to the image. *)
Definition blur_h (kernel : list Q) (hs : Z) (d : list Z) (w x y : Z) : Q :=
  sum_over (JS.range (- hs) (hs + 1))
    (fun k => inject_Z (sample d (y * w + JS.clamp_index (x + k) w))
              * coeff kernel (k + hs))%Q.

Definition blur_v (kernel : list Q) (hs : Z) (t : list Z) (w h x y : Z) : Q :=
  sum_over (JS.range (- hs) (hs + 1))
    (fun k => inject_Z (sample t (JS.clamp_index (y + k) h * w + x))
              * coeff kernel (k + hs))%Q.

(** The largest value of a list of bytes. *)
Definition maximum (l : list Z) : Z := fold_right Z.max 0 l.

(** Every pixel of the buffer has the colour [(r, g, b)]. *)
Definition constant_colour (img : ImageData) (r g b : Z) : Prop :=
  forall j, 0 <= j < width img * height img ->
    JS.get (data img) (4 * j) = Some r /\
    JS.get (data img) (4 * j + 1) = Some g /\
    JS.get (data img) (4 * j + 2) = Some b.


(** *** The border policy the specification gives for the wall extractor *)

(** The sample at the column and row nearest to [(x, y)] in the image. *)
Definition clamped_sample (img : ImageData) (x y : Z) : option Z :=
  JS.get (data img)
         ((JS.clamp_index y (height img) * width img
           + JS.clamp_index x (width img)) * 4).

(** The tests of a tile with the samples above and left of it taken at
    clamped coordinates. *)
Definition brightH_clamped (img : ImageData) (threshold x y i : Z) : bool :=
  Walls.reaches (clamped_sample img (x + i) y) threshold
  || Walls.reaches (clamped_sample img (x + i) (y - 1)) threshold.

Definition brightV_clamped (img : ImageData) (threshold x y i : Z) : bool :=
  Walls.reaches (clamped_sample img x (y + i)) threshold
  || Walls.reaches (clamped_sample img (x - 1) (y + i)) threshold.

Definition tileRuns_clamped (img : ImageData) (threshold grid x y : Z)
    : Walls.Runs :=
  JS.for_ (JS.range 0 grid)
    (fun i '(mhorizontal, mvertical, horizontal, vertical) =>
       let '(mhorizontal, horizontal) :=
         if brightH_clamped img threshold x y i
         then (Z.max mhorizontal (horizontal + 1), horizontal + 1)
         else (mhorizontal, 0) in
       let '(mvertical, vertical) :=
         if brightV_clamped img threshold x y i
         then (Z.max mvertical (vertical + 1), vertical + 1)
         else (mvertical, 0) in
       (mhorizontal, mvertical, horizontal, vertical))
    (0, 0, 0, 0).

(** The extractor as the specification describes its border policy. *)
Definition identifyWalls_clamped (canvas : ImageData) (grid threshold : Z)
    : list Walls.Segment :=
  JS.for_ (JS.loop_values 0 (height canvas) grid)
    (fun y walls =>
       JS.for_ (JS.loop_values 0 (width canvas) grid)
         (fun x walls =>
            let '(mhorizontal, mvertical, _, _) :=
              tileRuns_clamped canvas threshold grid x y in
            let walls :=
              if grid <? 2 * mhorizontal
              then walls ++ [(x, y, x + grid, y)] else walls in
            if grid <? 2 * mvertical
            then walls ++ [(x, y, x, y + grid)] else walls)
         walls)
    [].

(** *** Segments that share an endpoint, and their bounding boxes *)

(** The rounded endpoints of a wall. *)
Definition rounded_endpoints (w : Scene.Wall) : (Z * Z) * (Z * Z) :=
  let '(x1, y1, x2, y2) := Scene.c w in
  ((JS.Math_round x1, JS.Math_round y1), (JS.Math_round x2, JS.Math_round y2)).

(** Two walls share a rounded endpoint. *)
Definition share_endpoint (w1 w2 : Scene.Wall) : Prop :=
  let '(p1, q1) := rounded_endpoints w1 in
  let '(p2, q2) := rounded_endpoints w2 in
  p1 = p2 \/ p1 = q2 \/ q1 = p2 \/ q1 = q2.

(** The segment from the least to the greatest x and y of a segment, and of
    two segments. *)
Definition box (c : Scene.Coords) : Scene.Coords :=
  let '(x1, y1, x2, y2) := c in
  (Qmin x1 x2, Qmin y1 y2, Qmax x1 x2, Qmax y1 y2).

Definition box2 (c1 c2 : Scene.Coords) : Scene.Coords :=
  let '(x1, y1, x2, y2) := c1 in
  let '(x3, y3, x4, y4) := c2 in
  (Qmin (Qmin x1 x2) (Qmin x3 x4), Qmin (Qmin y1 y2) (Qmin y3 y4),
   Qmax (Qmax x1 x2) (Qmax x3 x4), Qmax (Qmax y1 y2) (Qmax y3 y4)).

(** Two segments with the same coordinates, as numbers. *)
Definition same_coords (c1 c2 : Scene.Coords) : Prop :=
  let '(x1, y1, x2, y2) := c1 in
  let '(x3, y3, x4, y4) := c2 in
  (x1 == x3 /\ y1 == y3 /\ x2 == x4 /\ y2 == y4)%Q.

(** The constants of the host. *)
Definition foundry : Scene.Constants := Scene.mkConstants 0 0 20 20.

(** A plain wall with the coordinates [c]. *)
Definition plain_wall (CONST : Scene.Constants) (id : string) (c : Scene.Coords)
    : Scene.Wall :=
  Scene.mkWall id c
    (Scene.WALL_DOOR_TYPES_NONE CONST) (Scene.WALL_DIRECTIONS_BOTH CONST)
    (Scene.WALL_SENSE_TYPES_NORMAL CONST) (Scene.WALL_SENSE_TYPES_NORMAL CONST)
    (Scene.WALL_SENSE_TYPES_NORMAL CONST) (Scene.WALL_MOVEMENT_TYPES_NORMAL CONST)
    false None None None.

(** *** The cost of a clustering *)

(** The sum over the pixels of the squared distance from each pixel to the
    centroid of its cluster. *)
Definition squared_cost (pixels : list KMeans.Point) (centroids : list KMeans.Point)
    (clusters : list nat) : Q :=
  Qsum (zip_with (fun p cl => KMeans.dist2 p (KMeans.centroid centroids cl))
                 pixels clusters).

(** The cost never increases along the iterations [its] of the main loop:
    neither when the centroids move to the means of their clusters, nor when
    the pixels are assigned anew in the next iteration. *)
Definition cost_never_increases (pixels : list KMeans.Point)
    (its : list (list KMeans.Point * list nat)) : Prop :=
  forall t c1 cl1 c2 cl2,
    its !! t = Some (c1, cl1) -> its !! S t = Some (c2, cl2) ->
    (squared_cost pixels c2 cl2 <= squared_cost pixels c2 cl1)%Q /\
    (squared_cost pixels c2 cl1 <= squared_cost pixels c1 cl1)%Q /\
    (squared_cost pixels c2 cl2 <= squared_cost pixels c1 cl1)%Q.

(** [euclideanDistance(v1, v2)], a real number. *)
Definition euclideanDistance (v1 v2 : KMeans.Point) : R :=
  sqrt (Q2R (KMeans.dist2 v1 v2)).

(** The sum over the pixels of the distance from each pixel to the centroid
    of its cluster. *)
Definition total_distance (pixels : list KMeans.Point)
    (centroids : list KMeans.Point) (clusters : list nat) : R :=
  fold_right Rplus 0%R
    (zip_with (fun p cl => euclideanDistance p (KMeans.centroid centroids cl))
              pixels clusters).

(** Five pixels with the red values 0, 5, 5, 9 and 12, and a source of
    random numbers that makes k-means++ pick the last and then the fourth
    pixel. *)
Definition five_pixels : ImageData :=
  mkImage [0; 0; 0; 255; 5; 0; 0; 255; 5; 0; 0; 255; 9; 0; 0; 255;
           12; 0; 0; 255] 5 1.

Definition two_draws (n : nat) : Q :=
  match n with O => 9 # 10 | _ => 98 # 100 end.


(** * The bodies of the loops, and what they leave behind

    The definitions below name parts of the functions above, for the
    statements of the lemmas about them. *)

(** The pixels of a rectangle. *)
Definition in_rect (xlo xhi ylo yhi x y : Z) : bool :=
  (xlo <=? x) && (x <? xhi) && (ylo <=? y) && (y <? yhi).

(** The channel [c] of a pixel. *)
Definition channel (c : Z) (r g b al : Z) : Z :=
  if c =? 0 then r else if c =? 1 then g else if c =? 2 then b else al.

(** The body of the two pixel loops of [applyBrightenFilter]. *)
Definition brightenBody (d : list Z) (w h hk x y : Z) (a : list Z) : list Z :=
  if Ops.brightenAt d w h hk x y
  then JS.set4 a ((y * w + x) * 4)
         (Some 255%Q) (Some 255%Q) (Some 255%Q) (Some 255%Q)
  else JS.set4 a ((y * w + x) * 4) (Some 0%Q) (Some 0%Q) (Some 0%Q) (Some 0%Q).

(** The body of the two pixel loops of [applyMedianFilter] with a kernel of
    one pixel: the median pixel is the pixel itself. *)
Definition copyBody (d : list Z) (w h x y : Z) (a : list Z) : list Z :=
  let o := (JS.clamp_index (y + 0) h * w + JS.clamp_index (x + 0) w) * 4 in
  JS.set4 a ((y * w + x) * 4) (JS.num (JS.get d o)) (JS.num (JS.get d (o + 1)))
    (JS.num (JS.get d (o + 2))) (JS.num (JS.get d (o + 3))).

(** The body of the repainting loop of [separateInside]. *)
Definition paintBody (outside : gset Inside.Color) (i : Z) (d : list Z) : list Z :=
  if bool_decide (Inside.colorAt d i ∈ outside)
  then JS.write4 d i 0 0 0 255
  else JS.write4 d i 255 255 255 255.

(** What that loop leaves in cell [j]: the pixel is painted from the colour
    it had before the loop. *)
Definition painted (outside : gset Inside.Color) (d0 : list Z) (j : Z) : Z :=
  let v :=
    if bool_decide (Inside.colorAt d0 (4 * (j / 4)) ∈ outside) then 0 else 255 in
  channel (j mod 4) v v v 255.

(** The weight at index [i] of the Gaussian kernel, before it is
    normalised. *)
Definition weight (Math_exp : Q -> Q) (sigma : Q) (i : Z) : Q :=
  let x := inject_Z (i - Ops.halfSize sigma) in
  Math_exp (- (x * x) / (2 * sigma * sigma))%Q.

(** A rational function that is positive everywhere, in the place of
    [Math.exp]. *)
Definition exp_like (q : Q) : Q := (1 / (1 + q * q))%Q.

(** An array of zeros. *)
Definition zeros (l : list Z) : Prop := Forall (fun v => v = 0) l.

(** The body of the loop of [identifyWalls] over the samples of a tile. *)
Definition runStep (bh bv : Z -> bool) (i : Z) (st : Walls.Runs) : Walls.Runs :=
  let '(mhorizontal, mvertical, horizontal, vertical) := st in
  let '(mhorizontal, horizontal) :=
    if bh i then (Z.max mhorizontal (horizontal + 1), horizontal + 1)
    else (mhorizontal, 0) in
  let '(mvertical, vertical) :=
    if bv i then (Z.max mvertical (vertical + 1), vertical + 1)
    else (mvertical, 0) in
  (mhorizontal, mvertical, horizontal, vertical).

(** The pixels that a trace of the hysteresis has not visited yet. *)
Definition unvisited (visited : list Z) : nat :=
  length (filter (fun v => v = 0) visited).

(** What a round of a trace keeps: the size of [visited], and the number [m]
    of the pixels that are on the stack or not visited. *)
Definition measured (N : nat) (m : nat) (st : Canny.Tracing) : Prop :=
  let '(edges, visited, stack) := st in
  length visited = N /\ (length stack + unvisited visited = m)%nat.

(** The entries of [wallMap] whose key the traversal of the wall merger has
    not visited yet. *)
Definition pending (wallMap : Scene.WallMap) (visitedK : list Scene.Key) : nat :=
  length (filter (fun e => e.1 ∉ visitedK) wallMap).

(** What the first loop of the wall merger keeps, over the walls it has gone
    through: the sets of [wallMap] hold these walls, the keys that
    [wallIdToAB] gives are keys of [wallMap], and [wallIdToAB] has the id of
    each of these walls. *)
Definition kept (processed : list (nat * Scene.Wall))
    (st : Scene.WallMap * gmap string (Scene.Key * Scene.Key)) : Prop :=
  let '(wallMap, wallIdToAB) := st in
  (forall k v n, (k, v) ∈ wallMap -> n ∈ v -> exists w, (n, w) ∈ processed) /\
  (forall i a b, wallIdToAB !! i = Some (a, b) ->
     is_Some (Scene.mapGet a wallMap) /\ is_Some (Scene.mapGet b wallMap)) /\
  (forall n w, (n, w) ∈ processed -> is_Some (wallIdToAB !! Scene.id w)).

(** The pixels of cluster [j], and the sum of a list of pixels. *)
Definition members (j : nat) (zs : list (KMeans.Point * nat)) : list KMeans.Point :=
  (filter (fun z => z.2 = j) zs).*1.

Definition psum (ps : list KMeans.Point) (s0 : KMeans.Point) : KMeans.Point :=
  fold_left KMeans.padd ps s0.

(** The channels of a pixel. *)
Definition red (p : KMeans.Point) : Q := p.1.1.
Definition green (p : KMeans.Point) : Q := p.1.2.
Definition blue (p : KMeans.Point) : Q := p.2.

(** The pixels differ from the centroids of their clusters in the red
    channel only. *)
Definition on_axis (pixels centroids : list KMeans.Point) (clusters : list nat)
    : bool :=
  forallb (fun '(p, cl) =>
             Qeq_bool (green p) (green (KMeans.centroid centroids cl))
             && Qeq_bool (blue p) (blue (KMeans.centroid centroids cl)))
          (zip pixels clusters).

(** * The traversal of the wall merger over names of keys

    [combineSceneWalls] compares keys and does nothing else with them.
    [Names] is its traversal over any type of names [K] with a comparison
    [eqb], the keys [a] and [b] of the wall at a position given by [ab]; the
    traversal of [Scene] over keys runs like the one over names for them
    (lemma [wallSets_names]). *)

Module Names.

Section Traversal.
Context {K : Type}.
Variable eqb : K -> K -> bool.
Variable ab : nat -> option (K * K).

Definition has (k : K) (l : list K) : bool := existsb (eqb k) l.

Fixpoint mapAdd (k : K) (w : nat) (m : list (K * list nat))
    : list (K * list nat) :=
  match m with
  | [] => [(k, [w])]
  | (k', s) :: m' =>
      if eqb k k' then (k', Scene.setAdd w s) :: m'
      else (k', s) :: mapAdd k w m'
  end.

Fixpoint mapGet (k : K) (m : list (K * list nat)) : option (list nat) :=
  match m with
  | [] => None
  | (k', s) :: m' => if eqb k k' then Some s else mapGet k m'
  end.

Fixpoint visit (wallMap : list (K * list nat)) (fuel : nat) (n : nat)
    (st : list K * list nat) : option (list K * list nat) :=
  match fuel with
  | O => None
  | S fuel =>
      let '(visitedK, set) := st in
      let set := Scene.setAdd n set in
      '(a, b) ← ab n;
      st ← (if has a visitedK then Some (visitedK, set)
            else
              ws ← mapGet a wallMap;
              fold_left (fun st n' => st ≫= visit wallMap fuel n')
                ws (Some (visitedK ++ [a], set)));
      let '(visitedK, set) := st in
      if has b visitedK then Some (visitedK, set)
      else
        ws ← mapGet b wallMap;
        fold_left (fun st n' => st ≫= visit wallMap fuel n')
          ws (Some (visitedK ++ [b], set))
  end.

Definition entries (wallMap : list (K * list nat)) (fuel : nat)
    (l : list (K * list nat)) (r : option (list K * list (list nat)))
    : option (list K * list (list nat)) :=
  fold_left
    (fun r '(k, v) =>
       '(visitedK, sets) ← r;
       if has k visitedK then Some (visitedK, sets)
       else
         '(visitedK, set) ←
           fold_left (fun st n => st ≫= visit wallMap fuel n)
             v (Some (visitedK, []));
         Some (visitedK, sets ++ [set]))
    l r.

Definition wallSets (wallMap : list (K * list nat))
    : option (list (list nat)) :=
  r ← entries wallMap (S (length wallMap)) wallMap (Some ([], []));
  Some r.2.

End Traversal.

(** The names of the keys of two walls, and their comparison from the
    comparisons of the keys. *)
Inductive Name := A1 | B1 | A2 | B2.

Definition compare (a1b1 a1a2 a1b2 b1a2 b1b2 a2b2 : bool) (x y : Name) : bool :=
  match x, y with
  | A1, A1 | B1, B1 | A2, A2 | B2, B2 => true
  | A1, B1 | B1, A1 => a1b1
  | A1, A2 | A2, A1 => a1a2
  | A1, B2 | B2, A1 => a1b2
  | B1, A2 | A2, B1 => b1a2
  | B1, B2 | B2, B1 => b1b2
  | A2, B2 | B2, A2 => a2b2
  end.

Definition two (n : nat) : option (Name * Name) :=
  match n with
  | O => Some (A1, B1)
  | S O => Some (A2, B2)
  | _ => None
  end.

(** The keys that the names of a map, of a state of the traversal and of
    its result stand for. *)
Definition keyed {K} (f : K -> Scene.Key) (m : list (K * list nat))
    : Scene.WallMap :=
  prod_map f Datatypes.id <$> m.

Definition state {K} (f : K -> Scene.Key) (st : list K * list nat)
    : Scene.Visit :=
  (f <$> st.1, st.2).

Definition result {K} (f : K -> Scene.Key) (r : list K * list (list nat))
    : list Scene.Key * list (list nat) :=
  (f <$> r.1, r.2).

Definition key (a1 b1 a2 b2 : Scene.Key) (x : Name) : Scene.Key :=
  match x with A1 => a1 | B1 => b1 | A2 => a2 | B2 => b2 end.

Definition compared (a1 b1 a2 b2 : Scene.Key) : Name -> Name -> bool :=
  compare (bool_decide (a1 = b1)) (bool_decide (a1 = a2))
    (bool_decide (a1 = b2)) (bool_decide (b1 = a2)) (bool_decide (b1 = b2))
    (bool_decide (a2 = b2)).

(** [wallMap] after the first loop over two walls. *)
Definition twoMap (eqb : Name -> Name -> bool) : list (Name * list nat) :=
  mapAdd eqb B2 1%nat (mapAdd eqb A2 1%nat (mapAdd eqb B1 0%nat
    (mapAdd eqb A1 0%nat []))).

End Names.


(** * Further definitions *)

(** The segments that [identifyWalls] pushes for the tile at [(x, y)]. *)
Definition tileWalls (d : list Z) (width threshold grid x y : Z)
    : list Walls.Segment :=
  let '(mhorizontal, mvertical, _, _) :=
    Walls.tileRuns d width threshold grid x y in
  (if grid <? 2 * mhorizontal then [(x, y, x + grid, y)] else [])
  ++ (if grid <? 2 * mvertical then [(x, y, x, y + grid)] else []).

(** The samples [i] with [s <= i < s + L] all pass the test [b]. *)
Definition run (b : Z -> bool) (s L : Z) : Prop :=
  forall i, s <= i < s + L -> b i = true.

(** What [applyNonMaximumSuppression] stores for the pixel at [(x, y)]. *)
Definition suppressedAt (magnitudeData directionData : list Z)
    (width height x y : Z) : Z :=
  let idx := y * width + x in
  let magnitude := JS.get magnitudeData idx in
  if Canny.lt_num magnitude 10 then 0
  else
    let '((neighbor1X, neighbor1Y), (neighbor2X, neighbor2Y)) :=
      Canny.neighbours (JS.get directionData idx) x y in
    let neighbor1X := Z.max 0 (Z.min (width - 1) neighbor1X) in
    let neighbor1Y := Z.max 0 (Z.min (height - 1) neighbor1Y) in
    let neighbor2X := Z.max 0 (Z.min (width - 1) neighbor2X) in
    let neighbor2Y := Z.max 0 (Z.min (height - 1) neighbor2Y) in
    if (Canny.ge_num magnitude (JS.get magnitudeData (neighbor1Y * width + neighbor1X))
        && Canny.ge_num magnitude
             (JS.get magnitudeData (neighbor2Y * width + neighbor2X)))%bool
    then JS.to_uint8_clamped (JS.num magnitude)
    else 0.

(** A pixel in the interior of an image. *)
Definition interior (width height x y : Z) : Prop :=
  1 <= x < width - 1 /\ 1 <= y < height - 1.

(** The pixels [j] and [j'] of an image of width [w] touch, by a side or by
    a corner. *)
Definition touching (w : Z) (j j' : Z) : Prop :=
  exists x y ex ey,
    0 <= x < w /\ 0 <= x + ex < w /\
    -1 <= ex <= 1 /\ -1 <= ey <= 1 /\ (ex <> 0 \/ ey <> 0) /\
    j = y * w + x /\ j' = (y + ey) * w + (x + ex).

(** A pixel is linked to a strong pixel: it reaches the high threshold, or
    it reaches the low threshold and touches a pixel that is linked to a
    strong pixel. *)
Inductive linked (d : list Z) (w : Z) (low high : Q) : Z -> Prop :=
| linked_strong j :
    Canny.reaches (JS.get d j) high = true -> linked d w low high j
| linked_weak j j' :
    Canny.reaches (JS.get d j) low = true -> touching w j j' ->
    linked d w low high j' -> linked d w low high j.

(** What the hysteresis keeps, for the suppressed magnitudes [d] of an image
    of [w] by [h] pixels: the edge map and the visited map have the size of
    the image; an entry of the edge map is 0 or 255; an edge pixel is linked
    to a strong pixel; the pixels that reach the high threshold are edge
    pixels; and the edge pixels are the visited pixels. *)
Definition traced (d : list Z) (w h : Z) (low high : Q)
    (edges visited : list Z) : Prop :=
  length edges = Z.to_nat (w * h) /\ length visited = Z.to_nat (w * h) /\
  (forall j v, JS.get edges j = Some v -> v = 0 \/ v = 255) /\
  (forall j, JS.get edges j = Some 255 -> linked d w low high j) /\
  (forall j, 0 <= j < w * h -> Canny.reaches (JS.get d j) high = true ->
     JS.get edges j = Some 255) /\
  (forall j, 0 <= j < w * h -> Canny.falsy (JS.get visited j) = false ->
     JS.get edges j = Some 255) /\
  (forall j, JS.get edges j = Some 255 -> JS.get visited j = Some 1).

(** The pixels on the stack of a trace are edge pixels of the image. *)
Definition stacked (w h : Z) (edges : list Z) (stack : list (Z * Z)) : Prop :=
  Forall (fun '(x, y) =>
            0 <= x < w /\ 0 <= y < h /\ JS.get edges (y * w + x) = Some 255)
         stack.

(** The pixels that touch the pixel [j] and reach the low threshold are edge
    pixels. *)
Definition closedAt (d : list Z) (w h : Z) (low : Q) (edges : list Z) (j : Z)
    : Prop :=
  forall j', touching w j j' -> 0 <= j' < w * h ->
    Canny.reaches (JS.get d j') low = true -> JS.get edges j' = Some 255.

(** The edge pixels that a trace has not gone through are on its stack, or
    come at the index [cur] or later in the image. *)
Definition pendingAt (d : list Z) (w h : Z) (low : Q) (cur : Z)
    (edges : list Z) (stack : list (Z * Z)) : Prop :=
  forall j, JS.get edges j = Some 255 ->
    closedAt d w h low edges j \/
    (exists x y, (x, y) ∈ stack /\ j = y * w + x) \/ cur <= j.

(** A small image with a dark column at the left. *)
Definition dark_left : ImageData :=
  mkImage [0; 0; 0; 255; 255; 255; 255; 255; 255; 255; 255; 255;
           0; 0; 0; 255; 255; 255; 255; 255; 255; 255; 255; 255;
           0; 0; 0; 255; 255; 255; 255; 255; 255; 255; 255; 255] 3 3.


(** ** The grayscale filter (canny.mjs) *)

(** [applyGrayscale]: the image the canvas holds afterwards. *)
Definition applyGrayscale (canvas : ImageData) : ImageData :=
  let w := width canvas in
  let h := height canvas in
  let grayscaleResult := Ops.convertToGrayscale canvas in
  let outputData :=
    JS.for_ (JS.range 0 (JS.len (data grayscaleResult)))
      (fun i outputData =>
         let value := JS.num (JS.get (data grayscaleResult) i) in
         let offset := i * 4 in
         JS.set4 outputData offset value value value (Some 255%Q))
      (JS.new_array (w * h * 4)) in
  mkImage outputData w h.

(** The gray value of the pixel [q] of an RGBA buffer: its luminance,
    rounded. *)
Definition grayAt (img : ImageData) (q : Z) : Z :=
  JS.round_half_even
    (lum (sample (data img) (4 * q)) (sample (data img) (4 * q + 1))
         (sample (data img) (4 * q + 2))).

(** ** The median filter *)

(** The offsets [(kx, ky)] of a kernel of half width [r], in the order the
    two kernel loops go through them. *)
Definition window (r : Z) : list (Z * Z) :=
  flat_map (fun ky => map (fun kx => (kx, ky)) (JS.range (- r) (r + 1)))
           (JS.range (- r) (r + 1)).

(** The pixel at the offset [k] from [(x, y)], by clamped coordinates. *)
Definition neighbour (img : ImageData) (x y : Z) (k : Z * Z) : Z * Z :=
  (JS.clamp_index (x + k.1) (width img), JS.clamp_index (y + k.2) (height img)).

(** The luminance of the pixel at [(x, y)]. *)
Definition pixel_lum (img : ImageData) (x y : Z) : Q :=
  match pixel_at img x y with
  | Some (r, g, b, _) => lum r g b
  | None => 0%Q
  end.

(** The offsets of the kernel around [(x, y)] at which the pixel is darker,
    and brighter, than the luminance [m]. *)
Definition darker (img : ImageData) (x y : Z) (m : Q) (r : Z) : list (Z * Z) :=
  List.filter
    (fun k => let '(cx, cy) := neighbour img x y k in
              negb (Qle_bool m (pixel_lum img cx cy)))
    (window r).

Definition brighter (img : ImageData) (x y : Z) (m : Q) (r : Z) : list (Z * Z) :=
  List.filter
    (fun k => let '(cx, cy) := neighbour img x y k in
              negb (Qle_bool (pixel_lum img cx cy) m))
    (window r).

(** The object that the kernel loops push for the offset [k]. *)
Definition pixelOf (d : list Z) (w h x y : Z) (k : Z * Z) : Ops.Pixel :=
  let pixelX := JS.clamp_index (x + k.1) w in
  let pixelY := JS.clamp_index (y + k.2) h in
  let idx := (pixelY * w + pixelX) * 4 in
  Ops.mkPixel (JS.get d idx) (JS.get d (idx + 1)) (JS.get d (idx + 2))
              (JS.get d (idx + 3))
              (Ops.luminance (JS.get d idx) (JS.get d (idx + 1))
                             (JS.get d (idx + 2)))
              idx.

(** [pixels[Math.floor(pixels.length / 2)]] of the sorted pixels. *)
Definition medianPixel (d : list Z) (w h hk x y : Z) : option Ops.Pixel :=
  let pixels := Ops.sort (Ops.gather d w h hk x y) in
  pixels !! (length pixels / 2)%nat.

(** The body of the two pixel loops of [applyMedianFilter], where the kernel
    is not empty. *)
Definition medianBody (d : list Z) (w h hk x y : Z) (a : list Z) : list Z :=
  let m := default (Ops.mkPixel None None None None None 0)
                   (medianPixel d w h hk x y) in
  JS.set4 a ((y * w + x) * 4)
          (JS.num (Ops.px_r m)) (JS.num (Ops.px_g m))
          (JS.num (Ops.px_b m)) (JS.num (Ops.px_a m)).

(** The luminance a pixel object was given, 0 for [NaN]. *)
Definition lumOf (p : Ops.Pixel) : Q := default 0%Q (Ops.px_luminance p).

(** The pixel objects of an RGBA buffer have a luminance. *)
Definition has_lum (p : Ops.Pixel) : Prop := is_Some (Ops.px_luminance p).

Definition le_lum (a b : Ops.Pixel) : Prop := (lumOf a <= lumOf b)%Q.

(** A list of pixel objects in the order of their luminances. *)
Fixpoint ascending (l : list Ops.Pixel) : Prop :=
  match l with
  | [] => True
  | a :: rest => Forall (le_lum a) rest /\ ascending rest
  end.

(** A column of three pixels. *)
Definition column3 : ImageData :=
  mkImage [10; 20; 30; 255; 0; 0; 9; 7; 200; 200; 200; 255] 1 3.

(** ** k-means segmentation *)

(** The bytes that the segmented image keeps for a centroid:
    [centroids[cluster].map(Math.round)], stored in a clamped array. *)
Definition paletteColour (c : KMeans.Point) : Z * Z * Z :=
  let '(r, g, b) := c in
  (JS.to_uint8_clamped (Some (inject_Z (JS.Math_round r))),
   JS.to_uint8_clamped (Some (inject_Z (JS.Math_round g))),
   JS.to_uint8_clamped (Some (inject_Z (JS.Math_round b)))).

(** ** Inside and outside *)

(** The indices that the two border loops of [separateInside] read, in the
    order of the reads: the top and the bottom pixel of every column, then
    the left and the right pixel of every row but the first and the last. *)
Definition borderReads (w h : Z) : list Z :=
  flat_map (fun x => [(x + 0 * w) * 4; (x + (h - 1) * w) * 4]) (JS.range 0 w)
  ++ flat_map (fun y => [(0 + y * w) * 4; ((w - 1) + y * w) * 4])
              (JS.range 1 (h - 1)).

(** How many of the border reads find the colour [c]. *)
Definition borderCount (d : list Z) (w h : Z) (c : Inside.Color) : Z :=
  Z.of_nat
    (length (List.filter (fun i => bool_decide (Inside.colorAt d i = c))
                         (borderReads w h))).

(** The tally of a list of colours, from the tally [m]. *)
Definition tally (l : list Inside.Color) (m : gmap Inside.Color Z)
    : gmap Inside.Color Z :=
  fold_left (fun m c => Inside.countColor c m) l m.

(** How often the colour [c] is in the list [l]. *)
Definition occurrences (c : Inside.Color) (l : list Inside.Color) : Z :=
  Z.of_nat (length (List.filter (fun c' => bool_decide (c' = c)) l)).

(** ** Merging the walls of a scene *)

(** The wall [n] is in one of the sets. *)
Definition covered (sets : list (list nat)) (n : nat) : Prop :=
  exists s, s ∈ sets /\ n ∈ s.

(** The walls under the keys of [visitedK'] that are not in [visitedK] are
    in [set]. *)
Definition closedKeys (wallMap : Scene.WallMap) (visitedK visitedK' : list Scene.Key)
    (set : list nat) : Prop :=
  forall k v n, k ∈ visitedK' -> k ∉ visitedK ->
    Scene.mapGet k wallMap = Some v -> n ∈ v -> n ∈ set.

(** The walls under the visited keys are in the sets. *)
Definition coveredKeys (wallMap : Scene.WallMap) (visitedK : list Scene.Key)
    (sets : list (list nat)) : Prop :=
  forall k v n, k ∈ visitedK ->
    Scene.mapGet k wallMap = Some v -> n ∈ v -> covered sets n.

(** The segment with the coordinates [c] lies in the box [b]. *)
Definition within (c b : Scene.Coords) : Prop :=
  let '(x1, y1, x2, y2) := c in
  let '(bx1, by1, bx2, by2) := b in
  (bx1 <= x1 <= bx2 /\ bx1 <= x2 <= bx2 /\
   by1 <= y1 <= by2 /\ by1 <= y2 <= by2)%Q.

(** The walls that the first loop has gone through are in [wallMap]. *)
Definition indexed (processed : list (nat * Scene.Wall))
    (st : Scene.WallMap * gmap string (Scene.Key * Scene.Key)) : Prop :=
  forall n w, (n, w) ∈ processed ->
    exists k v, Scene.mapGet k st.1 = Some v /\ n ∈ v.

(** The walls of [set] have the direction bucket [d]. *)
Definition uniform (Math_atan2 : Q -> Q -> Q) (walls : list Scene.Wall) (d : Z)
    (set : list nat) : Prop :=
  forall n, n ∈ set ->
    exists w, walls !! n = Some w /\ Scene.bucket Math_atan2 w = d.

(** What the first loop of the wall merger keeps when no two walls have the
    same id: [wallIdToAB] gives the keys of each wall it has gone through,
    a set of [wallMap] is not empty, and it holds walls whose direction
    bucket is that of its key. *)
Definition grouped (Math_atan2 : Q -> Q -> Q)
    (processed : list (nat * Scene.Wall))
    (st : Scene.WallMap * gmap string (Scene.Key * Scene.Key)) : Prop :=
  (forall n w, (n, w) ∈ processed ->
     st.2 !! Scene.id w = Some (Scene.keys Math_atan2 w)) /\
  (forall k v, (k, v) ∈ st.1 -> v <> []) /\
  (forall k v n, (k, v) ∈ st.1 -> n ∈ v ->
     exists w, (n, w) ∈ processed /\ k.2 = Scene.bucket Math_atan2 w).

(** Two plain walls in a row. *)
Definition wall_row : list Scene.Wall :=
  [plain_wall foundry "a" (0, 0, 10, 0)%Q; plain_wall foundry "b" (10, 0, 20, 0)%Q].

(** ** The sizes that [sceneToWalls] infers from the scene (scene.mjs)

    The function at the head of [sceneToWalls] that computes, from the grid
    and the size of the scene and from the options, the resolution scale,
    the cell size and the sizes of the image and of the map.  An option that
    is not given, and a field of the grid that the scene does not have, is
    [None]. *)
Module SceneToWalls.

Record Inferred := mkInferred {
  width : option Z;
  height : option Z;
  cellSize : Z;
  imgWidth : Z;
  imgHeight : Z;
  resolutionScale : Z }.

(** [a || b] for numbers: [undefined] and 0 are falsy. *)
Definition or_else (a : option Q) (b : Q) : Q :=
  match a with
  | Some q => if Qeq_bool q 0 then b else q
  | None => b
  end.

(** [q % 1]: the remainder has the sign of [q]. *)
Definition rem1 (q : Q) : Q :=
  if Qle_bool 0 q then (q - inject_Z (Qfloor q))%Q
  else (q - inject_Z (Qceiling q))%Q.

(** [a > 1 / m], where [1 / 0] is [Infinity]. *)
Definition above_inverse (a m : Q) : bool :=
  if Qeq_bool m 0 then false else negb (Qle_bool a (1 / m)).

(** The test of the loop that looks for a resolution scale with which the
    cell size is an integer. *)
Definition fractional (grid w h subCellScale : Q) (resolutionScale : Z) : bool :=
  (1 <? resolutionScale)
  && above_inverse
       (rem1 (grid / (inject_Z resolutionScale * subCellScale)))
       (Qmax (w * subCellScale / grid) (h * subCellScale / grid)).

(** [while (...) resolutionScale -= 1], by the number of rounds that are
    left; the loop ends at 1 at the latest. *)
Fixpoint adjust (rounds : nat) (grid w h subCellScale : Q)
    (resolutionScale : Z) : Z :=
  match rounds with
  | O => resolutionScale
  | S rounds =>
      if fractional grid w h subCellScale resolutionScale
      then adjust rounds grid w h subCellScale (resolutionScale - 1)
      else resolutionScale
  end.

(** [Math.floor(a / b) * b] for integers [a] and [b]; [NaN] for [b = 0]. *)
Definition whole_cells (a b : Z) : option Z :=
  if b =? 0 then None
  else Some (Qfloor (inject_Z a / inject_Z b) * b).

Definition infer (grid_size grid_gridX : option Q) (scene_width scene_height : Q)
    (options_subCellScale options_resolutionScale : option Q) : Inferred :=
  let grid := or_else grid_size (or_else grid_gridX 100) in
  let w := scene_width in
  let h := scene_height in
  let subCellScale := Qmax (or_else options_subCellScale 1) 1 in
  let resolutionScale :=
    JS.Math_round
      (Qmax (match options_resolutionScale with
             | Some r => r
             | None => grid / (subCellScale * 7)
             end) 1) in
  let resolutionScale :=
    adjust (Z.to_nat resolutionScale) grid w h subCellScale resolutionScale in
  let cellSize := Qfloor (grid / (inject_Z resolutionScale * subCellScale)) in
  let imgWidth := Qfloor (w / inject_Z resolutionScale) in
  let imgHeight := Qfloor (h / inject_Z resolutionScale) in
  let mapWidth := whole_cells imgWidth cellSize in
  let mapHeight := whole_cells imgHeight cellSize in
  mkInferred mapWidth mapHeight cellSize imgWidth imgHeight resolutionScale.

End SceneToWalls.

(** A 3 by 3 buffer of opaque white pixels: the smallest image with an
    interior pixel, on which [Canny.calculateGradients] and the suppression
    run their loop bodies. *)
Definition white3 : ImageData :=
  mkImage (replicate 36 255) 3 3.

(** A 3 by 2 edge buffer whose top row starts with a run of two bright
    pixels, and a 3 by 3 buffer of opaque black pixels: its red samples are
    all 0, its alpha bytes 255. *)
Definition top_line : ImageData :=
  mkImage [255; 255; 255; 255; 255; 255; 255; 255; 0; 0; 0; 255;
           0; 0; 0; 255; 0; 0; 0; 255; 0; 0; 0; 255] 3 2.

Definition black3 : ImageData :=
  mkImage (flat_map (fun _ => [0; 0; 0; 255]) (replicate 9 tt)) 3 3.

(** A 2 by 2 edge buffer whose only bright pixel is (1,0), the last pixel of
    the first row. *)
Definition lone_bright : ImageData :=
  mkImage [0; 0; 0; 255; 255; 255; 255; 255;
           0; 0; 0; 255; 0; 0; 0; 255] 2 2.

(** [q] lies half-way between two consecutive integers. *)
Definition half_way (q : Q) : bool :=
  Qeq_bool (q - inject_Z (Qfloor q)) (1 # 2).

(** The byte [v] is within 1/2 + 1/1000 of the number [q]: [v] is the integer
    nearest to [q] or, when [q] lies within 1/1000 of the point half-way
    between two integers, one of these two. *)
Definition nearest_byte (v : Z) (q : Q) : Prop :=
  0 <= v <= 255 /\ (Qabs (inject_Z v - q) <= (1 # 2) + (1 # 1000))%Q.

(** The mean of a channel over a list of pixels, rounded as [Math.round]
    rounds. *)
Definition rounded_mean (ch : KMeans.Point -> Q) (M : list KMeans.Point) : Z :=
  JS.Math_round (Qsum (map ch M) / inject_Z (Z.of_nat (length M))).

(** The double 1.6666666666666667, the one nearest to 5/3. *)
Definition five_thirds : Q := 7505999378950827 # 4503599627370496.

(** A 3 by 4 buffer whose top row has one colour and whose other pixels are
    black: 3 of the 10 border reads find the colour of the top row. *)
Definition top_row : ImageData :=
  mkImage ([10; 20; 30; 255; 10; 20; 30; 255; 10; 20; 30; 255]
           ++ flat_map (fun _ => [0; 0; 0; 255]) (replicate 9 tt)) 3 4.

(** * Properties *)

Section Runtime.
Import JS.
Context {A : Type}.
Implicit Types (a init : list A) (v : A).

Lemma len_nonneg a : 0 <= len a.
Proof. unfold len. lia. Qed.

Lemma set_length a i v : length (set a i v) = length a.
Proof. unfold set. destruct (i <? 0); [done | apply length_insert]. Qed.

Lemma len_set a i v : len (set a i v) = len a.
Proof. unfold len. by rewrite set_length. Qed.

Lemma len_eq {B} a (b : list B) : length a = length b -> len a = len b.
Proof. unfold len. by intros ->. Qed.

Lemma get_set_eq a i v : 0 <= i < len a -> get (set a i v) i = Some v.
Proof.
  unfold get, set, len. intros H.
  destruct (i <? 0) eqn:E; [lia |].
  apply list_lookup_insert_eq. lia.
Qed.

Lemma get_set_ne a i j v : i <> j -> get (set a i v) j = get a j.
Proof.
  unfold get, set. intros H.
  destruct (j <? 0) eqn:Ej; [done |].
  destruct (i <? 0) eqn:Ei; [done |].
  apply list_lookup_insert_ne. lia.
Qed.

Lemma get_Some_range a i v : get a i = Some v -> 0 <= i < len a.
Proof.
  unfold get, len. destruct (i <? 0) eqn:E; [done |].
  intros H. apply lookup_lt_Some in H. lia.
Qed.

Lemma get_is_Some a i : 0 <= i < len a -> exists v, get a i = Some v.
Proof.
  unfold get, len. intros H. destruct (i <? 0) eqn:E; [lia |].
  destruct (lookup_lt_is_Some_2 a (Z.to_nat i)) as [v Hv]; [lia | eauto].
Qed.

Lemma get_None a i : ~ (0 <= i < len a) -> get a i = None.
Proof.
  intros H. destruct (get a i) eqn:E; [| done].
  apply get_Some_range in E. lia.
Qed.

Lemma elem_of_loop_values lo hi step i :
  0 < step ->
  i ∈ loop_values lo hi step <->
  exists k, 0 <= k /\ i = lo + k * step /\ i < hi.
Proof.
  intros Hs. unfold loop_values. rewrite list_elem_of_fmap. split.
  - intros [k [-> Hk]]. apply elem_of_seq in Hk.
    exists (Z.of_nat k). split; [lia |]. split; [done |].
    destruct (Z_lt_le_dec lo hi) as [Hlt | Hge].
    + assert (Z.of_nat k < (hi - lo + step - 1) / step) as Hk' by lia.
      assert (Z.of_nat k + 1 <= (hi - lo + step - 1) / step) as Hk'' by lia.
      pose proof (Z.mul_div_le (hi - lo + step - 1) step Hs). nia.
    + assert ((hi - lo + step - 1) / step < 1) as H0.
      { apply Z.div_lt_upper_bound; lia. }
      lia.
  - intros [k [Hk [-> Hlt]]]. exists (Z.to_nat k).
    split; [lia |]. apply elem_of_seq. split; [lia |].
    assert (k + 1 <= (hi - lo + step - 1) / step); [| lia].
    apply Z.div_le_lower_bound; nia.
Qed.

Lemma elem_of_range lo hi i : i ∈ range lo hi <-> lo <= i < hi.
Proof.
  unfold range. rewrite elem_of_loop_values by lia. split.
  - intros [k [? [-> ?]]]. lia.
  - intros H. exists (i - lo). lia.
Qed.

Lemma get_ext a b :
  length a = length b -> (forall j, 0 <= j < len a -> get a j = get b j) -> a = b.
Proof.
  intros Hl H. apply list_eq. intros i.
  destruct (decide (i < length a)%nat) as [Hi | Hi].
  - specialize (H (Z.of_nat i)). unfold get, len in H.
    destruct (Z.of_nat i <? 0) eqn:E; [lia |].
    rewrite Nat2Z.id in H. apply H. lia.
  - rewrite !lookup_ge_None_2; [done | lia | lia].
Qed.

(** A loop whose iterations write the cells they [touch] with values that
    depend on the cell only. *)
Lemma for_local (touches : Z -> Z -> bool) (v : Z -> A) body vals :
  (forall i a, i ∈ vals -> length (body i a) = length a) ->
  (forall i a j, i ∈ vals -> touches i j = true -> 0 <= j < len a ->
                 get (body i a) j = Some (v j)) ->
  (forall i a j, i ∈ vals -> touches i j = false ->
                 get (body i a) j = get a j) ->
  forall init,
    length (for_ vals body init) = length init /\
    forall j, 0 <= j < len init ->
      get (for_ vals body init) j =
        if existsb (fun i => touches i j) vals then Some (v j) else get init j.
Proof.
  unfold for_. induction vals as [| i vals IH]; intros Hlen Hhit Hmiss init.
  - done.
  - cbn [fold_left existsb].
    destruct (IH (fun i a H => Hlen i a (list_elem_of_further _ _ _ H))
                 (fun i a j H => Hhit i a j (list_elem_of_further _ _ _ H))
                 (fun i a j H => Hmiss i a j (list_elem_of_further _ _ _ H))
                 (body i init)) as [IHl IHg].
    assert (i ∈ i :: vals) as Hi by apply list_elem_of_here.
    split; [by rewrite IHl, Hlen |].
    intros j Hj. rewrite IHg by (unfold len in *; rewrite Hlen; done).
    destruct (existsb _ vals); [by rewrite orb_true_r |].
    rewrite orb_false_r. destruct (touches i j) eqn:Ht.
    + by apply Hhit.
    + by apply Hmiss.
Qed.

End Runtime.

Section Raster.
Import JS.
Context {A : Type}.

Lemma row_col w q x y :
  0 <= x < w -> q = y * w + x -> q / w = y /\ q mod w = x.
Proof.
  intros Hx ->. split.
  - symmetry. apply (Z.div_unique_pos _ _ y x); lia.
  - symmetry. apply (Z.mod_unique_pos _ _ y x); lia.
Qed.

Lemma existsb_range lo hi (p : Z -> bool) :
  existsb p (range lo hi) = true <-> exists i, lo <= i < hi /\ p i = true.
Proof.
  rewrite existsb_exists. split.
  - intros [i [Hi Hp]]. exists i. split; [| done].
    by apply elem_of_range, list_elem_of_In.
  - intros [i [Hi Hp]]. exists i. split; [| done].
    by apply list_elem_of_In, elem_of_range.
Qed.

(** Two nested loops over the pixels of a rectangle, each iteration writing
    the cells of its own pixel ([s] cells a pixel) with values that depend
    on the cell only. *)
Lemma raster_local (s w : Z) (V : Z -> A)
    (body : Z -> Z -> list A -> list A) xlo xhi ylo yhi :
  0 < s -> 0 < w -> 0 <= xlo -> xhi <= w ->
  (forall x y a, xlo <= x < xhi -> ylo <= y < yhi ->
                 length (body x y a) = length a) ->
  (forall x y a j, xlo <= x < xhi -> ylo <= y < yhi ->
                   j / s = y * w + x -> 0 <= j < len a ->
                   get (body x y a) j = Some (V j)) ->
  (forall x y a j, xlo <= x < xhi -> ylo <= y < yhi ->
                   j / s <> y * w + x -> get (body x y a) j = get a j) ->
  forall init,
    let out :=
      for_ (range ylo yhi)
        (fun y a => for_ (range xlo xhi) (fun x a => body x y a) a) init in
    length out = length init /\
    forall j, 0 <= j < len init ->
      get out j =
        if in_rect xlo xhi ylo yhi ((j / s) mod w) ((j / s) / w)
        then Some (V j) else get init j.
Proof.
  intros Hs Hw Hxlo Hxhi Hlen Hhit Hmiss init out.
  assert (forall y, ylo <= y < yhi -> forall a,
            length (for_ (range xlo xhi) (fun x a => body x y a) a) = length a /\
            forall j, 0 <= j < len a ->
              get (for_ (range xlo xhi) (fun x a => body x y a) a) j =
                if existsb (fun x => j / s =? y * w + x) (range xlo xhi)
                then Some (V j) else get a j) as Hinner.
  { intros y Hy. apply for_local.
    - intros x a Hx. apply elem_of_range in Hx. by apply Hlen.
    - intros x a j Hx Ht Hj. apply elem_of_range in Hx.
      apply Z.eqb_eq in Ht. by apply Hhit.
    - intros x a j Hx Ht. apply elem_of_range in Hx.
      apply Z.eqb_neq in Ht. by apply Hmiss. }
  destruct (for_local
              (fun y j => existsb (fun x => j / s =? y * w + x) (range xlo xhi))
              V
              (fun y a => for_ (range xlo xhi) (fun x a => body x y a) a)
              (range ylo yhi)) with (init := init) as [Hl Hg].
  - intros y a Hy. apply elem_of_range in Hy. by apply Hinner.
  - intros y a j Hy Ht Hj. apply elem_of_range in Hy.
    destruct (Hinner y Hy a) as [_ H]. by rewrite H, Ht.
  - intros y a j Hy Ht. apply elem_of_range in Hy.
    destruct (Z_lt_le_dec j 0) as [Hneg | Hpos].
    { rewrite !get_None; [done | lia |].
      destruct (Hinner y Hy a) as [H _]. unfold len. rewrite H. lia. }
    destruct (Z_lt_le_dec j (len a)) as [Hin | Hout].
    + destruct (Hinner y Hy a) as [_ H]. rewrite H by lia. by rewrite Ht.
    + rewrite !get_None; [done | lia |].
      destruct (Hinner y Hy a) as [H _]. unfold len in *. rewrite H. lia.
  - split; [exact Hl |]. intros j Hj. unfold out. rewrite Hg by done.
    match goal with |- (if ?b then _ else _) = (if ?c then _ else _) =>
      assert (b = c) as ->; [| done] end.
    apply eq_true_iff_eq. rewrite existsb_range. unfold in_rect.
    rewrite !andb_true_iff, !Z.leb_le, !Z.ltb_lt. split.
    + intros [y [Hy Hx]]. apply existsb_range in Hx as [x [Hx E]].
      apply Z.eqb_eq in E.
      destruct (row_col w (j / s) x y) as [-> ->]; [lia | done | lia].
    + intros [[[? ?] ?] ?]. exists ((j / s) / w). split; [lia |].
      apply existsb_range. exists ((j / s) mod w). split; [lia |].
      apply Z.eqb_eq. pose proof (Z.div_mod (j / s) w). lia.
Qed.

End Raster.

Section Arrays.
Import JS.

Lemma new_array_length n : length (new_array n) = Z.to_nat n.
Proof. apply length_replicate. Qed.

Lemma get_new_array n i : 0 <= i < n -> get (new_array n) i = Some 0.
Proof.
  unfold get, new_array. intros H. destruct (i <? 0) eqn:E; [lia |].
  apply lookup_replicate_2. lia.
Qed.

End Arrays.

Section Rounding.
Import JS.

Lemma for_invariant {S} (P : S -> Prop) vals (body : Z -> S -> S) init :
  (forall i s, i ∈ vals -> P s -> P (body i s)) ->
  P init -> P (for_ vals body init).
Proof.
  unfold for_. revert init.
  induction vals as [| i vals IH]; intros init Hb Hi; [done |].
  cbn. apply IH.
  - intros j s Hj. apply Hb. by apply list_elem_of_further.
  - apply Hb; [apply list_elem_of_here | done].
Qed.

Lemma set_bytes a i v : byte v -> Forall byte a -> Forall byte (set a i v).
Proof.
  intros Hv Ha. unfold set. destruct (i <? 0); [done |].
  by apply Forall_insert.
Qed.

Lemma clamp_byte x : byte (clamp 0 255 x).
Proof. unfold clamp, byte. lia. Qed.

Lemma to_uint8_clamped_byte v : byte (to_uint8_clamped v).
Proof. destruct v; [apply clamp_byte | unfold byte; cbn; lia]. Qed.

Lemma get_byte a i v : Forall byte a -> get a i = Some v -> byte v.
Proof.
  intros Ha. unfold get. destruct (i <? 0); [done |].
  intros H. by eapply Forall_lookup_1 in H.
Qed.

(** The stored integer is a nearest one. *)
Lemma round_half_even_near q :
  (inject_Z (round_half_even q) - (1 # 2) <= q
   /\ q <= inject_Z (round_half_even q) + (1 # 2))%Q.
Proof.
  unfold round_half_even.
  pose proof (Qfloor_le q) as Hlo. pose proof (Qlt_floor q) as Hhi.
  rewrite inject_Z_plus in Hhi. change (inject_Z 1) with 1%Q in Hhi.
  destruct (Qcompare_spec (q - inject_Z (Qfloor q)) (1 # 2)) as [He | Hl | Hg].
  - destruct (Z.even (Qfloor q)).
    + split; Lqa.lra.
    + rewrite inject_Z_plus. change (inject_Z 1) with 1%Q. split; Lqa.lra.
  - split; Lqa.lra.
  - rewrite inject_Z_plus. change (inject_Z 1) with 1%Q. split; Lqa.lra.
Qed.

Lemma round_half_even_int z : round_half_even (inject_Z z) = z.
Proof.
  unfold round_half_even. rewrite Qfloor_Z.
  destruct (Qcompare_spec (inject_Z z - inject_Z z) (1 # 2)) as [He | Hl | Hg];
    [Lqa.lra | done | Lqa.lra].
Qed.

Lemma round_half_even_range q lo hi :
  (inject_Z lo <= q <= inject_Z hi)%Q -> lo <= round_half_even q <= hi.
Proof.
  intros [Hlo Hhi].
  assert (lo <= Qfloor q) as Hf.
  { rewrite <- (Qfloor_Z lo). by apply Qfloor_resp_le. }
  assert (Qfloor q <= hi) as Hf'.
  { rewrite <- (Qfloor_Z hi). by apply Qfloor_resp_le. }
  unfold round_half_even.
  pose proof (Qfloor_le q) as Hq.
  assert (Qfloor q = hi -> (q - inject_Z (Qfloor q) < 1 # 2)%Q) as Htop.
  { intros ->. Lqa.lra. }
  destruct (Qcompare_spec (q - inject_Z (Qfloor q)) (1 # 2)) as [He | Hl | Hg].
  - destruct (Z.even (Qfloor q)); [lia |].
    destruct (Z.eq_dec (Qfloor q) hi) as [E | E]; [| lia].
    apply Htop in E. Lqa.lra.
  - lia.
  - destruct (Z.eq_dec (Qfloor q) hi) as [E | E]; [| lia].
    apply Htop in E. Lqa.lra.
Qed.

End Rounding.

Section Grayscale.
Import JS Ops.

Lemma lum_range r g b :
  byte r -> byte g -> byte b -> (inject_Z 0 <= lum r g b <= inject_Z 255)%Q.
Proof.
  unfold byte, lum. intros [? ?] [? ?] [? ?].
  assert (inject_Z 0 <= inject_Z r <= inject_Z 255)%Q
    by (split; rewrite <- Zle_Qle; lia).
  assert (inject_Z 0 <= inject_Z g <= inject_Z 255)%Q
    by (split; rewrite <- Zle_Qle; lia).
  assert (inject_Z 0 <= inject_Z b <= inject_Z 255)%Q
    by (split; rewrite <- Zle_Qle; lia).
  change (inject_Z 0) with 0%Q in *. change (inject_Z 255) with 255%Q in *.
  split; Lqa.lra.
Qed.

Lemma to_uint8_clamped_lum r g b :
  byte r -> byte g -> byte b ->
  to_uint8_clamped (luminance (Some r) (Some g) (Some b))
  = round_half_even (lum r g b).
Proof.
  intros Hr Hg Hb. cbn [luminance to_uint8_clamped].
  pose proof (round_half_even_range _ _ _ (lum_range r g b Hr Hg Hb)) as H.
  unfold clamp, lum in *. lia.
Qed.

Lemma convertToGrayscale_length img :
  length (data (convertToGrayscale img)) = Z.to_nat (width img * height img).
Proof.
  unfold convertToGrayscale. cbn [data].
  rewrite <- new_array_length.
  apply (for_invariant (fun a => length a = length (new_array _))); [| done].
  intros i s _ Hs. unfold store. by rewrite set_length.
Qed.

Lemma convertToGrayscale_bytes img :
  Forall byte (data (convertToGrayscale img)).
Proof.
  unfold convertToGrayscale. cbn [data].
  apply (for_invariant (Forall byte)).
  - intros i s _ Hs. apply set_bytes; [apply to_uint8_clamped_byte | done].
  - apply Forall_replicate. unfold byte. lia.
Qed.

Lemma convertToGrayscale_get img j :
  0 <= j < width img * height img ->
  4 * j < len (data img) ->
  get (data (convertToGrayscale img)) j =
    Some (to_uint8_clamped
            (luminance (get (data img) (4 * j)) (get (data img) (4 * j + 1))
                       (get (data img) (4 * j + 2)))).
Proof.
  intros Hj Hd. unfold convertToGrayscale. cbn [data].
  set (d := data img).
  destruct (for_local
              (fun i k => i / 4 =? k)
              (fun k => to_uint8_clamped
                          (luminance (get d (4 * k)) (get d (4 * k + 1))
                                     (get d (4 * k + 2))))
              (fun i grayscale =>
                 let value :=
                   luminance (get d i) (get d (i + 1)) (get d (i + 2)) in
                 store grayscale (i / 4) value)
              (loop_values 0 (len d) 4)) with (init := new_array (width img * height img))
    as [_ Hget].
  - intros i a _. apply set_length.
  - intros i a k Hi Ht Hk. apply Z.eqb_eq in Ht.
    apply elem_of_loop_values in Hi as [m [Hm [-> _]]]; [| lia].
    replace ((0 + m * 4) / 4) with m in * by (apply Z.div_unique_exact; lia).
    subst k. cbn zeta. unfold store.
    replace (0 + m * 4) with (4 * m) by lia.
    by apply get_set_eq.
  - intros i a k _ Ht. apply Z.eqb_neq in Ht. unfold store.
    by apply get_set_ne.
  - subst d. rewrite Hget.
    + assert (existsb (fun i => i / 4 =? j)
                (loop_values 0 (len (data img)) 4) = true) as ->; [| done].
      apply existsb_exists. exists (4 * j). split.
      * apply list_elem_of_In, elem_of_loop_values; [lia |]. exists j. lia.
      * apply Z.eqb_eq. symmetry. apply Z.div_unique_exact; lia.
    + unfold len. rewrite new_array_length. lia.
Qed.

End Grayscale.




Section FourChannels.
Import JS.

Lemma write4_length a o r g b al : length (write4 a o r g b al) = length a.
Proof. unfold write4. by rewrite !set_length. Qed.

Lemma set4_length a o r g b al : length (set4 a o r g b al) = length a.
Proof. apply write4_length. Qed.

Lemma get_write4_miss a p r g b al j :
  j / 4 <> p -> get (write4 a (p * 4) r g b al) j = get a j.
Proof.
  intros H. unfold write4.
  assert (forall c, 0 <= c < 4 -> p * 4 + c <> j) as Hne.
  { intros c Hc E. apply H. subst j. symmetry.
    apply (Z.div_unique_pos _ _ p c); lia. }
  rewrite !get_set_ne; [done | | | |].
  - replace (p * 4) with (p * 4 + 0) by lia. apply Hne. lia.
  - apply Hne. lia.
  - apply Hne. lia.
  - apply Hne. lia.
Qed.

Lemma get_set4_miss a p r g b al j :
  j / 4 <> p -> get (set4 a (p * 4) r g b al) j = get a j.
Proof. apply get_write4_miss. Qed.

Lemma get_write4_hit a p r g b al j :
  j / 4 = p -> 0 <= j < len a ->
  get (write4 a (p * 4) r g b al) j = Some (channel (j mod 4) r g b al).
Proof.
  intros Hp Hj. unfold write4, channel.
  pose proof (Z.div_mod j 4 ltac:(lia)) as Hdm.
  pose proof (Z.mod_pos_bound j 4 ltac:(lia)) as Hm.
  destruct (Z.eqb_spec (j mod 4) 0) as [E0 | N0].
  { rewrite !get_set_ne by lia. replace (p * 4) with j by lia.
    by apply get_set_eq. }
  destruct (Z.eqb_spec (j mod 4) 1) as [E1 | N1].
  { rewrite !get_set_ne by lia. replace (p * 4 + 1) with j by lia.
    apply get_set_eq. by rewrite len_set. }
  destruct (Z.eqb_spec (j mod 4) 2) as [E2 | N2].
  { rewrite !get_set_ne by lia. replace (p * 4 + 2) with j by lia.
    apply get_set_eq. by rewrite !len_set. }
  replace (p * 4 + 3) with j by lia.
  apply get_set_eq. by rewrite !len_set.
Qed.

Lemma get_set4_hit a p r g b al j :
  j / 4 = p -> 0 <= j < len a ->
  get (set4 a (p * 4) r g b al) j =
    Some (channel (j mod 4) (to_uint8_clamped r) (to_uint8_clamped g)
                  (to_uint8_clamped b) (to_uint8_clamped al)).
Proof. apply get_write4_hit. Qed.

(** Reading a pixel back from its four cells. *)
Lemma pixel_at_cells img x y (cell : Z -> Z) :
  0 <= x < width img ->
  (forall c, 0 <= c < 4 ->
     get (data img) ((y * width img + x) * 4 + c) = Some (cell c)) ->
  pixel_at img x y = Some (cell 0, cell 1, cell 2, cell 3).
Proof.
  intros Hx H. unfold pixel_at.
  replace ((y * width img + x) * 4) with ((y * width img + x) * 4 + 0) at 1 by lia.
  rewrite !H by lia. done.
Qed.

Lemma pixel_at_is_Some img x y :
  rgba_buffer img -> 0 <= x < width img -> 0 <= y < height img ->
  exists r g b a,
    pixel_at img x y = Some (r, g, b, a) /\
    get (data img) ((y * width img + x) * 4) = Some r /\
    get (data img) ((y * width img + x) * 4 + 1) = Some g /\
    get (data img) ((y * width img + x) * 4 + 2) = Some b /\
    get (data img) ((y * width img + x) * 4 + 3) = Some a /\
    byte r /\ byte g /\ byte b /\ byte a.
Proof.
  intros (Hw & Hh & Hlen & Hb) Hx Hy.
  assert (0 <= (y * width img + x) * 4 /\
          (y * width img + x) * 4 + 3 < len (data img)) as Hr by nia.
  destruct (get_is_Some (data img) ((y * width img + x) * 4)) as [r Er]; [lia |].
  destruct (get_is_Some (data img) ((y * width img + x) * 4 + 1)) as [g Eg]; [lia |].
  destruct (get_is_Some (data img) ((y * width img + x) * 4 + 2)) as [b Eb]; [lia |].
  destruct (get_is_Some (data img) ((y * width img + x) * 4 + 3)) as [a Ea]; [lia |].
  exists r, g, b, a. unfold pixel_at. rewrite Er, Eg, Eb, Ea.
  do 5 (split; [done |]).
  split; [| split; [| split]]; eapply get_byte; eauto.
Qed.

Lemma clamp_index_range v n : 0 < n -> 0 <= clamp_index v n < n.
Proof. unfold clamp_index. lia. Qed.

Lemma clamp_index_id v n : 0 <= v < n -> clamp_index v n = v.
Proof. unfold clamp_index. lia. Qed.

Lemma for_break_existsb vals test : for_break vals test = existsb test vals.
Proof.
  induction vals as [| i vals IH]; [done |].
  cbn. rewrite IH. by destruct (test i).
Qed.

End FourChannels.

Section Brighten.
Import JS Ops.

Lemma positive_lum r g b :
  positive (luminance (Some r) (Some g) (Some b)) = true <-> (0 < lum r g b)%Q.
Proof.
  cbn [luminance positive]. fold (lum r g b).
  rewrite negb_true_iff, <- not_true_iff_false, Qle_bool_iff.
  split; [apply Qnot_le_lt | apply Qlt_not_le].
Qed.

Lemma brightenAt_spec img hk x y :
  rgba_buffer img ->
  brightenAt (data img) (width img) (height img) hk x y = true
  <-> bright_neighbour img hk x y.
Proof.
  intros Hwf. pose proof Hwf as (Hw & Hh & _).
  unfold brightenAt, bright_neighbour.
  rewrite for_break_existsb, existsb_range. split.
  - intros [ky [Hky H]]. rewrite for_break_existsb, existsb_range in H.
    destruct H as [kx [Hkx H]].
    destruct (pixel_at_is_Some img (clamp_index (x + kx) (width img))
                (clamp_index (y + ky) (height img)) Hwf)
      as (r & g & b & a & Hp & Er & Eg & Eb & _);
      [by apply clamp_index_range | by apply clamp_index_range |].
    cbn zeta in H. rewrite Er, Eg, Eb in H. apply positive_lum in H.
    exists kx, ky, r, g, b, a. repeat split; try lia; done.
  - intros (kx & ky & r & g & b & a & Hkx & Hky & Hp & Hl).
    exists ky. split; [lia |].
    rewrite for_break_existsb, existsb_range. exists kx. split; [lia |].
    destruct (pixel_at_is_Some img (clamp_index (x + kx) (width img))
                (clamp_index (y + ky) (height img)) Hwf)
      as (r' & g' & b' & a' & Hp' & Er & Eg & Eb & _);
      [by apply clamp_index_range | by apply clamp_index_range |].
    rewrite Hp in Hp'. injection Hp' as <- <- <- <-.
    cbn zeta. rewrite Er, Eg, Eb. by apply positive_lum.
Qed.

Lemma applyBrightenFilter_data img k :
  data (applyBrightenFilter img k) =
    for_ (range 0 (height img))
      (fun y a =>
         for_ (range 0 (width img))
           (fun x a =>
              brightenBody (data img) (width img) (height img)
                           (oddKernel k / 2) x y a) a)
      (new_array (len (data img))).
Proof. reflexivity. Qed.

Lemma applyBrightenFilter_pixel img k x y :
  rgba_buffer img -> 0 <= x < width img -> 0 <= y < height img ->
  pixel_at (applyBrightenFilter img k) x y =
    if brightenAt (data img) (width img) (height img) (oddKernel k / 2) x y
    then Some (255, 255, 255, 255) else Some (0, 0, 0, 0).
Proof.
  intros Hwf Hx Hy. pose proof Hwf as (Hw & Hh & Hlen & _).
  set (hk := oddKernel k / 2).
  set (V := fun j =>
              let p := j / 4 in
              let v := if brightenAt (data img) (width img) (height img) hk
                            (p mod width img) (p / width img)
                       then 255 else 0 in
              channel (j mod 4) v v v v).
  destruct (raster_local 4 (width img) V
              (brightenBody (data img) (width img) (height img) hk)
              0 (width img) 0 (height img))
    with (init := new_array (len (data img))) as [_ Hget]; try lia.
  - intros x' y' a _ _. unfold brightenBody.
    destruct (brightenAt _ _ _ _ _ _); apply set4_length.
  - intros x' y' a j Hx' Hy' Hj Hja. unfold brightenBody, V. cbn zeta.
    destruct (row_col (width img) (j / 4) x' y') as [-> ->]; [lia | done |].
    destruct (brightenAt _ _ _ _ _ _); by rewrite get_set4_hit.
  - intros x' y' a j _ _ Hj. unfold brightenBody.
    destruct (brightenAt _ _ _ _ _ _); by apply get_set4_miss.
  - assert (forall c, 0 <= c < 4 ->
              get (data (applyBrightenFilter img k))
                  ((y * width (applyBrightenFilter img k) + x) * 4 + c) =
                Some (if brightenAt (data img) (width img) (height img) hk x y
                      then 255 else 0)) as Hcells.
    { intros c Hc. rewrite applyBrightenFilter_data. cbn [width applyBrightenFilter].
      fold hk. rewrite Hget.
      2:{ unfold len in *. rewrite new_array_length. nia. }
      assert (((y * width img + x) * 4 + c) / 4 = y * width img + x) as Hq.
      { symmetry. apply (Z.div_unique_pos _ _ _ c); lia. }
      destruct (row_col (width img) (y * width img + x) x y) as [Hr Hc']; [lia | done |].
      unfold V. cbn zeta. rewrite Hq, Hr, Hc'.
      unfold in_rect.
      replace (0 <=? x) with true by (symmetry; apply Z.leb_le; lia).
      replace (x <? width img) with true by (symmetry; apply Z.ltb_lt; lia).
      replace (0 <=? y) with true by (symmetry; apply Z.leb_le; lia).
      replace (y <? height img) with true by (symmetry; apply Z.ltb_lt; lia).
      cbn [andb]. f_equal. unfold channel.
      repeat match goal with |- context [?a =? ?b] => destruct (a =? b) end; done. }
    rewrite (pixel_at_cells (applyBrightenFilter img k) x y
               (fun _ => if brightenAt (data img) (width img) (height img) hk x y
                         then 255 else 0) Hx Hcells).
    by destruct (brightenAt _ _ _ _ _ _).
Qed.

Lemma oddKernel_odd k : Z.odd k = true -> oddKernel k = k.
Proof.
  intros Hk. unfold oddKernel.
  destruct (Z.eqb_spec (Z.rem k 2) 0) as [E | N]; [| done].
  apply Z.rem_divide in E; [| lia]. destruct E as [m ->].
  rewrite Z.mul_comm, Z.odd_mul in Hk. done.
Qed.

Lemma half_odd k : Z.odd k = true -> k / 2 = (k - 1) / 2.
Proof.
  intros Hk. apply Z.odd_spec in Hk as [m ->].
  replace (2 * m + 1 - 1) with (m * 2) by lia.
  rewrite Z.div_mul by lia.
  symmetry. apply (Z.div_unique_pos _ _ m 1); lia.
Qed.

End Brighten.

(** C10. For every RGBA buffer and odd kernel size, [applyBrightenFilter] sets
    the output pixel at (x,y) to (255,255,255,255) if and only if at least one
    pixel of the border-clamped kernelSize x kernelSize neighbourhood of (x,y)
    has a luminance 0.299 R + 0.587 G + 0.114 B strictly greater than 0, and
    to (0,0,0,0) otherwise.  The neighbourhood has the radius
    (kernelSize - 1) / 2; it is empty when the size is negative. *)
Theorem applyBrightenFilter_dilates img kernelSize x y :
  rgba_buffer img -> Z.odd kernelSize = true ->
  0 <= x < width img -> 0 <= y < height img ->
  let out := Ops.applyBrightenFilter img kernelSize in
  (pixel_at out x y = Some (255, 255, 255, 255)
   <-> bright_neighbour img ((kernelSize - 1) / 2) x y) /\
  (pixel_at out x y = Some (0, 0, 0, 0)
   <-> ~ bright_neighbour img ((kernelSize - 1) / 2) x y).
Proof.
  intros Hwf Hodd Hx Hy out. unfold out.
  rewrite applyBrightenFilter_pixel by done.
  rewrite (oddKernel_odd _ Hodd), (half_odd _ Hodd).
  pose proof (brightenAt_spec img ((kernelSize - 1) / 2) x y Hwf) as Hspec.
  destruct (Ops.brightenAt _ _ _ _ _ _).
  - split; [tauto |]. split; [done |]. intros H. exfalso. apply H. by apply Hspec.
  - assert (~ bright_neighbour img ((kernelSize - 1) / 2) x y) as Hn.
    { intros H. apply Hspec in H. done. }
    split; [| tauto]. split; [done | tauto].
Qed.

Lemma applyBrightenFilter_dilates_witness :
  rgba_buffer (mkImage [0; 0; 0; 255; 0; 0; 9; 255] 2 1) /\
  pixel_at (Ops.applyBrightenFilter (mkImage [0; 0; 0; 255; 0; 0; 9; 255] 2 1) 3) 0 0
  = Some (255, 255, 255, 255).
Proof.
  assert (rgba_buffer (mkImage [0; 0; 0; 255; 0; 0; 9; 255] 2 1)) as Hwf.
  { unfold rgba_buffer, byte. cbn.
    repeat split; try lia. repeat constructor; lia. }
  split; [exact Hwf |].
  apply (applyBrightenFilter_dilates _ 3 0 0 Hwf);
    [reflexivity | cbn; lia | cbn; lia |].
  exists 1, 0, 0, 0, 9, 255.
  change ((3 - 1) / 2) with 1.
  split; [lia |]. split; [lia |]. split; [reflexivity |].
  vm_compute. reflexivity.
Defined.

Section Median.
Import JS Ops.

Lemma for_try_total {S} vals (body : Z -> S -> option S) body' s :
  (forall i s, i ∈ vals -> body i s = Some (body' i s)) ->
  for_try vals body s = Some (for_ vals body' s).
Proof.
  unfold for_try, for_. revert s.
  induction vals as [| i vals IH]; intros s H; [done |].
  cbn. rewrite H by apply list_elem_of_here. apply IH.
  intros j s' Hj. apply H. by apply list_elem_of_further.
Qed.

Lemma to_uint8_clamped_num z : byte z -> to_uint8_clamped (num (Some z)) = z.
Proof.
  intros Hz. cbn. rewrite round_half_even_int. unfold clamp, byte in *. lia.
Qed.

Lemma applyMedianFilter_1 img :
  applyMedianFilter img 1 =
    Some (mkImage
            (for_ (range 0 (height img))
               (fun y a =>
                  for_ (range 0 (width img))
                    (fun x a => copyBody (data img) (width img) (height img) x y a)
                    a)
               (new_array (len (data img))))
            (width img) (height img)).
Proof.
  unfold applyMedianFilter. cbn zeta.
  erewrite for_try_total; [reflexivity |].
  intros y a _. apply for_try_total. intros x a' _. reflexivity.
Qed.

Lemma copy_cells img :
  rgba_buffer img ->
  for_ (range 0 (height img))
    (fun y a =>
       for_ (range 0 (width img))
         (fun x a => copyBody (data img) (width img) (height img) x y a)
         a)
    (new_array (len (data img)))
  = data img.
Proof.
  intros Hwf. pose proof Hwf as (Hw & Hh & Hlen & Hb).
  set (V := fun j => default 0 (get (data img) j)).
  destruct (raster_local 4 (width img) V
              (copyBody (data img) (width img) (height img))
              0 (width img) 0 (height img))
    with (init := new_array (len (data img))) as [Hl Hget]; try lia.
  - intros x y a _ _. apply set4_length.
  - intros x y a k Hx Hy Hk Hka. unfold copyBody. cbn zeta.
    rewrite get_set4_hit by done.
    rewrite !clamp_index_id by lia. rewrite !Z.add_0_r.
    assert (0 <= (y * width img + x) * 4 /\
            (y * width img + x) * 4 + 3 < len (data img)) as Hr by nia.
    pose proof (Z.div_mod k 4 ltac:(lia)) as Hdm.
    pose proof (Z.mod_pos_bound k 4 ltac:(lia)) as Hm.
    destruct (get_is_Some (data img) ((y * width img + x) * 4)) as [r Er]; [lia |].
    destruct (get_is_Some (data img) ((y * width img + x) * 4 + 1)) as [g Eg]; [lia |].
    destruct (get_is_Some (data img) ((y * width img + x) * 4 + 2)) as [b Eb]; [lia |].
    destruct (get_is_Some (data img) ((y * width img + x) * 4 + 3)) as [al Ea]; [lia |].
    rewrite Er, Eg, Eb, Ea.
    rewrite !to_uint8_clamped_num by (eapply get_byte; eauto).
    f_equal. unfold V, channel.
    destruct (Z.eqb_spec (k mod 4) 0) as [E0 | N0].
    { replace k with ((y * width img + x) * 4) by lia. by rewrite Er. }
    destruct (Z.eqb_spec (k mod 4) 1) as [E1 | N1].
    { replace k with ((y * width img + x) * 4 + 1) by lia. by rewrite Eg. }
    destruct (Z.eqb_spec (k mod 4) 2) as [E2 | N2].
    { replace k with ((y * width img + x) * 4 + 2) by lia. by rewrite Eb. }
    replace k with ((y * width img + x) * 4 + 3) by lia. by rewrite Ea.
  - intros x y a k _ _ Hk. by apply get_set4_miss.
  - assert (length (new_array (len (data img))) = length (data img)) as Hnl.
    { rewrite new_array_length. unfold len. lia. }
    pose proof (len_eq _ _ Hl) as Hll. pose proof (len_eq _ _ Hnl) as Hnl'.
    apply get_ext; [by rewrite Hl |].
    intros j Hj. rewrite Hll, Hnl' in Hj.
    rewrite Hget by (by rewrite Hnl').
    assert (in_rect 0 (width img) 0 (height img)
              ((j / 4) mod width img) ((j / 4) / width img) = true) as ->.
    { unfold in_rect. rewrite !andb_true_iff, !Z.leb_le, !Z.ltb_lt.
      assert (0 <= j / 4 < width img * height img) as Hq.
      { split; [apply Z.div_pos; lia |]. apply Z.div_lt_upper_bound; lia. }
      pose proof (Z.mod_pos_bound (j / 4) (width img) Hw).
      assert (0 <= (j / 4) / width img) by (apply Z.div_pos; lia).
      assert ((j / 4) / width img < height img)
        by (apply Z.div_lt_upper_bound; lia).
      lia. }
    unfold V. destruct (get_is_Some (data img) j) as [v ->]; done.
Qed.

End Median.

(** C8. For every RGBA buffer, the median filter with a kernel size of 1 is
    the identity: the canvas holds the same image afterwards, every R, G, B
    and A channel unchanged. *)
Theorem applyMedianFilter_1_identity img :
  rgba_buffer img -> Ops.applyMedianFilter img 1 = Some img.
Proof.
  intros Hwf. rewrite applyMedianFilter_1, copy_cells by done.
  by destruct img.
Qed.

Lemma applyMedianFilter_1_identity_witness :
  rgba_buffer (mkImage [10; 20; 30; 255; 0; 0; 9; 7] 1 2) /\
  Ops.applyMedianFilter (mkImage [10; 20; 30; 255; 0; 0; 9; 7] 1 2) 1
  = Some (mkImage [10; 20; 30; 255; 0; 0; 9; 7] 1 2).
Proof.
  assert (rgba_buffer (mkImage [10; 20; 30; 255; 0; 0; 9; 7] 1 2)) as Hwf.
  { unfold rgba_buffer, byte. cbn.
    repeat split; try lia. repeat constructor; lia. }
  split; [exact Hwf | exact (applyMedianFilter_1_identity _ Hwf)].
Defined.

Section SeparateInside.
Import JS Inside.

Lemma paintBody_length outside i d : length (paintBody outside i d) = length d.
Proof. unfold paintBody. case_bool_decide; apply write4_length. Qed.

Lemma paint_loop outside d0 c :
  forall (m : nat) a,
    length a = length d0 ->
    (forall j, 4 * Z.of_nat m <= j -> get a j = get d0 j) ->
    let out :=
      for_ (map (fun k => 0 + Z.of_nat k * 4) (seq m c)) (paintBody outside) a in
    length out = length d0 /\
    (forall j, j < 4 * Z.of_nat m -> get out j = get a j) /\
    (forall j, 4 * Z.of_nat m <= j < 4 * Z.of_nat (m + c) -> j < len d0 ->
               get out j = Some (painted outside d0 j)).
Proof.
  induction c as [| c IH]; intros m a Hlen Hagree out.
  - subst out. cbn. split; [done |]. split; [done |]. intros; lia.
  - subst out. cbn [seq map for_ fold_left].
    set (a' := paintBody outside (0 + Z.of_nat m * 4) a).
    assert (length a' = length d0) as Hlen'
      by (unfold a'; by rewrite paintBody_length).
    assert (forall j, j / 4 <> Z.of_nat m -> get a' j = get a j) as Hmiss.
    { intros j Hj. unfold a', paintBody. replace (0 + Z.of_nat m * 4) with (Z.of_nat m * 4) by lia.
      case_bool_decide; by apply get_write4_miss. }
    assert (forall j, j / 4 = Z.of_nat m -> j < len d0 ->
                      get a' j = Some (painted outside d0 j)) as Hhit.
    { intros j Hj Hjd.
      pose proof (Z.div_mod j 4 ltac:(lia)) as Hdm.
      pose proof (Z.mod_pos_bound j 4 ltac:(lia)) as Hm.
      unfold a', paintBody, painted, colorAt. cbn zeta.
      replace (0 + Z.of_nat m * 4) with (Z.of_nat m * 4) by lia.
      rewrite Hj. replace (4 * Z.of_nat m) with (Z.of_nat m * 4) by lia.
      rewrite !Hagree by lia.
      assert (0 <= j < len a) by (unfold len in *; lia).
      case_bool_decide; by rewrite get_write4_hit. }
    destruct (IH (S m) a' Hlen') as (IHl & IHlow & IHhigh).
    { intros j Hj. rewrite Hmiss; [apply Hagree; lia |].
      intros E. pose proof (Z.div_mod j 4 ltac:(lia)).
      pose proof (Z.mod_pos_bound j 4 ltac:(lia)). lia. }
    fold (for_ (map (fun k => 0 + Z.of_nat k * 4) (seq (S m) c))
               (paintBody outside) a') in *.
    split; [done |]. split.
    + intros j Hj. rewrite IHlow by lia. apply Hmiss.
      intros E. pose proof (Z.div_mod j 4 ltac:(lia)).
      pose proof (Z.mod_pos_bound j 4 ltac:(lia)). lia.
    + intros j Hj Hjd.
      destruct (Z_lt_le_dec j (4 * Z.of_nat (S m))) as [Hlt | Hge].
      * rewrite IHlow by done. apply Hhit; [| done].
        symmetry. apply (Z.div_unique_pos _ _ _ (j - 4 * Z.of_nat m)); lia.
      * apply IHhigh; [lia | done].
Qed.

Lemma separateInside_pixel img threshold x y :
  rgba_buffer img -> 0 <= x < width img -> 0 <= y < height img ->
  pixel_at (separateInside img threshold) x y =
    if bool_decide
         (colorAt (data img) ((y * width img + x) * 4)
          ∈ outsideColors (data img) (width img) (height img) threshold)
    then Some (0, 0, 0, 255) else Some (255, 255, 255, 255).
Proof.
  intros (Hw & Hh & Hlen & Hb) Hx Hy.
  set (outside := outsideColors (data img) (width img) (height img) threshold).
  set (n := Z.to_nat (width img * height img)).
  assert (loop_values 0 (len (data img)) 4
          = map (fun k => 0 + Z.of_nat k * 4) (seq 0 n)) as Hvals.
  { unfold loop_values, n. do 2 f_equal. rewrite Hlen.
    f_equal. symmetry. apply Z.div_unique_pos with (r := 3); lia. }
  destruct (paint_loop outside (data img) n 0%nat (data img) eq_refl)
    as (_ & _ & Hcells); [done |].
  assert (forall c, 0 <= c < 4 ->
            get (data (separateInside img threshold))
                ((y * width (separateInside img threshold) + x) * 4 + c) =
              Some (channel c
                      (if bool_decide (colorAt (data img) ((y * width img + x) * 4)
                                       ∈ outside) then 0 else 255)
                      (if bool_decide (colorAt (data img) ((y * width img + x) * 4)
                                       ∈ outside) then 0 else 255)
                      (if bool_decide (colorAt (data img) ((y * width img + x) * 4)
                                       ∈ outside) then 0 else 255)
                      255)) as Hc.
  { intros c Hc. unfold separateInside. cbn [data width height].
    fold outside. rewrite Hvals.
    change (fun i d => let pixelColor := colorAt d i in
                       if bool_decide (pixelColor ∈ outside)
                       then write4 d i 0 0 0 255
                       else write4 d i 255 255 255 255)
      with (paintBody outside).
    rewrite Hcells by (unfold n; nia). unfold painted. cbn zeta.
    replace (((y * width img + x) * 4 + c) / 4) with (y * width img + x)
      by (apply (Z.div_unique_pos _ _ _ c); lia).
    replace (((y * width img + x) * 4 + c) mod 4) with c
      by (apply (Z.mod_unique_pos _ _ (y * width img + x) c); lia).
    by replace (4 * (y * width img + x)) with ((y * width img + x) * 4) by lia. }
  rewrite (pixel_at_cells (separateInside img threshold) x y _ Hx Hc).
  by case_bool_decide.
Qed.

End SeparateInside.

(** C9. After [separateInside] ran on a buffer, every pixel of the output is
    exactly (0,0,0,255) or exactly (255,255,255,255): the alpha channel of
    every pixel is 255, whatever it was in the input. *)
Theorem separateInside_black_or_white img threshold x y :
  rgba_buffer img -> 0 <= x < width img -> 0 <= y < height img ->
  pixel_at (Inside.separateInside img threshold) x y = Some (0, 0, 0, 255) \/
  pixel_at (Inside.separateInside img threshold) x y = Some (255, 255, 255, 255).
Proof.
  intros Hwf Hx Hy. rewrite separateInside_pixel by done.
  case_bool_decide; [by left | by right].
Qed.

Lemma separateInside_black_or_white_witness :
  rgba_buffer (mkImage [7; 8; 9; 0] 1 1) /\
  (pixel_at (Inside.separateInside (mkImage [7; 8; 9; 0] 1 1) (4 # 10)) 0 0
   = Some (0, 0, 0, 255) \/
   pixel_at (Inside.separateInside (mkImage [7; 8; 9; 0] 1 1) (4 # 10)) 0 0
   = Some (255, 255, 255, 255)).
Proof.
  assert (rgba_buffer (mkImage [7; 8; 9; 0] 1 1)) as Hwf.
  { unfold rgba_buffer, byte. cbn.
    repeat split; try lia. repeat constructor; lia. }
  split; [exact Hwf |].
  apply (separateInside_black_or_white _ (4 # 10) 0 0 Hwf); cbn; lia.
Defined.

Section Loops.
Import JS.
Context {A : Type}.
Implicit Types (a init : list A).

Lemma NoDup_range lo hi : NoDup (range lo hi).
Proof.
  unfold range, loop_values. apply NoDup_fmap_2; [| apply NoDup_seq].
  intros m n H. lia.
Qed.

Lemma range_length lo hi : length (range lo hi) = Z.to_nat (hi - lo).
Proof.
  unfold range, loop_values. rewrite length_map, length_seq.
  f_equal. rewrite Z.div_1_r. lia.
Qed.

(** A loop whose iteration [i] updates cell [i] in place. *)
Lemma for_map_cells (F : Z -> A -> A) body vals :
  NoDup vals ->
  (forall i a, length (body i a) = length a) ->
  (forall i a, get (body i a) i = F i <$> get a i) ->
  (forall i a j, i <> j -> get (body i a) j = get a j) ->
  forall init,
    length (for_ vals body init) = length init /\
    forall j, get (for_ vals body init) j =
              if bool_decide (j ∈ vals) then F j <$> get init j else get init j.
Proof.
  unfold for_. intros Hnd Hlen Hhit Hmiss.
  induction vals as [| i vals IH]; intros init.
  - done.
  - apply NoDup_cons in Hnd as [Hi Hnd]. cbn [fold_left].
    destruct (IH Hnd (body i init)) as [IHl IHg].
    split; [by rewrite IHl |]. intros j. rewrite IHg.
    destruct (decide (i = j)) as [-> | Hne].
    + rewrite (bool_decide_eq_false_2 _ Hi).
      rewrite bool_decide_eq_true_2 by apply list_elem_of_here. apply Hhit.
    + rewrite Hmiss by done.
      case_bool_decide as Hj.
      * rewrite bool_decide_eq_true_2; [done |]. by apply list_elem_of_further.
      * rewrite bool_decide_eq_false_2; [done |].
        intros H. apply elem_of_cons in H as [-> | H]; done.
Qed.

End Loops.

Section Sums.

Lemma Qsquare_nonneg (q : Q) : (0 <= q * q)%Q.
Proof.
  destruct q as [n d]. unfold Qle, Qmult. cbn.
  rewrite Z.mul_1_r. apply Z.square_nonneg.
Qed.

Lemma fold_left_Qsum (l : list Z) (term : Z -> Q) s0 :
  (fold_left (fun s k => s + term k) l s0 == s0 + Qsum (map term l))%Q.
Proof.
  revert s0. induction l as [| k l IH]; intros s0; cbn.
  - Lqa.lra.
  - rewrite IH. unfold Qsum. Lqa.lra.
Qed.

Lemma sum_over_Qsum l term : (sum_over l term == Qsum (map term l))%Q.
Proof. unfold sum_over. rewrite fold_left_Qsum. Lqa.lra. Qed.

Lemma Qsum_scale (c : Q) (l : list Q) :
  (Qsum (map (fun w => w * c) l) == Qsum l * c)%Q.
Proof.
  unfold Qsum. induction l as [| w l IH]; cbn.
  - Lqa.lra.
  - rewrite IH. Lqa.lra.
Qed.

Lemma Qsum_pos (l : list Q) :
  l <> [] -> Forall (fun w => 0 < w)%Q l -> (0 < Qsum l)%Q.
Proof.
  intros Hne Hl. destruct l as [| w l]; [done |]. clear Hne.
  apply Forall_cons in Hl as [Hw Hl]. unfold Qsum. cbn.
  assert (0 <= fold_right Qplus 0 l)%Q.
  { clear Hw. induction Hl as [| v l Hv _ IH]; cbn; Lqa.lra. }
  Lqa.lra.
Qed.

End Sums.

Section Fill.
Import JS.
Context {A : Type}.

Lemma get_range lo hi j : 0 <= j < hi - lo -> get (range lo hi) j = Some (lo + j).
Proof.
  intros Hj. unfold get, range, loop_values.
  destruct (j <? 0) eqn:E; [lia |].
  rewrite list_lookup_fmap, lookup_seq_lt.
  - cbn. f_equal. lia.
  - rewrite Z.div_1_r. lia.
Qed.

Lemma get_map {B C} (f : B -> C) (l : list B) j : get (map f l) j = f <$> get l j.
Proof. unfold get. destruct (j <? 0); [done |]. apply list_lookup_fmap. Qed.

(** [for (i = 0; i < n; i++) a[i] = W(i)] fills the array. *)
Lemma fill_range n (W : Z -> A) (init : list A) :
  len init = n ->
  for_ (range 0 n) (fun i a => set a i (W i)) init = map W (range 0 n).
Proof.
  intros Hn.
  destruct (for_local (fun i j => i =? j) W (fun i a => set a i (W i))
              (range 0 n)) with (init := init) as [Hl Hg].
  - intros. apply set_length.
  - intros i a j _ E Hj. apply Z.eqb_eq in E as ->. by apply get_set_eq.
  - intros i a j _ E. apply Z.eqb_neq in E. by apply get_set_ne.
  - apply get_ext.
    + rewrite Hl, length_map, range_length. unfold len in Hn. lia.
    + intros j Hj. rewrite (len_eq _ _ Hl), Hn in Hj.
      rewrite Hg by lia. rewrite get_map, get_range by lia. cbn.
      replace (0 + j) with j by lia.
      assert (existsb (fun i => i =? j) (range 0 n) = true) as ->; [| done].
      apply existsb_range. exists j. split; [lia | apply Z.eqb_refl].
Qed.

(** [for (i = 0; i < n; i++) a[i] = F(a[i])] maps the array. *)
Lemma map_range n (F : A -> A) (init : list A) :
  len init = n ->
  for_ (range 0 n)
    (fun i a => match get a i with Some w => set a i (F w) | None => a end) init
  = map F init.
Proof.
  intros Hn.
  destruct (for_map_cells (fun _ => F)
              (fun i a => match get a i with Some w => set a i (F w) | None => a end)
              (range 0 n) (NoDup_range 0 n)) with (init := init) as [Hl Hg].
  - intros i a. destruct (get a i); [apply set_length | done].
  - intros i a. destruct (get a i) as [w |] eqn:E.
    + cbn. apply get_set_eq. by apply get_Some_range in E.
    + by rewrite E.
  - intros i a j Hne. destruct (get a i); [by apply get_set_ne | done].
  - apply get_ext.
    + by rewrite Hl, length_map.
    + intros j Hj. rewrite (len_eq _ _ Hl), Hn in Hj.
      rewrite Hg, get_map.
      rewrite bool_decide_eq_true_2; [done |]. by apply elem_of_range.
Qed.

Lemma for_pair (W : Z -> Q) vals (k0 : list Q) (s0 : Q) :
  for_ vals (fun i '(kernel, sum) => (set kernel i (W i), (sum + W i)%Q)) (k0, s0)
  = (for_ vals (fun i kernel => set kernel i (W i)) k0,
     fold_left (fun s i => (s + W i)%Q) vals s0).
Proof.
  unfold for_. revert k0 s0.
  induction vals as [| i vals IH]; intros k0 s0; [done |]. cbn. apply IH.
Qed.

End Fill.

Section GaussianKernel.
Import JS Ops.
Variable Math_exp : Q -> Q.
Variable sigma : Q.

Lemma halfSize_ceil :
  halfSize sigma = Z.max 1 (Qceiling (double (sigma * 3))).
Proof.
  unfold halfSize, kernelSize.
  destruct (Z_lt_le_dec (Qceiling (double (sigma * 3))) 1) as [Hlt | Hge].
  - rewrite (Z.max_l 3) by lia. rewrite (Z.max_l 1) by lia. reflexivity.
  - rewrite (Z.max_r 3) by lia. rewrite (Z.max_r 1) by lia.
    symmetry. apply (Z.div_unique_pos _ _ _ 1); lia.
Qed.

Lemma kernelSize_halfSize : kernelSize sigma = 2 * halfSize sigma + 1.
Proof. rewrite halfSize_ceil. unfold kernelSize. lia. Qed.

Lemma rawKernel_spec :
  rawKernel Math_exp sigma =
    (map (weight Math_exp sigma) (range 0 (kernelSize sigma)),
     sum_over (range 0 (kernelSize sigma)) (weight Math_exp sigma)).
Proof.
  unfold rawKernel.
  change (fun i '(kernel, sum) =>
            let x := inject_Z (i - halfSize sigma) in
            let w := Math_exp (- (x * x) / (2 * sigma * sigma))%Q in
            (set kernel i w, (sum + w)%Q))
    with (fun i '(kernel, sum) =>
            (set kernel i (weight Math_exp sigma i),
             (sum + weight Math_exp sigma i)%Q)).
  rewrite for_pair. f_equal. apply fill_range.
  unfold len. rewrite length_replicate. unfold kernelSize. lia.
Qed.

Lemma gaussianKernel_spec :
  gaussianKernel Math_exp sigma =
    map (fun w =>
           w / sum_over (range 0 (kernelSize sigma)) (weight Math_exp sigma))%Q
        (map (weight Math_exp sigma) (range 0 (kernelSize sigma))).
Proof.
  unfold gaussianKernel. rewrite rawKernel_spec.
  apply map_range. unfold len. rewrite length_map, range_length.
  unfold kernelSize. lia.
Qed.

Lemma gaussianKernel_len : len (gaussianKernel Math_exp sigma) = kernelSize sigma.
Proof.
  rewrite gaussianKernel_spec. unfold len.
  rewrite !length_map, range_length. unfold kernelSize. lia.
Qed.

Hypothesis Math_exp_pos : forall q, (0 < Math_exp q)%Q.

Lemma weights_pos :
  (0 < sum_over (range 0 (kernelSize sigma)) (weight Math_exp sigma))%Q.
Proof.
  rewrite sum_over_Qsum. apply Qsum_pos.
  - intros H. apply (f_equal length) in H.
    rewrite length_map, range_length in H. unfold kernelSize in H. cbn in H. lia.
  - apply Forall_map, Forall_forall. intros i _. apply Math_exp_pos.
Qed.

(** The kernel is normalised. *)
Lemma gaussianKernel_sum : (Qsum (gaussianKernel Math_exp sigma) == 1)%Q.
Proof.
  rewrite gaussianKernel_spec.
  pose proof weights_pos as Hpos.
  set (S := sum_over (range 0 (kernelSize sigma)) (weight Math_exp sigma)) in *.
  unfold Qdiv. rewrite Qsum_scale.
  rewrite <- sum_over_Qsum. fold S. field. Lqa.lra.
Qed.

End GaussianKernel.

Section Blur.
Import JS Ops.

Lemma conv_sum (d : list Z) (kernel : list Q) (idx kidx : Z -> Z) vals :
  (forall k, k ∈ vals -> 0 <= idx k < len d /\ 0 <= kidx k < len kernel) ->
  forall s0,
    for_ vals
      (fun k sum => nadd sum (nmul (num (get d (idx k))) (get kernel (kidx k))))
      (Some s0)
    = Some (fold_left
              (fun s k => s + inject_Z (sample d (idx k)) * coeff kernel (kidx k))%Q
              vals s0).
Proof.
  unfold for_. induction vals as [| k vals IH]; intros H s0; [done |].
  cbn [fold_left].
  destruct (H k) as [Hd Hk]; [apply list_elem_of_here |].
  destruct (get_is_Some d (idx k) Hd) as [v Ev].
  destruct (get_is_Some kernel (kidx k) Hk) as [c Ec].
  unfold sample, coeff. rewrite Ev, Ec. cbn.
  apply IH. intros k' Hk'. apply H. by apply list_elem_of_further.
Qed.

End Blur.

Section BlurPasses.
Import JS Ops.

(** Two pixel loops that store one number per pixel in a new array. *)
Lemma single_channel_raster (F : Z -> Z -> Q) body w h :
  0 < w -> 0 < h ->
  (forall x y a, 0 <= x < w -> 0 <= y < h ->
                 body x y a = store a (y * w + x) (Some (F x y))) ->
  let out :=
    for_ (range 0 h) (fun y a => for_ (range 0 w) (fun x a => body x y a) a)
      (new_array (w * h)) in
  len out = w * h /\
  forall x y, 0 <= x < w -> 0 <= y < h ->
    get out (y * w + x) = Some (to_byte (F x y)).
Proof.
  intros Hw Hh Hbody out.
  destruct (raster_local 1 w (fun j => to_byte (F (j mod w) (j / w))) body 0 w 0 h)
    with (init := new_array (w * h)) as [Hl Hg]; try lia.
  - intros x y a Hx Hy. rewrite Hbody by done. apply set_length.
  - intros x y a j Hx Hy Hj Hja. rewrite Z.div_1_r in Hj. subst j.
    rewrite Hbody by done.
    destruct (row_col w (y * w + x) x y) as [-> ->]; [lia | done |].
    by apply get_set_eq.
  - intros x y a j Hx Hy Hj. rewrite Z.div_1_r in Hj.
    rewrite Hbody by done. by apply get_set_ne.
  - assert (len (new_array (w * h)) = w * h) as Hn.
    { unfold len. rewrite new_array_length. nia. }
    split; [fold out in Hl; by rewrite (len_eq _ _ Hl) |].
    intros x y Hx Hy. unfold out. rewrite Hg by (rewrite Hn; nia).
    rewrite Z.div_1_r.
    destruct (row_col w (y * w + x) x y) as [-> ->]; [lia | done |].
    unfold in_rect.
    replace (0 <=? x) with true by (symmetry; apply Z.leb_le; lia).
    replace (x <? w) with true by (symmetry; apply Z.ltb_lt; lia).
    replace (0 <=? y) with true by (symmetry; apply Z.leb_le; lia).
    replace (y <? h) with true by (symmetry; apply Z.ltb_lt; lia).
    done.
Qed.

Lemma horizontalBlur_spec kernel hs d w h :
  0 < w -> 0 < h -> len d = w * h -> 0 <= hs -> len kernel = 2 * hs + 1 ->
  len (horizontalBlur kernel hs d w h) = w * h /\
  forall x y, 0 <= x < w -> 0 <= y < h ->
    get (horizontalBlur kernel hs d w h) (y * w + x)
    = Some (to_byte (blur_h kernel hs d w x y)).
Proof.
  intros Hw Hh Hd Hhs Hk. unfold horizontalBlur.
  apply (single_channel_raster (blur_h kernel hs d w)); [done | done |].
  intros x y a Hx Hy. cbn zeta. f_equal.
  rewrite (conv_sum d kernel (fun k => y * w + clamp_index (x + k) w)
                    (fun k => k + hs)); [done |].
  intros k Hkr. apply elem_of_range in Hkr.
  pose proof (clamp_index_range (x + k) w Hw). nia.
Qed.

Lemma verticalBlur_spec kernel hs t w h :
  0 < w -> 0 < h -> len t = w * h -> 0 <= hs -> len kernel = 2 * hs + 1 ->
  len (verticalBlur kernel hs t w h) = w * h /\
  forall x y, 0 <= x < w -> 0 <= y < h ->
    get (verticalBlur kernel hs t w h) (y * w + x)
    = Some (to_byte (blur_v kernel hs t w h x y)).
Proof.
  intros Hw Hh Hd Hhs Hk. unfold verticalBlur.
  apply (single_channel_raster (blur_v kernel hs t w h)); [done | done |].
  intros x y a Hx Hy. cbn zeta. f_equal.
  rewrite (conv_sum t kernel (fun k => clamp_index (y + k) h * w + x)
                    (fun k => k + hs)); [done |].
  intros k Hkr. apply elem_of_range in Hkr.
  pose proof (clamp_index_range (y + k) h Hh). nia.
Qed.

End BlurPasses.

Lemma exp_like_pos q : (0 < exp_like q)%Q.
Proof.
  unfold exp_like. apply Qlt_shift_div_l.
  - Lqa.nra.
  - Lqa.lra.
Qed.


Section Scans.
Import JS.

Lemma for_ext {S} vals (body body' : Z -> S -> S) s :
  (forall i s, i ∈ vals -> body i s = body' i s) ->
  for_ vals body s = for_ vals body' s.
Proof.
  unfold for_. revert s.
  induction vals as [| i vals IH]; intros s H; [done |]. cbn.
  rewrite H by apply list_elem_of_here. apply IH.
  intros j s' Hj. apply H. by apply list_elem_of_further.
Qed.

Lemma for_app {S} vals vals' (body : Z -> S -> S) s :
  for_ (vals ++ vals') body s = for_ vals' body (for_ vals body s).
Proof. unfold for_. apply fold_left_app. Qed.

Lemma range_snoc n : 0 <= n -> range 0 (n + 1) = range 0 n ++ [n].
Proof.
  intros Hn. unfold range, loop_values.
  rewrite !Z.div_1_r.
  replace (Z.to_nat (n + 1 - 0 + 1 - 1)) with (S (Z.to_nat (n - 0 + 1 - 1))) by lia.
  rewrite seq_S, map_app. cbn. do 2 f_equal. lia.
Qed.

(** A loop over the indices of an array that reads its cell only. *)
Lemma for_cells {A S} (l : list A) (f : S -> A -> S) s0 :
  for_ (range 0 (len l))
    (fun i s => match get l i with Some v => f s v | None => s end) s0
  = fold_left f l s0.
Proof.
  induction l as [| x l IH] using rev_ind; [done |].
  replace (len (l ++ [x])) with (len l + 1)
    by (unfold len; rewrite length_app; cbn; lia).
  rewrite range_snoc by apply len_nonneg.
  rewrite for_app, fold_left_app. cbn.
  rewrite (for_ext _ _ (fun i s => match get l i with
                                   | Some v => f s v | None => s end)).
  - rewrite IH. unfold get.
    destruct (len l <? 0) eqn:E; [pose proof (len_nonneg l); lia |].
    unfold len. rewrite Nat2Z.id. by rewrite list_lookup_middle.
  - intros i s Hi. apply elem_of_range in Hi. unfold get.
    destruct (i <? 0) eqn:E; [done |].
    rewrite lookup_app_l; [done |]. unfold len in Hi. lia.
Qed.

End Scans.

Section CannyMax.
Import JS Canny.

Lemma maxValue_fold l : maxValue l = fold_left Z.max l 1.
Proof.
  unfold maxValue.
  rewrite (for_cells l (fun m v => if m <? v then v else m)).
  revert l. generalize 1.
  intros z l. revert z. induction l as [| v l IH]; intros z; [done |]. cbn.
  rewrite IH. f_equal. destruct (Z.ltb_spec z v); lia.
Qed.

Lemma fold_left_max l z :
  0 <= z -> fold_left Z.max l z = Z.max z (maximum l).
Proof.
  unfold maximum. revert z. induction l as [| v l IH]; intros z Hz; cbn.
  - lia.
  - rewrite IH by lia. lia.
Qed.

Lemma maxValue_le_1 l : maxValue l <= 1 <-> maximum l <= 1.
Proof. rewrite maxValue_fold, fold_left_max by lia. lia. Qed.

Lemma cannyEdgeDetection_throws_iff Math_exp Math_atan2_deg canvas low high sigma :
  cannyEdgeDetection Math_exp Math_atan2_deg canvas low high sigma
  = Throws NoEdgesDetected
  <-> maximum (suppressedMagnitudes Math_exp Math_atan2_deg canvas sigma) <= 1.
Proof.
  unfold cannyEdgeDetection, suppressedMagnitudes. cbn zeta.
  destruct (calculateGradients _ _) as [gm gd].
  rewrite <- maxValue_le_1.
  destruct (Z.leb_spec (maxValue (data (applyNonMaximumSuppression gm gd
                                         (width canvas) (height canvas)))) 1).
  - done.
  - split; [done | lia].
Qed.

Lemma maximum_zeros l : Forall (fun v => v = 0) l -> maximum l = 0.
Proof.
  unfold maximum. induction 1 as [| v l -> _ IH]; cbn; [done |].
  rewrite IH. done.
Qed.

End CannyMax.

Section ConstantImage.
Import JS Ops Canny.

Lemma round_half_even_proper q1 q2 :
  (q1 == q2)%Q -> round_half_even q1 = round_half_even q2.
Proof.
  intros E. unfold round_half_even.
  rewrite (Qfloor_comp _ _ E).
  assert (q1 - inject_Z (Qfloor q2) == q2 - inject_Z (Qfloor q2))%Q as E'
    by (rewrite E; reflexivity).
  by rewrite (Qcompare_comp _ _ E' _ _ (Qeq_refl (1 # 2))).
Qed.

Lemma to_byte_int q c : byte c -> (q == inject_Z c)%Q -> to_byte q = c.
Proof.
  intros Hc E. unfold to_byte. cbn.
  rewrite (round_half_even_proper _ _ E), round_half_even_int.
  unfold clamp, byte in *. lia.
Qed.

Lemma kernel_as_map (kernel : list Q) hs :
  0 <= hs -> len kernel = 2 * hs + 1 ->
  map (fun k => coeff kernel (k + hs)) (range (- hs) (hs + 1)) = kernel.
Proof.
  intros Hhs Hk. apply get_ext.
  - rewrite length_map, range_length. unfold len in Hk. lia.
  - intros j Hj.
    assert (len (map (fun k => coeff kernel (k + hs)) (range (- hs) (hs + 1)))
            = 2 * hs + 1) as Hl.
    { unfold len. rewrite length_map, range_length. lia. }
    rewrite Hl in Hj. rewrite get_map, get_range by lia. cbn.
    replace (- hs + j + hs) with j by lia.
    unfold coeff. destruct (get_is_Some kernel j) as [v ->]; [lia | done].
Qed.

Lemma Qsum_ext {B} (f g : B -> Q) (l : list B) :
  (forall k, k ∈ l -> (f k == g k)%Q) -> (Qsum (map f l) == Qsum (map g l))%Q.
Proof.
  unfold Qsum. induction l as [| k l IH]; intros H; cbn; [reflexivity |].
  rewrite IH, (H k); [reflexivity | apply list_elem_of_here |].
  intros k' Hk'. apply H. by apply list_elem_of_further.
Qed.

(** The weighted sum of samples that all are [c] is [c]. *)
Lemma constant_sum (kernel : list Q) hs (smp : Z -> Z) c :
  0 <= hs -> len kernel = 2 * hs + 1 -> (Qsum kernel == 1)%Q ->
  (forall k, - hs <= k < hs + 1 -> smp k = c) ->
  (sum_over (range (- hs) (hs + 1))
     (fun k => inject_Z (smp k) * coeff kernel (k + hs)) == inject_Z c)%Q.
Proof.
  intros Hhs Hk Hsum Hs.
  rewrite sum_over_Qsum.
  rewrite (Qsum_ext _ (fun k => coeff kernel (k + hs) * inject_Z c)%Q).
  - rewrite <- (map_map (fun k => coeff kernel (k + hs)) (fun w => w * inject_Z c)%Q).
    rewrite Qsum_scale, kernel_as_map, Hsum by done. Lqa.lra.
  - intros k Hkr. apply elem_of_range in Hkr. rewrite Hs by done. Lqa.lra.
Qed.

Lemma sample_get d i v : get d i = Some v -> sample d i = v.
Proof. unfold sample. by intros ->. Qed.

(** A pixel index as a row and a column. *)
Lemma cell_row_col w h j :
  0 < w -> 0 <= j < w * h ->
  j = (j / w) * w + j mod w /\ 0 <= j mod w < w /\ 0 <= j / w < h.
Proof.
  intros Hw Hj. pose proof (Z.div_mod j w ltac:(lia)).
  pose proof (Z.mod_pos_bound j w Hw).
  assert (0 <= j / w) by (apply Z.div_pos; lia).
  assert (j / w < h) by (apply Z.div_lt_upper_bound; lia).
  lia.
Qed.

Lemma blur_constant Math_exp sigma img c :
  (forall q, 0 < Math_exp q)%Q ->
  0 < width img -> 0 < height img ->
  len (data img) = width img * height img -> byte c ->
  (forall j, 0 <= j < width img * height img -> get (data img) j = Some c) ->
  forall j, 0 <= j < width img * height img ->
    get (data (applyGaussianBlur Math_exp img sigma)) j = Some c.
Proof.
  intros Hexp Hw Hh Hlen Hc Hd.
  set (kernel := gaussianKernel Math_exp sigma).
  set (hs := halfSize sigma).
  assert (0 <= hs) as Hhs by (unfold hs; rewrite halfSize_ceil; lia).
  assert (len kernel = 2 * hs + 1) as Hk.
  { unfold kernel. rewrite gaussianKernel_len. apply kernelSize_halfSize. }
  assert (Qsum kernel == 1)%Q as Hsum by (by apply gaussianKernel_sum).
  destruct (horizontalBlur_spec kernel hs (data img) (width img) (height img))
    as [Htl Htg]; try done.
  set (temp := horizontalBlur kernel hs (data img) (width img) (height img)) in *.
  assert (forall j, 0 <= j < width img * height img -> get temp j = Some c) as Ht.
  { intros j Hj.
    destruct (cell_row_col (width img) (height img) j Hw Hj) as (E & Hx & Hy).
    rewrite E, Htg by done. f_equal. apply to_byte_int; [done |].
    unfold blur_h. apply constant_sum; try done.
    intros k Hkr. apply sample_get, Hd.
    pose proof (clamp_index_range (j mod width img + k) (width img) Hw). nia. }
  destruct (verticalBlur_spec kernel hs temp (width img) (height img))
    as [_ Hog]; try done.
  intros j Hj.
  destruct (cell_row_col (width img) (height img) j Hw Hj) as (E & Hx & Hy).
  unfold applyGaussianBlur. cbn [data]. fold kernel hs temp.
  rewrite E, Hog by done. f_equal. apply to_byte_int; [done |].
  unfold blur_v. apply constant_sum; try done.
  intros k Hkr. apply sample_get, Ht.
  pose proof (clamp_index_range (j / width img + k) (height img) Hh). nia.
Qed.

End ConstantImage.

Section FlatGradient.
Import JS Ops Canny.
Variable Math_atan2_deg : Z -> Z -> Q.

Lemma set_zeros a i : zeros a -> zeros (set a i 0).
Proof.
  intros Ha. unfold set. destruct (i <? 0); [done |]. by apply Forall_insert.
Qed.

Lemma get_zeros a i v : zeros a -> get a i = Some v -> v = 0.
Proof.
  intros Ha. unfold get. destruct (i <? 0); [done |].
  intros H. by eapply (Forall_lookup_1 _ _ _ _ Ha) in H.
Qed.

(** On a constant image both Sobel sums vanish. *)
Lemma sobel_constant d w h c x y :
  0 < w -> (forall j, 0 <= j < w * h -> get d j = Some c) ->
  1 <= x < w - 1 -> 1 <= y < h - 1 ->
  sobel d w x y = (Some 0, Some 0).
Proof.
  intros Hw Hd Hx Hy.
  assert (forall ky kx, -1 <= ky <= 1 -> -1 <= kx <= 1 ->
            get d ((y + ky) * w + (x + kx)) = Some c) as Hr.
  { intros ky kx Hky Hkx. apply Hd. nia. }
  unfold sobel. change (range (-1) 2) with [-1; 0; 1].
  cbn [for_ fold_left].
  rewrite (Hr (-1) (-1)), (Hr (-1) 0), (Hr (-1) 1),
          (Hr 0 (-1)), (Hr 0 0), (Hr 0 1),
          (Hr 1 (-1)), (Hr 1 0), (Hr 1 1) by lia.
  repeat match goal with
         | |- context [get sobelX ?i] =>
             let v := eval vm_compute in (get sobelX i) in
             change (get sobelX i) with v
         | |- context [get sobelY ?i] =>
             let v := eval vm_compute in (get sobelY i) in
             change (get sobelY i) with v
         end.
  cbn [zadd zmul]. f_equal; f_equal; lia.
Qed.

Lemma calculateGradients_constant img c :
  0 < width img ->
  (forall j, 0 <= j < width img * height img -> get (data img) j = Some c) ->
  zeros (calculateGradients Math_atan2_deg img).1.
Proof.
  intros Hw Hd. unfold calculateGradients. cbn zeta.
  apply (for_invariant (fun g : list Z * list Z => zeros g.1)).
  - intros y g Hy Hg. apply elem_of_range in Hy.
    apply (for_invariant (fun g : list Z * list Z => zeros g.1)); [| done].
    intros x [gm gd] Hx Hgm. apply elem_of_range in Hx.
    rewrite (sobel_constant _ _ (height img) c) by done.
    cbn. by apply set_zeros.
  - cbn. by apply Forall_replicate.
Qed.

Lemma applyNonMaximumSuppression_zeros gm gd w h :
  zeros gm -> zeros (data (applyNonMaximumSuppression gm gd w h)).
Proof.
  intros Hgm. unfold applyNonMaximumSuppression. cbn [data].
  apply (for_invariant zeros).
  - intros y a _ Ha. apply (for_invariant zeros); [| done].
    intros x a' _ Ha'. cbn zeta.
    destruct (lt_num _ 10); [by apply set_zeros |].
    destruct (neighbours _ x y) as [[n1x n1y] [n2x n2y]].
    destruct (_ && _)%bool; [| by apply set_zeros].
    destruct (get gm (y * w + x)) as [m |] eqn:Em.
    + apply (get_zeros _ _ _ Hgm) in Em as ->. by apply set_zeros.
    + by apply set_zeros.
  - by apply Forall_replicate.
Qed.

End FlatGradient.

(** C1. [cannyEdgeDetection] throws the "no edges detected" error exactly when
    the largest non-maximum-suppressed gradient magnitude of the image is at
    most 1; and it throws it, leaving no edge image, for every buffer whose
    pixels all have one colour: all black and all white buffers among them. *)
Theorem cannyEdgeDetection_no_edges
    (Math_exp : Q -> Q) (Math_atan2_deg : Z -> Z -> Q) canvas low high sigma :
  (Canny.cannyEdgeDetection Math_exp Math_atan2_deg canvas low high sigma
   = Canny.Throws Canny.NoEdgesDetected
   <-> maximum (Canny.suppressedMagnitudes Math_exp Math_atan2_deg canvas sigma) <= 1)
  /\
  ((forall q, 0 < Math_exp q)%Q -> (0 < sigma)%Q -> rgba_buffer canvas ->
   forall r g b, constant_colour canvas r g b ->
     Canny.cannyEdgeDetection Math_exp Math_atan2_deg canvas low high sigma
     = Canny.Throws Canny.NoEdgesDetected).
Proof.
  split; [apply cannyEdgeDetection_throws_iff |].
  intros Hexp Hsigma Hwf r g b Hconst.
  apply cannyEdgeDetection_throws_iff.
  pose proof Hwf as (Hw & Hh & Hlen & Hbytes).
  destruct (Hconst 0) as (Hr & Hg & Hb); [nia |].
  assert (byte r /\ byte g /\ byte b) as (Br & Bg & Bb)
    by (repeat split; eapply get_byte; eauto).
  set (c := JS.round_half_even (lum r g b)).
  assert (byte c) as Hc.
  { pose proof (round_half_even_range _ _ _ (lum_range r g b Br Bg Bb)).
    unfold byte, c. lia. }
  set (gray := Ops.convertToGrayscale canvas).
  assert (forall j, 0 <= j < width gray * height gray ->
            JS.get (data gray) j = Some c) as Hgray.
  { intros j Hj. unfold gray. rewrite convertToGrayscale_get by (cbn in Hj; lia).
    destruct (Hconst j Hj) as (-> & -> & ->).
    by rewrite to_uint8_clamped_lum. }
  assert (JS.len (data gray) = width gray * height gray) as Hglen.
  { unfold JS.len, gray. rewrite convertToGrayscale_length. cbn. nia. }
  pose proof (blur_constant Math_exp sigma gray c Hexp Hw Hh Hglen Hc Hgray)
    as Hblur.
  unfold Canny.suppressedMagnitudes. fold gray.
  pose proof (calculateGradients_constant Math_atan2_deg
                (Ops.applyGaussianBlur Math_exp gray sigma) c Hw Hblur) as Hgm.
  destruct (Canny.calculateGradients _ _) as [gm gd]. cbn in Hgm.
  rewrite maximum_zeros; [lia |].
  by apply applyNonMaximumSuppression_zeros.
Qed.

Lemma cannyEdgeDetection_no_edges_witness :
  rgba_buffer white3 /\
  constant_colour white3 255 255 255 /\
  Canny.cannyEdgeDetection exp_like (fun _ _ => 0%Q) white3 40 70 (14 # 10)
  = Canny.Throws Canny.NoEdgesDetected.
Proof.
  assert (rgba_buffer white3) as Hwf.
  { unfold rgba_buffer, byte, white3. cbn.
    repeat split; try lia. repeat constructor; lia. }
  assert (constant_colour white3 255 255 255) as Hconst.
  { intros j Hj. cbn in Hj.
    assert (j = 0 \/ j = 1 \/ j = 2 \/ j = 3 \/ j = 4 \/ j = 5 \/ j = 6 \/
            j = 7 \/ j = 8) as Hcases by lia.
    repeat (destruct Hcases as [-> | Hcases]; [repeat split; reflexivity |]).
    subst j. repeat split; reflexivity. }
  split; [exact Hwf |]. split; [exact Hconst |].
  exact (proj2 (cannyEdgeDetection_no_edges exp_like (fun _ _ => 0%Q) _ 40 70 (14 # 10))
               exp_like_pos eq_refl Hwf 255 255 255 Hconst).
Defined.

Section WallRuns.
Import JS Walls.

Lemma range_0_snoc (n : nat) :
  range 0 (Z.of_nat (S n)) = range 0 (Z.of_nat n) ++ [Z.of_nat n].
Proof.
  replace (Z.of_nat (S n)) with (Z.of_nat n + 1) by lia.
  apply range_snoc. lia.
Qed.

Lemma tileRuns_steps d w t grid x y :
  tileRuns d w t grid x y =
    for_ (range 0 grid) (runStep (brightH d w t x y) (brightV d w t x y))
         (0, 0, 0, 0).
Proof. unfold tileRuns. apply for_ext. by intros i [[[? ?] ?] ?] _. Qed.

(** A run of [L] bright samples from [s] on makes [mhorizontal] reach [L]. *)
Lemma horizontal_run bh bv s L (n : nat) :
  0 <= s -> 1 <= L ->
  (forall i, s <= i < s + L -> bh i = true) ->
  let '(mh, _, h, _) := for_ (range 0 (Z.of_nat n)) (runStep bh bv) (0, 0, 0, 0) in
  0 <= h <= mh /\
  (s <= Z.of_nat n <= s + L -> Z.of_nat n - s <= h) /\
  (s + L <= Z.of_nat n -> L <= mh).
Proof.
  intros Hs HL Hb. induction n as [| n IH].
  - change (range 0 (Z.of_nat 0)) with (@nil Z). cbn. lia.
  - rewrite range_0_snoc, for_app.
    destruct (for_ (range 0 (Z.of_nat n)) (runStep bh bv) (0, 0, 0, 0))
      as [[[mh mv] h] v].
    cbn [for_ fold_left]. unfold runStep at 1.
    destruct (bh (Z.of_nat n)) eqn:E.
    + destruct (bv (Z.of_nat n)); lia.
    + assert (~ (s <= Z.of_nat n < s + L)) as Hout.
      { intros H. rewrite Hb in E by done. done. }
      destruct (bv (Z.of_nat n)); lia.
Qed.

Lemma tileRuns_line d w t grid x y s L :
  0 < grid -> 0 <= s -> s + L <= grid -> grid < 2 * L ->
  (forall i, s <= i < s + L -> brightH d w t x y i = true) ->
  (grid <? 2 * (tileRuns d w t grid x y).1.1.1) = true.
Proof.
  intros Hg Hs HL H2 Hb. rewrite tileRuns_steps.
  pose proof (horizontal_run (brightH d w t x y) (brightV d w t x y)
                s L (Z.to_nat grid) Hs ltac:(lia) Hb) as H.
  rewrite Z2Nat.id in H by lia.
  destruct (for_ _ _ _) as [[[mh mv] h] v]. cbn.
  apply Z.ltb_lt. lia.
Qed.

(** The samples that [identifyWalls] compares with the threshold are the
    red ones: every index it reads is four times a pixel index. *)
Lemma reaches_below d t k :
  (forall j v, get d (j * 4) = Some v -> v < t) ->
  reaches (get d (k * 4)) t = false.
Proof.
  intros Hd. destruct (get d (k * 4)) as [v |] eqn:E; [| done]. cbn.
  apply Z.leb_gt. by apply (Hd k).
Qed.

Lemma tileRuns_dark d w t grid x y :
  (forall j v, get d (j * 4) = Some v -> v < t) ->
  tileRuns d w t grid x y = (0, 0, 0, 0).
Proof.
  intros Hd. rewrite tileRuns_steps.
  apply (for_invariant (fun st => st = (0, 0, 0, 0))); [| done].
  intros i st _ ->. unfold runStep, brightH, brightV. cbn zeta.
  by rewrite !reaches_below, !andb_false_r.
Qed.

(** Walls are only ever pushed. *)
Lemma for_push {B} (w : B) vals (body : Z -> list B -> list B) i0 :
  (forall i s v, v ∈ s -> v ∈ body i s) ->
  i0 ∈ vals -> (forall s, w ∈ body i0 s) ->
  forall s, w ∈ for_ vals body s.
Proof.
  intros Hmono Hi Hhit. unfold for_.
  assert (forall vals s, w ∈ s -> w ∈ fold_left (fun s i => body i s) vals s) as Hkeep.
  { clear Hi. intros vs. induction vs as [| i vs IH]; intros s Hw; [done |].
    cbn. apply IH. by apply Hmono. }
  induction vals as [| i vals IH]; intros s; [by apply elem_of_nil in Hi |].
  cbn. apply elem_of_cons in Hi as [<- | Hi].
  - apply Hkeep, Hhit.
  - by apply IH.
Qed.

Lemma for_keep {B} vals (body : Z -> list B -> list B) :
  (forall i s v, v ∈ s -> v ∈ body i s) ->
  forall s v, v ∈ s -> v ∈ for_ vals body s.
Proof.
  intros Hmono. unfold for_.
  induction vals as [| i vals IH]; intros s v Hv; [done |].
  cbn. apply IH. by apply Hmono.
Qed.

End WallRuns.

(** C2 (as amended). For every edge buffer and every positive cell size:
    when the top row of a tile has an unbroken run of bright samples (sample
    value >= threshold) that is longer than cellSize / 2, [identifyWalls]
    emits the horizontal segment that spans the top edge of the tile; and on
    a buffer with no sample >= threshold it emits no segment at all.  The
    samples are the ones the code reads, the red byte [data[4 * j]] of each
    pixel: the green, blue and alpha bytes may hold anything, so an opaque
    black buffer is such an empty edge buffer. *)
Theorem identifyWalls_line canvas grid threshold :
  0 < grid ->
  (forall tx ty s L,
     0 <= tx -> 0 <= ty ->
     tx * grid < width canvas -> ty * grid < height canvas ->
     0 <= s -> s + L <= grid -> grid < 2 * L ->
     (forall i, s <= i < s + L ->
        Walls.reaches
          (JS.get (data canvas)
                  ((ty * grid * width canvas + tx * grid + i) * 4))
          threshold = true) ->
     (tx * grid, ty * grid, tx * grid + grid, ty * grid)
     ∈ Walls.identifyWalls canvas grid threshold)
  /\
  ((forall j v, JS.get (data canvas) (j * 4) = Some v -> v < threshold) ->
   Walls.identifyWalls canvas grid threshold = []).
Proof.
  intros Hg. split.
  - intros tx ty s L Htx Hty Hx Hy Hs HL H2 Hb.
    unfold Walls.identifyWalls.
    assert (forall x y (walls : list Walls.Segment) v,
              v ∈ walls ->
              v ∈ (let '(mhorizontal, mvertical, _, _) :=
                     Walls.tileRuns (data canvas) (width canvas) threshold grid x y in
                   let walls :=
                     if grid <? 2 * mhorizontal
                     then walls ++ [(x, y, x + grid, y)] else walls in
                   if grid <? 2 * mvertical
                   then walls ++ [(x, y, x, y + grid)] else walls)) as Hmono.
    { intros x y walls v Hv.
      destruct (Walls.tileRuns _ _ _ _ _ _) as [[[mh mv] h] v'].
      destruct (grid <? 2 * mh), (grid <? 2 * mv);
        rewrite ?elem_of_app; tauto. }
    apply for_push with (i0 := ty * grid).
    + intros y walls v Hv. apply for_keep; [| done].
      intros x walls' v' Hv'. by apply Hmono.
    + apply elem_of_loop_values; [done |]. exists ty. lia.
    + intros walls. apply for_push with (i0 := tx * grid).
      * intros x walls' v' Hv'. by apply Hmono.
      * apply elem_of_loop_values; [done |]. exists tx. lia.
      * intros walls'.
        pose proof (tileRuns_line (data canvas) (width canvas) threshold grid
                      (tx * grid) (ty * grid) s L Hg Hs HL H2) as Hrun.
        destruct (Walls.tileRuns _ _ _ _ _ _) as [[[mh mv] h] v'].
        cbn in Hrun. rewrite Hrun.
        -- destruct (grid <? 2 * mv); rewrite ?elem_of_app, !list_elem_of_singleton; tauto.
        -- intros i Hi. unfold Walls.brightH. cbn zeta.
           rewrite Hb by done. done.
  - intros Hdark. unfold Walls.identifyWalls.
    apply (for_invariant (fun walls => walls = [])); [| done].
    intros y walls _ ->.
    apply (for_invariant (fun walls => walls = [])); [| done].
    intros x walls _ ->.
    rewrite tileRuns_dark by done.
    replace (grid <? 2 * 0) with false by (symmetry; apply Z.ltb_ge; lia).
    done.
Qed.

Lemma identifyWalls_line_witness :
  0 < 3 /\
  (0, 0, 3, 0) ∈ Walls.identifyWalls top_line 3 100 /\
  Walls.identifyWalls black3 3 100 = [].
Proof.
  split; [lia |]. split.
  - apply (proj1 (identifyWalls_line top_line 3 100 ltac:(lia)) 0 0 0 2);
      cbn [width height top_line]; try lia.
    intros i Hi. assert (i = 0 \/ i = 1) as [-> | ->] by lia; reflexivity.
  - apply (proj2 (identifyWalls_line black3 3 100 ltac:(lia))).
    intros j v Hj.
    destruct (decide (0 <= j < 9)) as [Hin | Hout].
    + assert (j = 0 \/ j = 1 \/ j = 2 \/ j = 3 \/ j = 4 \/ j = 5 \/ j = 6 \/
              j = 7 \/ j = 8) as Hcases by lia.
      repeat (destruct Hcases as [-> | Hcases];
              [cbv in Hj; injection Hj as <-; lia |]).
      subst j. cbv in Hj. injection Hj as <-. lia.
    + unfold JS.get in Hj. destruct (j * 4 <? 0) eqn:E; [done |].
      apply Z.ltb_ge in E. apply lookup_lt_Some in Hj.
      change (length (data black3)) with 36%nat in Hj. lia.
Defined.

(** C2 as it is stated fails: a run of bright samples whose length is exactly
    cellSize / 2 (one sample, in a tile of two) yields no segment. *)
Lemma identifyWalls_half_run_no_wall :
  let img := mkImage [255; 255; 255; 255; 0; 0; 0; 255;
                      0; 0; 0; 255; 0; 0; 0; 255] 2 2 in
  (forall i, 0 <= i < 0 + 1 ->
     Walls.reaches (JS.get (data img) ((0 * 2 * width img + 0 * 2 + i) * 4)) 100
     = true) /\
  2 <= 2 * 1 /\
  Walls.identifyWalls img 2 100 = [] /\
  (0, 0, 2, 0) ∉ Walls.identifyWalls img 2 100.
Proof.
  cbn zeta. split; [| split; [lia | split]].
  - intros i Hi. assert (i = 0) as -> by lia. reflexivity.
  - vm_compute. reflexivity.
  - assert (Walls.identifyWalls
              (mkImage [255; 255; 255; 255; 0; 0; 0; 255;
                        0; 0; 0; 255; 0; 0; 0; 255] 2 2) 2 100 = []) as ->
      by (vm_compute; reflexivity).
    apply not_elem_of_nil.
Qed.

Section WallBorders.
Import JS Walls.

Lemma brightH_top d w t x i :
  0 < w -> x + i < w ->
  brightH d w t x 0 i = reaches (get d ((x + i) * 4)) t.
Proof.
  intros Hw Hx. unfold brightH. cbn zeta.
  replace ((0 * w + x + i) * 4) with ((x + i) * 4) by lia.
  replace (0 <=? ((0 - 1) * w + x + i) * 4) with false
    by (symmetry; apply Z.leb_gt; lia).
  cbn [andb]. apply orb_false_r.
Qed.

Lemma brightV_corner d w t :
  0 < w -> brightV d w t 0 0 0 = reaches (get d 0) t.
Proof.
  intros Hw. unfold brightV. cbn zeta.
  replace (((0 + 0) * w + 0) * 4) with 0 by lia.
  replace (0 <=? ((0 + 0) * w + (0 - 1)) * 4) with false
    by (symmetry; apply Z.leb_gt; lia).
  cbn [andb]. apply orb_false_r.
Qed.

Lemma brightH_clamped_top img t x i :
  0 < width img -> 0 < height img -> 0 <= x + i < width img ->
  brightH_clamped img t x 0 i
  = reaches (get (data img) ((x + i) * 4)) t.
Proof.
  intros Hw Hh Hx. unfold brightH_clamped, clamped_sample.
  rewrite (clamp_index_id (x + i)) by done.
  replace (clamp_index 0 (height img)) with 0 by (unfold clamp_index; lia).
  replace (clamp_index (0 - 1) (height img)) with 0 by (unfold clamp_index; lia).
  replace ((0 * width img + (x + i)) * 4) with ((x + i) * 4) by lia.
  apply orb_diag.
Qed.

End WallBorders.

(** C6.  The grid wall extractor does not clamp coordinates: it guards the
    flat index of the adjacent sample ([index2 >= 0 && index2 < data.length]).
    The guard misses the column left of x = 0 in every row below the first:
    there the flat index of that sample is inside the buffer, it is the index
    of the last pixel of the row above, and that pixel is read and tested.
    With the sample coordinates clamped the test would depend on the tile's
    own sample only. *)
Theorem identifyWalls_left_sample_wraps img threshold y i :
  0 < width img ->
  JS.len (data img) = width img * height img * 4 ->
  1 <= y + i < height img ->
  Walls.brightV (data img) (width img) threshold 0 y i
  = Walls.reaches (JS.get (data img) (((y + i) * width img + 0) * 4)) threshold
    || Walls.reaches
         (JS.get (data img) (((y + i - 1) * width img + (width img - 1)) * 4))
         threshold
  /\ brightV_clamped img threshold 0 y i
     = Walls.reaches (JS.get (data img) (((y + i) * width img + 0) * 4)) threshold.
Proof.
  intros Hw Hlen Hy. split.
  - unfold Walls.brightV. cbn zeta.
    replace (((y + i) * width img + (0 - 1)) * 4)
      with (((y + i - 1) * width img + (width img - 1)) * 4) by ring.
    replace (0 <=? ((y + i - 1) * width img + (width img - 1)) * 4) with true
      by (symmetry; apply Z.leb_le; nia).
    replace (((y + i - 1) * width img + (width img - 1)) * 4 <? JS.len (data img))
      with true by (symmetry; apply Z.ltb_lt; rewrite Hlen; nia).
    done.
  - unfold brightV_clamped, clamped_sample.
    replace (JS.clamp_index (0 - 1) (width img)) with 0
      by (unfold JS.clamp_index; lia).
    replace (JS.clamp_index 0 (width img)) with 0
      by (unfold JS.clamp_index; lia).
    replace (JS.clamp_index (y + i) (height img)) with (y + i)
      by (unfold JS.clamp_index; lia).
    apply orb_diag.
Qed.

Lemma identifyWalls_left_sample_wraps_witness :
  0 < width lone_bright /\
  JS.len (data lone_bright) = width lone_bright * height lone_bright * 4 /\
  1 <= 1 + 0 < height lone_bright /\
  Walls.brightV (data lone_bright) (width lone_bright) 100 0 1 0
  = Walls.reaches (JS.get (data lone_bright) (((1 + 0) * 2 + 0) * 4)) 100
    || Walls.reaches (JS.get (data lone_bright) (((1 + 0 - 1) * 2 + (2 - 1)) * 4)) 100.
Proof.
  assert (0 < width lone_bright) as Hw by reflexivity.
  assert (JS.len (data lone_bright)
          = width lone_bright * height lone_bright * 4) as Hlen by reflexivity.
  assert (1 <= 1 + 0 < height lone_bright) as Hy by (cbn; lia).
  split; [exact Hw |]. split; [exact Hlen |]. split; [exact Hy |].
  exact (proj1 (identifyWalls_left_sample_wraps lone_bright 100 1 0 Hw Hlen Hy)).
Defined.

(** C6, the failing input.  On the 2 by 2 image whose only bright pixel is
    (1,0), with one-pixel tiles, the sample left of the tile at (0,1) is read
    at pixel (1,0), the end of the row above: the tile gets the vertical
    segment (0,1)-(0,2), which no sample at clamped coordinates accounts
    for.  (At y = 0 the flat index of the row above, -8 here, is outside the
    buffer and the check is skipped, which is what clamping gives too.) *)
Lemma identifyWalls_not_clamped :
  let img := lone_bright in
  ((0 - 1) * width img + 0 + 0) * 4 = -8 /\
  Walls.brightV (data img) (width img) 100 0 1 0 = true /\
  brightV_clamped img 100 0 1 0 = false /\
  Walls.identifyWalls img 1 100
  = [(1, 0, 2, 0); (1, 0, 1, 1); (0, 1, 0, 2); (1, 1, 2, 1)] /\
  identifyWalls_clamped img 1 100
  = [(1, 0, 2, 0); (1, 0, 1, 1); (1, 1, 2, 1)] /\
  Walls.identifyWalls img 1 100 <> identifyWalls_clamped img 1 100.
Proof. vm_compute. repeat split; discriminate. Qed.


(** ** The traces of the hysteresis end

    Every push on the stack marks a pixel that was not visited before, so
    that the number of pixels on the stack and of pixels not visited never
    grows: the loop of [trace] empties its stack within the rounds it is
    given, and more rounds change nothing. *)
Section Hysteresis.
Import JS Canny.

Lemma unvisited_le visited : (unvisited visited <= length visited)%nat.
Proof. unfold unvisited. apply length_filter. Qed.

Lemma unvisited_insert visited (n : nat) :
  visited !! n = Some 0 ->
  S (unvisited (<[n := 1]> visited)) = unvisited visited.
Proof.
  unfold unvisited. revert n.
  induction visited as [| v visited IH]; intros [| n] H; try done.
  - cbn in H. injection H as ->. cbn [insert list_insert].
    rewrite filter_cons_False by done. by rewrite filter_cons_True.
  - cbn [insert list_insert]. cbn in H.
    destruct (decide (v = 0)) as [-> | Hv].
    + rewrite !filter_cons_True by done. cbn [length]. f_equal. by apply IH.
    + rewrite !filter_cons_False by done. by apply IH.
Qed.

Lemma unvisited_set visited i :
  falsy (get visited i) = true -> 0 <= i < len visited ->
  S (unvisited (set visited i 1)) = unvisited visited.
Proof.
  unfold get, set, len, falsy. intros Hf Hi.
  destruct (i <? 0) eqn:E; [lia |].
  destruct (visited !! Z.to_nat i) as [v |] eqn:Hv.
  - apply Z.eqb_eq in Hf as ->. by apply unvisited_insert.
  - apply lookup_ge_None in Hv. lia.
Qed.

Lemma visitNeighbours_measured d width height low x y N m st :
  N = Z.to_nat (width * height) ->
  measured N m st ->
  measured N m (visitNeighbours d width height low x y st).
Proof.
  intros HN. unfold visitNeighbours.
  apply (for_invariant (measured N m)).
  intros i [[edges visited] stack] _ [Hlen Hm].
  destruct ((0 <=? x + sample dx i) && (x + sample dx i <? width)
            && (0 <=? y + sample dy i) && (y + sample dy i <? height))%bool
    eqn:Hin; [| done].
  destruct (falsy _ && reaches _ _)%bool eqn:Hpush; [| done].
  apply andb_true_iff in Hpush as [Hf _].
  repeat (apply andb_true_iff in Hin as [Hin ?]).
  cbn [measured]. rewrite set_length. split; [done |].
  cbn [length]. rewrite <- Hm, <- (unvisited_set visited _ Hf); [lia |].
  unfold len. rewrite Hlen, HN. nia.
Qed.

(** The loop empties the stack. *)
Lemma traceLoop_empties d width height low N fuel :
  N = Z.to_nat (width * height) ->
  forall m st,
    measured N m st -> (m <= fuel)%nat ->
    (traceLoop fuel d width height low st).2 = [].
Proof.
  intros HN. induction fuel as [| fuel IH];
    intros m [[edges visited] stack] Hst Hm.
  - destruct Hst as [_ Hst]. destruct stack; [done | cbn in Hst; lia].
  - destruct stack as [| [x y] stack]; [done |].
    cbn [traceLoop]. destruct Hst as [Hlen Hst]. cbn [length] in Hst.
    apply (IH (m - 1)%nat); [| lia].
    apply visitNeighbours_measured; [done |].
    split; [done | lia].
Qed.

(** More rounds than the loop needs change nothing. *)
Lemma traceLoop_more d width height low fuel :
  forall st more,
    (traceLoop fuel d width height low st).2 = [] ->
    traceLoop (fuel + more) d width height low st
    = traceLoop fuel d width height low st.
Proof.
  induction fuel as [| fuel IH]; intros [[edges visited] stack] more H.
  - cbn in H. subst stack. by destruct more.
  - destruct stack as [| [x y] stack]; [done |].
    cbn [traceLoop Nat.add] in *. by apply IH.
Qed.

(** [trace] runs its loop until the stack is empty, and keeps the size of
    [visited]. *)
Lemma trace_completes d width height low x y edges visited :
  length visited = Z.to_nat (width * height) ->
  (traceLoop (S (Z.to_nat (width * height))) d width height low
     (edges, visited, [(x, y)])).2 = []
  /\ length (trace d width height low x y edges visited).2
     = Z.to_nat (width * height).
Proof.
  intros Hlen.
  pose proof (unvisited_le visited) as Hle.
  split.
  - apply (traceLoop_empties d width height low (Z.to_nat (width * height))
             _ eq_refl (1 + unvisited visited)%nat); [| lia].
    split; [done | cbn; lia].
  - unfold trace.
    assert (forall fuel m st,
              measured (Z.to_nat (width * height)) m st ->
              exists m',
                measured (Z.to_nat (width * height)) m'
                  (traceLoop fuel d width height low st)) as Hkeep.
    { induction fuel as [| fuel IH]; intros m [[e v] s] Hst; [by exists m |].
      destruct s as [| [x' y'] s]; [by exists m |].
      cbn [traceLoop]. destruct Hst as [Hl Hs].
      apply (IH (length s + unvisited v)%nat).
      apply visitNeighbours_measured; [done |]. by split. }
    destruct (Hkeep (S (Z.to_nat (width * height)))
                (1 + unvisited visited)%nat (edges, visited, [(x, y)]))
      as [m' Hm']; [by split |].
    destruct (traceLoop _ _ _ _ _ _) as [[e v] s]. by destruct Hm'.
Qed.

End Hysteresis.


(** ** The wall merger *)

Section Decisions.

Lemma bool_decide_elem_of {A} `{EqDecision A} (x : A) (l : list A) :
  bool_decide (x ∈ l) = existsb (fun y => bool_decide (x = y)) l.
Proof.
  induction l as [| y l IH]; cbn.
  - apply bool_decide_eq_false_2, not_elem_of_nil.
  - rewrite <- IH. destruct (decide (x = y)) as [-> | Hne].
    + rewrite (bool_decide_eq_true_2 (y ∈ y :: l)) by apply list_elem_of_here.
      by rewrite (bool_decide_eq_true_2 (y = y)).
    + rewrite (bool_decide_eq_false_2 (x = y)) by done. cbn.
      apply bool_decide_ext. rewrite elem_of_cons. tauto.
Qed.

End Decisions.

(** The traversal over keys runs like the traversal over names [K] for them:
    [f] gives the key of a name, [eqb] compares two names as their keys
    compare, and [ab] gives the names of the keys of the wall at a
    position. *)
Section Simulation.
Import Names.
Context {K : Type}.
Variable f : K -> Scene.Key.
Variable eqb : K -> K -> bool.
Hypothesis Heqb : forall x y, bool_decide (f x = f y) = eqb x y.
Variable walls : list Scene.Wall.
Variable M : gmap string (Scene.Key * Scene.Key).
Variable ab : nat -> option (K * K).
Hypothesis Hab : forall n,
  (walls !! n ≫= fun w => M !! Scene.id w) = prod_map f f <$> ab n.

Lemma has_names k l : bool_decide (f k ∈ f <$> l) = has eqb k l.
Proof.
  rewrite bool_decide_elem_of. unfold has.
  induction l as [| y l IH]; cbn; [done |]. by rewrite Heqb, IH.
Qed.

Lemma mapAdd_names k n m :
  Scene.mapAdd (f k) n (keyed f m) = keyed f (mapAdd eqb k n m).
Proof.
  induction m as [| [k' s] m IH]; [done |].
  change (keyed f ((k', s) :: m)) with ((f k', s) :: keyed f m).
  cbn [Scene.mapAdd mapAdd]. rewrite Heqb.
  destruct (eqb k k'); [done |]. by rewrite IH.
Qed.

Lemma mapGet_names k m : Scene.mapGet (f k) (keyed f m) = mapGet eqb k m.
Proof.
  induction m as [| [k' s] m IH]; [done |].
  change (keyed f ((k', s) :: m)) with ((f k', s) :: keyed f m).
  cbn [Scene.mapGet mapGet]. rewrite Heqb. by destruct (eqb k k').
Qed.

(** A loop of calls of [visit], when every call runs alike. *)
Lemma visits_names m fuel ws :
  (forall n st,
     Scene.visit walls (keyed f m) M fuel n (state f st)
     = state f <$> visit eqb ab m fuel n st) ->
  forall st,
    fold_left (fun st n' => st ≫= Scene.visit walls (keyed f m) M fuel n')
      ws (state f <$> st)
    = state f <$> fold_left (fun st n' => st ≫= visit eqb ab m fuel n') ws st.
Proof.
  intros IH. induction ws as [| n ws IHws]; intros st; cbn; [done |].
  rewrite <- IHws. f_equal. destruct st as [st |]; cbn; [| done]. apply IH.
Qed.

Lemma visit_names m fuel n st :
  Scene.visit walls (keyed f m) M fuel n (state f st)
  = state f <$> visit eqb ab m fuel n st.
Proof.
  revert n st. induction fuel as [| fuel IH]; intros n [visitedK set]; [done |].
  cbn [Scene.visit visit state fst snd].
  pose proof (Hab n) as Hn.
  destruct (walls !! n) as [w |]; cbn in Hn |- *.
  2:{ by destruct (ab n) as [[a b] |]. }
  rewrite Hn. destruct (ab n) as [[a b] |]; cbn; [| done].
  assert (forall (k : K) (visitedK : list K) (set : list nat),
            (if bool_decide (f k ∈ f <$> visitedK)
             then Some (f <$> visitedK, set)
             else ws ← Scene.mapGet (f k) (keyed f m);
                  fold_left
                    (fun st n' =>
                       st ≫= Scene.visit walls (keyed f m) M fuel n')
                    ws (Some ((f <$> visitedK) ++ [f k], set)))
            = state f <$>
                (if has eqb k visitedK then Some (visitedK, set)
                 else ws ← mapGet eqb k m;
                      fold_left (fun st n' => st ≫= visit eqb ab m fuel n')
                        ws (Some (visitedK ++ [k], set)))) as Hkey.
  { intros k vk s. rewrite has_names, mapGet_names.
    destruct (has eqb k vk); [done |].
    destruct (mapGet eqb k m) as [ws |]; cbn; [| done].
    rewrite <- (visits_names m fuel ws IH).
    cbn. unfold state. cbn. by rewrite fmap_app. }
  rewrite Hkey.
  destruct (if has eqb a visitedK then _ else _) as [[vk s] |]; cbn; [| done].
  apply Hkey.
Qed.

Lemma entries_names m fuel l r :
  fold_left
    (fun r '(k, v) =>
       '(visitedK, sets) ← r;
       if bool_decide (k ∈ visitedK) then Some (visitedK, sets)
       else
         '(visitedK, set) ←
           fold_left
             (fun st n => st ≫= Scene.visit walls (keyed f m) M fuel n)
             v (Some (visitedK, []));
         Some (visitedK, sets ++ [set]))
    (keyed f l) (result f <$> r)
  = result f <$> entries eqb ab m fuel l r.
Proof.
  unfold entries. revert r.
  induction l as [| [k v] l IHl]; intros r; [done |].
  change (keyed f ((k, v) :: l)) with ((f k, v) :: keyed f l).
  cbn [fold_left]. rewrite <- IHl. f_equal.
  destruct r as [[vk sets] |]; [| done].
  cbn [fmap option_fmap option_map mbind option_bind result fst snd].
  rewrite has_names. destruct (has eqb k vk); [done |].
  pose proof (visits_names m fuel v (visit_names m fuel) (Some (vk, [])))
    as Hv.
  cbn [fmap option_fmap option_map] in Hv. unfold state at 1 in Hv.
  cbn [fst snd] in Hv.
  etrans; [exact (f_equal (fun o => o ≫= _) Hv) |].
  match goal with
  | |- (state f <$> ?o) ≫= _ = _ => by destruct o as [[vk' s'] |]
  end.
Qed.

Lemma wallSets_names m :
  Scene.wallSets walls (keyed f m) M = wallSets eqb ab m.
Proof.
  unfold Scene.wallSets, wallSets.
  assert (length (keyed f m) = length m) as -> by apply length_fmap.
  pose proof (entries_names m (S (length m)) m (Some ([], []))) as Hl.
  etrans; [exact (f_equal (fun o => o ≫= _) Hl) |].
  by destruct (entries eqb ab m _ m _) as [[vk sets] |].
Qed.

End Simulation.

(** Two walls with the keys [a1], [b1] and [a2], [b2]. *)
Section TwoWalls.
Import Scene.
Variables (w1 w2 : Wall) (M : gmap string (Key * Key)) (a1 b1 a2 b2 : Key).
Hypothesis H1 : M !! id w1 = Some (a1, b1).
Hypothesis H2 : M !! id w2 = Some (a2, b2).

Lemma compared_key x y :
  bool_decide (Names.key a1 b1 a2 b2 x = Names.key a1 b1 a2 b2 y)
  = Names.compared a1 b1 a2 b2 x y.
Proof.
  destruct x, y; cbn;
    first [ reflexivity | by apply bool_decide_eq_true_2
          | apply bool_decide_ext; split; congruence ].
Qed.

Lemma two_key n :
  ([w1; w2] !! n ≫= fun w => M !! id w)
  = prod_map (Names.key a1 b1 a2 b2) (Names.key a1 b1 a2 b2) <$> Names.two n.
Proof.
  destruct n as [| [| n]]; cbn; [by rewrite H1 | by rewrite H2 | done].
Qed.

Lemma two_walls_names :
  wallSets [w1; w2]
    (mapAdd b2 1%nat (mapAdd a2 1%nat (mapAdd b1 0%nat (mapAdd a1 0%nat [])))) M
  = Names.wallSets (Names.compared a1 b1 a2 b2) Names.two
      (Names.twoMap (Names.compared a1 b1 a2 b2)).
Proof.
  rewrite <- (wallSets_names (Names.key a1 b1 a2 b2) _ compared_key
                [w1; w2] M Names.two two_key).
  f_equal. unfold Names.twoMap.
  rewrite <- !(mapAdd_names (Names.key a1 b1 a2 b2) _ compared_key).
  reflexivity.
Qed.

(** Which of the four keys are equal: the traversal over the names is
    evaluated in every case. *)
Ltac cases :=
  unfold Names.compared;
  destruct (bool_decide_reflect (a1 = b1));
  destruct (bool_decide_reflect (a1 = a2));
  destruct (bool_decide_reflect (a1 = b2));
  destruct (bool_decide_reflect (b1 = a2));
  destruct (bool_decide_reflect (b1 = b2));
  destruct (bool_decide_reflect (a2 = b2));
  first [ by vm_compute | exfalso; clear H1 H2; intuition congruence ].

Lemma two_walls_apart :
  a1 <> a2 -> a1 <> b2 -> b1 <> a2 -> b1 <> b2 ->
  wallSets [w1; w2]
    (mapAdd b2 1%nat (mapAdd a2 1%nat (mapAdd b1 0%nat (mapAdd a1 0%nat [])))) M
  = Some [[0%nat]; [1%nat]].
Proof. intros. rewrite two_walls_names. cases. Qed.

Lemma two_walls_shared :
  a1 = a2 \/ a1 = b2 \/ b1 = a2 \/ b1 = b2 ->
  wallSets [w1; w2]
    (mapAdd b2 1%nat (mapAdd a2 1%nat (mapAdd b1 0%nat (mapAdd a1 0%nat [])))) M
  = Some [[0%nat; 1%nat]].
Proof. intros Hs. rewrite two_walls_names. cases. Qed.

End TwoWalls.

Section Merging.
Import Scene.
Variable CONST : Constants.
Variable Math_atan2 : Q -> Q -> Q.

Lemma buildMaps_two w1 w2 :
  buildMaps Math_atan2 [w1; w2] =
    (mapAdd (keys Math_atan2 w2).2 1%nat
       (mapAdd (keys Math_atan2 w2).1 1%nat
          (mapAdd (keys Math_atan2 w1).2 0%nat
             (mapAdd (keys Math_atan2 w1).1 0%nat []))),
     <[id w2 := keys Math_atan2 w2]> (<[id w1 := keys Math_atan2 w1]> ∅)).
Proof.
  unfold buildMaps. cbn [imap fold_left].
  destruct (keys Math_atan2 w1) as [a1 b1]. unfold compose.
  destruct (keys Math_atan2 w2) as [a2 b2].
  reflexivity.
Qed.

Lemma combine_two w1 w2 sets :
  plain CONST w1 = true -> plain CONST w2 = true -> id w1 <> id w2 ->
  wallSets [w1; w2]
    (mapAdd (keys Math_atan2 w2).2 1%nat
       (mapAdd (keys Math_atan2 w2).1 1%nat
          (mapAdd (keys Math_atan2 w1).2 0%nat
             (mapAdd (keys Math_atan2 w1).1 0%nat []))))
    (<[id w2 := keys Math_atan2 w2]> (<[id w1 := keys Math_atan2 w1]> ∅))
  = Some sets ->
  combineSceneWalls CONST Math_atan2 [w1; w2]
  = Some (map (bounding [w1; w2]) sets).
Proof.
  intros P1 P2 Hid Hsets. unfold combineSceneWalls.
  assert (filter (fun w => plain CONST w = true) [w1; w2] = [w1; w2]) as ->.
  { rewrite filter_cons_True by done. by rewrite filter_cons_True by done. }
  rewrite buildMaps_two, Hsets. reflexivity.
Qed.

Lemma keys_endpoints w :
  keys Math_atan2 w =
    ((rounded_endpoints w).1, bucket Math_atan2 w,
     ((rounded_endpoints w).2, bucket Math_atan2 w)).
Proof.
  unfold keys, rounded_endpoints, bucket.
  by destruct (c w) as [[[x1 y1] x2] y2].
Qed.

Lemma combineSceneWalls_shared w1 w2 :
  plain CONST w1 = true -> plain CONST w2 = true -> id w1 <> id w2 ->
  share_endpoint w1 w2 -> bucket Math_atan2 w1 = bucket Math_atan2 w2 ->
  combineSceneWalls CONST Math_atan2 [w1; w2] = Some [box2 (c w1) (c w2)].
Proof.
  intros P1 P2 Hid Hshare Hb.
  rewrite (combine_two w1 w2 [[0%nat; 1%nat]]); [| done | done | done |].
  2:{ apply two_walls_shared.
      - rewrite lookup_insert_ne, lookup_insert_eq by done.
        by destruct (keys Math_atan2 w1).
      - rewrite lookup_insert_eq. by destruct (keys Math_atan2 w2).
      - rewrite !keys_endpoints, Hb. unfold share_endpoint in Hshare.
        destruct (rounded_endpoints w1), (rounded_endpoints w2). cbn.
        intuition congruence. }
  do 2 f_equal. unfold bounding, box2. cbn.
  by destruct (c w1) as [[[? ?] ?] ?], (c w2) as [[[? ?] ?] ?].
Qed.

Lemma combineSceneWalls_apart w1 w2 :
  plain CONST w1 = true -> plain CONST w2 = true -> id w1 <> id w2 ->
  ~ share_endpoint w1 w2 ->
  combineSceneWalls CONST Math_atan2 [w1; w2] = Some [box (c w1); box (c w2)].
Proof.
  intros P1 P2 Hid Hshare.
  rewrite (combine_two w1 w2 [[0%nat]; [1%nat]]); [| done | done | done |].
  2:{ apply two_walls_apart.
      - rewrite lookup_insert_ne, lookup_insert_eq by done.
        by destruct (keys Math_atan2 w1).
      - rewrite lookup_insert_eq. by destruct (keys Math_atan2 w2).
      - rewrite !keys_endpoints. unfold share_endpoint in Hshare.
        destruct (rounded_endpoints w1), (rounded_endpoints w2). cbn.
        intros E. apply Hshare. injection E. tauto.
      - rewrite !keys_endpoints. unfold share_endpoint in Hshare.
        destruct (rounded_endpoints w1), (rounded_endpoints w2). cbn.
        intros E. apply Hshare. injection E. tauto.
      - rewrite !keys_endpoints. unfold share_endpoint in Hshare.
        destruct (rounded_endpoints w1), (rounded_endpoints w2). cbn.
        intros E. apply Hshare. injection E. tauto.
      - rewrite !keys_endpoints. unfold share_endpoint in Hshare.
        destruct (rounded_endpoints w1), (rounded_endpoints w2). cbn.
        intros E. apply Hshare. injection E. tauto. }
  unfold bounding, box. cbn.
  by destruct (c w1) as [[[? ?] ?] ?], (c w2) as [[[? ?] ?] ?].
Qed.

Lemma box_ordered x1 y1 x2 y2 :
  (x1 <= x2)%Q -> (y1 <= y2)%Q ->
  same_coords (box (x1, y1, x2, y2)) (x1, y1, x2, y2).
Proof.
  intros Hx Hy. unfold same_coords, box.
  rewrite (Q.min_l x1 x2), (Q.min_l y1 y2), (Q.max_r x1 x2), (Q.max_r y1 y2)
    by done.
  repeat split; reflexivity.
Qed.

End Merging.


(** ** The traversal of the wall merger ends

    A nested call of [visit] comes after a key of [wallMap] was added to
    [visitedK]: with more fuel than [wallMap] has entries the traversal
    never runs out of it, and [combineSceneWalls] returns for every scene. *)
Section Counting.
Context {A : Type}.
Implicit Types (P Q : A -> Prop) (l : list A).

Lemma filter_length_mono P Q `{DP : !forall x, Decision (P x)}
    `{DQ : !forall x, Decision (Q x)} l :
  (forall x, x ∈ l -> P x -> Q x) ->
  (length (filter P l) <= length (filter Q l))%nat.
Proof.
  induction l as [| y l IH]; intros HPQ; [done |].
  assert (length (filter P l) <= length (filter Q l))%nat as IH'.
  { apply IH. intros x Hx. apply HPQ. by apply list_elem_of_further. }
  destruct (decide (P y)) as [HP | HP].
  - rewrite (filter_cons_True P) by done.
    rewrite (filter_cons_True Q)
      by (apply HPQ; [apply list_elem_of_here | done]).
    cbn. lia.
  - rewrite (filter_cons_False P) by done.
    destruct (decide (Q y)).
    + rewrite (filter_cons_True Q) by done. cbn. lia.
    + by rewrite (filter_cons_False Q).
Qed.

Lemma filter_length_strict P Q `{DP : !forall x, Decision (P x)}
    `{DQ : !forall x, Decision (Q x)} l x :
  x ∈ l -> Q x -> ~ P x -> (forall y, y ∈ l -> P y -> Q y) ->
  (length (filter P l) < length (filter Q l))%nat.
Proof.
  induction l as [| y l IH]; intros Hx HQ HP HPQ;
    [by apply elem_of_nil in Hx |].
  assert (length (filter P l) <= length (filter Q l))%nat as Hle.
  { apply filter_length_mono. intros z Hz. apply HPQ.
    by apply list_elem_of_further. }
  apply elem_of_cons in Hx as [<- | Hx].
  - rewrite (filter_cons_False P), (filter_cons_True Q) by done. cbn. lia.
  - assert (length (filter P l) < length (filter Q l))%nat as IH'.
    { apply IH; try done. intros z Hz. apply HPQ.
      by apply list_elem_of_further. }
    destruct (decide (P y)) as [HPy | HPy].
    + rewrite (filter_cons_True P) by done.
      rewrite (filter_cons_True Q)
        by (apply HPQ; [apply list_elem_of_here | done]).
      cbn. lia.
    + rewrite (filter_cons_False P) by done.
      destruct (decide (Q y)).
      * rewrite (filter_cons_True Q) by done. cbn. lia.
      * by rewrite (filter_cons_False Q).
Qed.

End Counting.

Section WallMaps.
Import Scene.

Lemma elem_of_setAdd n s n' : n' ∈ setAdd n s <-> n' = n \/ n' ∈ s.
Proof.
  unfold setAdd. case_bool_decide as Hn.
  - split; [tauto |]. by intros [-> | H].
  - rewrite elem_of_app, list_elem_of_singleton. tauto.
Qed.

Lemma mapGet_elem k m v : mapGet k m = Some v -> (k, v) ∈ m.
Proof.
  induction m as [| [k' s] m IH]; [done |]. cbn [mapGet].
  case_bool_decide as Hk.
  - intros [= ->]. subst k'. apply list_elem_of_here.
  - intros H. apply list_elem_of_further. by apply IH.
Qed.

Lemma mapGet_mapAdd_same k n m : is_Some (mapGet k (mapAdd k n m)).
Proof.
  induction m as [| [k' s] m IH]; cbn [mapAdd mapGet].
  - by rewrite bool_decide_eq_true_2.
  - case_bool_decide as Hk; cbn [mapGet].
    + by rewrite bool_decide_eq_true_2.
    + by rewrite bool_decide_eq_false_2.
Qed.

Lemma mapGet_mapAdd_keep k k' n m :
  is_Some (mapGet k' m) -> is_Some (mapGet k' (mapAdd k n m)).
Proof.
  induction m as [| [k'' s] m IH]; cbn [mapAdd mapGet]; [by intros [? ?] |].
  case_bool_decide as Hk'; case_bool_decide as Hk; cbn [mapGet].
  - by rewrite bool_decide_eq_true_2.
  - by rewrite bool_decide_eq_true_2.
  - by rewrite bool_decide_eq_false_2.
  - by rewrite bool_decide_eq_false_2.
Qed.

Lemma elem_of_mapAdd k n m k' v' n' :
  (k', v') ∈ mapAdd k n m -> n' ∈ v' ->
  n' = n \/ exists v, (k', v) ∈ m /\ n' ∈ v.
Proof.
  induction m as [| [k'' s] m IH]; cbn [mapAdd].
  - rewrite list_elem_of_singleton. intros [= -> ->].
    rewrite list_elem_of_singleton. tauto.
  - case_bool_decide as Hk.
    + rewrite elem_of_cons. intros [[= -> ->] | H] Hn.
      * apply elem_of_setAdd in Hn as [-> | Hn]; [by left |].
        right. exists s. split; [apply list_elem_of_here | done].
      * right. exists v'. split; [by apply list_elem_of_further | done].
    + rewrite elem_of_cons. intros [[= -> ->] | H] Hn.
      * right. exists s. split; [apply list_elem_of_here | done].
      * destruct (IH H Hn) as [-> | (v & Hv & Hn')]; [by left |].
        right. exists v. split; [by apply list_elem_of_further | done].
Qed.

End WallMaps.

Section Traversal.
Import Scene.
Variable walls : list Wall.
Variable wallMap : WallMap.
Variable wallIdToAB : gmap string (Key * Key).

(** The keys of every wall are keys of [wallMap], and the sets of [wallMap]
    hold walls. *)
Hypothesis Hkeys : forall n w,
  walls !! n = Some w ->
  exists a b, wallIdToAB !! id w = Some (a, b) /\
              is_Some (mapGet a wallMap) /\ is_Some (mapGet b wallMap).
Hypothesis Hsets : forall k v n,
  (k, v) ∈ wallMap -> n ∈ v -> is_Some (walls !! n).

Lemma pending_le visitedK : (pending wallMap visitedK <= length wallMap)%nat.
Proof. unfold pending. apply length_filter. Qed.

Lemma pending_mono visitedK visitedK' :
  visitedK ⊆ visitedK' ->
  (pending wallMap visitedK' <= pending wallMap visitedK)%nat.
Proof.
  intros Hsub. unfold pending. apply filter_length_mono.
  intros e _ He Hin. apply He. by apply Hsub.
Qed.

Lemma pending_add visitedK k :
  is_Some (mapGet k wallMap) -> k ∉ visitedK ->
  (pending wallMap (visitedK ++ [k]) < pending wallMap visitedK)%nat.
Proof.
  intros [v Hv] Hk. unfold pending.
  apply (filter_length_strict _ _ _ (k, v)).
  - by apply mapGet_elem.
  - done.
  - cbn. intros H. apply H. apply elem_of_app. right.
    apply list_elem_of_here.
  - intros e _ He Hin. apply He. apply elem_of_app. by left.
Qed.

(** A loop of calls of [visit], when every call returns. *)
Lemma visits_return fuel ws :
  (forall n visitedK set,
     is_Some (walls !! n) -> (pending wallMap visitedK < fuel)%nat ->
     exists visitedK' set',
       visit walls wallMap wallIdToAB fuel n (visitedK, set)
       = Some (visitedK', set') /\ visitedK ⊆ visitedK') ->
  (forall n, n ∈ ws -> is_Some (walls !! n)) ->
  forall visitedK set,
    (pending wallMap visitedK < fuel)%nat ->
    exists visitedK' set',
      fold_left (fun st n' => st ≫= visit walls wallMap wallIdToAB fuel n')
        ws (Some (visitedK, set))
      = Some (visitedK', set') /\ visitedK ⊆ visitedK'.
Proof.
  intros Hvisit. induction ws as [| n ws IH]; intros Hws visitedK set Hp.
  - by exists visitedK, set.
  - cbn [fold_left mbind option_bind].
    destruct (Hvisit n visitedK set) as (vk1 & set1 & -> & Hsub1);
      [apply Hws, list_elem_of_here | done |].
    destruct (IH (fun n' H => Hws n' (list_elem_of_further _ _ _ H)) vk1 set1)
      as (vk2 & set2 & -> & Hsub2).
    { pose proof (pending_mono _ _ Hsub1). lia. }
    exists vk2, set2. split; [done | by etrans].
Qed.

Lemma visit_returns fuel :
  forall n visitedK set,
    is_Some (walls !! n) -> (pending wallMap visitedK < fuel)%nat ->
    exists visitedK' set',
      visit walls wallMap wallIdToAB fuel n (visitedK, set)
      = Some (visitedK', set') /\ visitedK ⊆ visitedK'.
Proof.
  induction fuel as [| fuel IH]; intros n visitedK set [w Hw] Hp; [lia |].
  pose (key := fun (k : Key) (st : Visit) =>
                 let '(visitedK, set) := st in
                 if bool_decide (k ∈ visitedK) then Some (visitedK, set)
                 else
                   ws ← mapGet k wallMap;
                   fold_left
                     (fun st n' => st ≫= visit walls wallMap wallIdToAB fuel n')
                     ws (Some (visitedK ++ [k], set))).
  change (visit walls wallMap wallIdToAB (S fuel) n (visitedK, set))
    with (w ← walls !! n;
          '(a, b) ← wallIdToAB !! id w;
          st ← key a (visitedK, setAdd n set);
          key b st).
  assert (forall k vk0 set0,
            is_Some (mapGet k wallMap) ->
            (pending wallMap vk0 <= fuel)%nat ->
            exists vk' set',
              key k (vk0, set0) = Some (vk', set') /\ vk0 ⊆ vk') as Hkey.
  { intros k vk0 set0 Hk Hp0. unfold key. case_bool_decide as Hin.
    - by exists vk0, set0.
    - pose proof (pending_add vk0 k Hk Hin) as Hlt.
      destruct Hk as [ws Hk]. rewrite Hk. cbn [mbind option_bind].
      destruct (visits_return fuel ws IH) with (visitedK := vk0 ++ [k])
                                                (set := set0)
        as (vk' & set' & -> & Hsub); [| lia |].
      + intros n' Hn'. eapply Hsets; [by apply mapGet_elem | done].
      + exists vk', set'. split; [done |].
        intros x Hx. apply Hsub. apply elem_of_app. by left. }
  clearbody key.
  rewrite Hw. cbn [mbind option_bind].
  destruct (Hkeys n w Hw) as (a & b & -> & Ha & Hb).
  cbn [mbind option_bind].
  destruct (Hkey a visitedK (setAdd n set) Ha) as (vk1 & set1 & -> & Hsub1);
    [lia |].
  cbn [mbind option_bind].
  destruct (Hkey b vk1 set1 Hb) as (vk2 & set2 & E2 & Hsub2).
  { pose proof (pending_mono _ _ Hsub1). lia. }
  exists vk2, set2. split; [exact E2 | by etrans].
Qed.

Lemma wallSets_returns : is_Some (wallSets walls wallMap wallIdToAB).
Proof.
  unfold wallSets.
  assert (forall l r,
            l ⊆ wallMap ->
            is_Some
              (fold_left
                 (fun r '(k, v) =>
                    '(visitedK, sets) ← r;
                    if bool_decide (k ∈ visitedK) then Some (visitedK, sets)
                    else
                      '(visitedK, set) ←
                        fold_left
                          (fun st n =>
                             st ≫= visit walls wallMap wallIdToAB
                                     (S (length wallMap)) n)
                          v (Some (visitedK, []));
                      Some (visitedK, sets ++ [set]))
                 l (Some r))) as Hl.
  { induction l as [| [k v] l IH]; intros [vk sets] Hsub; [done |].
    cbn [fold_left mbind option_bind].
    assert (l ⊆ wallMap) as Hsub'.
    { intros e He. apply Hsub. by apply list_elem_of_further. }
    case_bool_decide; [by apply IH |].
    destruct (visits_return (S (length wallMap)) v
                (visit_returns (S (length wallMap)))) with (visitedK := vk)
                                                           (set := @nil nat)
      as (vk' & set' & -> & _).
    - intros n Hn. apply (Hsets k v); [| done].
      apply Hsub, list_elem_of_here.
    - pose proof (pending_le vk). lia.
    - by apply IH. }
  destruct (Hl wallMap ([], [])) as [r ->]; [done |]. done.
Qed.

End Traversal.

Section Returns.
Import Scene.
Variable CONST : Constants.
Variable Math_atan2 : Q -> Q -> Q.

(** What the first loop keeps, over the walls it has gone through. *)
Lemma buildMaps_kept (l : list (nat * Wall)) :
  forall processed st,
    kept processed st ->
    kept (processed ++ l)
      (fold_left
         (fun '(wallMap, wallIdToAB) '(n, w) =>
            let '(a, b) := keys Math_atan2 w in
            let wallMap := mapAdd b n (mapAdd a n wallMap) in
            (wallMap, <[id w := (a, b)]> wallIdToAB))
         l st).
Proof.
  induction l as [| [n w] l IH]; intros processed [wm M] Hst.
  - by rewrite app_nil_r.
  - cbn [fold_left]. rewrite (cons_middle (n, w)), app_assoc. apply IH.
    destruct Hst as (H1 & H2 & H3).
    destruct (keys Math_atan2 w) as [a b]. split; [| split].
    + intros k v n' Hkv Hn'.
      destruct (elem_of_mapAdd _ _ _ _ _ _ Hkv Hn') as [-> | (v1 & Hv1 & Hn1)].
      { exists w. apply elem_of_app. right. apply list_elem_of_here. }
      destruct (elem_of_mapAdd _ _ _ _ _ _ Hv1 Hn1) as [-> | (v2 & Hv2 & Hn2)].
      { exists w. apply elem_of_app. right. apply list_elem_of_here. }
      destruct (H1 k v2 n' Hv2 Hn2) as [w' Hw'].
      exists w'. apply elem_of_app. by left.
    + intros i a' b' Hi.
      destruct (decide (id w = i)) as [<- | Hne].
      * rewrite lookup_insert_eq in Hi. injection Hi as <- <-. split.
        -- apply mapGet_mapAdd_keep, mapGet_mapAdd_same.
        -- apply mapGet_mapAdd_same.
      * rewrite lookup_insert_ne in Hi by done.
        destruct (H2 i a' b' Hi) as [Ha Hb].
        split; by do 2 apply mapGet_mapAdd_keep.
    + intros n' w' Hin. apply elem_of_app in Hin as [Hin | Hin].
      * destruct (decide (id w = id w')) as [E | Hne].
        -- rewrite E, lookup_insert_eq. done.
        -- rewrite lookup_insert_ne by done. by apply (H3 n').
      * apply list_elem_of_singleton in Hin. injection Hin as -> ->.
        rewrite lookup_insert_eq. done.
Qed.

(** [combineSceneWalls] returns the walls of every scene. *)
Lemma combineSceneWalls_returns sceneWalls :
  is_Some (combineSceneWalls CONST Math_atan2 sceneWalls).
Proof.
  unfold combineSceneWalls.
  set (walls := filter (fun w => plain CONST w = true) sceneWalls).
  assert (kept [] (([], ∅) : WallMap * gmap string (Key * Key))) as Hkept.
  { split; [| split].
    - intros k v n Hkv. by apply elem_of_nil in Hkv.
    - intros i a b Hi. by rewrite lookup_empty in Hi.
    - intros n w Hin. by apply elem_of_nil in Hin. }
  apply (buildMaps_kept (imap (fun n w => (n, w)) walls)) in Hkept.
  unfold buildMaps.
  destruct (fold_left _ (imap _ walls) _) as [wallMap wallIdToAB].
  destruct Hkept as (H1 & H2 & H3).
  rewrite app_nil_l in H1, H3.
  destruct (wallSets_returns walls wallMap wallIdToAB) as [sets ->]; [| | done].
  - intros n w Hw.
    destruct (H3 n w) as [[a b] Hab].
    { apply elem_of_lookup_imap. eauto. }
    exists a, b. split; [done |]. by apply (H2 (id w)).
  - intros k v n Hkv Hn. destruct (H1 k v n Hkv Hn) as [w Hw].
    apply elem_of_lookup_imap in Hw as (i & w' & [= -> ->] & Hw). eauto.
Qed.

End Returns.


Section Scenarios.
Import Scene.
Variable CONST : Constants.
Variable Math_atan2 : Q -> Q -> Q.

Lemma plain_wall_plain i cs : plain CONST (plain_wall CONST i cs) = true.
Proof.
  unfold plain, plain_wall. cbn. rewrite !Z.eqb_refl. reflexivity.
Qed.

Lemma scenario_merged :
  combineSceneWalls CONST Math_atan2
    [plain_wall CONST "a" (0, 0, 10, 0)%Q; plain_wall CONST "b" (10, 0, 20, 0)%Q]
  = Some [(0, 0, 20, 0)%Q].
Proof.
  rewrite combineSceneWalls_shared; try apply plain_wall_plain; try done.
  vm_compute. tauto.
Qed.

Lemma scenario_apart :
  combineSceneWalls CONST Math_atan2
    [plain_wall CONST "a" (0, 0, 10, 0)%Q; plain_wall CONST "b" (0, 10, 10, 10)%Q]
  = Some [(0, 0, 10, 0)%Q; (0, 10, 10, 10)%Q].
Proof.
  rewrite combineSceneWalls_apart; try apply plain_wall_plain; try done.
  vm_compute. intros [H | [H | [H | H]]]; discriminate.
Qed.

Lemma scenario_diagonal :
  combineSceneWalls CONST Math_atan2
    [plain_wall CONST "a" (0, 10, 10, 0)%Q; plain_wall CONST "b" (0, 20, 10, 20)%Q]
  = Some [(0, 0, 10, 10)%Q; (0, 20, 10, 20)%Q].
Proof.
  rewrite combineSceneWalls_apart; try apply plain_wall_plain; try done.
  vm_compute. intros [H | [H | [H | H]]]; discriminate.
Qed.

End Scenarios.

(** C3 (as amended). [combineSceneWalls] applied to exactly two plain
    segments that share a rounded endpoint and have equal direction buckets
    outputs exactly one segment, from the least to the greatest x and y of
    all four endpoints; applied to exactly two plain segments that share no
    rounded endpoint it outputs two segments, each from the least to the
    greatest x and y of one input: the input itself when its endpoints are
    given in increasing x and y.  (0,0)-(10,0) and (10,0)-(20,0) yield the
    single segment (0,0)-(20,0); (0,0)-(10,0) and (0,10)-(10,10) yield both
    inputs unchanged. *)
Theorem combineSceneWalls_two (CONST : Scene.Constants) (Math_atan2 : Q -> Q -> Q) :
  (forall w1 w2,
     Scene.plain CONST w1 = true -> Scene.plain CONST w2 = true ->
     Scene.id w1 <> Scene.id w2 ->
     (share_endpoint w1 w2 ->
      Scene.bucket Math_atan2 w1 = Scene.bucket Math_atan2 w2 ->
      Scene.combineSceneWalls CONST Math_atan2 [w1; w2]
      = Some [box2 (Scene.c w1) (Scene.c w2)])
     /\
     (~ share_endpoint w1 w2 ->
      Scene.combineSceneWalls CONST Math_atan2 [w1; w2]
      = Some [box (Scene.c w1); box (Scene.c w2)]))
  /\
  (forall x1 y1 x2 y2, (x1 <= x2)%Q -> (y1 <= y2)%Q ->
     same_coords (box (x1, y1, x2, y2)) (x1, y1, x2, y2))
  /\
  Scene.combineSceneWalls CONST Math_atan2
    [plain_wall CONST "a" (0, 0, 10, 0)%Q; plain_wall CONST "b" (10, 0, 20, 0)%Q]
  = Some [(0, 0, 20, 0)%Q]
  /\
  Scene.combineSceneWalls CONST Math_atan2
    [plain_wall CONST "a" (0, 0, 10, 0)%Q; plain_wall CONST "b" (0, 10, 10, 10)%Q]
  = Some [(0, 0, 10, 0)%Q; (0, 10, 10, 10)%Q].
Proof.
  split; [| split; [| split]].
  - intros w1 w2 P1 P2 Hid. split.
    + intros Hs Hb. by apply combineSceneWalls_shared.
    + intros Hs. by apply combineSceneWalls_apart.
  - apply box_ordered.
  - apply scenario_merged.
  - apply scenario_apart.
Qed.

Lemma combineSceneWalls_two_witness :
  Scene.plain foundry (plain_wall foundry "a" (0, 10, 10, 0)%Q) = true /\
  Scene.plain foundry (plain_wall foundry "b" (10, 0, 20, -10)%Q) = true /\
  Scene.combineSceneWalls foundry (fun y x => y / (x + y))%Q
    [plain_wall foundry "a" (0, 10, 10, 0)%Q;
     plain_wall foundry "b" (10, 0, 20, -10)%Q]
  = Some [(0, -10, 20, 10)%Q].
Proof.
  split; [reflexivity |]. split; [reflexivity |].
  apply (proj1 (proj1 (combineSceneWalls_two foundry (fun y x => y / (x + y))%Q)
                  (plain_wall foundry "a" (0, 10, 10, 0)%Q)
                  (plain_wall foundry "b" (10, 0, 20, -10)%Q)
                  eq_refl eq_refl ltac:(discriminate))).
  - vm_compute. tauto.
  - vm_compute. reflexivity.
Defined.

(** C3 as it is stated fails: the segments (0,10)-(10,0) and (0,20)-(10,20)
    share no rounded endpoint, and the first one comes out as (0,0)-(10,10),
    the other diagonal of its bounding box, whatever [Math.atan2] gives. *)
Lemma combineSceneWalls_apart_not_unchanged :
  ~ share_endpoint (plain_wall foundry "a" (0, 10, 10, 0)%Q)
                   (plain_wall foundry "b" (0, 20, 10, 20)%Q) /\
  (forall Math_atan2,
     Scene.combineSceneWalls foundry Math_atan2
       [plain_wall foundry "a" (0, 10, 10, 0)%Q;
        plain_wall foundry "b" (0, 20, 10, 20)%Q]
     = Some [(0, 0, 10, 10)%Q; (0, 20, 10, 20)%Q]) /\
  ~ same_coords (0, 0, 10, 10)%Q (0, 10, 10, 0)%Q.
Proof.
  split; [| split].
  - vm_compute. intros [H | [H | [H | H]]]; discriminate.
  - intros Math_atan2. apply scenario_diagonal.
  - vm_compute. intros (_ & H & _). discriminate.
Qed.


Section NearestCentroid.
Import KMeans.

Lemma closest_fold centroids p (l : list nat) :
  forall minDist c,
    (match minDist with
     | Some m => m = dist2 p (centroid centroids c)
     | None => True
     end) ->
    let r := fold_left
               (fun '(minDist, closestCluster) j =>
                  let dist := dist2 p (centroid centroids j) in
                  match minDist with
                  | Some m => if Qlt_le_dec dist m then (Some dist, j)
                              else (minDist, closestCluster)
                  | None => (Some dist, j)
                  end)
               l (minDist, c) in
    (forall j, j ∈ l ->
       (dist2 p (centroid centroids r.2) <= dist2 p (centroid centroids j))%Q) /\
    (forall m, minDist = Some m ->
       (dist2 p (centroid centroids r.2) <= m)%Q) /\
    (r.2 = c \/ r.2 ∈ l).
Proof.
  induction l as [| j l IH]; intros minDist c Hinv r.
  - subst r. cbn. split; [intros j Hj; by apply elem_of_nil in Hj |].
    split; [| by left]. intros m ->. cbn in *. rewrite Hinv. apply Qle_refl.
  - subst r. cbn [fold_left].
    destruct minDist as [m |].
    + cbv beta iota zeta.
      destruct (Qlt_le_dec (dist2 p (centroid centroids j)) m) as [Hlt | Hge].
      * destruct (IH (Some (dist2 p (centroid centroids j))) j eq_refl)
          as (IH1 & IH2 & IH3).
        cbv beta iota zeta in IH1, IH2, IH3.
        split; [| split].
        -- intros j' Hj'. apply elem_of_cons in Hj' as [-> | Hj'].
           ++ by apply IH2.
           ++ by apply IH1.
        -- intros m' [= <-]. specialize (IH2 _ eq_refl). Lqa.lra.
        -- right. destruct IH3 as [-> | H]; [apply list_elem_of_here |].
           by apply list_elem_of_further.
      * destruct (IH (Some m) c Hinv) as (IH1 & IH2 & IH3).
        cbv beta iota zeta in IH1, IH2, IH3.
        split; [| split].
        -- intros j' Hj'. apply elem_of_cons in Hj' as [-> | Hj'].
           ++ specialize (IH2 _ eq_refl). Lqa.lra.
           ++ by apply IH1.
        -- intros m' [= <-]. by apply IH2.
        -- destruct IH3 as [-> | H]; [by left |].
           right. by apply list_elem_of_further.
    + cbv beta iota zeta.
      destruct (IH (Some (dist2 p (centroid centroids j))) j eq_refl)
        as (IH1 & IH2 & IH3).
      cbv beta iota zeta in IH1, IH2, IH3.
      split; [| split].
      * intros j' Hj'. apply elem_of_cons in Hj' as [-> | Hj'].
        -- by apply IH2.
        -- by apply IH1.
      * intros m' [=].
      * right. destruct IH3 as [-> | H]; [apply list_elem_of_here |].
        by apply list_elem_of_further.
Qed.

(** The nearest centroid is at least as near as any other. *)
Lemma closest_min centroids k p j :
  (j < k)%nat ->
  (dist2 p (centroid centroids (closest centroids k p))
   <= dist2 p (centroid centroids j))%Q.
Proof.
  intros Hj. unfold closest.
  destruct (closest_fold centroids p (seq 0 k) None 0%nat I) as (H & _ & _).
  apply H. apply elem_of_seq. lia.
Qed.

Lemma closest_lt centroids k p : (0 < k)%nat -> (closest centroids k p < k)%nat.
Proof.
  intros Hk. unfold closest.
  pose proof (closest_fold centroids p (seq 0 k) None 0%nat I) as H.
  cbv zeta in H. destruct H as (_ & _ & H).
  unfold snd in *. destruct (fold_left _ _ _) as [m c].
  destruct H as [-> | H]; [done |].
  apply elem_of_seq in H. lia.
Qed.

End NearestCentroid.

Section ClusterCost.
Import KMeans.

Lemma squared_cost_cons p ps cs c cl :
  squared_cost (p :: ps) cs (c :: cl)
  = (dist2 p (centroid cs c) + squared_cost ps cs cl)%Q.
Proof. reflexivity. Qed.

(** Assigning every pixel to its nearest centroid does not raise the cost. *)
Lemma assign_cost pixels centroids k clusters :
  length clusters = length pixels -> Forall (fun c => (c < k)%nat) clusters ->
  (squared_cost pixels centroids (assign pixels centroids k)
   <= squared_cost pixels centroids clusters)%Q.
Proof.
  revert clusters. induction pixels as [| p ps IH]; intros [| c cl] Hlen Hk;
    try done.
  apply Forall_cons in Hk as [Hc Hcl].
  unfold assign. cbn [map]. rewrite !squared_cost_cons.
  pose proof (closest_min centroids k p c Hc).
  specialize (IH cl ltac:(cbn in Hlen; lia) Hcl). unfold assign in IH.
  Lqa.lra.
Qed.

Lemma assign_length pixels centroids k :
  length (assign pixels centroids k) = length pixels.
Proof. unfold assign. apply length_map. Qed.

Lemma assign_lt pixels centroids k :
  (0 < k)%nat -> Forall (fun c => (c < k)%nat) (assign pixels centroids k).
Proof.
  intros Hk. unfold assign. apply Forall_map, Forall_forall.
  intros p _. by apply closest_lt.
Qed.

(** *** The members of a cluster *)

Lemma members_cons_eq p j zs : members j ((p, j) :: zs) = p :: members j zs.
Proof. unfold members. by rewrite filter_cons_True. Qed.

Lemma members_cons_ne p c j zs : c <> j -> members j ((p, c) :: zs) = members j zs.
Proof. intros H. unfold members. by rewrite filter_cons_False. Qed.

(** The loop that accumulates the sums and the counts. *)
Lemma accumulate_fold zs :
  forall (sums : list Point) (counts : list Z),
    let r := fold_left
               (fun '(newCentroids, counts) '(pixel, cluster) =>
                  (alter (fun s => padd s pixel) cluster newCentroids,
                   alter (fun n => n + 1) cluster counts))
               zs (sums, counts) in
    length r.1 = length sums /\ length r.2 = length counts /\
    forall j,
      r.1 !! j = (fun s => psum (members j zs) s) <$> sums !! j /\
      r.2 !! j = (fun n => n + Z.of_nat (length (members j zs))) <$> counts !! j.
Proof.
  induction zs as [| [p c] zs IH]; intros sums counts r.
  - subst r. cbn. repeat split; try done.
    + by destruct (sums !! j).
    + destruct (counts !! j) as [n |]; cbn; [f_equal; lia | done].
  - subst r. cbn [fold_left].
    destruct (IH (alter (fun s => padd s p) c sums)
                 (alter (fun n => n + 1) c counts)) as (Hl1 & Hl2 & Hj).
    cbv zeta in *. rewrite !length_alter in *.
    split; [done |]. split; [done |]. intros j.
    destruct (Hj j) as [Hs Hn]. rewrite Hs, Hn.
    destruct (decide (c = j)) as [-> | Hne].
    + rewrite !list_lookup_alter_eq, members_cons_eq.
      split.
      * by destruct (sums !! j).
      * destruct (counts !! j) as [n |]; cbn; [f_equal; lia | done].
    + rewrite !list_lookup_alter_ne by done.
      by rewrite members_cons_ne.
Qed.

End ClusterCost.

Section MeanMinimises.
Import KMeans.

Lemma Qsum_cons x l : Qsum (x :: l) = (x + Qsum l)%Q.
Proof. reflexivity. Qed.

Lemma Qsum_plus {B} (f g : B -> Q) (l : list B) :
  (Qsum (map (fun x => f x + g x) l) == Qsum (map f l) + Qsum (map g l))%Q.
Proof.
  induction l as [| x l IH]; cbn [map]; rewrite ?Qsum_cons.
  - reflexivity.
  - rewrite IH. ring.
Qed.

Lemma Qsum_le {B} (f g : B -> Q) (l : list B) :
  (forall x, x ∈ l -> (f x <= g x)%Q) -> (Qsum (map f l) <= Qsum (map g l))%Q.
Proof.
  induction l as [| x l IH]; intros H; cbn [map]; rewrite ?Qsum_cons.
  - apply Qle_refl.
  - apply Qplus_le_compat.
    + apply H, list_elem_of_here.
    + apply IH. intros y Hy. apply H. by apply list_elem_of_further.
Qed.

Lemma Qsum_zero {B} (l : list B) : (Qsum (map (fun _ => 0) l) == 0)%Q.
Proof.
  induction l as [| x l IH]; cbn [map]; rewrite ?Qsum_cons; [reflexivity |].
  rewrite IH. ring.
Qed.

(** The sum over [j < k] of a value counted at [j = c] only. *)
Lemma Qsum_indicator (c k : nat) (a : Q) :
  (c < k)%nat ->
  (Qsum (map (fun j => if decide (c = j) then a else 0) (seq 0 k)) == a)%Q.
Proof.
  induction k as [| k IH]; intros Hc; [lia |].
  rewrite seq_S, map_app. cbn [map Nat.add].
  assert (forall l1 l2, Qsum (l1 ++ l2) == Qsum l1 + Qsum l2)%Q as Happ.
  { induction l1 as [| x l1 IHl]; intros l2; cbn [app]; rewrite ?Qsum_cons.
    - unfold Qsum at 2. cbn. ring.
    - rewrite IHl. ring. }
  rewrite Happ, !Qsum_cons.
  destruct (decide (c = k)) as [-> | Hne].
  - rewrite (Qsum_ext _ (fun _ => 0%Q)).
    + rewrite Qsum_zero. unfold Qsum. cbn. ring.
    + intros j Hj. apply elem_of_seq in Hj.
      destruct (decide (k = j)); [lia | reflexivity].
  - rewrite IH by lia. unfold Qsum. cbn. ring.
Qed.

(** The cost, cluster by cluster. *)
Lemma regroup (g : Point * nat -> Q) (k : nat) (zs : list (Point * nat)) :
  Forall (fun z => (z.2 < k)%nat) zs ->
  (Qsum (map g zs)
   == Qsum (map (fun j => Qsum (map g (filter (fun z => z.2 = j) zs)))
                (seq 0 k)))%Q.
Proof.
  induction 1 as [| z zs Hz Hzs IH]; cbn [map]; rewrite ?Qsum_cons.
  - rewrite (Qsum_ext _ (fun _ => 0%Q)); [by rewrite Qsum_zero |].
    intros j _. reflexivity.
  - rewrite (Qsum_ext _ (fun j => (if decide (z.2 = j) then g z else 0)
                                  + Qsum (map g (filter (fun z => z.2 = j) zs)))%Q).
    + rewrite Qsum_plus, Qsum_indicator, <- IH by done. reflexivity.
    + intros j _. destruct (decide (z.2 = j)) as [E | E].
      * rewrite filter_cons_True by done. reflexivity.
      * rewrite filter_cons_False by done. ring.
Qed.

Lemma squared_cost_clusters pixels centroids clusters k :
  Forall (fun c => (c < k)%nat) clusters ->
  (squared_cost pixels centroids clusters
   == Qsum (map (fun j =>
                   Qsum (map (fun p => dist2 p (centroid centroids j))
                             (members j (zip pixels clusters))))
                (seq 0 k)))%Q.
Proof.
  intros Hk. unfold squared_cost.
  rewrite zip_with_zip.
  transitivity (Qsum (map (fun z : Point * nat => dist2 z.1 (centroid centroids z.2))
                          (zip pixels clusters))).
  { apply (Qsum_ext (uncurry (fun p cl => dist2 p (centroid centroids cl)))).
    intros [p c] _. reflexivity. }
  rewrite (regroup _ k).
  - apply Qsum_ext. intros j _. unfold members.
    change (filter (fun z : Point * nat => z.2 = j) (zip pixels clusters)).*1
      with (map fst (filter (fun z : Point * nat => z.2 = j) (zip pixels clusters))).
    rewrite map_map. apply Qsum_ext. intros z Hz.
    apply list_elem_of_filter in Hz as [-> _]. reflexivity.
  - apply Forall_forall. intros [p c] Hz.
    apply elem_of_zip_r in Hz. cbn.
    by eapply Forall_forall in Hk.
Qed.

(** One channel: the sum of the squared deviations from [c], against the
    one from [m]. *)
Lemma deviations (xs : list Q) (m c : Q) :
  (Qsum (map (fun x => (x - c) * (x - c)) xs)
   == Qsum (map (fun x => (x - m) * (x - m)) xs)
      + (m - c) * (2 * Qsum xs - inject_Z (Z.of_nat (length xs)) * (m + c)))%Q.
Proof.
  induction xs as [| x xs IH]; cbn [map length]; rewrite ?Qsum_cons.
  - unfold Qsum. cbn. ring.
  - rewrite IH, Nat2Z.inj_succ. unfold Z.succ. rewrite inject_Z_plus.
    change (inject_Z 1) with 1%Q. ring.
Qed.

Lemma mean_minimises (xs : list Q) (m c : Q) :
  (inject_Z (Z.of_nat (length xs)) * m == Qsum xs)%Q ->
  (Qsum (map (fun x => (x - m) * (x - m)) xs)
   <= Qsum (map (fun x => (x - c) * (x - c)) xs))%Q.
Proof.
  intros Hm. rewrite (deviations xs m c), <- Hm.
  assert (0 <= inject_Z (Z.of_nat (length xs)))%Q as Hn.
  { change 0%Q with (inject_Z 0). rewrite <- Zle_Qle. lia. }
  assert (0 <= (m - c) * (m - c))%Q as Hsq by apply Qsquare_nonneg.
  assert ((m - c) * (2 * (inject_Z (Z.of_nat (length xs)) * m)
                     - inject_Z (Z.of_nat (length xs)) * (m + c))
          == inject_Z (Z.of_nat (length xs)) * ((m - c) * (m - c)))%Q as -> by ring.
  pose proof (Qmult_le_0_compat _ _ Hn Hsq) as Hpos.
  set (t := (inject_Z (Z.of_nat (length xs)) * ((m - c) * (m - c)))%Q) in *.
  set (A := Qsum (map (fun x => (x - m) * (x - m))%Q xs)).
  Lqa.lra.
Qed.

End MeanMinimises.

Section Update.
Import KMeans.

Lemma dist2_channels p c :
  dist2 p c
  = ((red p - red c) * (red p - red c) + (green p - green c) * (green p - green c)
     + (blue p - blue c) * (blue p - blue c))%Q.
Proof. by destruct p as [[? ?] ?], c as [[? ?] ?]. Qed.

Lemma psum_channels ps :
  forall s0,
    (red (psum ps s0) == red s0 + Qsum (map red ps))%Q /\
    (green (psum ps s0) == green s0 + Qsum (map green ps))%Q /\
    (blue (psum ps s0) == blue s0 + Qsum (map blue ps))%Q.
Proof.
  induction ps as [| p ps IH]; intros s0; cbn [psum fold_left map];
    rewrite ?Qsum_cons.
  - unfold Qsum. cbn. repeat split; ring.
  - destruct (IH (padd s0 p)) as (Hr & Hg & Hb). unfold psum in *.
    rewrite Hr, Hg, Hb.
    destruct s0 as [[? ?] ?], p as [[? ?] ?]. cbn. repeat split; ring.
Qed.

(** The mean of a cluster minimises the cost of the cluster. *)
Lemma cluster_mean_cost (M : list Point) (m c : Point) :
  (inject_Z (Z.of_nat (length M)) * red m == Qsum (map red M))%Q ->
  (inject_Z (Z.of_nat (length M)) * green m == Qsum (map green M))%Q ->
  (inject_Z (Z.of_nat (length M)) * blue m == Qsum (map blue M))%Q ->
  (Qsum (map (fun p => dist2 p m) M) <= Qsum (map (fun p => dist2 p c) M))%Q.
Proof.
  intros Hr Hg Hb.
  assert (forall v : Point,
            Qsum (map (fun p => dist2 p v) M)
            == Qsum (map (fun x => (x - red v) * (x - red v)) (map red M))
               + Qsum (map (fun x => (x - green v) * (x - green v)) (map green M))
               + Qsum (map (fun x => (x - blue v) * (x - blue v)) (map blue M)))%Q
    as Hsplit.
  { intros v. rewrite !map_map, <- !Qsum_plus.
    apply Qsum_ext. intros p _. by rewrite dist2_channels. }
  rewrite !Hsplit.
  pose proof (mean_minimises (map red M) (red m) (red c)) as H1.
  pose proof (mean_minimises (map green M) (green m) (green c)) as H2.
  pose proof (mean_minimises (map blue M) (blue m) (blue c)) as H3.
  rewrite length_map in H1, H2, H3.
  specialize (H1 Hr). specialize (H2 Hg). specialize (H3 Hb).
  Lqa.lra.
Qed.

Lemma newCentroids_lookup pixels clusters k j :
  (j < k)%nat ->
  newCentroids pixels clusters k !! j =
    Some (let M := members j (zip pixels clusters) in
          let n := Z.of_nat (length M) in
          if 0 <? n then pdiv (psum M (0, 0, 0)%Q) n else psum M (0, 0, 0)%Q).
Proof.
  intros Hj. unfold newCentroids, accumulate.
  pose proof (accumulate_fold (zip pixels clusters)
                (replicate k (0, 0, 0)%Q) (replicate k 0)) as H.
  cbv zeta in H. destruct (fold_left _ _ _) as [sums counts].
  destruct H as (_ & _ & H). destruct (H j) as [Hs Hn].
  cbn [fst snd] in Hs, Hn.
  rewrite lookup_replicate_2 in Hs by done.
  rewrite lookup_replicate_2 in Hn by done.
  cbn [fmap option_fmap option_map] in Hn. rewrite Z.add_0_l in Hn.
  rewrite lookup_zip_with, Hs, Hn. reflexivity.
Qed.

(** Moving the centroids to the means does not raise the cost. *)
Lemma update_cost pixels centroids clusters k :
  Forall (fun c => (c < k)%nat) clusters ->
  (squared_cost pixels (newCentroids pixels clusters k) clusters
   <= squared_cost pixels centroids clusters)%Q.
Proof.
  intros Hk. rewrite !(squared_cost_clusters pixels _ clusters k) by done.
  apply Qsum_le. intros j Hj. apply elem_of_seq in Hj.
  unfold centroid at 1. rewrite newCentroids_lookup by lia.
  cbn [default from_option]. unfold Datatypes.id.
  set (M := members j (zip pixels clusters)). cbv zeta.
  destruct M as [| p M'] eqn:EM; [apply Qle_refl |]. rewrite <- EM.
  assert ((0 <? Z.of_nat (length M)) = true) as ->.
  { apply Z.ltb_lt. rewrite EM. cbn [length]. lia. }
  destruct (psum_channels M (0, 0, 0)%Q) as (Hr & Hg & Hb).
  assert (~ inject_Z (Z.of_nat (length M)) == 0)%Q as Hn.
  { rewrite EM. cbn [length]. change 0%Q with (inject_Z 0).
    rewrite inject_Z_injective. lia. }
  apply cluster_mean_cost.
  - transitivity (red (psum M (0, 0, 0)%Q)); [| rewrite Hr; cbn; ring].
    destruct (psum M (0, 0, 0)%Q) as [[r g] b].
    unfold pdiv, red, green, blue. cbn [fst snd]. by field.
  - transitivity (green (psum M (0, 0, 0)%Q)); [| rewrite Hg; cbn; ring].
    destruct (psum M (0, 0, 0)%Q) as [[r g] b].
    unfold pdiv, red, green, blue. cbn [fst snd]. by field.
  - transitivity (blue (psum M (0, 0, 0)%Q)); [| rewrite Hb; cbn; ring].
    destruct (psum M (0, 0, 0)%Q) as [[r g] b].
    unfold pdiv, red, green, blue. cbn [fst snd]. by field.
Qed.

(** Two consecutive iterations. *)
Lemma iterations_step n :
  forall pixels k threshold centroids t c1 cl1 c2 cl2,
    iterations n pixels k threshold centroids !! t = Some (c1, cl1) ->
    iterations n pixels k threshold centroids !! S t = Some (c2, cl2) ->
    cl1 = assign pixels c1 k /\ c2 = newCentroids pixels cl1 k /\
    cl2 = assign pixels c2 k.
Proof.
  induction n as [| n IH]; intros pixels k threshold centroids t c1 cl1 c2 cl2;
    [done |].
  cbn [iterations].
  destruct (converged _ _ _ _) eqn:E.
  - destruct t; done.
  - destruct t as [| t].
    + cbn. intros [= <- <-]. destruct n as [| n]; [done |].
      cbn [iterations]. cbn. intros [= <- <-]. done.
    + cbn. apply IH.
Qed.

(** The final state is that of the last iteration. *)
Lemma mainLoop_last n :
  forall pixels k threshold centroids clusters,
    mainLoop n pixels k threshold centroids clusters =
      match last (iterations n pixels k threshold centroids) with
      | Some (c, cl) => (cl, newCentroids pixels cl k)
      | None => (clusters, centroids)
      end.
Proof.
  induction n as [| n IH]; intros pixels k threshold centroids clusters; [done |].
  cbn [mainLoop iterations].
  destruct (converged _ _ _ _) eqn:E; [done |].
  rewrite IH. rewrite last_cons.
  by destruct (last (iterations n pixels k threshold _)) as [[c cl] |].
Qed.

End Update.

Section Seeds.
Import KMeans.
Variable Math_random : nat -> Q.

(** Every round of the seeding loop adds one centroid. *)
Lemma seeds_length pixels (l : list nat) :
  forall acc cs,
    fold_left
      (fun centroids i =>
         centroids ← centroids;
         let distances := map (nearest2 centroids) pixels in
         let sum := fold_left Qplus distances 0%Q in
         let threshold := (Math_random i * sum)%Q in
         let j := pick threshold distances 0%nat in
         next ← pixels !! (Nat.max 0 (j - 1));
         Some (centroids ++ [next]))
      l acc = Some cs ->
    exists c0, acc = Some c0 /\ length cs = (length c0 + length l)%nat.
Proof.
  induction l as [| i l IH]; intros acc cs H.
  - exists cs. cbn in *. split; [done | lia].
  - cbn [fold_left] in H. apply IH in H as (c1 & H1 & Hlen).
    destruct acc as [c0 |]; [| done]. cbn in H1.
    destruct (pixels !! _) as [next |]; [| done]. cbn in H1.
    injection H1 as <-. exists c0. split; [done |].
    rewrite Hlen, length_app. cbn. lia.
Qed.

(** The seeding returns [k] centroids. *)
Lemma initializeCentroidsKMeansPP_length pixels k centroids :
  (0 < k)%nat ->
  initializeCentroidsKMeansPP Math_random pixels k = Some centroids ->
  length centroids = k.
Proof.
  intros Hk. unfold initializeCentroidsKMeansPP.
  destruct (JS.get pixels _) as [first |]; [| done]. cbn [mbind option_bind].
  intros H. apply seeds_length in H as (c0 & [= <-] & ->).
  rewrite length_seq. cbn. lia.
Qed.

End Seeds.

(** C4 (as amended). For every input image and parameters k >= 1,
    maxIterations and convergenceThreshold, across the iterations of
    [kMeansImageSegmentation] the total squared intra-cluster distance (the
    sum over the pixels of the squared distance from each pixel to the
    centroid of its cluster, in exact arithmetic) never increases: neither
    when the centroids move to the means of their clusters nor when the
    pixels are assigned anew in the next iteration.  This holds from whatever
    [k] centroids the loop starts, and so for the centroids that the k-means++
    seeding picks, whatever [Math.random] returns. *)
Theorem kMeans_squared_cost_never_increases canvas k maxIterations threshold :
  (0 < k)%nat ->
  let pixels := KMeans.pixelsOf (data canvas) in
  (forall centroids, length centroids = k ->
     cost_never_increases pixels
       (KMeans.iterations maxIterations pixels k threshold centroids))
  /\
  (forall Math_random its,
     KMeans.runIterations Math_random canvas k maxIterations threshold = Some its ->
     cost_never_increases pixels its).
Proof.
  intros Hk pixels.
  assert (forall centroids,
            cost_never_increases pixels
              (KMeans.iterations maxIterations pixels k threshold centroids))
    as Hall.
  { intros centroids t c1 cl1 c2 cl2 H1 H2.
    destruct (iterations_step _ _ _ _ _ _ _ _ _ _ H1 H2) as (-> & -> & ->).
    assert (squared_cost pixels
              (KMeans.newCentroids pixels (KMeans.assign pixels c1 k) k)
              (KMeans.assign pixels
                 (KMeans.newCentroids pixels (KMeans.assign pixels c1 k) k) k)
            <= squared_cost pixels
                 (KMeans.newCentroids pixels (KMeans.assign pixels c1 k) k)
                 (KMeans.assign pixels c1 k))%Q as Ha.
    { apply assign_cost; [apply assign_length | by apply assign_lt]. }
    assert (squared_cost pixels
              (KMeans.newCentroids pixels (KMeans.assign pixels c1 k) k)
              (KMeans.assign pixels c1 k)
            <= squared_cost pixels c1 (KMeans.assign pixels c1 k))%Q as Hu.
    { apply update_cost. by apply assign_lt. }
    split; [done |]. split; [done |]. by eapply Qle_trans. }
  split; [intros centroids _; apply Hall |].
  intros Math_random its Hrun.
  unfold KMeans.runIterations in Hrun. fold pixels in Hrun.
  destruct (KMeans.initializeCentroidsKMeansPP _ _ _) as [centroids |];
    [| done].
  cbn in Hrun. injection Hrun as <-. apply Hall.
Qed.

Lemma kMeans_squared_cost_never_increases_witness :
  (0 < 2)%nat /\
  exists its c1 cl1 c2 cl2,
    KMeans.runIterations two_draws five_pixels 2 50 1 = Some its /\
    its !! 1%nat = Some (c1, cl1) /\ its !! 2%nat = Some (c2, cl2) /\
    (squared_cost (KMeans.pixelsOf (data five_pixels)) c2 cl2
     <= squared_cost (KMeans.pixelsOf (data five_pixels)) c1 cl1)%Q.
Proof.
  split; [lia |].
  assert (exists its, KMeans.runIterations two_draws five_pixels 2 50 1 = Some its)
    as [its Hits] by (eexists; vm_compute; reflexivity).
  assert (exists c1 cl1 c2 cl2,
            its !! 1%nat = Some (c1, cl1) /\ its !! 2%nat = Some (c2, cl2))
    as (c1 & cl1 & c2 & cl2 & H1 & H2).
  { vm_compute in Hits. injection Hits as <-.
    do 4 eexists. split; reflexivity. }
  exists its, c1, cl1, c2, cl2. repeat split; try done.
  exact (proj2 (proj2 (proj2 (kMeans_squared_cost_never_increases
                                five_pixels 2 50 1 ltac:(lia))
                         two_draws its Hits 1%nat c1 cl1 c2 cl2 H1 H2))).
Defined.

Section RealDistances.
Import KMeans.

Lemma Q2R_zero : Q2R 0 = 0%R.
Proof. unfold Q2R. cbn. Lra.lra. Qed.

(** The distance between two points that differ in the red channel only. *)
Lemma euclideanDistance_axis (p c : Point) :
  (green p == green c)%Q -> (blue p == blue c)%Q ->
  euclideanDistance p c = Q2R (Qabs (red p - red c)).
Proof.
  intros Hg Hb. unfold euclideanDistance.
  assert (dist2 p c == Qabs (red p - red c) * Qabs (red p - red c))%Q as E.
  { rewrite dist2_channels, Hg, Hb, <- Qabs_Qmult.
    rewrite (Qabs_pos ((red p - red c) * (red p - red c)))
      by apply Qsquare_nonneg.
    ring. }
  rewrite (Qeq_eqR _ _ E), Q2R_mult.
  apply sqrt_square. rewrite <- Q2R_zero. apply Qle_Rle, Qabs_nonneg.
Qed.

Lemma total_distance_axis pixels centroids :
  forall clusters,
    on_axis pixels centroids clusters = true ->
    total_distance pixels centroids clusters
    = Q2R (Qsum (zip_with (fun p cl => Qabs (red p - red (centroid centroids cl)))
                          pixels clusters)).
Proof.
  unfold total_distance, on_axis.
  induction pixels as [| p ps IH]; intros [| cl cls] H;
    try (cbn; by rewrite Q2R_zero).
  cbn [zip zip_with forallb fold_right] in *.
  apply andb_true_iff in H as [Hp H].
  apply andb_true_iff in Hp as [Hg Hb].
  apply Qeq_bool_iff in Hg, Hb.
  rewrite Qsum_cons, Q2R_plus, <- IH by done.
  by rewrite euclideanDistance_axis.
Qed.

End RealDistances.

(** C4 as it is stated fails.  On five pixels with the red values 0, 5, 5, 9
    and 12, k = 2 and the defaults for the other parameters, k-means++ picks
    the centroids 12 and 9, and the loop makes three iterations.  The sum of
    the distances from the pixels to the centroids of their clusters is 33/4
    in the second iteration and 29/3 in the third; taken after the centroids
    have moved, it is 19/2 in the first iteration and 29/3 in the second. *)
Lemma kMeans_total_distance_increases :
  let pixels := KMeans.pixelsOf (data five_pixels) in
  let c1 := [(12, 0, 0); (9, 0, 0)]%Q in
  let c2 := [(12, 0, 0); (19 # 4, 0 # 4, 0 # 4)]%Q in
  let c3 := [(21 # 2, 0 # 2, 0 # 2); (10 # 3, 0 # 3, 0 # 3)]%Q in
  let cl1 := [1; 1; 1; 1; 0]%nat in
  let cl2 := [1; 1; 1; 0; 0]%nat in
  KMeans.runIterations two_draws five_pixels 2 50 1
  = Some [(c1, cl1); (c2, cl2); (c3, cl2)] /\
  total_distance pixels c2 cl2 = Q2R (33 # 4) /\
  total_distance pixels c3 cl2 = Q2R (29 # 3) /\
  (total_distance pixels c2 cl2 < total_distance pixels c3 cl2)%R /\
  total_distance pixels c2 cl1 = Q2R (19 # 2) /\
  (total_distance pixels c2 cl1 < total_distance pixels c3 cl2)%R.
Proof.
  cbv zeta.
  assert (forall a b, Qeq_bool a b = true -> Q2R a = Q2R b) as Heq.
  { intros a b H. by apply Qeq_eqR, Qeq_bool_iff. }
  assert (forall a b, (a ?= b)%Q = Lt -> (Q2R a < Q2R b)%R) as Hlt.
  { intros a b H. apply Qlt_Rlt. by apply Qlt_alt. }
  split; [vm_compute; reflexivity |].
  rewrite !total_distance_axis by (vm_compute; reflexivity).
  split; [apply Heq; vm_compute; reflexivity |].
  split; [apply Heq; vm_compute; reflexivity |].
  split; [apply Hlt; vm_compute; reflexivity |].
  split; [apply Heq; vm_compute; reflexivity |].
  apply Hlt; vm_compute; reflexivity.
Qed.

Section SquaredComparisons.
Import KMeans.

Lemma dist2_nonneg p c : (0 <= dist2 p c)%Q.
Proof.
  rewrite dist2_channels.
  pose proof (Qsquare_nonneg (red p - red c)).
  pose proof (Qsquare_nonneg (green p - green c)).
  pose proof (Qsquare_nonneg (blue p - blue c)).
  Lqa.lra.
Qed.

(** The squares of two distances are ordered as the distances are: the
    comparisons of the embedding are those of the program. *)
Lemma euclideanDistance_lt p a b :
  (dist2 p a < dist2 p b)%Q
  <-> (euclideanDistance p a < euclideanDistance p b)%R.
Proof.
  unfold euclideanDistance. split.
  - intros H. apply sqrt_lt_1_alt. split.
    + rewrite <- Q2R_zero. apply Qle_Rle, dist2_nonneg.
    + by apply Qlt_Rlt.
  - intros H. apply Rlt_Qlt. apply sqrt_lt_0_alt in H. exact H.
Qed.

End SquaredComparisons.


(** * Further properties *)

(** ** The grid wall extractor *)
Section WallTiles.
Import JS Walls.

(** A loop that pushes what depends on its variable only. *)
Lemma for_pushes {B} vals (f : Z -> list B) (s : list B) :
  for_ vals (fun i s => s ++ f i) s = s ++ flat_map f vals.
Proof.
  unfold for_. revert s.
  induction vals as [| i vals IH]; intros s; cbn; [by rewrite app_nil_r |].
  by rewrite IH, app_assoc.
Qed.

Lemma identifyWalls_tiles canvas grid threshold :
  identifyWalls canvas grid threshold =
    flat_map
      (fun y =>
         flat_map
           (fun x => tileWalls (data canvas) (width canvas) threshold grid x y)
           (loop_values 0 (width canvas) grid))
      (loop_values 0 (height canvas) grid).
Proof.
  unfold identifyWalls.
  rewrite <- (app_nil_l (flat_map _ (loop_values 0 (height canvas) grid))).
  rewrite <- for_pushes. apply for_ext. intros y walls _.
  rewrite <- for_pushes. apply for_ext. intros x walls' _.
  unfold tileWalls.
  destruct (tileRuns _ _ _ _ _ _) as [[[mh mv] h] v].
  destruct (grid <? 2 * mh), (grid <? 2 * mv); cbn;
    rewrite <- ?app_assoc, ?app_nil_r; done.
Qed.

(** The counters of the two directions are computed alike. *)
Lemma runStep_swap bh bv vals :
  forall mh mv h v,
    for_ vals (runStep bv bh) (mv, mh, v, h)
    = (let '(mh', mv', h', v') := for_ vals (runStep bh bv) (mh, mv, h, v) in
       (mv', mh', v', h')).
Proof.
  unfold for_. induction vals as [| i vals IH]; intros mh mv h v; [done |].
  cbn [fold_left]. unfold runStep at 2 4.
  destruct (bh i), (bv i); apply IH.
Qed.

(** [mhorizontal] is the length of the longest run. *)
Lemma longest_run bh bv (n : nat) :
  let '(mh, _, h, _) := for_ (range 0 (Z.of_nat n)) (runStep bh bv) (0, 0, 0, 0) in
  0 <= h <= mh /\ run bh (Z.of_nat n - h) h /\
  exists e, mh <= e <= Z.of_nat n /\ run bh (e - mh) mh.
Proof.
  induction n as [| n IH].
  - change (range 0 (Z.of_nat 0)) with (@nil Z). cbn.
    split; [lia |]. split; [intros i; lia |]. exists 0. split; [lia |].
    intros i; lia.
  - rewrite range_0_snoc, for_app.
    destruct (for_ (range 0 (Z.of_nat n)) (runStep bh bv) (0, 0, 0, 0))
      as [[[mh mv] h] v].
    destruct IH as (Hh & Hrun & e & He & Hmax).
    cbn [for_ fold_left]. unfold runStep at 1.
    destruct (bh (Z.of_nat n)) eqn:E.
    + assert (run bh (Z.of_nat (S n) - (h + 1)) (h + 1)) as Hrun'.
      { intros i Hi. destruct (decide (i = Z.of_nat n)) as [-> | Hne]; [done |].
        apply Hrun. lia. }
      destruct (bv (Z.of_nat n)).
      * split; [lia |]. split; [done |].
        destruct (Z.max_spec mh (h + 1)) as [[_ ->] | [_ ->]].
        -- exists (Z.of_nat (S n)). split; [lia | done].
        -- exists e. split; [lia | done].
      * split; [lia |]. split; [done |].
        destruct (Z.max_spec mh (h + 1)) as [[_ ->] | [_ ->]].
        -- exists (Z.of_nat (S n)). split; [lia | done].
        -- exists e. split; [lia | done].
    + destruct (bv (Z.of_nat n)).
      * split; [lia |]. split; [intros i; lia |]. exists e. split; [lia | done].
      * split; [lia |]. split; [intros i; lia |]. exists e. split; [lia | done].
Qed.

(** The horizontal counter exceeds half of the tile exactly when the tests
    of the top row have a run that is longer than half of the tile. *)
Lemma tileRuns_horizontal d w t grid x y :
  0 < grid ->
  (grid <? 2 * (tileRuns d w t grid x y).1.1.1) = true
  <-> exists s L, 0 <= s /\ s + L <= grid /\ grid < 2 * L /\
                  run (brightH d w t x y) s L.
Proof.
  intros Hg. split.
  - rewrite tileRuns_steps.
    pose proof (longest_run (brightH d w t x y) (brightV d w t x y)
                  (Z.to_nat grid)) as H.
    rewrite Z2Nat.id in H by lia.
    destruct (for_ _ _ _) as [[[mh mv] h] v]. cbn.
    destruct H as (_ & _ & e & He & Hrun). intros Hlt. apply Z.ltb_lt in Hlt.
    exists (e - mh), mh. repeat split; try lia. done.
  - intros (s & L & Hs & HL & H2 & Hrun). by eapply tileRuns_line.
Qed.

Lemma tileRuns_vertical d w t grid x y :
  0 < grid ->
  (grid <? 2 * (tileRuns d w t grid x y).1.1.2) = true
  <-> exists s L, 0 <= s /\ s + L <= grid /\ grid < 2 * L /\
                  run (brightV d w t x y) s L.
Proof.
  intros Hg. rewrite tileRuns_steps.
  pose proof (runStep_swap (brightH d w t x y) (brightV d w t x y)
                (range 0 grid) 0 0 0 0) as Hswap.
  pose proof (longest_run (brightV d w t x y) (brightH d w t x y)
                (Z.to_nat grid)) as Hlong.
  assert (forall s L, 0 <= s -> 1 <= L -> run (brightV d w t x y) s L ->
            s + L <= grid ->
            L <= (for_ (range 0 grid)
                    (runStep (brightV d w t x y) (brightH d w t x y))
                    (0, 0, 0, 0)).1.1.1) as Hrun.
  { intros s L Hs HL Hr Hle.
    pose proof (horizontal_run (brightV d w t x y) (brightH d w t x y)
                  s L (Z.to_nat grid) Hs HL Hr) as H.
    rewrite Z2Nat.id in H by lia.
    destruct (for_ _ _ _) as [[[mv' mh'] v'] h']. cbn. lia. }
  rewrite Z2Nat.id in Hlong by lia.
  rewrite Hswap in Hlong, Hrun. clear Hswap.
  destruct (for_ _ _ _) as [[[mh mv] h] v]. cbn in Hlong, Hrun |- *.
  rewrite Z.ltb_lt. split.
  - intros Hlt. destruct Hlong as (_ & _ & e & He & Hr).
    exists (e - mv), mv. repeat split; try lia. done.
  - intros (s & L & Hs & HL & H2 & Hr).
    specialize (Hrun s L Hs ltac:(lia) Hr HL). lia.
Qed.

Lemma elem_of_tileWalls d w t grid x y seg :
  seg ∈ tileWalls d w t grid x y <->
  (seg = (x, y, x + grid, y)
   /\ (grid <? 2 * (tileRuns d w t grid x y).1.1.1) = true)
  \/ (seg = (x, y, x, y + grid)
      /\ (grid <? 2 * (tileRuns d w t grid x y).1.1.2) = true).
Proof.
  unfold tileWalls. destruct (tileRuns _ _ _ _ _ _) as [[[mh mv] h] v]. cbn.
  rewrite elem_of_app.
  destruct (grid <? 2 * mh), (grid <? 2 * mv);
    rewrite ?list_elem_of_singleton, ?elem_of_nil; intuition congruence.
Qed.

Lemma elem_of_identifyWalls canvas grid threshold seg :
  seg ∈ identifyWalls canvas grid threshold <->
  exists x y,
    x ∈ loop_values 0 (width canvas) grid /\
    y ∈ loop_values 0 (height canvas) grid /\
    seg ∈ tileWalls (data canvas) (width canvas) threshold grid x y.
Proof.
  rewrite identifyWalls_tiles, list_elem_of_In, in_flat_map. split.
  - intros (y & Hy & H). apply in_flat_map in H as (x & Hx & H).
    exists x, y. by rewrite !list_elem_of_In.
  - intros (x & y & Hx & Hy & H). exists y.
    split; [by apply list_elem_of_In |]. apply in_flat_map. exists x.
    by rewrite <- !list_elem_of_In.
Qed.

End WallTiles.

(** X1. For a positive cell size, [identifyWalls] emits the horizontal
    segment along the top edge of a tile exactly when the tests of the tile's
    top row (the sample itself or the sample above it reaches the threshold)
    have an unbroken run that is longer than cellSize / 2, and the vertical
    segment along its left edge exactly when the tests of its left column
    have such a run. *)
Theorem identifyWalls_segment_iff canvas grid threshold tx ty :
  0 < grid -> 0 <= tx -> 0 <= ty ->
  tx * grid < width canvas -> ty * grid < height canvas ->
  let x := tx * grid in
  let y := ty * grid in
  let long (b : Z -> bool) :=
    exists s L, 0 <= s /\ s + L <= grid /\ grid < 2 * L /\ run b s L in
  ((x, y, x + grid, y) ∈ Walls.identifyWalls canvas grid threshold
   <-> long (Walls.brightH (data canvas) (width canvas) threshold x y))
  /\
  ((x, y, x, y + grid) ∈ Walls.identifyWalls canvas grid threshold
   <-> long (Walls.brightV (data canvas) (width canvas) threshold x y)).
Proof.
  intros Hg Htx Hty Hx Hy x y long.
  assert (x ∈ JS.loop_values 0 (width canvas) grid) as Hxin.
  { apply elem_of_loop_values; [done |]. exists tx. unfold x. lia. }
  assert (y ∈ JS.loop_values 0 (height canvas) grid) as Hyin.
  { apply elem_of_loop_values; [done |]. exists ty. unfold y. lia. }
  split.
  - unfold long. rewrite <- tileRuns_horizontal by done.
    rewrite elem_of_identifyWalls. split.
    + intros (x' & y' & _ & _ & H).
      apply elem_of_tileWalls in H as [[E H] | [E H]].
      * injection E as -> -> _ _. done.
      * injection E as -> -> ? ?. lia.
    + intros H. exists x, y. split; [done |]. split; [done |].
      apply elem_of_tileWalls. by left.
  - unfold long. rewrite <- tileRuns_vertical by done.
    rewrite elem_of_identifyWalls. split.
    + intros (x' & y' & _ & _ & H).
      apply elem_of_tileWalls in H as [[E H] | [E H]].
      * injection E as -> -> ? ?. lia.
      * injection E as -> -> _ _. done.
    + intros H. exists x, y. split; [done |]. split; [done |].
      apply elem_of_tileWalls. by right.
Qed.

Lemma identifyWalls_segment_iff_witness :
  0 < 3 /\
  (0, 0, 0, 3)
  ∈ Walls.identifyWalls
      (mkImage [255; 255; 255; 255; 0; 0; 0; 255; 0; 0; 0; 255;
                255; 255; 255; 255; 0; 0; 0; 255; 0; 0; 0; 255;
                0; 0; 0; 255; 0; 0; 0; 255; 0; 0; 0; 255] 3 3) 3 100.
Proof.
  split; [lia |].
  apply (proj2 (identifyWalls_segment_iff
                  (mkImage [255; 255; 255; 255; 0; 0; 0; 255; 0; 0; 0; 255;
                            255; 255; 255; 255; 0; 0; 0; 255; 0; 0; 0; 255;
                            0; 0; 0; 255; 0; 0; 0; 255; 0; 0; 0; 255] 3 3)
                  3 100 0 0 ltac:(lia) ltac:(lia) ltac:(lia)
                  ltac:(cbn; lia) ltac:(cbn; lia))).
  exists 0, 2. split; [lia |]. split; [lia |]. split; [lia |].
  intros i Hi. assert (i = 0 \/ i = 1) as [-> | ->] by lia; reflexivity.
Defined.

(** X2. For a positive cell size, every segment that [identifyWalls] emits
    lies on the grid: it starts at the corner of a tile inside the canvas and
    runs along the top edge or along the left edge of that tile, for the
    length of one cell; and no tile gets more than two segments. *)
Theorem identifyWalls_on_grid canvas grid threshold :
  0 < grid ->
  (forall seg, seg ∈ Walls.identifyWalls canvas grid threshold ->
     exists tx ty,
       0 <= tx /\ 0 <= ty /\
       tx * grid < width canvas /\ ty * grid < height canvas /\
       (seg = (tx * grid, ty * grid, tx * grid + grid, ty * grid) \/
        seg = (tx * grid, ty * grid, tx * grid, ty * grid + grid)))
  /\
  (length (Walls.identifyWalls canvas grid threshold)
   <= 2 * length (JS.loop_values 0 (width canvas) grid)
        * length (JS.loop_values 0 (height canvas) grid))%nat.
Proof.
  intros Hg. split.
  - intros seg H. apply elem_of_identifyWalls in H as (x & y & Hx & Hy & H).
    apply elem_of_loop_values in Hx as (tx & Htx & -> & Hx); [| done].
    apply elem_of_loop_values in Hy as (ty & Hty & -> & Hy); [| done].
    exists tx, ty. repeat (split; [lia |]).
    apply elem_of_tileWalls in H as [[-> _] | [-> _]]; [by left | by right].
  - rewrite identifyWalls_tiles.
    assert (forall {B} (f : Z -> list B) (n : nat) l,
              (forall i, length (f i) <= n)%nat ->
              (length (flat_map f l) <= n * length l)%nat) as Hflat.
    { intros B f n l Hf. induction l as [| i l IH]; cbn; [lia |].
      rewrite length_app. specialize (Hf i). lia. }
    etrans; [apply (Hflat _ _ (2 * length (JS.loop_values 0 (width canvas) grid))%nat) |].
    + intros y. etrans; [apply (Hflat _ _ 2%nat) |]; [| lia].
      intros x. unfold tileWalls.
      destruct (Walls.tileRuns _ _ _ _ _ _) as [[[mh mv] h] v].
      destruct (grid <? 2 * mh), (grid <? 2 * mv); cbn; lia.
    + lia.
Qed.

Lemma identifyWalls_on_grid_witness :
  0 < 1 /\
  exists tx ty,
    (0, 0, 1, 0) = (tx * 1, ty * 1, tx * 1 + 1, ty * 1) \/
    (0, 0, 1, 0) = (tx * 1, ty * 1, tx * 1, ty * 1 + 1).
Proof.
  split; [lia |].
  destruct (proj1 (identifyWalls_on_grid (mkImage [255; 0; 0; 255] 1 1) 1 100
                     ltac:(lia)) (0, 0, 1, 0))
    as (tx & ty & _ & _ & _ & _ & H).
  - apply list_elem_of_In. vm_compute. by left.
  - by exists tx, ty.
Defined.

(** ** The Canny detector *)
Section Suppression.
Import JS Canny.

Lemma range_nil lo hi : hi <= lo -> range lo hi = [].
Proof.
  intros H. unfold range, loop_values.
  replace (Z.to_nat ((hi - lo + 1 - 1) / 1)) with 0%nat; [done |].
  rewrite Z.div_1_r. lia.
Qed.

Lemma for_same {S} vals (body : Z -> S -> S) s :
  (forall i s, i ∈ vals -> body i s = s) -> for_ vals body s = s.
Proof.
  intros H. apply (for_invariant (fun s' => s' = s)); [| done].
  intros i s' Hi ->. by apply H.
Qed.

Lemma zeros_new_array n : zeros (new_array n).
Proof. by apply Forall_replicate. Qed.

(** The loops over the interior of an image that has none. *)
Lemma interior_loops_same {S} (w h : Z) (body : Z -> Z -> S -> S) s :
  w <= 2 \/ h <= 2 ->
  for_ (range 1 (h - 1)) (fun y s => for_ (range 1 (w - 1)) (fun x s => body x y s) s) s
  = s.
Proof.
  intros [Hw | Hh].
  - apply for_same. intros y s' _. by rewrite range_nil by lia.
  - by rewrite range_nil by lia.
Qed.

Lemma magnitudeByte_byte gx gy : byte (magnitudeByte gx gy).
Proof.
  unfold magnitudeByte, byte, sqrt_round.
  destruct gx as [gx |], gy as [gy |]; try lia.
  assert (0 <= gx * gx + gy * gy) by nia.
  pose proof (Z.sqrt_nonneg (4 * (gx * gx + gy * gy))).
  assert (0 <= (Z.sqrt (4 * (gx * gx + gy * gy)) + 1) / 2)
    by (apply Z.div_pos; lia).
  lia.
Qed.

Lemma calculateGradients_bytes Math_atan2_deg img :
  let gm := (calculateGradients Math_atan2_deg img).1 in
  length gm = Z.to_nat (width img * height img) /\ Forall byte gm.
Proof.
  unfold calculateGradients. cbn zeta.
  apply (for_invariant
           (fun g : list Z * list Z =>
              length g.1 = Z.to_nat (width img * height img) /\ Forall byte g.1)).
  - intros y g _ Hg.
    apply (for_invariant
             (fun g : list Z * list Z =>
                length g.1 = Z.to_nat (width img * height img)
                /\ Forall byte g.1)); [| done].
    intros x [gm gd] _ [Hl Hb].
    destruct (sobel _ _ _ _) as [gx gy]. cbn [fst].
    split; [by rewrite set_length |].
    apply set_bytes; [apply magnitudeByte_byte | done].
  - cbn [fst]. split; [apply new_array_length |].
    apply Forall_replicate. unfold byte. lia.
Qed.

Lemma suppress_body gm gd w h x y a :
  (let idx := y * w + x in
   let magnitude := get gm idx in
   if lt_num magnitude 10 then set a idx 0
   else
     let direction := get gd idx in
     let '((neighbor1X, neighbor1Y), (neighbor2X, neighbor2Y)) :=
       neighbours direction x y in
     let neighbor1X := Z.max 0 (Z.min (w - 1) neighbor1X) in
     let neighbor1Y := Z.max 0 (Z.min (h - 1) neighbor1Y) in
     let neighbor2X := Z.max 0 (Z.min (w - 1) neighbor2X) in
     let neighbor2Y := Z.max 0 (Z.min (h - 1) neighbor2Y) in
     let neighbor1Idx := neighbor1Y * w + neighbor1X in
     let neighbor2Idx := neighbor2Y * w + neighbor2X in
     let neighbor1Value := get gm neighbor1Idx in
     let neighbor2Value := get gm neighbor2Idx in
     if (ge_num magnitude neighbor1Value && ge_num magnitude neighbor2Value)%bool
     then store a idx (num magnitude)
     else set a idx 0)
  = set a (y * w + x) (suppressedAt gm gd w h x y).
Proof.
  unfold suppressedAt. cbn zeta.
  destruct (lt_num _ 10); [done |].
  destruct (neighbours _ x y) as [[n1x n1y] [n2x n2y]].
  by destruct (_ && _)%bool.
Qed.

Lemma applyNonMaximumSuppression_get gm gd w h :
  0 < w -> 0 < h ->
  let out := data (applyNonMaximumSuppression gm gd w h) in
  len out = w * h /\
  forall x y, 0 <= x < w -> 0 <= y < h ->
    get out (y * w + x) =
      Some (if in_rect 1 (w - 1) 1 (h - 1) x y
            then suppressedAt gm gd w h x y else 0).
Proof.
  intros Hw Hh out. unfold out, applyNonMaximumSuppression. cbn [data].
  destruct (raster_local 1 w
              (fun j => suppressedAt gm gd w h (j mod w) (j / w))
              (fun x y a => set a (y * w + x) (suppressedAt gm gd w h x y))
              1 (w - 1) 1 (h - 1))
    with (init := new_array (w * h)) as [Hl Hg]; try lia.
  - intros x y a _ _. apply set_length.
  - intros x y a j Hx Hy Hj Hja. rewrite Z.div_1_r in Hj. subst j.
    destruct (row_col w (y * w + x) x y) as [-> ->]; [lia | done |].
    by apply get_set_eq.
  - intros x y a j Hx Hy Hj. rewrite Z.div_1_r in Hj. by apply get_set_ne.
  - assert (len (new_array (w * h)) = w * h) as Hn.
    { unfold len. rewrite new_array_length. nia. }
    erewrite (for_ext (range 1 (h - 1))).
    2:{ intros y a _. apply for_ext. intros x a' _. apply suppress_body. }
    split; [by rewrite (len_eq _ _ Hl) |].
    intros x y Hx Hy. rewrite Hg by (rewrite Hn; nia).
    rewrite Z.div_1_r.
    destruct (row_col w (y * w + x) x y) as [-> ->]; [lia | done |].
    destruct (in_rect _ _ _ _ x y); [done |].
    apply get_new_array. nia.
Qed.

(** What is stored for a pixel is 0, or the magnitude of the pixel. *)
Lemma suppressedAt_cases gm gd w h x y :
  Forall byte gm ->
  suppressedAt gm gd w h x y = 0 \/
  (10 <= suppressedAt gm gd w h x y /\
   get gm (y * w + x) = Some (suppressedAt gm gd w h x y) /\
   let '((n1x, n1y), (n2x, n2y)) := neighbours (get gd (y * w + x)) x y in
   ge_num (Some (suppressedAt gm gd w h x y))
          (get gm (Z.max 0 (Z.min (h - 1) n1y) * w
                   + Z.max 0 (Z.min (w - 1) n1x))) = true /\
   ge_num (Some (suppressedAt gm gd w h x y))
          (get gm (Z.max 0 (Z.min (h - 1) n2y) * w
                   + Z.max 0 (Z.min (w - 1) n2x))) = true).
Proof.
  intros Hb. unfold suppressedAt. cbn zeta.
  destruct (get gm (y * w + x)) as [m |] eqn:Em; cbn [lt_num].
  - destruct (Z.ltb_spec m 10); [by left |].
    destruct (neighbours _ x y) as [[n1x n1y] [n2x n2y]].
    destruct (ge_num (Some m) _) eqn:E1; [| by left]. cbn [andb].
    destruct (ge_num (Some m) _) eqn:E2 in |- *; [| by left].
    right. rewrite to_uint8_clamped_num by (by eapply get_byte).
    by rewrite E1, E2.
  - destruct (neighbours _ x y) as [[n1x n1y] [n2x n2y]]. by left.
Qed.

End Suppression.

(** X3. For magnitudes that are bytes, non-maximum suppression stores for
    every pixel either 0 or the gradient magnitude of the pixel; a magnitude
    that is stored belongs to a pixel of the interior, is at least 10, and is
    not below the magnitude of either of the two neighbours along the
    quantised direction of the gradient. *)
Theorem applyNonMaximumSuppression_keeps_maxima gm gd w h x y :
  0 < w -> 0 < h -> Forall byte gm -> 0 <= x < w -> 0 <= y < h ->
  let out := data (Canny.applyNonMaximumSuppression gm gd w h) in
  exists v,
    JS.get out (y * w + x) = Some v /\
    (v = 0 \/
     (interior w h x y /\ 10 <= v /\ JS.get gm (y * w + x) = Some v /\
      let '((n1x, n1y), (n2x, n2y)) :=
        Canny.neighbours (JS.get gd (y * w + x)) x y in
      (forall m, JS.get gm (n1y * w + n1x) = Some m -> m <= v) /\
      (forall m, JS.get gm (n2y * w + n2x) = Some m -> m <= v))).
Proof.
  intros Hw Hh Hb Hx Hy out.
  destruct (applyNonMaximumSuppression_get gm gd w h Hw Hh) as [_ Hg].
  unfold out. rewrite Hg by done.
  destruct (in_rect 1 (w - 1) 1 (h - 1) x y) eqn:Hin; [| exists 0; by split; [| left]].
  unfold in_rect in Hin.
  rewrite !andb_true_iff, !Z.leb_le, !Z.ltb_lt in Hin.
  exists (suppressedAt gm gd w h x y). split; [done |].
  destruct (suppressedAt_cases gm gd w h x y Hb) as [-> | (H10 & Hm & Hn)];
    [by left | right].
  split; [unfold interior; lia |]. split; [done |]. split; [done |].
  unfold Canny.neighbours in *.
  repeat case_bool_decide; cbn in Hn |- *; destruct Hn as [Hn1 Hn2];
    rewrite ?Z.min_r, ?Z.max_r in Hn1, Hn2 by lia;
    (split; intros m Hm'; [rewrite Hm' in Hn1 | rewrite Hm' in Hn2]);
    cbn in Hn1, Hn2; lia.
Qed.

Lemma applyNonMaximumSuppression_keeps_maxima_witness :
  JS.get (data (Canny.applyNonMaximumSuppression
                  [0; 0; 0; 0; 50; 0; 0; 0; 0] [0; 0; 0; 0; 90; 0; 0; 0; 0] 3 3))
         (1 * 3 + 1)
  = Some 50.
Proof.
  destruct (applyNonMaximumSuppression_keeps_maxima
              [0; 0; 0; 0; 50; 0; 0; 0; 0] [0; 0; 0; 0; 90; 0; 0; 0; 0] 3 3 1 1)
    as (v & Hv & _); try lia.
  - repeat constructor; unfold byte; lia.
  - rewrite Hv. vm_compute in Hv. symmetry. exact Hv.
Defined.

(** X4. [cannyEdgeDetection] throws the "no edges detected" error for every
    image that is less than three pixels wide or less than three pixels
    high, whatever its pixels are: such an image has no interior pixel to
    compute a gradient for. *)
Theorem cannyEdgeDetection_narrow
    (Math_exp : Q -> Q) (Math_atan2_deg : Z -> Z -> Q) canvas low high sigma :
  width canvas <= 2 \/ height canvas <= 2 ->
  Canny.cannyEdgeDetection Math_exp Math_atan2_deg canvas low high sigma
  = Canny.Throws Canny.NoEdgesDetected.
Proof.
  intros Hsmall. apply cannyEdgeDetection_throws_iff.
  unfold Canny.suppressedMagnitudes.
  destruct (Canny.calculateGradients _ _) as [gm gd].
  unfold Canny.applyNonMaximumSuppression. cbn [data].
  rewrite interior_loops_same by done.
  rewrite maximum_zeros; [lia | apply zeros_new_array].
Qed.

Lemma cannyEdgeDetection_narrow_witness :
  Canny.cannyEdgeDetection exp_like (fun _ _ => 0%Q)
    (mkImage [0; 0; 0; 255; 255; 255; 255; 255; 0; 0; 0; 255;
              255; 255; 255; 255] 2 2) 40 70 (14 # 10)
  = Canny.Throws Canny.NoEdgesDetected.
Proof.
  apply cannyEdgeDetection_narrow. left. cbn. lia.
Defined.

Section Loops2.
Import JS.

(** A loop whose invariant depends on the round. *)
Lemma for_counted {St} (P : Z -> St -> Prop) (n : nat) body init :
  P 0 init ->
  (forall i s, 0 <= i < Z.of_nat n -> P i s -> P (i + 1) (body i s)) ->
  P (Z.of_nat n) (for_ (range 0 (Z.of_nat n)) body init).
Proof.
  intros H0 Hstep. induction n as [| n IH].
  - by change (range 0 (Z.of_nat 0)) with (@nil Z).
  - rewrite range_0_snoc, for_app. cbn [for_ fold_left].
    replace (Z.of_nat (S n)) with (Z.of_nat n + 1) by lia.
    apply Hstep; [lia |]. apply IH. intros i s Hi. apply Hstep. lia.
Qed.

Lemma for_upto {St} (P : Z -> St -> Prop) (n : Z) body init :
  0 <= n -> P 0 init ->
  (forall i s, 0 <= i < n -> P i s -> P (i + 1) (body i s)) ->
  P n (for_ (range 0 n) body init).
Proof.
  intros Hn H0 Hstep. rewrite <- (Z2Nat.id n) by done.
  apply for_counted; [done |]. intros i s Hi. apply Hstep. lia.
Qed.

(** A loop that keeps [Inv], each round [i] of which brings about [Q i],
    which the later rounds keep. *)
Lemma for_establish {S} (Inv : S -> Prop) (Q : Z -> S -> Prop) vals body init :
  (forall i s, i ∈ vals -> Inv s -> Inv (body i s) /\ Q i (body i s)) ->
  (forall i j s, j ∈ vals -> Inv s -> Q i s -> Q i (body j s)) ->
  Inv init ->
  Inv (for_ vals body init) /\ forall i, i ∈ vals -> Q i (for_ vals body init).
Proof.
  intros Hstep Hkeep Hinit.
  induction vals as [| a vals IH] using rev_ind.
  - split; [done |]. intros i Hi. by apply elem_of_nil in Hi.
  - rewrite for_app. cbn [for_ fold_left].
    destruct IH as [HI HQ].
    + intros i s Hi. apply Hstep. apply elem_of_app. by left.
    + intros i j s Hj. apply Hkeep. apply elem_of_app. by left.
    + assert (a ∈ vals ++ [a]) as Ha.
      { apply elem_of_app. right. apply list_elem_of_here. }
      destruct (Hstep a _ Ha HI) as [HI' HQa]. split; [done |].
      intros i Hi. apply elem_of_app in Hi as [Hi | Hi].
      * apply Hkeep; [done | done |]. by apply HQ.
      * apply list_elem_of_singleton in Hi as ->. done.
Qed.

End Loops2.

Section HysteresisEdges.
Import JS Canny.
Variables (d : list Z) (w h : Z) (low high : Q).
Hypothesis Hw : 0 < w.
Hypothesis Hh : 0 < h.

Lemma offsets i :
  0 <= i < 8 ->
  -1 <= sample dx i <= 1 /\ -1 <= sample dy i <= 1 /\
  (sample dx i <> 0 \/ sample dy i <> 0).
Proof.
  intros Hi.
  assert (i = 0 \/ i = 1 \/ i = 2 \/ i = 3 \/ i = 4 \/ i = 5 \/ i = 6 \/ i = 7)
    as Hcases by lia.
  repeat (destruct Hcases as [-> | Hcases]); try subst i;
    vm_compute; repeat split; try discriminate; intuition discriminate.
Qed.

(** The eight offsets are all the ways in which two pixels touch. *)
Lemma offsets_all ex ey :
  -1 <= ex <= 1 -> -1 <= ey <= 1 -> ex <> 0 \/ ey <> 0 ->
  exists i, 0 <= i < 8 /\ sample dx i = ex /\ sample dy i = ey.
Proof.
  intros Hx Hy Hne.
  assert (ex = -1 \/ ex = 0 \/ ex = 1) as [-> | [-> | ->]] by lia;
    assert (ey = -1 \/ ey = 0 \/ ey = 1) as [-> | [-> | ->]] by lia;
    try (exfalso; lia);
    [exists 1 | exists 0 | exists 7 | exists 2 | exists 6
     | exists 3 | exists 4 | exists 5];
    (split; [lia | split; reflexivity]).
Qed.

Lemma touching_sym j j' : touching w j j' -> touching w j' j.
Proof.
  intros (x & y & ex & ey & Hx & Hx' & Hex & Hey & Hne & -> & ->).
  exists (x + ex), (y + ey), (- ex), (- ey).
  repeat split; lia.
Qed.

(** The pixels that touch the pixel at [(x, y)], by their offsets. *)
Lemma touching_offset x y j' :
  0 <= x < w -> touching w (y * w + x) j' -> 0 <= j' < w * h ->
  exists i, 0 <= i < 8 /\
    0 <= x + sample dx i < w /\ 0 <= y + sample dy i < h /\
    j' = (y + sample dy i) * w + (x + sample dx i).
Proof.
  intros Hx (x0 & y0 & ex & ey & Hx0 & Hx0' & Hex & Hey & Hne & E & ->) Hj'.
  assert (y0 = y /\ x0 = x) as [-> ->].
  { destruct (row_col w (y * w + x) x y) as [E1 E2]; [done | done |].
    destruct (row_col w (y * w + x) x0 y0) as [E3 E4]; [done | done |].
    lia. }
  destruct (offsets_all ex ey Hex Hey Hne) as (i & Hi & <- & <-).
  exists i. split; [done |]. split; [done |]. split; [nia | done].
Qed.

Lemma closedAt_keep edges edges' j :
  (forall i, get edges i = Some 255 -> get edges' i = Some 255) ->
  closedAt d w h low edges j -> closedAt d w h low edges' j.
Proof. intros Hkeep Hc j' Ht Hj' Hr. apply Hkeep. by apply Hc. Qed.

(** Marking a pixel that reaches the low threshold and touches an edge
    pixel keeps what the hysteresis keeps. *)
Lemma traced_mark edges visited j j0 :
  traced d w h low high edges visited ->
  0 <= j < w * h -> reaches (get d j) low = true ->
  touching w j j0 -> get edges j0 = Some 255 ->
  traced d w h low high (set edges j 255) (set visited j 1)
  /\ (forall i, get edges i = Some 255 -> get (set edges j 255) i = Some 255)
  /\ get (set edges j 255) j = Some 255.
Proof.
  intros (Hle & Hlv & H01 & Hedge & Hstrong & Hvis & Hmark) Hj Hr Ht Hj0.
  assert (0 <= j < len edges) as Hjl by (unfold len; lia).
  assert (0 <= j < len visited) as Hjv by (unfold len; lia).
  assert (forall i, get edges i = Some 255 -> get (set edges j 255) i = Some 255)
    as Hkeep.
  { intros i Hi. destruct (decide (j = i)) as [<- | Hne].
    - by apply get_set_eq.
    - by rewrite get_set_ne. }
  split; [| split; [done | by apply get_set_eq]].
  split; [by rewrite set_length |]. split; [by rewrite set_length |].
  split; [| split; [| split; [| split]]].
  - intros i v. destruct (decide (j = i)) as [<- | Hne].
    + rewrite get_set_eq by done. intros [= <-]. by right.
    + rewrite get_set_ne by done. apply H01.
  - intros i. destruct (decide (j = i)) as [<- | Hne].
    + intros _. eapply linked_weak; [done | done | by apply Hedge].
    + rewrite get_set_ne by done. apply Hedge.
  - intros i Hi Hs. apply Hkeep. by apply Hstrong.
  - intros i Hi. destruct (decide (j = i)) as [<- | Hne].
    + intros _. by apply get_set_eq.
    + rewrite !get_set_ne by done. by apply Hvis.
  - intros i. destruct (decide (j = i)) as [<- | Hne].
    + intros _. by apply get_set_eq.
    + rewrite !get_set_ne by done. apply Hmark.
Qed.

Lemma stacked_keep edges edges' stack :
  (forall i, get edges i = Some 255 -> get edges' i = Some 255) ->
  stacked w h edges stack -> stacked w h edges' stack.
Proof.
  intros Hkeep Hs. unfold stacked. eapply Forall_impl; [exact Hs |].
  intros [x y] (Hx & Hy & He). split; [done |]. split; [done |].
  by apply Hkeep.
Qed.

(** A round of the loop of [trace], for the edge pixel [(x, y)] that was
    popped: afterwards the pixels around it that reach the low threshold
    are edge pixels. *)
Lemma visitNeighbours_closes cur x y edges visited stack :
  0 <= x < w -> 0 <= y < h ->
  traced d w h low high edges visited -> stacked w h edges stack ->
  pendingAt d w h low cur edges ((x, y) :: stack) ->
  get edges (y * w + x) = Some 255 ->
  let '(edges', visited', stack') :=
    visitNeighbours d w h low x y (edges, visited, stack) in
  traced d w h low high edges' visited' /\ stacked w h edges' stack'
  /\ pendingAt d w h low cur edges' stack'.
Proof.
  intros Hx Hy Ht Hs Hp He. unfold visitNeighbours.
  set (Inv := fun st : Tracing =>
                let '(edges, visited, stack) := st in
                traced d w h low high edges visited /\ stacked w h edges stack
                /\ get edges (y * w + x) = Some 255
                /\ pendingAt d w h low cur edges ((x, y) :: stack)).
  set (Q := fun (i : Z) (st : Tracing) =>
              let '(edges, visited, stack) := st in
              0 <= x + sample dx i < w -> 0 <= y + sample dy i < h ->
              reaches (get d ((y + sample dy i) * w + (x + sample dx i))) low
              = true ->
              get edges ((y + sample dy i) * w + (x + sample dx i)) = Some 255).
  match goal with
  | |- context [for_ ?vals ?body ?init] =>
      destruct (for_establish Inv Q vals body init) as [HI HQ]
  end.
  - intros i [[e v] s] Hi HInv. pose proof HInv as (Ht' & Hs' & He' & Hp').
    apply elem_of_range in Hi. destruct (offsets i Hi) as (Hdx & Hdy & Hne).
    destruct ((0 <=? x + sample dx i) && (x + sample dx i <? w)
              && (0 <=? y + sample dy i) && (y + sample dy i <? h))%bool
      eqn:Hin.
    2:{ split; [exact HInv |]. unfold Q. intros H1 H2.
        rewrite !andb_false_iff, !Z.leb_gt, !Z.ltb_ge in Hin. lia. }
    rewrite !andb_true_iff, !Z.leb_le, !Z.ltb_lt in Hin.
    destruct (falsy (get v _)) eqn:Hf; cbn [andb].
    2:{ destruct Ht' as (_ & _ & _ & _ & _ & Hvis & _).
        split; [exact HInv |]. unfold Q. intros _ _ _. apply Hvis; [nia | done]. }
    destruct (reaches _ low) eqn:Hr.
    2:{ split; [exact HInv |]. unfold Q. intros _ _ Hr'. congruence. }
    destruct (traced_mark e v
                ((y + sample dy i) * w + (x + sample dx i)) (y * w + x) Ht')
      as (Ht'' & Hkeep & Hnew); try done.
    + nia.
    + exists (x + sample dx i), (y + sample dy i), (- sample dx i),
        (- sample dy i).
      repeat split; lia.
    + split; [| unfold Q; by intros _ _ _].
      split; [done |]. split; [| split; [by apply Hkeep |]].
      * apply Forall_cons. split; [| by eapply stacked_keep].
        split; [lia |]. split; [lia | done].
      * intros j Hj.
        destruct (decide (j = (y + sample dy i) * w + (x + sample dx i)))
          as [-> | Hne'].
        -- right. left. exists (x + sample dx i), (y + sample dy i).
           split; [| done]. apply list_elem_of_further, list_elem_of_here.
        -- rewrite get_set_ne in Hj by done.
           destruct (Hp' j Hj) as [Hc | [(x' & y' & Hin' & ->) | Hc]].
           ++ left. by eapply closedAt_keep.
           ++ right. left. exists x', y'. split; [| done].
              apply elem_of_cons in Hin' as [-> | Hin'];
                [apply list_elem_of_here |].
              by do 2 apply list_elem_of_further.
           ++ by right; right.
  - intros i j [[e v] s] Hj (Ht' & _) HQ'.
    destruct ((0 <=? x + sample dx j) && (x + sample dx j <? w)
              && (0 <=? y + sample dy j) && (y + sample dy j <? h))%bool
      eqn:Hin; [| done].
    destruct (falsy _ && reaches _ _)%bool; [| done].
    unfold Q in *. intros H1 H2 H3. specialize (HQ' H1 H2 H3).
    destruct (decide ((y + sample dy j) * w + (x + sample dx j)
                      = (y + sample dy i) * w + (x + sample dx i)))
      as [E | Hne].
    + rewrite E. apply get_set_eq. by eapply get_Some_range.
    + by rewrite get_set_ne.
  - exact (conj Ht (conj Hs (conj He Hp))).
  - destruct (for_ _ _ _) as [[e v] s].
    destruct HI as (Ht' & Hs' & He' & Hp').
    split; [done |]. split; [done |].
    assert (closedAt d w h low e (y * w + x)) as Hclosed.
    { intros j' Htouch Hj' Hr.
      destruct (touching_offset x y j' Hx Htouch Hj')
        as (i & Hi & Hix & Hiy & ->).
      apply (HQ i); [by apply elem_of_range | done | done | done]. }
    intros j Hj. destruct (Hp' j Hj) as [Hc | [(x' & y' & Hin' & ->) | Hc]].
    + by left.
    + apply elem_of_cons in Hin' as [[= -> ->] | Hin']; [by left |].
      right. left. by exists x', y'.
    + by right; right.
Qed.

Lemma traceLoop_closes cur fuel :
  forall edges visited stack,
    traced d w h low high edges visited -> stacked w h edges stack ->
    pendingAt d w h low cur edges stack ->
    let '(edges', visited', stack') :=
      traceLoop fuel d w h low (edges, visited, stack) in
    traced d w h low high edges' visited' /\
    pendingAt d w h low cur edges' stack'.
Proof.
  induction fuel as [| fuel IH]; intros edges visited stack Ht Hs Hp.
  - done.
  - destruct stack as [| [x y] stack]; [done |]. cbn [traceLoop].
    apply Forall_cons in Hs as [(Hx & Hy & He) Hs].
    pose proof (visitNeighbours_closes cur x y edges visited stack
                  Hx Hy Ht Hs Hp He) as H.
    destruct (visitNeighbours _ _ _ _ _ _ _) as [[e v] s].
    destruct H as (H1 & H2 & H3). by apply IH.
Qed.

(** A trace from the edge pixel at the index [y * w + x], before which the
    edge pixels have all been gone through. *)
Lemma trace_closes x y edges visited :
  0 <= x < w -> 0 <= y < h ->
  traced d w h low high edges visited ->
  pendingAt d w h low (y * w + x) edges [] ->
  get edges (y * w + x) = Some 255 ->
  let '(edges', visited') := trace d w h low x y edges visited in
  traced d w h low high edges' visited' /\
  pendingAt d w h low (y * w + x + 1) edges' [].
Proof.
  intros Hx Hy Ht Hp He. unfold trace.
  pose proof (traceLoop_closes (y * w + x + 1) (S (Z.to_nat (w * h)))
                edges visited [(x, y)] Ht) as Hclose.
  pose proof (traceLoop_empties d w h low (Z.to_nat (w * h))
                (S (Z.to_nat (w * h))) eq_refl
                (1 + unvisited visited)%nat (edges, visited, [(x, y)]))
    as Hempty.
  destruct (traceLoop _ _ _ _ _ _) as [[e v] s]. cbn [snd] in Hempty.
  rewrite Hempty in Hclose.
  - apply Hclose.
    + by apply Forall_singleton.
    + intros j Hj. destruct (Hp j Hj) as [Hc | [(x' & y' & Hin & _) | Hc]].
      * by left.
      * by apply elem_of_nil in Hin.
      * destruct (decide (j = y * w + x)) as [-> | Hne].
        -- right. left. exists x, y. split; [apply list_elem_of_here | done].
        -- right. right. lia.
  - destruct Ht as (_ & Hlv & _). split; [done | cbn; lia].
  - destruct Ht as (_ & Hlv & _). pose proof (unvisited_le visited). lia.
Qed.

Hypothesis Hd : len d = w * h.

(** The first pass marks the pixels that reach the high threshold. *)
Lemma strong_pass (n : nat) :
  (n <= Z.to_nat (w * h))%nat ->
  let '(edges, visited) :=
    for_ (range 0 (Z.of_nat n))
      (fun i '(edges, visited) =>
         if reaches (get d i) high
         then (set edges i 255, set visited i 1)
         else (edges, visited))
      (new_array (w * h), new_array (w * h)) in
  length edges = Z.to_nat (w * h) /\ length visited = Z.to_nat (w * h) /\
  forall j, 0 <= j < w * h ->
    get edges j = Some (if (j <? Z.of_nat n) && reaches (get d j) high
                        then 255 else 0) /\
    get visited j = Some (if (j <? Z.of_nat n) && reaches (get d j) high
                          then 1 else 0).
Proof.
  induction n as [| n IH]; intros Hn.
  - change (range 0 (Z.of_nat 0)) with (@nil Z). cbn [for_ fold_left].
    rewrite !new_array_length. split; [done |]. split; [done |].
    intros j Hj. replace (j <? Z.of_nat 0) with false
      by (symmetry; apply Z.ltb_ge; lia).
    by rewrite !get_new_array.
  - rewrite range_0_snoc, for_app. specialize (IH ltac:(lia)).
    destruct (for_ (range 0 (Z.of_nat n)) _ _) as [edges visited].
    destruct IH as (Hle & Hlv & Hg). cbn [for_ fold_left].
    destruct (reaches (get d (Z.of_nat n)) high) eqn:Hr.
    + rewrite !set_length. split; [done |]. split; [done |].
      intros j Hj. destruct (decide (Z.of_nat n = j)) as [<- | Hne].
      * rewrite !get_set_eq by (unfold len; lia). rewrite Hr.
        by replace (Z.of_nat n <? Z.of_nat (S n)) with true
          by (symmetry; apply Z.ltb_lt; lia).
      * rewrite !get_set_ne by done. destruct (Hg j Hj) as [-> ->].
        destruct (Z.ltb_spec j (Z.of_nat n)), (Z.ltb_spec j (Z.of_nat (S n)));
          try lia; done.
    + split; [done |]. split; [done |].
      intros j Hj. destruct (Hg j Hj) as [-> ->].
      destruct (decide (Z.of_nat n = j)) as [<- | Hne].
      * rewrite Hr, !andb_false_r. done.
      * destruct (Z.ltb_spec j (Z.of_nat n)), (Z.ltb_spec j (Z.of_nat (S n)));
          try lia; done.
Qed.

(** The edge map of [applyHysteresis]. *)
Lemma applyHysteresis_traced :
  exists visited,
    traced d w h low high (applyHysteresis (mkImage d w h) low high) visited
    /\ pendingAt d w h low (w * h)
         (applyHysteresis (mkImage d w h) low high) [].
Proof.
  unfold applyHysteresis. cbn [data width height].
  pose proof (strong_pass (Z.to_nat (w * h)) ltac:(lia)) as Hpass.
  rewrite Z2Nat.id in Hpass by nia. rewrite Hd.
  destruct (for_ (range 0 (w * h)) _ _) as [edges0 visited0].
  destruct Hpass as (Hle & Hlv & Hg).
  assert (forall j, 0 <= j < w * h ->
            get edges0 j = Some (if reaches (get d j) high then 255 else 0) /\
            get visited0 j = Some (if reaches (get d j) high then 1 else 0))
    as Hg'.
  { intros j Hj. destruct (Hg j Hj) as [-> ->].
    by replace (j <? w * h) with true by (symmetry; apply Z.ltb_lt; lia). }
  clear Hg.
  assert (forall j v, get edges0 j = Some v -> 0 <= j < w * h) as Hrange.
  { intros j v Hj. apply get_Some_range in Hj. unfold len in Hj. lia. }
  assert (traced d w h low high edges0 visited0) as Ht0.
  { split; [done |]. split; [done |].
    split; [| split; [| split; [| split]]].
    - intros j v Hj. destruct (Hg' j (Hrange j v Hj)) as [E _].
      rewrite E in Hj. injection Hj as <-.
      destruct (reaches _ _); [by right | by left].
    - intros j Hj. destruct (Hg' j (Hrange j _ Hj)) as [E _].
      rewrite E in Hj. destruct (reaches (get d j) high) eqn:Hr; [| done].
      by apply linked_strong.
    - intros j Hj Hr. destruct (Hg' j Hj) as [-> _]. by rewrite Hr.
    - intros j Hj. destruct (Hg' j Hj) as [-> ->].
      by destruct (reaches _ _).
    - intros j Hj. destruct (Hg' j (Hrange j _ Hj)) as [E ->].
      rewrite E in Hj. by destruct (reaches _ _). }
  clear Hg' Hle Hlv Hrange.
  set (P := fun (cur : Z) (ev : list Z * list Z) =>
              let '(edges, visited) := ev in
              traced d w h low high edges visited
              /\ pendingAt d w h low cur edges []).
  assert (P (h * w)
            (for_ (range 0 h)
               (fun y ev =>
                  for_ (range 0 w)
                    (fun x '(edges, visited) =>
                       let idx := y * w + x in
                       if (bool_decide (get edges idx = Some 255)
                           && bool_decide (get visited idx = Some 1))%bool
                       then trace d w h low x y edges visited
                       else (edges, visited))
                    ev)
               (edges0, visited0))) as Hfinal.
  { apply (for_upto (fun y => P (y * w))); [lia | |].
    - split; [done |]. intros j Hj. right. right.
      apply get_Some_range in Hj. lia.
    - intros y ev Hy Hev.
      replace ((y + 1) * w) with (y * w + w) by lia.
      apply (for_upto (fun x => P (y * w + x))); [lia | |].
      + by rewrite Z.add_0_r.
      + intros x [edges visited] Hx [Ht Hp]. cbn zeta.
        destruct (bool_decide (get edges (y * w + x) = Some 255)) eqn:He.
        * apply bool_decide_eq_true in He.
          pose proof Ht as (_ & _ & _ & _ & _ & _ & Hmark).
          rewrite (Hmark _ He), bool_decide_eq_true_2 by done. cbn [andb].
          pose proof (trace_closes x y edges visited Hx Hy Ht Hp He) as H.
          destruct (trace _ _ _ _ _ _ _ _) as [e v].
          by rewrite Z.add_assoc.
        * cbn [andb]. apply bool_decide_eq_false in He.
          split; [done |]. intros j Hj.
          destruct (Hp j Hj) as [Hc | [(x' & y' & Hin & _) | Hc]].
          -- by left.
          -- by apply elem_of_nil in Hin.
          -- right. right. assert (j <> y * w + x) by congruence. lia. }
  destruct (for_ (range 0 h) _ _) as [edges visited].
  destruct Hfinal as [Ht Hp]. exists visited.
  split; [done |]. by rewrite Z.mul_comm.
Qed.

End HysteresisEdges.

Section EdgeImages.
Import JS Canny.

Lemma linked_range d w low high j :
  linked d w low high j -> 0 <= j < len d.
Proof.
  intros [j' H | j' j'' H _ _];
    (destruct (get d j') as [v |] eqn:E; [by eapply get_Some_range | done]).
Qed.

(** The edge pixels are the pixels that are linked to a strong pixel. *)
Lemma applyHysteresis_linked_iff d w h low high :
  0 < w -> 0 < h -> len d = w * h ->
  let edges := applyHysteresis (mkImage d w h) low high in
  len edges = w * h /\
  forall j, 0 <= j < w * h ->
    (get edges j = Some 255 /\ linked d w low high j) \/
    (get edges j = Some 0 /\ ~ linked d w low high j).
Proof.
  intros Hw Hh Hd edges.
  destruct (applyHysteresis_traced d w h low high Hw Hh Hd)
    as (visited & (Hle & _ & H01 & Hsound & Hstrong & _) & Hp).
  fold edges in Hle, H01, Hsound, Hstrong, Hp.
  assert (len edges = w * h) as Hlen by (unfold len; lia).
  assert (forall j, linked d w low high j -> get edges j = Some 255) as Hcomplete.
  { intros j Hl. induction Hl as [j Hs | j j' Hr Ht Hl IH].
    - apply Hstrong; [| done].
      rewrite <- Hd. apply (linked_range d w low high). by apply linked_strong.
    - destruct (Hp j' IH) as [Hc | [(x & y & Hin & _) | Hc]].
      + apply Hc; [by apply touching_sym | | done].
        rewrite <- Hd. destruct (get d j) as [v |] eqn:E; [| done].
        by eapply get_Some_range.
      + by apply elem_of_nil in Hin.
      + apply get_Some_range in IH. lia. }
  split; [done |]. intros j Hj.
  destruct (get_is_Some edges j) as [v Hv]; [lia |].
  destruct (H01 j v Hv) as [-> | ->].
  - right. split; [done |]. intros Hl. apply Hcomplete in Hl. congruence.
  - left. split; [done | by apply Hsound].
Qed.

(** The loop that paints the edge map. *)
Lemma paint_edges (edges : list Z) (n : Z) init :
  0 <= n -> len init = 4 * n ->
  let out :=
    for_ (range 0 n)
      (fun i outputData =>
         let offset := i * 4 in
         let edgeValue :=
           if bool_decide (get edges i = Some 255) then 255 else 0 in
         write4 outputData offset edgeValue edgeValue edgeValue 255)
      init in
  length out = length init /\
  forall j, 0 <= j < 4 * n ->
    get out j =
      Some (let e := if bool_decide (get edges (j / 4) = Some 255)
                     then 255 else 0 in
            channel (j mod 4) e e e 255).
Proof.
  intros Hn Hinit out.
  destruct (for_local (fun i j => j / 4 =? i)
              (fun j => let e := if bool_decide (get edges (j / 4) = Some 255)
                                 then 255 else 0 in
                        channel (j mod 4) e e e 255)
              (fun i outputData =>
                 let offset := i * 4 in
                 let edgeValue :=
                   if bool_decide (get edges i = Some 255) then 255 else 0 in
                 write4 outputData offset edgeValue edgeValue edgeValue 255)
              (range 0 n)) with (init := init) as [Hl Hg].
  - intros i a _. apply write4_length.
  - intros i a j _ Ht Hj. apply Z.eqb_eq in Ht. cbn zeta.
    rewrite get_write4_hit by done. by rewrite Ht.
  - intros i a j _ Ht. apply Z.eqb_neq in Ht. cbn zeta.
    by rewrite get_write4_miss.
  - split; [done |]. intros j Hj. unfold out. rewrite Hg by lia.
    replace (existsb (fun i => j / 4 =? i) (range 0 n)) with true; [done |].
    symmetry. apply existsb_range. exists (j / 4).
    split; [| by apply Z.eqb_eq].
    split; [apply Z.div_pos; lia | apply Z.div_lt_upper_bound; lia].
Qed.

End EdgeImages.

(** X5. For suppressed magnitudes of a [w] by [h] image, the edge map of
    [applyHysteresis] has one entry for every pixel, and the entry is 255
    exactly for the pixels that are linked to a
    strong pixel: the pixels that reach the high threshold, and the pixels
    that reach the low threshold and touch, by a side or by a corner, a pixel
    that is linked to a strong pixel.  The entry of every other pixel
    is 0. *)
Theorem applyHysteresis_linked img low high :
  0 < width img -> 0 < height img ->
  JS.len (data img) = width img * height img ->
  let edges := Canny.applyHysteresis img low high in
  JS.len edges = width img * height img /\
  forall j, 0 <= j < width img * height img ->
    (JS.get edges j = Some 255 /\ linked (data img) (width img) low high j) \/
    (JS.get edges j = Some 0 /\ ~ linked (data img) (width img) low high j).
Proof.
  destruct img as [d w h]. cbn [data width height].
  apply applyHysteresis_linked_iff.
Qed.

Lemma applyHysteresis_linked_witness :
  JS.get (Canny.applyHysteresis (mkImage [0; 50; 80; 50; 0; 50] 3 2) 40 70) 5
  = Some 255.
Proof.
  destruct (applyHysteresis_linked (mkImage [0; 50; 80; 50; 0; 50] 3 2) 40 70)
    as [_ H]; [cbn; lia | cbn; lia | reflexivity |].
  destruct (H 5) as [[H5 _] | [H5 _]]; [cbn; lia | exact H5 |].
  vm_compute in H5. discriminate.
Defined.

Lemma Returns_inj a b : Canny.Returns a = Canny.Returns b -> a = b.
Proof. by intros [= ->]. Qed.

(** X6. When [cannyEdgeDetection] returns, the canvas holds an image of the
    size of the input in which every pixel is opaque: white, (255,255,255,255),
    for the pixels whose suppressed magnitude is linked to a strong one by the
    hysteresis, and black, (0,0,0,255), for all others. *)
Theorem cannyEdgeDetection_output
    (Math_exp : Q -> Q) (Math_atan2_deg : Z -> Z -> Q) canvas low high sigma out :
  0 < width canvas -> 0 < height canvas ->
  Canny.cannyEdgeDetection Math_exp Math_atan2_deg canvas low high sigma
  = Canny.Returns out ->
  let d := Canny.suppressedMagnitudes Math_exp Math_atan2_deg canvas sigma in
  width out = width canvas /\ height out = height canvas /\
  forall x y, 0 <= x < width canvas -> 0 <= y < height canvas ->
    (pixel_at out x y = Some (255, 255, 255, 255)
     /\ linked d (width canvas) low high (y * width canvas + x)) \/
    (pixel_at out x y = Some (0, 0, 0, 255)
     /\ ~ linked d (width canvas) low high (y * width canvas + x)).
Proof.
  intros Hw Hh Hret d. unfold d, Canny.suppressedMagnitudes.
  unfold Canny.cannyEdgeDetection in Hret. cbn zeta in Hret.
  destruct (Canny.calculateGradients _ _) as [gm gd].
  destruct (_ <=? 1); [done |]. apply Returns_inj in Hret. subst out.
  cbn [width height data].
  split; [done |]. split; [done |]. intros x y Hx Hy.
  destruct (applyNonMaximumSuppression_get gm gd (width canvas) (height canvas)
              Hw Hh) as [Hlen _].
  set (s := Canny.applyNonMaximumSuppression gm gd (width canvas) (height canvas))
    in *.
  assert (width s = width canvas /\ height s = height canvas) as [Ews Ehs] by done.
  destruct (applyHysteresis_linked_iff (data s) (width canvas) (height canvas)
              low high Hw Hh Hlen) as [Hel He].
  change (mkImage (data s) (width canvas) (height canvas)) with s in Hel, He.
  set (edges := Canny.applyHysteresis s low high) in *.
  destruct (paint_edges edges (JS.len edges)
              (JS.new_array (width canvas * height canvas * 4)))
    as [Hol Hog]; [lia | |].
  { unfold JS.len at 1. rewrite new_array_length. nia. }
  assert (forall c, 0 <= c < 4 ->
            ((y * width canvas + x) * 4 + c) / 4 = y * width canvas + x
            /\ ((y * width canvas + x) * 4 + c) mod 4 = c) as Hdiv.
  { intros c Hc. split.
    - symmetry. apply (Z.div_unique_pos _ _ _ c); lia.
    - symmetry. apply (Z.mod_unique_pos _ _ (y * width canvas + x)); lia. }
  assert (0 <= y * width canvas + x < width canvas * height canvas) as Hj by nia.
  destruct (He _ Hj) as [[E Hl] | [E Hl]]; [left | right]; (split; [| done]).
  - apply (pixel_at_cells (mkImage _ _ _) x y
             (fun c => channel c 255 255 255 255)); [done |].
    intros c Hc. cbn [data width]. rewrite Hog by lia.
    destruct (Hdiv c Hc) as [-> ->]. by rewrite E, bool_decide_eq_true_2.
  - apply (pixel_at_cells (mkImage _ _ _) x y
             (fun c => channel c 0 0 0 255)); [done |].
    intros c Hc. cbn [data width]. rewrite Hog by lia.
    destruct (Hdiv c Hc) as [-> ->]. by rewrite E, bool_decide_eq_false_2.
Qed.

Lemma cannyEdgeDetection_output_witness :
  exists out,
    Canny.cannyEdgeDetection exp_like (fun _ _ => 0%Q) dark_left 40 70 (1 # 2)
    = Canny.Returns out /\
    width out = 3 /\ height out = 3.
Proof.
  assert (exists out,
            Canny.cannyEdgeDetection exp_like (fun _ _ => 0%Q) dark_left 40 70
              (1 # 2) = Canny.Returns out) as [out Hout]
    by (eexists; vm_compute; reflexivity).
  exists out. split; [exact Hout |].
  assert (0 < width dark_left) as Hw by reflexivity.
  assert (0 < height dark_left) as Hh by reflexivity.
  destruct (cannyEdgeDetection_output exp_like (fun _ _ => 0%Q) dark_left 40 70
              (1 # 2) out Hw Hh Hout) as (Hwd & Hht & _).
  split; [exact Hwd | exact Hht].
Defined.


(** ** The grayscale filter *)
Section Grayscale.
Import JS Ops.

(** The cells of the image that [applyGrayscale] leaves. *)
Lemma applyGrayscale_cells img :
  rgba_buffer img ->
  length (data (applyGrayscale img)) = length (data img) /\
  forall j, 0 <= j < 4 * (width img * height img) ->
    exists r g b,
      get (data img) (4 * (j / 4)) = Some r /\
      get (data img) (4 * (j / 4) + 1) = Some g /\
      get (data img) (4 * (j / 4) + 2) = Some b /\
      get (data (applyGrayscale img)) j =
        Some (let v := round_half_even (lum r g b) in
              channel (j mod 4) v v v 255).
Proof.
  intros (Hw & Hh & Hlen & Hb).
  unfold applyGrayscale. cbn [data].
  set (gray := data (convertToGrayscale img)).
  assert (len gray = width img * height img) as Hgl.
  { unfold len, gray. rewrite convertToGrayscale_length. nia. }
  set (init := new_array (width img * height img * 4)).
  assert (length init = length (data img)) as Hil.
  { unfold init. rewrite new_array_length. unfold len in Hlen. lia. }
  destruct (for_local (fun i j => j / 4 =? i)
              (fun j => let v := to_uint8_clamped (num (get gray (j / 4))) in
                        channel (j mod 4) v v v 255)
              (fun i outputData =>
                 let value := num (get gray i) in
                 let offset := i * 4 in
                 set4 outputData offset value value value (Some 255%Q))
              (range 0 (len gray))) with (init := init) as [Hl Hg].
  - intros i a _. apply set4_length.
  - intros i a j _ Ht Hj. apply Z.eqb_eq in Ht. cbn zeta.
    rewrite get_set4_hit by done. by rewrite Ht.
  - intros i a j _ Ht. apply Z.eqb_neq in Ht. cbn zeta.
    by rewrite get_set4_miss.
  - split; [exact (eq_trans Hl Hil) |]. intros j Hj.
    assert (0 <= j / 4 < width img * height img) as Hq.
    { split; [apply Z.div_pos; lia | apply Z.div_lt_upper_bound; lia]. }
    destruct (get_is_Some (data img) (4 * (j / 4))) as [r Hr]; [lia |].
    destruct (get_is_Some (data img) (4 * (j / 4) + 1)) as [g Hgg]; [lia |].
    destruct (get_is_Some (data img) (4 * (j / 4) + 2)) as [b Hbb]; [lia |].
    exists r, g, b. repeat (split; [done |]).
    etrans; [apply Hg; unfold len in *; lia |].
    replace (existsb (fun i => j / 4 =? i) (range 0 (len gray))) with true.
    2:{ symmetry. apply existsb_range. exists (j / 4).
        split; [lia | by apply Z.eqb_eq]. }
    cbv zeta. unfold gray. rewrite convertToGrayscale_get by lia.
    rewrite Hr, Hgg, Hbb.
    rewrite to_uint8_clamped_lum by (by eapply get_byte).
    pose proof (round_half_even_range _ _ _
                  (lum_range r g b ltac:(by eapply get_byte)
                     ltac:(by eapply get_byte) ltac:(by eapply get_byte))) as Hv.
    by rewrite to_uint8_clamped_num.
Qed.

Lemma cell_pixel w x y c :
  0 <= c < 4 ->
  ((y * w + x) * 4 + c) / 4 = y * w + x /\ ((y * w + x) * 4 + c) mod 4 = c.
Proof.
  intros Hc. split.
  - symmetry. apply (Z.div_unique_pos _ _ _ c); lia.
  - symmetry. apply (Z.mod_unique_pos _ _ (y * w + x)); lia.
Qed.

Lemma lum_gray v : (lum v v v == inject_Z v)%Q.
Proof. unfold lum. Lqa.lra. Qed.

Lemma applyGrayscale_get img j :
  rgba_buffer img -> 0 <= j < 4 * (width img * height img) ->
  get (data (applyGrayscale img)) j =
    Some (channel (j mod 4) (grayAt img (j / 4)) (grayAt img (j / 4))
            (grayAt img (j / 4)) 255).
Proof.
  intros Hwf Hj. destruct (applyGrayscale_cells img Hwf) as [_ Hc].
  destruct (Hc j Hj) as (r & g & b & Hr & Hg & Hb & ->).
  unfold grayAt, sample. by rewrite Hr, Hg, Hb.
Qed.

Lemma grayAt_byte img q :
  rgba_buffer img -> 0 <= q < width img * height img -> byte (grayAt img q).
Proof.
  intros (Hw & Hh & Hlen & Hb) Hq. unfold grayAt, sample.
  destruct (get_is_Some (data img) (4 * q)) as [r Hr]; [lia |].
  destruct (get_is_Some (data img) (4 * q + 1)) as [g Hg]; [lia |].
  destruct (get_is_Some (data img) (4 * q + 2)) as [b Hbb]; [lia |].
  rewrite Hr, Hg, Hbb. cbn [default].
  apply (round_half_even_range _ 0 255), lum_range; by eapply get_byte.
Qed.

Lemma applyGrayscale_rgba img : rgba_buffer img -> rgba_buffer (applyGrayscale img).
Proof.
  intros Hwf. destruct (applyGrayscale_cells img Hwf) as [Hl _].
  pose proof Hwf as (Hw & Hh & Hlen & Hb).
  split; [done |]. split; [done |]. split.
  - cbn [width height]. unfold len in *. by rewrite Hl.
  - apply Forall_lookup. intros i v Hi.
    assert (0 <= Z.of_nat i < 4 * (width img * height img)) as Hj.
    { apply lookup_lt_Some in Hi. unfold len in Hlen. lia. }
    pose proof (applyGrayscale_get img _ Hwf Hj) as Hv.
    unfold get in Hv. destruct (Z.of_nat i <? 0) eqn:E; [lia |].
    rewrite Nat2Z.id, Hi in Hv. injection Hv as ->.
    assert (byte (grayAt img (Z.of_nat i / 4))) as Hg.
    { apply grayAt_byte; [done |].
      split; [apply Z.div_pos; lia | apply Z.div_lt_upper_bound; lia]. }
    unfold channel, byte in *. repeat case_match; lia.
Qed.

(** The gray value of a gray pixel is the value of its channels. *)
Lemma grayAt_applyGrayscale img q :
  rgba_buffer img -> 0 <= q < width img * height img ->
  grayAt (applyGrayscale img) q = grayAt img q.
Proof.
  intros Hwf Hq.
  assert (forall c, 0 <= c < 3 ->
            sample (data (applyGrayscale img)) (4 * q + c) = grayAt img q) as Hs.
  { intros c Hc. unfold sample. rewrite applyGrayscale_get by (done || lia).
    assert ((4 * q + c) / 4 = q) as ->
      by (symmetry; apply (Z.div_unique_pos _ _ _ c); lia).
    assert ((4 * q + c) mod 4 = c) as ->
      by (symmetry; apply (Z.mod_unique_pos _ _ q); lia).
    cbn. unfold channel.
    destruct (Z.eqb_spec c 0), (Z.eqb_spec c 1), (Z.eqb_spec c 2);
      reflexivity || lia. }
  unfold grayAt at 1.
  rewrite <- (Z.add_0_r (4 * q)) at 1. rewrite !Hs by lia.
  rewrite (round_half_even_proper _ (inject_Z (grayAt img q)))
    by apply lum_gray.
  apply round_half_even_int.
Qed.

End Grayscale.



(** X8. [applyGrayscale] is idempotent on RGBA buffers: applying it to its
    own result changes nothing, as the luminance of a gray pixel is its gray
    value. *)
Theorem applyGrayscale_idempotent img :
  rgba_buffer img -> applyGrayscale (applyGrayscale img) = applyGrayscale img.
Proof.
  intros Hwf. pose proof (applyGrayscale_rgba img Hwf) as Hwf2.
  destruct (applyGrayscale_cells img Hwf) as [Hl1 _].
  destruct (applyGrayscale_cells _ Hwf2) as [Hl2 _].
  assert (data (applyGrayscale (applyGrayscale img)) = data (applyGrayscale img))
    as Hd.
  { apply get_ext; [done |]. intros j Hj.
    assert (0 <= j < 4 * (width img * height img)) as Hj'.
    { destruct Hwf as (_ & _ & Hlen & _). unfold JS.len in *. lia. }
    rewrite (applyGrayscale_get (applyGrayscale img)) by done.
    rewrite (applyGrayscale_get img) by done.
    rewrite grayAt_applyGrayscale; [done | done |].
    split; [apply Z.div_pos; lia | apply Z.div_lt_upper_bound; lia]. }
  unfold applyGrayscale in *. cbn [data width height] in *. by rewrite Hd.
Qed.

Lemma applyGrayscale_idempotent_witness :
  applyGrayscale (applyGrayscale (mkImage [2; 0; 0; 7; 200; 100; 50; 0] 2 1))
  = applyGrayscale (mkImage [2; 0; 0; 7; 200; 100; 50; 0] 2 1).
Proof.
  apply applyGrayscale_idempotent.
  unfold rgba_buffer, byte. cbn.
  repeat split; try lia. repeat constructor; lia.
Defined.

(** ** The median filter *)
Section MedianWindow.
Import JS Ops.

Lemma halfKernel_sign k :
  (0 <= k -> 0 <= oddKernel k / 2) /\ (k < 0 -> oddKernel k / 2 < 0).
Proof.
  unfold oddKernel.
  destruct (Z.eqb_spec (Z.rem k 2) 0) as [E | N].
  - apply Z.rem_divide in E; [| lia]. destruct E as [m ->].
    assert ((m * 2 + 1) / 2 = m) as ->
      by (symmetry; apply (Z.div_unique_pos _ _ m 1); lia).
    lia.
  - split; intros Hk.
    + apply Z.div_pos; lia.
    + apply Z.div_lt_upper_bound; lia.
Qed.

Lemma flat_map_singleton {B C} (g : B -> C) l :
  flat_map (fun x => [g x]) l = map g l.
Proof. induction l as [| x l IH]; [done |]. cbn. by rewrite IH. Qed.

Lemma flat_map_pairs {B} (P : Z * Z -> B) (l1 l2 : list Z) :
  flat_map (fun ky => flat_map (fun kx => [P (kx, ky)]) l2) l1
  = map P (flat_map (fun ky => map (fun kx => (kx, ky)) l2) l1).
Proof.
  induction l1 as [| ky l1 IH]; [done |].
  cbn [flat_map]. rewrite map_app, IH. f_equal.
  rewrite flat_map_singleton. by rewrite map_map.
Qed.

(** The kernel loops gather the pixels of the window. *)
Lemma gather_window d w h hk x y :
  gather d w h hk x y = map (pixelOf d w h x y) (window hk).
Proof.
  unfold gather, window.
  rewrite (for_ext _ _
             (fun ky pixels =>
                pixels ++ flat_map (fun kx => [pixelOf d w h x y (kx, ky)])
                                   (range (- hk) (hk + 1)))).
  2:{ intros ky pixels _.
      exact (for_pushes _ (fun kx => [pixelOf d w h x y (kx, ky)]) pixels). }
  rewrite (for_pushes _
             (fun ky => flat_map (fun kx => [pixelOf d w h x y (kx, ky)])
                                 (range (- hk) (hk + 1)))).
  cbn [app]. apply flat_map_pairs.
Qed.

Lemma window_length r : 0 <= r -> length (window r) = Z.to_nat ((2 * r + 1) * (2 * r + 1)).
Proof.
  intros Hr. unfold window.
  assert (forall l : list Z,
            length (flat_map (fun ky => map (fun kx => (kx, ky))
                                            (range (- r) (r + 1))) l)
            = (length l * Z.to_nat (2 * r + 1))%nat) as H.
  { induction l as [| ky l IH]; [done |].
    cbn [flat_map]. rewrite length_app, length_map, range_length, IH.
    cbn [length]. replace (r + 1 - - r) with (2 * r + 1) by lia. lia. }
  rewrite H, range_length. replace (r + 1 - - r) with (2 * r + 1) by lia.
  rewrite Z2Nat.inj_mul by lia. done.
Qed.

Lemma elem_of_window r kx ky :
  (kx, ky) ∈ window r <-> (- r <= kx <= r /\ - r <= ky <= r).
Proof.
  unfold window. rewrite list_elem_of_In, in_flat_map. split.
  - intros (ky' & Hky & Hin). apply in_map_iff in Hin as (kx' & [= -> ->] & Hkx).
    apply list_elem_of_In, elem_of_range in Hky.
    apply list_elem_of_In, elem_of_range in Hkx. lia.
  - intros [Hx Hy]. exists ky. split.
    + apply list_elem_of_In, elem_of_range. lia.
    + apply in_map_iff. exists kx. split; [done |].
      apply list_elem_of_In, elem_of_range. lia.
Qed.

(** *** The sort *)

Lemma insert_sorted_perm p l : insert_sorted p l ≡ₚ p :: l.
Proof.
  induction l as [| q l IH]; [done |].
  cbn. destruct (before p q); [done |].
  rewrite IH. apply Permutation_swap.
Qed.

Lemma sort_fold_perm l : forall acc,
  fold_left (fun sorted p => insert_sorted p sorted) l acc ≡ₚ acc ++ l.
Proof.
  induction l as [| p l IH]; intros acc; cbn.
  - by rewrite app_nil_r.
  - rewrite IH, insert_sorted_perm. cbn. apply Permutation_middle.
Qed.

Lemma sort_perm l : sort l ≡ₚ l.
Proof. unfold sort. by rewrite sort_fold_perm. Qed.

Lemma before_false p q :
  has_lum p -> has_lum q -> before p q = false -> le_lum q p.
Proof.
  intros [a Ha] [b Hb]. unfold before, le_lum, lumOf. rewrite Ha, Hb. cbn.
  intros H. apply negb_false_iff in H. by apply Qle_bool_iff.
Qed.

Lemma before_true p q :
  has_lum p -> has_lum q -> before p q = true -> le_lum p q.
Proof.
  intros [a Ha] [b Hb]. unfold before, le_lum, lumOf. rewrite Ha, Hb. cbn.
  intros H. apply negb_true_iff in H.
  destruct (Qlt_le_dec a b) as [Hlt | Hle]; [by apply Qlt_le_weak |].
  apply Qle_bool_iff in Hle. congruence.
Qed.

Lemma insert_sorted_sorted p l :
  has_lum p -> Forall has_lum l ->
  ascending l -> ascending (insert_sorted p l).
Proof.
  intros Hp. induction l as [| q l IH]; intros Hl Hs; cbn.
  - done.
  - apply Forall_cons in Hl as [Hq' Hl]. destruct Hs as [Hq Hs].
    destruct (before p q) eqn:E.
    + split; [| by split].
      pose proof (before_true p q Hp Hq' E) as Hpq.
      constructor; [done |].
      eapply Forall_impl; [exact Hq |]. intros r Hr.
      unfold le_lum in *. by apply (Qle_trans _ (lumOf q)).
    + split; [| by apply IH].
      rewrite insert_sorted_perm. constructor; [| done].
      by apply before_false.
Qed.

Lemma sort_sorted l : Forall has_lum l -> ascending (sort l).
Proof.
  intros Hl. unfold sort.
  assert (forall acc, Forall has_lum acc -> ascending acc ->
            ascending
              (fold_left (fun sorted p => insert_sorted p sorted) l acc)) as H.
  { induction Hl as [| p l Hp Hl IH]; intros acc Ha Hs; [done |].
    cbn. apply IH.
    - rewrite insert_sorted_perm. by constructor.
    - by apply insert_sorted_sorted. }
  apply H; [constructor | done].
Qed.

(** *** The rank of an element of a sorted list *)

Lemma filter_length_le {B} (f : B -> bool) l :
  (length (List.filter f l) <= length l)%nat.
Proof. induction l as [| x l IH]; cbn; [lia |]. destruct (f x); cbn; lia. Qed.

Lemma filter_length_perm {B} (f : B -> bool) l l' :
  l ≡ₚ l' -> length (List.filter f l) = length (List.filter f l').
Proof.
  induction 1 as [| x l l' _ IH | x y l | l l' l'' _ IH1 _ IH2]; cbn.
  - done.
  - destruct (f x); cbn; lia.
  - destruct (f x), (f y); cbn; lia.
  - lia.
Qed.

Lemma filter_length_map {B C} (f : C -> bool) (g : B -> C) l :
  length (List.filter f (map g l)) = length (List.filter (fun x => f (g x)) l).
Proof. induction l as [| x l IH]; cbn; [done |]. destruct (f (g x)); cbn; lia. Qed.

Lemma sorted_rank l : ascending l ->
  forall i p, l !! i = Some p ->
    (length (List.filter (fun q => negb (Qle_bool (lumOf p) (lumOf q))) l) <= i)%nat /\
    (length (List.filter (fun q => negb (Qle_bool (lumOf q) (lumOf p))) l) + i
     < length l)%nat.
Proof.
  induction l as [| a l IH]; intros Hs i p Hi; [done |].
  destruct Hs as [Ha Hs]. specialize (IH Hs).
  destruct i as [| i]; cbn in Hi.
  - injection Hi as ->. cbn [List.filter length].
    assert (Qle_bool (lumOf p) (lumOf p) = true) as ->
      by (apply Qle_bool_iff, Qle_refl).
    cbn [negb]. split.
    + assert (List.filter (fun q => negb (Qle_bool (lumOf p) (lumOf q))) l = [])
        as ->; [| done].
      clear IH Hs. induction Ha as [| q l Hq Ha IH]; [done |].
      cbn. assert (Qle_bool (lumOf p) (lumOf q) = true) as ->
        by (by apply Qle_bool_iff).
      cbn. apply IH.
    + pose proof (filter_length_le
                    (fun q => negb (Qle_bool (lumOf q) (lumOf p))) l). lia.
  - destruct (IH i p Hi) as [IH1 IH2]. cbn [List.filter length].
    assert (Qle_bool (lumOf a) (lumOf p) = true) as ->.
    { apply Qle_bool_iff. eapply Forall_forall in Ha; [exact Ha |].
      by eapply list_elem_of_lookup_2. }
    cbn [negb]. split; [| lia].
    destruct (negb _); cbn [length]; lia.
Qed.

(** *** The pixels of an RGBA buffer *)

Lemma pixelOf_pixel img x y k :
  rgba_buffer img ->
  let '(cx, cy) := neighbour img x y k in
  exists r g b a,
    pixel_at img cx cy = Some (r, g, b, a) /\
    byte r /\ byte g /\ byte b /\ byte a /\
    pixelOf (data img) (width img) (height img) x y k
    = mkPixel (Some r) (Some g) (Some b) (Some a) (Some (lum r g b))
              ((cy * width img + cx) * 4).
Proof.
  intros Hwf. pose proof Hwf as (Hw & Hh & _).
  unfold neighbour.
  pose proof (clamp_index_range (x + k.1) (width img) Hw) as Hx.
  pose proof (clamp_index_range (y + k.2) (height img) Hh) as Hy.
  destruct (pixel_at_is_Some img _ _ Hwf Hx Hy)
    as (r & g & b & a & Hp & Hr & Hg & Hb & Ha & Br & Bg & Bb & Ba).
  exists r, g, b, a. repeat (split; [done |]).
  unfold pixelOf. cbn zeta. by rewrite Hr, Hg, Hb, Ha.
Qed.

Lemma pixelOf_lum img x y k :
  rgba_buffer img ->
  has_lum (pixelOf (data img) (width img) (height img) x y k) /\
  lumOf (pixelOf (data img) (width img) (height img) x y k)
  = pixel_lum img (neighbour img x y k).1 (neighbour img x y k).2.
Proof.
  intros Hwf. pose proof (pixelOf_pixel img x y k Hwf) as H.
  destruct (neighbour img x y k) as [cx cy].
  destruct H as (r & g & b & a & Hp & _ & _ & _ & _ & ->).
  split; [by eexists |]. unfold lumOf, pixel_lum. cbn. by rewrite Hp.
Qed.

(** *** The median pixel *)

Lemma medianPixel_window img hk x y :
  rgba_buffer img -> 0 <= hk ->
  exists k,
    k ∈ window hk /\
    medianPixel (data img) (width img) (height img) hk x y
    = Some (pixelOf (data img) (width img) (height img) x y k) /\
    let m := lumOf (pixelOf (data img) (width img) (height img) x y k) in
    (2 * length (darker img x y m hk) < length (window hk))%nat /\
    (2 * length (brighter img x y m hk) < length (window hk))%nat.
Proof.
  intros Hwf Hhk. unfold medianPixel. cbn zeta.
  set (P := pixelOf (data img) (width img) (height img) x y).
  rewrite gather_window. fold P.
  set (l := map P (window hk)).
  assert (length (sort l) = length (window hk)) as Hlen.
  { rewrite sort_perm. unfold l. by rewrite length_map. }
  assert (0 < length (window hk))%nat as Hn.
  { rewrite window_length by done. nia. }
  assert (exists n, length (window hk) = S (2 * n)) as [n Hodd].
  { rewrite window_length by done.
    exists (Z.to_nat (2 * hk * (hk + 1))). nia. }
  assert (length (sort l) / 2 = n)%nat as Hhalf.
  { rewrite Hlen, Hodd. symmetry.
    apply (Nat.div_unique _ _ _ 1%nat); lia. }
  destruct (lookup_lt_is_Some_2 (sort l) (length (sort l) / 2)%nat)
    as [p Hp].
  { rewrite Hhalf, Hlen. lia. }
  assert (p ∈ l) as Hin.
  { rewrite <- (sort_perm l). by eapply list_elem_of_lookup_2. }
  apply list_elem_of_fmap in Hin as (k & -> & Hk).
  exists k. split; [done |]. split; [done |].
  assert (Forall has_lum l) as Hall.
  { unfold l. apply Forall_fmap, Forall_forall. intros k' _.
    apply (pixelOf_lum img x y k' Hwf). }
  rewrite Hhalf in Hp.
  destruct (sorted_rank (sort l) (sort_sorted l Hall) _ _ Hp) as [Hlo Hhi].
  rewrite (filter_length_perm _ _ _ (sort_perm l)) in Hlo.
  rewrite (filter_length_perm _ _ _ (sort_perm l)) in Hhi.
  rewrite Hlen in Hhi. unfold l in Hlo, Hhi.
  rewrite filter_length_map in Hlo. rewrite filter_length_map in Hhi.
  assert (forall m,
            darker img x y m hk
            = List.filter (fun k' => negb (Qle_bool m (lumOf (P k')))) (window hk))
    as Hd.
  { intros m. unfold darker. apply List.filter_ext. intros k'.
    destruct (pixelOf_lum img x y k' Hwf) as [_ E]. fold P in E. rewrite E.
    by destruct (neighbour img x y k'). }
  assert (forall m,
            brighter img x y m hk
            = List.filter (fun k' => negb (Qle_bool (lumOf (P k')) m)) (window hk))
    as Hb.
  { intros m. unfold brighter. apply List.filter_ext. intros k'.
    destruct (pixelOf_lum img x y k' Hwf) as [_ E]. fold P in E. rewrite E.
    by destruct (neighbour img x y k'). }
  cbn zeta. rewrite Hd, Hb. lia.
Qed.

Lemma applyMedianFilter_body img kernelSize :
  0 <= kernelSize ->
  rgba_buffer img ->
  applyMedianFilter img kernelSize =
    Some (mkImage
            (for_ (range 0 (height img))
               (fun y a =>
                  for_ (range 0 (width img))
                    (fun x a =>
                       medianBody (data img) (width img) (height img)
                                  (oddKernel kernelSize / 2) x y a)
                    a)
               (new_array (len (data img))))
            (width img) (height img)).
Proof.
  intros Hk Hwf. unfold applyMedianFilter. cbn zeta.
  erewrite for_try_total; [reflexivity |].
  intros y a _. apply for_try_total. intros x a' _.
  destruct (medianPixel_window img (oddKernel kernelSize / 2) x y Hwf)
    as (k & _ & Hm & _); [by apply halfKernel_sign |].
  unfold medianBody. unfold medianPixel in Hm. cbn zeta in Hm.
  unfold medianPixel. cbn zeta. by rewrite Hm.
Qed.

Lemma applyMedianFilter_pixel img kernelSize x y :
  rgba_buffer img -> 0 <= kernelSize ->
  0 <= x < width img -> 0 <= y < height img ->
  exists out k,
    applyMedianFilter img kernelSize = Some out /\
    width out = width img /\ height out = height img /\
    k ∈ window (oddKernel kernelSize / 2) /\
    pixel_at out x y
    = pixel_at img (neighbour img x y k).1 (neighbour img x y k).2 /\
    (2 * length (darker img x y (pixel_lum out x y) (oddKernel kernelSize / 2))
     < length (window (oddKernel kernelSize / 2)))%nat /\
    (2 * length (brighter img x y (pixel_lum out x y) (oddKernel kernelSize / 2))
     < length (window (oddKernel kernelSize / 2)))%nat.
Proof.
  intros Hwf Hk Hx Hy. pose proof Hwf as (Hw & Hh & Hlen & _).
  set (hk := oddKernel kernelSize / 2).
  assert (0 <= hk) as Hhk by (by apply halfKernel_sign).
  eexists. rewrite applyMedianFilter_body by done. fold hk.
  set (M := fun x y =>
              default (mkPixel None None None None None 0)
                      (medianPixel (data img) (width img) (height img) hk x y)).
  set (V := fun j =>
              let p := j / 4 in
              let m := M (p mod width img) (p / width img) in
              channel (j mod 4)
                (to_uint8_clamped (num (px_r m))) (to_uint8_clamped (num (px_g m)))
                (to_uint8_clamped (num (px_b m))) (to_uint8_clamped (num (px_a m)))).
  destruct (raster_local 4 (width img) V
              (medianBody (data img) (width img) (height img) hk)
              0 (width img) 0 (height img))
    with (init := new_array (len (data img))) as [_ Hget]; try lia.
  { intros x' y' a _ _. apply set4_length. }
  { intros x' y' a j Hx' Hy' Hj Hja. unfold medianBody, V. cbn zeta.
    destruct (row_col (width img) (j / 4) x' y') as [-> ->]; [lia | done |].
    by rewrite get_set4_hit. }
  { intros x' y' a j _ _ Hj. by apply get_set4_miss. }
  destruct (medianPixel_window img hk x y Hwf Hhk) as (k & Hkw & Hm & Hrank).
  exists k.
  pose proof (pixelOf_pixel img x y k Hwf) as Hpix.
  pose proof (pixelOf_lum img x y k Hwf) as [_ Hlum].
  destruct (neighbour img x y k) as [cx cy] eqn:Ek.
  destruct Hpix as (r & g & b & a & Hp & Br & Bg & Bb & Ba & HP).
  split; [reflexivity |]. split; [done |]. split; [done |]. split; [done |].
  cbn [fst snd] in *.
  match goal with |- pixel_at ?o _ _ = _ /\ _ => set (out := o) end.
  assert (pixel_at out x y = Some (r, g, b, a)) as Hout.
  { apply (pixel_at_cells out x y (fun c => channel c r g b a)); [done |].
    intros c Hc. unfold out. cbn [data width].
    rewrite Hget.
    2:{ unfold len in *. rewrite new_array_length. nia. }
    assert (((y * width img + x) * 4 + c) / 4 = y * width img + x) as Hq
      by (symmetry; apply (Z.div_unique_pos _ _ _ c); lia).
    assert (((y * width img + x) * 4 + c) mod 4 = c) as Hmod
      by (symmetry; apply (Z.mod_unique_pos _ _ (y * width img + x)); lia).
    destruct (row_col (width img) (y * width img + x) x y) as [Hr Hc'];
      [lia | done |].
    unfold V. cbn zeta. rewrite Hq, Hr, Hc', Hmod.
    unfold in_rect.
    replace (0 <=? x) with true by (symmetry; apply Z.leb_le; lia).
    replace (x <? width img) with true by (symmetry; apply Z.ltb_lt; lia).
    replace (0 <=? y) with true by (symmetry; apply Z.leb_le; lia).
    replace (y <? height img) with true by (symmetry; apply Z.ltb_lt; lia).
    cbn [andb]. unfold M. rewrite Hm, HP.
    cbn [default from_option Datatypes.id px_r px_g px_b px_a].
    by rewrite !to_uint8_clamped_num. }
  split; [by rewrite Hout, Hp |].
  assert (pixel_lum out x y = pixel_lum img cx cy) as ->
    by (unfold pixel_lum; by rewrite Hout, Hp).
  rewrite <- Hlum. exact Hrank.
Qed.

(** A loop that an iteration leaves by an error. *)
Lemma for_try_throws {St} vals (body : Z -> St -> option St) s :
  vals <> [] -> (forall i s, body i s = None) -> for_try vals body s = None.
Proof.
  unfold for_try. intros Hv Hb.
  assert (forall l, fold_left (fun s i => s ≫= body i) l None = None) as Hn.
  { induction l as [| i l IH]; [done | apply IH]. }
  destruct vals as [| i vals]; [done |]. cbn. rewrite Hb. apply Hn.
Qed.

Lemma range_not_nil lo hi : lo < hi -> range lo hi <> [].
Proof.
  intros H E. assert (lo ∈ range lo hi) as Hin by (apply elem_of_range; lia).
  rewrite E in Hin. by apply elem_of_nil in Hin.
Qed.

End MedianWindow.

(** X9. For every RGBA buffer and every kernel size that is not negative,
    the median filter returns an image of the same size, and the pixel it
    leaves at [(x, y)] is, with all four channels, one of the pixels of the
    input within the kernel around [(x, y)] (coordinates clamped to the
    image; an even size counts as the next odd one): the filter brings in no
    colour that the image did not have. *)
Theorem applyMedianFilter_from_window img kernelSize x y :
  rgba_buffer img -> 0 <= kernelSize ->
  0 <= x < width img -> 0 <= y < height img ->
  exists out kx ky,
    Ops.applyMedianFilter img kernelSize = Some out /\
    width out = width img /\ height out = height img /\
    let r := Ops.oddKernel kernelSize / 2 in
    - r <= kx <= r /\ - r <= ky <= r /\
    pixel_at out x y
    = pixel_at img (JS.clamp_index (x + kx) (width img))
                   (JS.clamp_index (y + ky) (height img)).
Proof.
  intros Hwf Hk Hx Hy.
  destruct (applyMedianFilter_pixel img kernelSize x y Hwf Hk Hx Hy)
    as (out & [kx ky] & Hout & Hw & Hh & Hin & Hp & _).
  exists out, kx, ky. apply elem_of_window in Hin. cbn zeta.
  repeat (split; [done || lia |]). exact Hp.
Qed.

Lemma applyMedianFilter_from_window_witness :
  exists out kx ky,
    Ops.applyMedianFilter (mkImage [10; 20; 30; 255; 0; 0; 9; 7] 1 2) 3 = Some out /\
    width out = 1 /\ height out = 2 /\
    -1 <= kx <= 1 /\ -1 <= ky <= 1 /\
    pixel_at out 0 1
    = pixel_at (mkImage [10; 20; 30; 255; 0; 0; 9; 7] 1 2)
               (JS.clamp_index (0 + kx) 1) (JS.clamp_index (1 + ky) 2).
Proof.
  assert (rgba_buffer (mkImage [10; 20; 30; 255; 0; 0; 9; 7] 1 2)) as Hwf.
  { unfold rgba_buffer, byte. cbn.
    repeat split; try lia. repeat constructor; lia. }
  exact (applyMedianFilter_from_window _ 3 0 1 Hwf ltac:(lia)
           ltac:(cbn; lia) ltac:(cbn; lia)).
Defined.

(** X10. The pixel that the median filter leaves at [(x, y)] is a median of
    the kernel around [(x, y)] by luminance: of the pixels of the kernel,
    counted with the repetitions that the clamping at the border makes,
    fewer than half are darker than it and fewer than half are brighter. *)
Theorem applyMedianFilter_median img kernelSize out x y :
  rgba_buffer img -> 0 <= kernelSize ->
  Ops.applyMedianFilter img kernelSize = Some out ->
  0 <= x < width img -> 0 <= y < height img ->
  let r := Ops.oddKernel kernelSize / 2 in
  let m := pixel_lum out x y in
  (2 * length (darker img x y m r) < length (window r))%nat /\
  (2 * length (brighter img x y m r) < length (window r))%nat.
Proof.
  intros Hwf Hk Hout Hx Hy.
  destruct (applyMedianFilter_pixel img kernelSize x y Hwf Hk Hx Hy)
    as (out' & k & Hout' & _ & _ & _ & _ & Hd & Hb).
  rewrite Hout in Hout'. injection Hout' as <-. by split.
Qed.

Lemma applyMedianFilter_median_witness :
  exists out,
    Ops.applyMedianFilter column3 3 = Some out /\
    (2 * length (darker column3 0 1 (pixel_lum out 0 1) 1) < 9)%nat.
Proof.
  assert (rgba_buffer column3) as Hwf.
  { unfold rgba_buffer, byte. cbn.
    repeat split; try lia. repeat constructor; lia. }
  destruct (Ops.applyMedianFilter column3 3) as [out |] eqn:E;
    [| exfalso; revert E; vm_compute; discriminate].
  exists out. split; [reflexivity |].
  exact (proj1 (applyMedianFilter_median _ 3 out 0 1 Hwf ltac:(lia) E
                  ltac:(cbn; lia) ltac:(cbn; lia))).
Defined.

(** X11. On an RGBA buffer the median filter fails exactly for the negative
    kernel sizes: the kernel is then empty and the median pixel of no pixels
    is read.  Every other size, 0 and the even ones included, gives an
    image. *)
Theorem applyMedianFilter_throws_iff img kernelSize :
  rgba_buffer img ->
  Ops.applyMedianFilter img kernelSize = None <-> kernelSize < 0.
Proof.
  intros Hwf. pose proof Hwf as (Hw & Hh & _). split.
  - intros Hnone. destruct (Z_lt_le_dec kernelSize 0) as [Hneg | Hpos]; [done |].
    by rewrite applyMedianFilter_body in Hnone.
  - intros Hneg. unfold Ops.applyMedianFilter. cbn zeta.
    assert (Ops.oddKernel kernelSize / 2 < 0) as Hhk by (by apply halfKernel_sign).
    rewrite for_try_throws; [done | apply range_not_nil; lia |].
    intros y a. apply for_try_throws; [apply range_not_nil; lia |].
    intros x a'. unfold Ops.gather. rewrite range_nil by lia. done.
Qed.

Lemma applyMedianFilter_throws_iff_witness :
  Ops.applyMedianFilter (mkImage [10; 20; 30; 255; 0; 0; 9; 7] 1 2) (-2) = None.
Proof.
  apply applyMedianFilter_throws_iff; [| lia].
  unfold rgba_buffer, byte. cbn.
  repeat split; try lia. repeat constructor; lia.
Defined.

(** ** k-means segmentation *)
Section Segmentation.
Import JS KMeans.

(** The nearest centroid, and the first of the nearest ones. *)
Lemma closest_first centroids p k :
  (0 < k)%nat ->
  let c := closest centroids k p in
  (c < k)%nat /\
  (forall j, (j < k)%nat ->
     (dist2 p (centroid centroids c) <= dist2 p (centroid centroids j))%Q) /\
  (forall j, (j < c)%nat ->
     (dist2 p (centroid centroids c) < dist2 p (centroid centroids j))%Q).
Proof.
  intros Hk. unfold closest.
  set (step := fun '(minDist, closestCluster) j =>
                 let dist := dist2 p (centroid centroids j) in
                 match minDist with
                 | Some m => if Qlt_le_dec dist m then (Some dist, j)
                             else (minDist, closestCluster)
                 | None => (Some dist, j)
                 end).
  assert (forall n,
            let r := fold_left step (seq 0 (S n)) (None, 0%nat) in
            r.1 = Some (dist2 p (centroid centroids r.2)) /\
            (r.2 < S n)%nat /\
            (forall j, (j < S n)%nat ->
               (dist2 p (centroid centroids r.2)
                <= dist2 p (centroid centroids j))%Q) /\
            (forall j, (j < r.2)%nat ->
               (dist2 p (centroid centroids r.2)
                < dist2 p (centroid centroids j))%Q)) as H.
  { induction n as [| n IH].
    - cbn. split; [done |]. split; [lia |]. split.
      + intros j Hj. replace j with 0%nat by lia. apply Qle_refl.
      + intros j Hj. lia.
    - rewrite seq_S, fold_left_app. cbn [fold_left Nat.add].
      destruct (fold_left step (seq 0 (S n)) (None, 0%nat)) as [m c].
      cbv zeta in IH. cbn [fst snd] in IH.
      destruct IH as (-> & Hc & Hmin & Hfirst).
      unfold step. cbv beta iota zeta.
      destruct (Qlt_le_dec _ _) as [Hlt | Hge]; cbn [fst snd].
      + split; [done |]. split; [lia |]. split.
        * intros j Hj. destruct (decide (j = S n)) as [-> | Hne];
            [apply Qle_refl |].
          specialize (Hmin j ltac:(lia)). Lqa.lra.
        * intros j Hj. specialize (Hmin j ltac:(lia)). Lqa.lra.
      + split; [done |]. split; [lia |]. split; [| done].
        intros j Hj. destruct (decide (j = S n)) as [-> | Hne]; [done |].
        apply Hmin. lia. }
  destruct k as [| n]; [lia |]. apply H.
Qed.

Lemma newCentroids_length pixels clusters k :
  length (newCentroids pixels clusters k) = k.
Proof.
  unfold newCentroids, accumulate.
  pose proof (accumulate_fold (zip pixels clusters)
                (replicate k (0, 0, 0)%Q) (replicate k 0)) as H.
  cbv zeta in H. destruct (fold_left _ _ _) as [sums counts].
  destruct H as (H1 & H2 & _). cbn [fst snd] in H1, H2.
  rewrite length_zip_with, H1, H2, !length_replicate. lia.
Qed.

(** What the main loop ends with. *)
Lemma mainLoop_final n : forall pixels k threshold centroids clusters,
  (0 < k)%nat ->
  length centroids = k -> length clusters = length pixels ->
  Forall (fun c => (c < k)%nat) clusters ->
  let r := mainLoop n pixels k threshold centroids clusters in
  length r.2 = k /\ length r.1 = length pixels /\
  Forall (fun c => (c < k)%nat) r.1.
Proof.
  induction n as [| n IH]; intros pixels k threshold centroids clusters
    Hk Hc Hl Hlt; [done |].
  cbn [mainLoop]. cbv zeta.
  destruct (converged _ _ _ _).
  - cbn [fst snd]. split; [apply newCentroids_length |].
    split; [apply assign_length | by apply assign_lt].
  - apply IH; [done | apply newCentroids_length | apply assign_length |].
    by apply assign_lt.
Qed.

(** *** The seeding *)

Lemma pick_le distances : forall threshold j,
  (pick threshold distances j <= j + length distances)%nat.
Proof.
  induction distances as [| d ds IH]; intros threshold j; cbn; [lia |].
  destruct (Qlt_le_dec 0 threshold); [| lia].
  specialize (IH (threshold - d)%Q (S j)). lia.
Qed.

Lemma seeds_pixels (Math_random : nat -> Q) pixels (l : list nat) :
  pixels <> [] ->
  forall cs, Forall (fun c => c ∈ pixels) cs ->
    exists cs',
      fold_left
        (fun centroids i =>
           centroids ← centroids;
           let distances := map (nearest2 centroids) pixels in
           let sum := fold_left Qplus distances 0%Q in
           let threshold := (Math_random i * sum)%Q in
           let j := pick threshold distances 0%nat in
           next ← pixels !! (Nat.max 0 (j - 1));
           Some (centroids ++ [next]))
        l (Some cs) = Some cs' /\
      Forall (fun c => c ∈ pixels) cs'.
Proof.
  intros Hne. induction l as [| i l IH]; intros cs Hcs.
  - exists cs. by split.
  - cbn [fold_left mbind option_bind]. cbv zeta.
    set (j := pick _ _ 0%nat).
    assert (j <= length pixels)%nat as Hj.
    { unfold j. etrans; [apply pick_le |]. by rewrite length_map. }
    destruct (lookup_lt_is_Some_2 pixels (Nat.max 0 (j - 1))) as [next Hnext].
    { destruct pixels; [done |]. cbn [length] in *. lia. }
    rewrite Hnext. cbn [mbind option_bind].
    apply IH. apply Forall_app. split; [done |].
    constructor; [| done]. by eapply list_elem_of_lookup_2.
Qed.

Lemma initializeCentroidsKMeansPP_pixels Math_random pixels k :
  pixels <> [] -> (0 <= Math_random 0%nat)%Q -> (Math_random 0%nat < 1)%Q ->
  exists centroids,
    initializeCentroidsKMeansPP Math_random pixels k = Some centroids /\
    Forall (fun c => c ∈ pixels) centroids.
Proof.
  intros Hne H0 H1. unfold initializeCentroidsKMeansPP.
  set (n := len pixels).
  assert (0 < n) as Hn.
  { unfold n, len. destruct pixels; [done |]. cbn [length]. lia. }
  assert (0 <= Qfloor (Math_random 0%nat * inject_Z n) < n) as Hf.
  { split.
    - rewrite <- (Qfloor_Z 0). apply Qfloor_resp_le.
      apply Qmult_le_0_compat; [done |].
      change 0%Q with (inject_Z 0). rewrite <- Zle_Qle. lia.
    - apply Z.lt_nge. intros Hge.
      assert (inject_Z n <= Math_random 0%nat * inject_Z n)%Q as Hle.
      { eapply Qle_trans; [| apply Qfloor_le]. by rewrite <- Zle_Qle. }
      assert (0 < inject_Z n)%Q as Hpos by (rewrite <- (Zlt_Qlt 0); lia).
      assert (Math_random 0%nat * inject_Z n < 1 * inject_Z n)%Q as Hlt
        by (by apply Qmult_lt_compat_r).
      Lqa.lra. }
  destruct (get_is_Some pixels (Qfloor (Math_random 0%nat * inject_Z n)))
    as [first Hfirst]; [done |].
  rewrite Hfirst. cbn [mbind option_bind].
  apply seeds_pixels; [done |]. constructor; [| done].
  unfold get in Hfirst. destruct (_ <? 0); [done |].
  by eapply list_elem_of_lookup_2.
Qed.

(** *** The pixels of an image *)

Lemma pixelsOf_length img :
  rgba_buffer img -> len (pixelsOf (data img)) = width img * height img.
Proof.
  intros (Hw & Hh & Hlen & _). unfold pixelsOf, len, loop_values.
  rewrite length_map, length_map, length_seq.
  assert ((len (data img) - 0 + 4 - 1) / 4 = width img * height img) as E.
  { symmetry. apply (Z.div_unique_pos _ _ _ 3); lia. }
  unfold len in E. rewrite E. nia.
Qed.

Lemma segmented_cells (d : list Z) (n : Z) (clusters : list nat) centroids :
  0 <= n -> len d = 4 * n ->
  let out :=
    for_ (range 0 n)
      (fun i segmentedData =>
         let cluster := default 0%nat (clusters !! Z.to_nat i) in
         let '(r, g, b) := centroid centroids cluster in
         let offset := i * 4 in
         set4 segmentedData offset
              (Some (inject_Z (Math_round r))) (Some (inject_Z (Math_round g)))
              (Some (inject_Z (Math_round b))) (num (get d (offset + 3))))
      (new_array (len d)) in
  forall j, 0 <= j < 4 * n ->
    get out j =
      Some (let '(r, g, b) :=
              paletteColour
                (centroid centroids (default 0%nat (clusters !! Z.to_nat (j / 4)))) in
            channel (j mod 4) r g b
              (to_uint8_clamped (num (get d (j / 4 * 4 + 3))))).
Proof.
  intros Hn Hd out j Hj.
  destruct (for_local (fun i j => j / 4 =? i)
              (fun j =>
                 let '(r, g, b) :=
                   paletteColour
                     (centroid centroids
                        (default 0%nat (clusters !! Z.to_nat (j / 4)))) in
                 channel (j mod 4) r g b
                   (to_uint8_clamped (num (get d (j / 4 * 4 + 3)))))
              (fun i segmentedData =>
                 let cluster := default 0%nat (clusters !! Z.to_nat i) in
                 let '(r, g, b) := centroid centroids cluster in
                 let offset := i * 4 in
                 set4 segmentedData offset
                      (Some (inject_Z (Math_round r)))
                      (Some (inject_Z (Math_round g)))
                      (Some (inject_Z (Math_round b)))
                      (num (get d (offset + 3))))
              (range 0 n)) with (init := new_array (len d)) as [_ Hg].
  - intros i a _. cbv zeta. destruct (centroid _ _) as [[r g] b].
    apply set4_length.
  - intros i a j' _ Ht Hj'. apply Z.eqb_eq in Ht. cbv zeta. rewrite Ht.
    unfold paletteColour. destruct (centroid _ _) as [[r g] b].
    by rewrite get_set4_hit.
  - intros i a j' _ Ht. apply Z.eqb_neq in Ht. cbv zeta.
    destruct (centroid _ _) as [[r g] b]. by rewrite get_set4_miss.
  - unfold out. etrans; [apply Hg |].
    { unfold len. rewrite new_array_length. unfold len in Hd. lia. }
    replace (existsb (fun i => j / 4 =? i) (range 0 n)) with true; [done |].
    symmetry. apply existsb_range. exists (j / 4).
    split; [| by apply Z.eqb_eq].
    split; [apply Z.div_pos; lia | apply Z.div_lt_upper_bound; lia].
Qed.

(** The clusters of an iteration are those of the nearest centroids. *)
Lemma iterations_assign n : forall pixels k threshold centroids t c cl,
  iterations n pixels k threshold centroids !! t = Some (c, cl) ->
  cl = assign pixels c k.
Proof.
  induction n as [| n IH]; intros pixels k threshold centroids t c cl; [done |].
  cbn [iterations]. destruct t as [| t].
  - cbn. by intros [= <- <-].
  - destruct (converged _ _ _ _); [done |]. cbn. apply IH.
Qed.

End Segmentation.

(** X15. On pixels that are not empty, for [k >= 1] and a first random
    draw in [0, 1), the k-means++ seeding returns exactly [k] centroids, and
    each of them is the colour of a pixel of the image, whatever the later
    draws are. *)
Theorem initializeCentroidsKMeansPP_seeds Math_random pixels k :
  pixels <> [] -> (0 < k)%nat ->
  (0 <= Math_random 0%nat)%Q -> (Math_random 0%nat < 1)%Q ->
  exists centroids,
    KMeans.initializeCentroidsKMeansPP Math_random pixels k = Some centroids /\
    length centroids = k /\
    Forall (fun c => c ∈ pixels) centroids.
Proof.
  intros Hne Hk H0 H1.
  destruct (initializeCentroidsKMeansPP_pixels Math_random pixels k Hne H0 H1)
    as (cs & Hcs & Hall).
  exists cs. split; [done |]. split; [| done].
  by eapply initializeCentroidsKMeansPP_length.
Qed.

Lemma initializeCentroidsKMeansPP_seeds_witness :
  exists centroids,
    KMeans.initializeCentroidsKMeansPP two_draws
      (KMeans.pixelsOf (data five_pixels)) 2 = Some centroids /\
    length centroids = 2%nat.
Proof.
  destruct (initializeCentroidsKMeansPP_seeds two_draws
              (KMeans.pixelsOf (data five_pixels)) 2
              ltac:(discriminate) ltac:(lia) ltac:(done) ltac:(done))
    as (cs & Hcs & Hlen & _).
  exists cs. split; [exact Hcs | exact Hlen].
Defined.

(** ** Inside and outside *)
Section BorderColours.
Import JS Inside.

Lemma tally_lookup l : forall m c,
  tally l m !! c =
    match m !! c with
    | Some n => Some (n + occurrences c l)
    | None => if occurrences c l =? 0 then None else Some (occurrences c l)
    end.
Proof.
  induction l as [| c' l IH]; intros m c.
  - unfold occurrences. cbn. destruct (m !! c) as [n |]; [f_equal; lia | done].
  - cbn [tally fold_left]. fold (tally l (countColor c' m)). rewrite IH.
    unfold countColor, occurrences. cbn [List.filter].
    destruct (decide (c' = c)) as [-> | Hne].
    + rewrite lookup_insert_eq, bool_decide_eq_true_2 by done. cbn [length].
      destruct (m !! c) as [n |]; cbn [default from_option Datatypes.id].
      * f_equal. lia.
      * destruct (Z.eqb_spec (Z.of_nat (S (length (List.filter
                   (fun c' => bool_decide (c' = c)) l)))) 0) as [E | _];
          [lia |]. f_equal. lia.
    + rewrite lookup_insert_ne, bool_decide_eq_false_2 by done. done.
Qed.

Lemma for_tally d (vals : list Z) (f g : Z -> Z) m :
  for_ vals
    (fun i m => countColor (colorAt d (g i)) (countColor (colorAt d (f i)) m)) m
  = tally (map (colorAt d) (flat_map (fun i => [f i; g i]) vals)) m.
Proof.
  unfold for_, tally. revert m.
  induction vals as [| i vals IH]; intros m; [done |].
  cbn. apply IH.
Qed.

Lemma edgeColors_tally d w h :
  edgeColors d w h = tally (map (colorAt d) (borderReads w h)) ∅.
Proof.
  unfold edgeColors, borderReads. cbv zeta.
  pose proof (for_tally d (range 0 w)
                (fun x => (x + 0 * w) * 4) (fun x => (x + (h - 1) * w) * 4) ∅)
    as H1.
  pose proof (for_tally d (range 1 (h - 1))
                (fun y => (0 + y * w) * 4) (fun y => ((w - 1) + y * w) * 4))
    as H2.
  unfold tally in *. rewrite map_app, fold_left_app.
  rewrite <- H1, <- H2. reflexivity.
Qed.

Lemma occurrences_map d c l :
  occurrences c (map (colorAt d) l)
  = Z.of_nat (length (List.filter (fun i => bool_decide (colorAt d i = c)) l)).
Proof.
  unfold occurrences. f_equal.
  induction l as [| i l IH]; [done |]. cbn.
  destruct (bool_decide (colorAt d i = c)); cbn; lia.
Qed.

Lemma edgeColors_lookup d w h c :
  edgeColors d w h !! c =
    if borderCount d w h c =? 0 then None else Some (borderCount d w h c).
Proof.
  rewrite edgeColors_tally, tally_lookup, lookup_empty, occurrences_map. done.
Qed.

Lemma elem_of_outsideColors d w h threshold c :
  c ∈ outsideColors d w h threshold <->
  exists n, edgeColors d w h !! c = Some n /\
            exceeds n (2 * w + 2 * h - 4) threshold = true.
Proof.
  unfold outsideColors. cbv zeta.
  apply (map_fold_weak_ind
           (fun (r : gset Color) (m : gmap Color Z) =>
              c ∈ r <-> exists n, m !! c = Some n /\
                                  exceeds n (2 * w + 2 * h - 4) threshold = true)).
  - split; [by intros Hin%elem_of_empty |].
    intros (n & Hn & _). by rewrite lookup_empty in Hn.
  - intros c' n m r Hc' IH.
    destruct (decide (c' = c)) as [-> | Hne].
    + rewrite lookup_insert_eq. split.
      * intros Hin. destruct (exceeds n _ _) eqn:E; [by exists n |].
        apply IH in Hin as (n' & Hn' & _). congruence.
      * intros (n' & [= <-] & ->). apply elem_of_union_l. by apply elem_of_singleton.
    + rewrite lookup_insert_ne by done. rewrite <- IH.
      destruct (exceeds n _ _); [| done].
      rewrite elem_of_union, elem_of_singleton.
      split; [by intros [? | ?] | by right].
Qed.

End BorderColours.

(** X16. [separateInside] paints a pixel black exactly when its colour
    (R, G, B; the alpha is not looked at) is found by at least one of the
    border reads and the share of the border reads that find it, the
    quotient of their number by 2 w + 2 h - 4 as the double the program
    compares, is above the threshold; it paints every other pixel white.
    (For a single pixel the divisor is 0 and the quotient is Infinity.)  The
    border reads are the top and the bottom pixel of every column and the
    left and the right pixel of every row in between. *)
Theorem separateInside_black_iff img threshold x y :
  rgba_buffer img -> 0 <= x < width img -> 0 <= y < height img ->
  let c := Inside.colorAt (data img) ((y * width img + x) * 4) in
  let n := borderCount (data img) (width img) (height img) c in
  let total := 2 * width img + 2 * height img - 4 in
  let above :=
    (0 <? n)
    && ((total =? 0)
        || negb (Qle_bool (JS.double (inject_Z n / inject_Z total)) threshold)) in
  pixel_at (Inside.separateInside img threshold) x y =
    if above then Some (0, 0, 0, 255) else Some (255, 255, 255, 255).
Proof.
  intros Hwf Hx Hy c n total above.
  assert (above = (0 <? n) && Inside.exceeds n total threshold) as ->.
  { unfold above, Inside.exceeds.
    destruct (total =? 0), (0 <? n); reflexivity. }
  rewrite separateInside_pixel by done. fold c.
  assert (c ∈ Inside.outsideColors (data img) (width img) (height img) threshold
          <-> (0 <? n) && Inside.exceeds n total threshold = true) as Hiff.
  { rewrite elem_of_outsideColors. fold total.
    setoid_rewrite edgeColors_lookup. fold n.
    assert (0 <= n) as Hn by (unfold n, borderCount; lia).
    destruct (Z.eqb_spec n 0) as [E | N].
    - rewrite E. cbn. split; [by intros (? & ? & _) | done].
    - replace (0 <? n) with true by (symmetry; apply Z.ltb_lt; lia).
      cbn [andb]. split; [by intros (? & [= <-] & ?) | by exists n]. }
  destruct ((0 <? n) && Inside.exceeds n total threshold) eqn:E.
  - by rewrite bool_decide_eq_true_2 by (by apply Hiff).
  - rewrite bool_decide_eq_false_2; [done |]. intros Hin.
    apply Hiff in Hin. congruence.
Qed.

Lemma separateInside_black_iff_witness :
  pixel_at (Inside.separateInside
              (mkImage [10; 20; 30; 255; 0; 0; 9; 7; 10; 20; 30; 0] 3 1) (1 # 2))
           2 0
  = Some (0, 0, 0, 255) /\
  borderCount (data top_row) 3 4 (Some 10, Some 20, Some 30) = 3 /\
  pixel_at (Inside.separateInside top_row (JS.double (3 # 10))) 0 0
  = Some (255, 255, 255, 255).
Proof.
  assert (rgba_buffer (mkImage [10; 20; 30; 255; 0; 0; 9; 7; 10; 20; 30; 0] 3 1))
    as Hwf.
  { unfold rgba_buffer, byte. cbn.
    repeat split; try lia. repeat constructor; lia. }
  assert (rgba_buffer top_row) as Hwf'.
  { unfold rgba_buffer, byte. cbn.
    repeat split; try lia. repeat constructor; lia. }
  split; [| split; [reflexivity |]].
  - exact (separateInside_black_iff _ (1 # 2) 2 0 Hwf ltac:(cbn; lia) ltac:(cbn; lia)).
  - exact (separateInside_black_iff top_row (JS.double (3 # 10)) 0 0 Hwf'
             ltac:(cbn; lia) ltac:(cbn; lia)).
Defined.

(** ** The sets of the wall merger *)
Section Coverage.
Import Scene.
Variable walls : list Wall.
Variable wallMap : WallMap.
Variable wallIdToAB : gmap string (Key * Key).

Lemma visits_None {St} (f : nat -> St -> option St) ws :
  fold_left (fun st n => st ≫= f n) ws None = None.
Proof. induction ws as [| n ws IH]; [done | apply IH]. Qed.

(** A loop of calls of [visit] that returns. *)
Lemma visits_closed fuel ws :
  (forall n vk set vk' set',
     visit walls wallMap wallIdToAB fuel n (vk, set) = Some (vk', set') ->
     vk ⊆ vk' /\ set ⊆ set' /\ n ∈ set' /\ closedKeys wallMap vk vk' set') ->
  forall vk set vk' set',
    fold_left (fun st n' => st ≫= visit walls wallMap wallIdToAB fuel n')
      ws (Some (vk, set)) = Some (vk', set') ->
    vk ⊆ vk' /\ set ⊆ set' /\ (forall n, n ∈ ws -> n ∈ set')
    /\ closedKeys wallMap vk vk' set'.
Proof.
  intros Hvisit. induction ws as [| n ws IH]; intros vk set vk' set' H.
  - cbn in H. injection H as <- <-. repeat split; try done.
    + intros n Hn. by apply elem_of_nil in Hn.
    + intros k v n Hk Hk'. done.
  - cbn [fold_left mbind option_bind] in H.
    destruct (visit walls wallMap wallIdToAB fuel n (vk, set))
      as [[vk1 set1] |] eqn:E; [| by rewrite visits_None in H].
    apply Hvisit in E as (Hs1 & Hs2 & Hn & Hc1).
    apply IH in H as (Hs3 & Hs4 & Hws & Hc2).
    split; [by etrans |]. split; [by etrans |]. split.
    + intros n' Hn'. apply elem_of_cons in Hn' as [-> | Hn'];
        [by apply Hs4 | by apply Hws].
    + intros k v n' Hk Hk' Hv Hn'.
      destruct (decide (k ∈ vk1)) as [Hin | Hout].
      * apply Hs4. by apply (Hc1 k v).
      * by apply (Hc2 k v).
Qed.

Lemma visit_closed fuel :
  forall n vk set vk' set',
    visit walls wallMap wallIdToAB fuel n (vk, set) = Some (vk', set') ->
    vk ⊆ vk' /\ set ⊆ set' /\ n ∈ set' /\ closedKeys wallMap vk vk' set'.
Proof.
  induction fuel as [| fuel IH]; intros n vk set vk' set' H; [done |].
  pose (key := fun (k : Key) (st : Visit) =>
                 let '(visitedK, set) := st in
                 if bool_decide (k ∈ visitedK) then Some (visitedK, set)
                 else
                   ws ← mapGet k wallMap;
                   fold_left
                     (fun st n' => st ≫= visit walls wallMap wallIdToAB fuel n')
                     ws (Some (visitedK ++ [k], set))).
  change (visit walls wallMap wallIdToAB (S fuel) n (vk, set))
    with (w ← walls !! n;
          '(a, b) ← wallIdToAB !! id w;
          st ← key a (vk, setAdd n set);
          key b st) in H.
  assert (forall k vk0 set0 vk1 set1,
            key k (vk0, set0) = Some (vk1, set1) ->
            vk0 ⊆ vk1 /\ set0 ⊆ set1 /\ closedKeys wallMap vk0 vk1 set1)
    as Hkey.
  { intros k vk0 set0 vk1 set1. unfold key. case_bool_decide as Hin.
    - intros [= <- <-]. repeat split; try done. intros k' v n' Hk Hk'. done.
    - destruct (mapGet k wallMap) as [ws |] eqn:Ek; [| done].
      cbn [mbind option_bind]. intros Hf.
      apply (visits_closed fuel ws IH) in Hf as (Hs1 & Hs2 & Hws & Hc).
      split; [intros x Hx; apply Hs1, elem_of_app; by left |].
      split; [done |].
      intros k' v n' Hk1 Hk0 Hv Hn'.
      destruct (decide (k' = k)) as [-> | Hne].
      + rewrite Ek in Hv. injection Hv as <-. by apply Hws.
      + apply (Hc k' v); try done.
        rewrite elem_of_app, list_elem_of_singleton. tauto. }
  clearbody key.
  destruct (walls !! n) as [w |]; [| done]. cbn [mbind option_bind] in H.
  destruct (wallIdToAB !! id w) as [[a b] |]; [| done].
  cbn [mbind option_bind] in H.
  destruct (key a (vk, setAdd n set)) as [[vk1 set1] |] eqn:Ea; [| done].
  cbn [mbind option_bind] in H.
  apply Hkey in Ea as (Hs1 & Hs2 & Hc1).
  apply Hkey in H as (Hs3 & Hs4 & Hc2).
  split; [by etrans |]. split.
  { intros x Hx. apply Hs4, Hs2. unfold setAdd.
    case_bool_decide; [done |]. apply elem_of_app. by left. }
  split.
  { apply Hs4, Hs2. unfold setAdd.
    case_bool_decide; [done |]. apply elem_of_app. right.
    apply list_elem_of_here. }
  intros k v n' Hk Hk' Hv Hn'.
  destruct (decide (k ∈ vk1)) as [Hin | Hout].
  - apply Hs4. by apply (Hc1 k v).
  - by apply (Hc2 k v).
Qed.

Lemma covered_more sets s n : covered sets n -> covered (sets ++ [s]) n.
Proof.
  intros (s' & Hs' & Hn). exists s'. split; [| done]. apply elem_of_app. by left.
Qed.

(** The loop over the entries of [wallMap]. *)
Lemma entries_covered fuel l : forall vk sets vk' sets',
  fold_left
    (fun r '(k, v) =>
       '(visitedK, sets) ← r;
       if bool_decide (k ∈ visitedK) then Some (visitedK, sets)
       else
         '(visitedK, set) ←
           fold_left
             (fun st n => st ≫= visit walls wallMap wallIdToAB fuel n)
             v (Some (visitedK, []));
         Some (visitedK, sets ++ [set]))
    l (Some (vk, sets)) = Some (vk', sets') ->
  coveredKeys wallMap vk sets ->
  coveredKeys wallMap vk' sets' /\
  (forall n, covered sets n -> covered sets' n) /\
  (forall k v n, (k, v) ∈ l -> mapGet k wallMap = Some v -> n ∈ v ->
                 covered sets' n).
Proof.
  induction l as [| [k v] l IH]; intros vk sets vk' sets' H Hinv.
  - cbn in H. injection H as <- <-. repeat split; try done.
    intros k v n Hin. by apply elem_of_nil in Hin.
  - cbn [fold_left mbind option_bind] in H.
    case_bool_decide as Hk.
    + destruct (IH _ _ _ _ H Hinv) as (Hinv' & Hmono & Hl).
      split; [done |]. split; [done |].
      intros k' v' n Hin Hv Hn.
      apply elem_of_cons in Hin as [[= -> ->] | Hin]; [| by apply (Hl k' v')].
      apply Hmono. by apply (Hinv k v).
    + destruct (fold_left
                  (fun st n => st ≫= visit walls wallMap wallIdToAB fuel n)
                  v (Some (vk, []))) as [[vk1 set1] |] eqn:Ev.
      2:{ cbn [mbind option_bind] in H.
          assert (forall l r,
                    r = None ->
                    fold_left
                      (fun r '(k, v) =>
                         '(visitedK, sets) ← r;
                         if bool_decide (k ∈ visitedK) then Some (visitedK, sets)
                         else
                           '(visitedK, set) ←
                             fold_left
                               (fun st n =>
                                  st ≫= visit walls wallMap wallIdToAB fuel n)
                               v (Some (visitedK, []));
                           Some (visitedK, sets ++ [set]))
                      l r = None) as Hnone.
          { clear. induction l as [| [k v] l IH]; intros r ->; [done |].
            cbn. by apply IH. }
          by rewrite Hnone in H. }
      cbn [mbind option_bind] in H.
      apply (visits_closed fuel v (visit_closed fuel)) in Ev
        as (Hs1 & _ & Hv & Hc).
      assert (coveredKeys wallMap vk1 (sets ++ [set1])) as Hinv1.
      { intros k' v' n Hk' Hv' Hn.
        destruct (decide (k' ∈ vk)) as [Hin | Hout].
        - apply covered_more. by apply (Hinv k' v').
        - exists set1. split; [apply elem_of_app; right; apply list_elem_of_here |].
          by apply (Hc k' v'). }
      destruct (IH _ _ _ _ H Hinv1) as (Hinv' & Hmono & Hl).
      split; [done |]. split.
      { intros n Hn. by apply Hmono, covered_more. }
      intros k' v' n Hin Hv' Hn.
      apply elem_of_cons in Hin as [[= -> ->] | Hin]; [| by apply (Hl k' v')].
      apply Hmono. exists set1.
      split; [apply elem_of_app; right; apply list_elem_of_here | by apply Hv].
Qed.

(** Every wall under a key of [wallMap] is in one of the sets. *)
Lemma wallSets_covered sets k v n :
  wallSets walls wallMap wallIdToAB = Some sets ->
  mapGet k wallMap = Some v -> n ∈ v -> covered sets n.
Proof.
  unfold wallSets. cbv zeta. intros H Hv Hn.
  destruct (fold_left _ wallMap (Some ([], []))) as [[vk' sets'] |] eqn:E;
    [| done].
  cbn in H. injection H as <-.
  apply entries_covered in E as (_ & _ & Hl).
  - apply (Hl k v); [by apply mapGet_elem | done | done].
  - intros k' v' n' Hk'. by apply elem_of_nil in Hk'.
Qed.

End Coverage.

Section Indexing.
Import Scene.
Variable CONST : Constants.
Variable Math_atan2 : Q -> Q -> Q.

Lemma mapGet_mapAdd_in k n m :
  exists v, mapGet k (mapAdd k n m) = Some v /\ n ∈ v.
Proof.
  induction m as [| [k' s] m IH]; cbn [mapAdd mapGet].
  - rewrite bool_decide_eq_true_2 by done. exists [n].
    split; [done | apply list_elem_of_here].
  - case_bool_decide as Hk; cbn [mapGet].
    + rewrite bool_decide_eq_true_2 by done. exists (setAdd n s).
      split; [done |]. apply elem_of_setAdd. by left.
    + by rewrite bool_decide_eq_false_2.
Qed.

Lemma mapGet_mapAdd_mono k n m k' v' n' :
  mapGet k' m = Some v' -> n' ∈ v' ->
  exists v, mapGet k' (mapAdd k n m) = Some v /\ n' ∈ v.
Proof.
  induction m as [| [k'' s] m IH]; cbn [mapAdd mapGet]; [done |].
  case_bool_decide as Hk'; case_bool_decide as Hk; cbn [mapGet].
  - intros [= <-] Hn'. rewrite bool_decide_eq_true_2 by done.
    exists (setAdd n s). split; [done |]. apply elem_of_setAdd. by right.
  - intros [= <-] Hn'. rewrite bool_decide_eq_true_2 by done. by exists s.
  - intros Hv Hn'. rewrite bool_decide_eq_false_2 by done. by exists v'.
  - intros Hv Hn'. rewrite bool_decide_eq_false_2 by done. by apply IH.
Qed.

Lemma buildMaps_indexed (l : list (nat * Wall)) :
  forall processed st,
    indexed processed st ->
    indexed (processed ++ l)
      (fold_left
         (fun '(wallMap, wallIdToAB) '(n, w) =>
            let '(a, b) := keys Math_atan2 w in
            let wallMap := mapAdd b n (mapAdd a n wallMap) in
            (wallMap, <[id w := (a, b)]> wallIdToAB))
         l st).
Proof.
  induction l as [| [n w] l IH]; intros processed [wm M] Hst.
  - by rewrite app_nil_r.
  - cbn [fold_left]. rewrite (cons_middle (n, w)), app_assoc. apply IH.
    destruct (keys Math_atan2 w) as [a b].
    intros n' w' Hin. cbn [fst].
    apply elem_of_app in Hin as [Hin | Hin].
    + destruct (Hst n' w' Hin) as (k & v & Hv & Hn). cbn [fst] in Hv.
      destruct (mapGet_mapAdd_mono a n wm k v n' Hv Hn) as (v1 & Hv1 & Hn1).
      destruct (mapGet_mapAdd_mono b n _ k v1 n' Hv1 Hn1) as (v2 & Hv2 & Hn2).
      by exists k, v2.
    + apply list_elem_of_singleton in Hin. injection Hin as -> ->.
      destruct (mapGet_mapAdd_in b n (mapAdd a n wm)) as (v & Hv & Hn).
      by exists b, v.
Qed.

(** *** The bounding segment *)

Lemma Math_min_le l x : x ∈ l -> (Math_min l <= x)%Q.
Proof.
  destruct l as [| y l]; [by intros H%elem_of_nil |]. cbn [Math_min].
  revert y. induction l as [| z l IH]; intros y Hx.
  - apply list_elem_of_singleton in Hx as ->. apply Qle_refl.
  - cbn [fold_left].
    assert (forall a, (fold_left Qmin l a <= a)%Q) as Hacc.
    { clear. induction l as [| z l IH]; intros a; [apply Qle_refl |].
      cbn. eapply Qle_trans; [apply IH | apply Q.le_min_l]. }
    apply elem_of_cons in Hx as [-> | Hx].
    + eapply Qle_trans; [apply Hacc | apply Q.le_min_l].
    + apply elem_of_cons in Hx as [-> | Hx].
      * eapply Qle_trans; [apply Hacc | apply Q.le_min_r].
      * apply IH. apply list_elem_of_further. done.
Qed.

Lemma Math_max_ge l x : x ∈ l -> (x <= Math_max l)%Q.
Proof.
  destruct l as [| y l]; [by intros H%elem_of_nil |]. cbn [Math_max].
  revert y. induction l as [| z l IH]; intros y Hx.
  - apply list_elem_of_singleton in Hx as ->. apply Qle_refl.
  - cbn [fold_left].
    assert (forall a, (a <= fold_left Qmax l a)%Q) as Hacc.
    { clear. induction l as [| z l IH]; intros a; [apply Qle_refl |].
      cbn. eapply Qle_trans; [apply Q.le_max_l | apply IH]. }
    apply elem_of_cons in Hx as [-> | Hx].
    + eapply Qle_trans; [apply Q.le_max_l | apply Hacc].
    + apply elem_of_cons in Hx as [-> | Hx].
      * eapply Qle_trans; [apply Q.le_max_r | apply Hacc].
      * apply IH. apply list_elem_of_further. done.
Qed.

Lemma bounding_within walls set n w :
  n ∈ set -> walls !! n = Some w -> within (c w) (bounding walls set).
Proof.
  intros Hn Hw. unfold bounding. cbv zeta.
  set (coords := omap (fun n => c <$> walls !! n) set).
  assert (c w ∈ coords) as Hin.
  { unfold coords. apply list_elem_of_omap. exists n. split; [done |].
    by rewrite Hw. }
  destruct (c w) as [[[x1 y1] x2] y2] eqn:Ec. unfold within.
  pose proof (Math_min_le (map (fun '(x1, _, x2, _) => Qmin x1 x2) coords)
                (Qmin x1 x2)) as Hx1.
  pose proof (Math_min_le (map (fun '(_, y1, _, y2) => Qmin y1 y2) coords)
                (Qmin y1 y2)) as Hy1.
  pose proof (Math_max_ge (map (fun '(x1, _, x2, _) => Qmax x1 x2) coords)
                (Qmax x1 x2)) as Hx2.
  pose proof (Math_max_ge (map (fun '(_, y1, _, y2) => Qmax y1 y2) coords)
                (Qmax y1 y2)) as Hy2.
  assert (forall f : Coords -> Q, f (x1, y1, x2, y2) ∈ map f coords) as Hf.
  { intros f. apply list_elem_of_fmap. by exists (x1, y1, x2, y2). }
  specialize (Hx1 (Hf _)). specialize (Hy1 (Hf _)).
  specialize (Hx2 (Hf _)). specialize (Hy2 (Hf _)).
  repeat split.
  - eapply Qle_trans; [exact Hx1 | apply Q.le_min_l].
  - eapply Qle_trans; [apply Q.le_max_l | exact Hx2].
  - eapply Qle_trans; [exact Hx1 | apply Q.le_min_r].
  - eapply Qle_trans; [apply Q.le_max_r | exact Hx2].
  - eapply Qle_trans; [exact Hy1 | apply Q.le_min_l].
  - eapply Qle_trans; [apply Q.le_max_l | exact Hy2].
  - eapply Qle_trans; [exact Hy1 | apply Q.le_min_r].
  - eapply Qle_trans; [apply Q.le_max_r | exact Hy2].
Qed.

End Indexing.

(** X17. [combineSceneWalls] returns for every scene: no wall and no key is
    looked up that the maps do not have, and the recursive traversal of the
    walls that share end points comes to an end. *)
Theorem combineSceneWalls_always_returns CONST Math_atan2 sceneWalls :
  exists newWalls,
    Scene.combineSceneWalls CONST Math_atan2 sceneWalls = Some newWalls.
Proof.
  destruct (combineSceneWalls_returns CONST Math_atan2 sceneWalls) as [out ->].
  by exists out.
Qed.

(** X18. No plain wall of the scene is lost in the merger: every wall
    without a door, a direction, a sense or a threshold of its own lies, with
    both of its end points, within the bounding segment of one of the walls
    that [combineSceneWalls] creates. *)
Theorem combineSceneWalls_covers CONST Math_atan2 sceneWalls newWalls w :
  Scene.combineSceneWalls CONST Math_atan2 sceneWalls = Some newWalls ->
  w ∈ sceneWalls -> Scene.plain CONST w = true ->
  exists b, b ∈ newWalls /\ within (Scene.c w) b.
Proof.
  intros Hret Hw Hplain. unfold Scene.combineSceneWalls in Hret.
  set (walls := filter (fun w => Scene.plain CONST w = true) sceneWalls) in *.
  assert (w ∈ walls) as Hin by (by apply list_elem_of_filter).
  apply list_elem_of_lookup in Hin as [n Hn].
  pose proof (buildMaps_indexed Math_atan2 (imap (fun n w => (n, w)) walls) []
                ([], ∅)) as Hidx.
  unfold Scene.buildMaps in Hret.
  destruct (fold_left _ (imap _ walls) _) as [wallMap wallIdToAB].
  destruct (Hidx ltac:(by intros ? ? H%elem_of_nil) n w) as (k & v & Hv & Hnv).
  { rewrite app_nil_l. apply elem_of_lookup_imap. by exists n, w. }
  cbn [fst] in Hv.
  destruct (Scene.wallSets walls wallMap wallIdToAB) as [sets |] eqn:Es;
    [| done].
  cbn in Hret. injection Hret as <-.
  destruct (wallSets_covered walls wallMap wallIdToAB sets k v n Es Hv Hnv)
    as (s & Hs & Hns).
  exists (Scene.bounding walls s). split.
  - apply list_elem_of_fmap. by exists s.
  - by apply bounding_within with (n := n).
Qed.

Lemma combineSceneWalls_covers_witness :
  exists newWalls b,
    Scene.combineSceneWalls foundry (fun _ _ => 0%Q)
      [plain_wall foundry "a" (0, 0, 10, 0)%Q; plain_wall foundry "b" (10, 0, 20, 0)%Q]
    = Some newWalls /\
    b ∈ newWalls /\ within (10, 0, 20, 0)%Q b.
Proof.
  destruct (Scene.combineSceneWalls foundry (fun _ _ => 0%Q)
              [plain_wall foundry "a" (0, 0, 10, 0)%Q;
               plain_wall foundry "b" (10, 0, 20, 0)%Q]) as [newWalls |] eqn:E;
    [| exfalso; revert E; vm_compute; discriminate].
  destruct (combineSceneWalls_covers foundry (fun _ _ => 0%Q) _ newWalls
              (plain_wall foundry "b" (10, 0, 20, 0)%Q) E) as (b & Hb & Hin).
  - apply list_elem_of_further, list_elem_of_here.
  - reflexivity.
  - exists newWalls, b. split; [reflexivity |]. split; [exact Hb | exact Hin].
Defined.

(** ** The range of the blur *)
Section BlurRange.
Import JS Ops.

(** A weighted mean of samples lies between their bounds. *)
Lemma weighted_mean_range (kernel : list Q) hs (smp : Z -> Z) lo hi :
  0 <= hs -> len kernel = 2 * hs + 1 -> (Qsum kernel == 1)%Q ->
  Forall (fun w => 0 <= w)%Q kernel ->
  (forall k, - hs <= k < hs + 1 -> lo <= smp k <= hi) ->
  (inject_Z lo
   <= sum_over (range (- hs) (hs + 1))
        (fun k => inject_Z (smp k) * coeff kernel (k + hs))
   <= inject_Z hi)%Q.
Proof.
  intros Hhs Hk Hsum Hpos Hs.
  rewrite sum_over_Qsum.
  assert (forall k, k ∈ range (- hs) (hs + 1) ->
            (0 <= coeff kernel (k + hs))%Q) as Hc.
  { intros k Hkr. apply elem_of_range in Hkr. unfold coeff.
    destruct (get_is_Some kernel (k + hs)) as [v Hv]; [lia |]. rewrite Hv.
    cbn. unfold get in Hv. destruct (_ <? 0); [done |].
    by eapply Forall_lookup_1 in Hv. }
  assert (forall c : Z,
            Qsum (map (fun k => coeff kernel (k + hs) * inject_Z c)
                      (range (- hs) (hs + 1))) == inject_Z c)%Q as Hconst.
  { intros c.
    rewrite <- (map_map (fun k => coeff kernel (k + hs))
                        (fun w => w * inject_Z c)%Q).
    rewrite Qsum_scale, kernel_as_map, Hsum by done. Lqa.lra. }
  split.
  - rewrite <- (Hconst lo). apply Qsum_le. intros k Hkr.
    specialize (Hc k Hkr). apply elem_of_range in Hkr.
    destruct (Hs k Hkr) as [Hlo _]. rewrite Zle_Qle in Hlo.
    rewrite (Qmult_comm _ (inject_Z lo)).
    by apply Qmult_le_compat_r.
  - rewrite <- (Hconst hi). apply Qsum_le. intros k Hkr.
    specialize (Hc k Hkr). apply elem_of_range in Hkr.
    destruct (Hs k Hkr) as [_ Hhi]. rewrite Zle_Qle in Hhi.
    rewrite (Qmult_comm _ (inject_Z hi)).
    by apply Qmult_le_compat_r.
Qed.

Lemma to_byte_range q lo hi :
  0 <= lo -> hi <= 255 -> (inject_Z lo <= q <= inject_Z hi)%Q ->
  lo <= to_byte q <= hi.
Proof.
  intros Hlo Hhi Hq. unfold to_byte. cbn.
  pose proof (round_half_even_range q lo hi Hq). unfold clamp. lia.
Qed.

Lemma gaussianKernel_nonneg Math_exp sigma :
  (forall q, 0 < Math_exp q)%Q ->
  Forall (fun w => 0 <= w)%Q (gaussianKernel Math_exp sigma).
Proof.
  intros Hexp. rewrite gaussianKernel_spec.
  pose proof (weights_pos Math_exp sigma Hexp) as Hpos.
  apply Forall_map, Forall_map, Forall_forall. intros i _. cbn.
  apply Qlt_le_weak, Qlt_shift_div_l; [done |].
  rewrite Qmult_0_l. unfold weight. apply Hexp.
Qed.

Lemma blur_range Math_exp sigma img lo hi :
  (forall q, 0 < Math_exp q)%Q ->
  0 < width img -> 0 < height img ->
  len (data img) = width img * height img -> 0 <= lo -> hi <= 255 ->
  (forall j, 0 <= j < width img * height img ->
             lo <= sample (data img) j <= hi) ->
  forall j, 0 <= j < width img * height img ->
    exists v, get (data (applyGaussianBlur Math_exp img sigma)) j = Some v /\
              lo <= v <= hi.
Proof.
  intros Hexp Hw Hh Hlen Hlo Hhi Hd.
  set (kernel := gaussianKernel Math_exp sigma).
  set (hs := halfSize sigma).
  assert (0 <= hs) as Hhs by (unfold hs; rewrite halfSize_ceil; lia).
  assert (len kernel = 2 * hs + 1) as Hk.
  { unfold kernel. rewrite gaussianKernel_len. apply kernelSize_halfSize. }
  assert (Qsum kernel == 1)%Q as Hsum by (by apply gaussianKernel_sum).
  assert (Forall (fun w => 0 <= w)%Q kernel) as Hpos
    by (by apply gaussianKernel_nonneg).
  destruct (horizontalBlur_spec kernel hs (data img) (width img) (height img))
    as [Htl Htg]; try done.
  set (temp := horizontalBlur kernel hs (data img) (width img) (height img)) in *.
  assert (forall j, 0 <= j < width img * height img ->
                    lo <= sample temp j <= hi) as Ht.
  { intros j Hj.
    destruct (cell_row_col (width img) (height img) j Hw Hj) as (E & Hx & Hy).
    rewrite E. rewrite (sample_get _ _ _ (Htg _ _ Hx Hy)).
    apply to_byte_range; [done | done |].
    unfold blur_h. apply weighted_mean_range; try done.
    intros k Hkr. apply Hd.
    pose proof (clamp_index_range (j mod width img + k) (width img) Hw). nia. }
  destruct (verticalBlur_spec kernel hs temp (width img) (height img))
    as [_ Hog]; try done.
  intros j Hj.
  destruct (cell_row_col (width img) (height img) j Hw Hj) as (E & Hx & Hy).
  unfold applyGaussianBlur. cbn [data]. fold kernel hs temp.
  rewrite E, Hog by done. eexists. split; [reflexivity |].
  apply to_byte_range; [done | done |].
  unfold blur_v. apply weighted_mean_range; try done.
  intros k Hkr. apply Ht.
  pose proof (clamp_index_range (j / width img + k) (height img) Hh). nia.
Qed.

End BlurRange.

(** X19. For every single channel buffer and [sigma > 0], the blur stays
    within the range of its input: when all samples of the input lie between
    [lo] and [hi], so do all samples of the output.  In particular the blur
    leaves an image of one colour as it is. *)
Theorem applyGaussianBlur_range (Math_exp : Q -> Q) sigma img lo hi :
  (forall q, 0 < Math_exp q)%Q -> (0 < sigma)%Q -> gray_buffer img ->
  (forall j, 0 <= j < width img * height img -> lo <= sample (data img) j <= hi) ->
  forall j, 0 <= j < width img * height img ->
    lo <= sample (data (Ops.applyGaussianBlur Math_exp img sigma)) j <= hi.
Proof.
  intros Hexp Hsigma (Hw & Hh & Hlen & Hb) Hd j Hj.
  assert (0 <= Z.max lo 0 /\ Z.min hi 255 <= 255) as [Hlo Hhi]
    by (split; [apply Z.le_max_r | apply Z.le_min_r]).
  destruct (blur_range Math_exp sigma img (Z.max lo 0) (Z.min hi 255) Hexp Hw Hh
              Hlen Hlo Hhi) with (j := j) as (v & Hv & Hr); [| done |].
  - intros j' Hj'. specialize (Hd j' Hj').
    destruct (get_is_Some (data img) j') as [v Hv]; [lia |].
    pose proof (get_byte _ _ _ Hb Hv) as Hbv.
    rewrite (sample_get _ _ _ Hv) in *. unfold byte in Hbv.
    split; [apply Z.max_lub; lia | apply Z.min_glb; lia].
  - rewrite (sample_get _ _ _ Hv).
    destruct Hr as [Hr1 Hr2].
    split; [exact (Z.le_trans _ _ _ (Z.le_max_l lo 0) Hr1)
           | exact (Z.le_trans _ _ _ Hr2 (Z.le_min_l hi 255))].
Qed.

Lemma applyGaussianBlur_range_witness :
  10 <= sample (data (Ops.applyGaussianBlur exp_like (mkImage [10; 20] 2 1) 1)) 1
  <= 20.
Proof.
  apply (applyGaussianBlur_range exp_like 1 (mkImage [10; 20] 2 1) 10 20).
  - apply exp_like_pos.
  - reflexivity.
  - unfold gray_buffer, byte. cbn.
    repeat split; try lia. repeat constructor; lia.
  - intros j Hj. change (0 <= j < 2) in Hj.
    assert (j = 0 \/ j = 1) as [-> | ->] by lia;
      vm_compute; split; discriminate.
  - cbn. lia.
Defined.

(** ** The direction of the merged walls *)
Section Directions.
Import Scene.
Variable CONST : Constants.
Variable Math_atan2 : Q -> Q -> Q.

Lemma keys_bucket w :
  (keys Math_atan2 w).1.2 = bucket Math_atan2 w /\
  (keys Math_atan2 w).2.2 = bucket Math_atan2 w.
Proof. unfold keys. by destruct (c w) as [[[x1 y1] x2] y2]. Qed.

Lemma setAdd_not_nil n s : setAdd n s <> [].
Proof.
  unfold setAdd. case_bool_decide as H.
  - intros ->. by apply elem_of_nil in H.
  - by destruct s.
Qed.

Lemma mapAdd_not_nil k n m k' v' :
  (forall k v, (k, v) ∈ m -> v <> []) ->
  (k', v') ∈ mapAdd k n m -> v' <> [].
Proof.
  induction m as [| [k'' s] m IH]; intros Hm; cbn [mapAdd].
  - rewrite list_elem_of_singleton. by intros [= -> ->].
  - case_bool_decide as Hk.
    + rewrite elem_of_cons. intros [[= -> ->] | H].
      * apply setAdd_not_nil.
      * apply (Hm k' v'). by apply list_elem_of_further.
    + rewrite elem_of_cons. intros [[= -> ->] | H].
      * apply (Hm k'' s). apply list_elem_of_here.
      * apply IH; [| done]. intros k0 v0 H0. apply (Hm k0 v0).
        by apply list_elem_of_further.
Qed.

(** A wall is added under the key [k] only. *)
Lemma elem_of_mapAdd_key k n m k' v' n' :
  (k', v') ∈ mapAdd k n m -> n' ∈ v' ->
  (n' = n /\ k' = k) \/ exists v, (k', v) ∈ m /\ n' ∈ v.
Proof.
  induction m as [| [k'' s] m IH]; cbn [mapAdd].
  - rewrite list_elem_of_singleton. intros [= -> ->].
    rewrite list_elem_of_singleton. intros ->. by left.
  - case_bool_decide as Hk.
    + rewrite elem_of_cons. intros [[= -> ->] | H] Hn.
      * apply elem_of_setAdd in Hn as [-> | Hn]; [by left |].
        right. exists s. split; [apply list_elem_of_here | done].
      * right. exists v'. split; [by apply list_elem_of_further | done].
    + rewrite elem_of_cons. intros [[= -> ->] | H] Hn.
      * right. exists s. split; [apply list_elem_of_here | done].
      * destruct (IH H Hn) as [[-> ->] | (v & Hv & Hn')]; [by left |].
        right. exists v. split; [by apply list_elem_of_further | done].
Qed.

Lemma buildMaps_grouped (l : list (nat * Wall)) :
  forall processed st,
    NoDup (map (fun e => id e.2) (processed ++ l)) ->
    grouped Math_atan2 processed st ->
    grouped Math_atan2 (processed ++ l)
      (fold_left
         (fun '(wallMap, wallIdToAB) '(n, w) =>
            let '(a, b) := keys Math_atan2 w in
            let wallMap := mapAdd b n (mapAdd a n wallMap) in
            (wallMap, <[id w := (a, b)]> wallIdToAB))
         l st).
Proof.
  induction l as [| [n w] l IH]; intros processed [wm M] Hnd Hst.
  - by rewrite app_nil_r.
  - cbn [fold_left]. rewrite (cons_middle (n, w)), app_assoc in Hnd |- *.
    apply IH; [done |].
    destruct Hst as (H1 & H2 & H3). cbn [fst snd] in H1, H2, H3.
    pose proof (keys_bucket w) as [Ha Hb].
    destruct (keys Math_atan2 w) as [a b] eqn:Ek. cbn [fst snd] in Ha, Hb.
    split; [| split]; cbn [fst snd].
    + intros n' w' Hin. apply elem_of_app in Hin as [Hin | Hin].
      * rewrite lookup_insert_ne; [by apply (H1 n') |].
        intros E. rewrite map_app in Hnd. apply NoDup_app in Hnd as (Hnd & _).
        rewrite map_app in Hnd. apply NoDup_app in Hnd as (_ & Hnd & _).
        apply (Hnd (id w')).
        -- apply list_elem_of_fmap. by exists (n', w').
        -- rewrite <- E. cbn. apply list_elem_of_here.
      * apply list_elem_of_singleton in Hin. injection Hin as -> ->.
        by rewrite lookup_insert_eq, Ek.
    + intros k v Hkv.
      apply (mapAdd_not_nil b n (mapAdd a n wm) k v); [| done].
      intros k0 v0. by apply mapAdd_not_nil.
    + intros k v n' Hkv Hn'.
      destruct (elem_of_mapAdd_key _ _ _ _ _ _ Hkv Hn')
        as [[-> ->] | (v1 & Hv1 & Hn1)].
      { exists w. split; [| done]. apply elem_of_app. right.
        apply list_elem_of_here. }
      destruct (elem_of_mapAdd_key _ _ _ _ _ _ Hv1 Hn1)
        as [[-> ->] | (v2 & Hv2 & Hn2)].
      { exists w. split; [| done]. apply elem_of_app. right.
        apply list_elem_of_here. }
      destruct (H3 k v2 n' Hv2 Hn2) as (w' & Hw' & Hd).
      exists w'. split; [| done]. apply elem_of_app. by left.
Qed.

End Directions.

Section Buckets.
Import Scene.
Variable Math_atan2 : Q -> Q -> Q.
Variable walls : list Wall.
Variable wallMap : WallMap.
Variable wallIdToAB : gmap string (Key * Key).

Hypothesis Hgrouped :
  grouped Math_atan2 (imap (fun n w => (n, w)) walls) (wallMap, wallIdToAB).

Lemma entry_uniform k v : (k, v) ∈ wallMap -> uniform Math_atan2 walls k.2 v.
Proof.
  intros Hkv n Hn. destruct Hgrouped as (_ & _ & H3).
  destruct (H3 k v n Hkv Hn) as (w & Hw & Hd).
  apply elem_of_lookup_imap in Hw as (i & w' & [= <- <-] & Hw).
  by exists w.
Qed.

Lemma visits_uniform fuel ws d :
  (forall n vk set vk' set',
     visit walls wallMap wallIdToAB fuel n (vk, set) = Some (vk', set') ->
     uniform Math_atan2 walls d [n] -> uniform Math_atan2 walls d set ->
     uniform Math_atan2 walls d set') ->
  forall vk set vk' set',
    fold_left (fun st n' => st ≫= visit walls wallMap wallIdToAB fuel n')
      ws (Some (vk, set)) = Some (vk', set') ->
    uniform Math_atan2 walls d ws -> uniform Math_atan2 walls d set ->
    uniform Math_atan2 walls d set'.
Proof.
  intros Hvisit. induction ws as [| n ws IH]; intros vk set vk' set' H Hws Hset.
  - cbn in H. by injection H as <- <-.
  - cbn [fold_left mbind option_bind] in H.
    destruct (visit walls wallMap wallIdToAB fuel n (vk, set))
      as [[vk1 set1] |] eqn:E; [| by rewrite visits_None in H].
    apply (IH _ _ _ _ H).
    + intros n' Hn'. apply Hws. by apply list_elem_of_further.
    + apply (Hvisit _ _ _ _ _ E); [| done].
      intros n' Hn'. apply list_elem_of_singleton in Hn' as ->.
      apply Hws, list_elem_of_here.
Qed.

Lemma visit_uniform fuel d :
  forall n vk set vk' set',
    visit walls wallMap wallIdToAB fuel n (vk, set) = Some (vk', set') ->
    uniform Math_atan2 walls d [n] -> uniform Math_atan2 walls d set ->
    uniform Math_atan2 walls d set'.
Proof.
  induction fuel as [| fuel IH]; intros n vk set vk' set' H Hn Hset; [done |].
  pose (key := fun (k : Key) (st : Visit) =>
                 let '(visitedK, set) := st in
                 if bool_decide (k ∈ visitedK) then Some (visitedK, set)
                 else
                   ws ← mapGet k wallMap;
                   fold_left
                     (fun st n' => st ≫= visit walls wallMap wallIdToAB fuel n')
                     ws (Some (visitedK ++ [k], set))).
  change (visit walls wallMap wallIdToAB (S fuel) n (vk, set))
    with (w ← walls !! n;
          '(a, b) ← wallIdToAB !! id w;
          st ← key a (vk, setAdd n set);
          key b st) in H.
  assert (forall k vk0 set0 vk1 set1,
            key k (vk0, set0) = Some (vk1, set1) -> k.2 = d ->
            uniform Math_atan2 walls d set0 -> uniform Math_atan2 walls d set1)
    as Hkey.
  { intros k vk0 set0 vk1 set1. unfold key. case_bool_decide as Hin.
    - by intros [= <- <-].
    - destruct (mapGet k wallMap) as [ws |] eqn:Ek; [| done].
      cbn [mbind option_bind]. intros Hf Hd Hu.
      apply (visits_uniform fuel ws d IH _ _ _ _ Hf); [| done].
      rewrite <- Hd. apply entry_uniform. by apply mapGet_elem. }
  clearbody key.
  destruct (Hn n ltac:(apply list_elem_of_here)) as (w & Hw & Hd).
  rewrite Hw in H. cbn [mbind option_bind] in H.
  destruct Hgrouped as (H1 & _ & _). cbn [snd] in H1.
  rewrite (H1 n w) in H by (apply elem_of_lookup_imap; by exists n, w).
  pose proof (keys_bucket Math_atan2 w) as [Ha Hb].
  destruct (keys Math_atan2 w) as [a b]. cbn [fst snd] in Ha, Hb.
  cbn [mbind option_bind] in H.
  destruct (key a (vk, setAdd n set)) as [[vk1 set1] |] eqn:Ea; [| done].
  cbn [mbind option_bind] in H.
  apply (Hkey _ _ _ _ _ H); [congruence |].
  apply (Hkey _ _ _ _ _ Ea); [congruence |].
  intros n' Hn'. apply elem_of_setAdd in Hn' as [-> | Hn'];
    [by exists w | by apply Hset].
Qed.

(** The sets that the loop over the entries of [wallMap] makes. *)
Lemma entries_uniform fuel l : forall vk sets vk' sets',
  fold_left
    (fun r '(k, v) =>
       '(visitedK, sets) ← r;
       if bool_decide (k ∈ visitedK) then Some (visitedK, sets)
       else
         '(visitedK, set) ←
           fold_left
             (fun st n => st ≫= visit walls wallMap wallIdToAB fuel n)
             v (Some (visitedK, []));
         Some (visitedK, sets ++ [set]))
    l (Some (vk, sets)) = Some (vk', sets') ->
  l ⊆ wallMap ->
  Forall (fun s => s <> [] /\ exists d, uniform Math_atan2 walls d s) sets ->
  Forall (fun s => s <> [] /\ exists d, uniform Math_atan2 walls d s) sets'.
Proof.
  induction l as [| [k v] l IH]; intros vk sets vk' sets' H Hsub Hsets.
  - cbn in H. by injection H as <- <-.
  - cbn [fold_left mbind option_bind] in H.
    assert (l ⊆ wallMap) as Hsub'.
    { intros e He. apply Hsub. by apply list_elem_of_further. }
    assert ((k, v) ∈ wallMap) as Hkv by apply Hsub, list_elem_of_here.
    case_bool_decide as Hk; [by apply (IH _ _ _ _ H) |].
    destruct (fold_left
                (fun st n => st ≫= visit walls wallMap wallIdToAB fuel n)
                v (Some (vk, []))) as [[vk1 set1] |] eqn:Ev.
    2:{ cbn [mbind option_bind] in H.
        assert (forall l r,
                  r = None ->
                  fold_left
                    (fun r '(k, v) =>
                       '(visitedK, sets) ← r;
                       if bool_decide (k ∈ visitedK) then Some (visitedK, sets)
                       else
                         '(visitedK, set) ←
                           fold_left
                             (fun st n =>
                                st ≫= visit walls wallMap wallIdToAB fuel n)
                             v (Some (visitedK, []));
                         Some (visitedK, sets ++ [set]))
                    l r = None) as Hnone.
        { clear. induction l as [| [k v] l IH]; intros r ->; [done |].
          cbn. by apply IH. }
        by rewrite Hnone in H. }
    cbn [mbind option_bind] in H.
    apply (IH _ _ _ _ H Hsub').
    apply Forall_app. split; [done |]. constructor; [| done]. split.
    + destruct Hgrouped as (_ & H2 & _).
      destruct v as [| n v]; [exfalso; by apply (H2 k [] Hkv) |].
      apply (visits_closed walls wallMap wallIdToAB fuel (n :: v)
               (visit_closed walls wallMap wallIdToAB fuel)) in Ev
        as (_ & _ & Hv & _).
      intros ->. specialize (Hv n ltac:(apply list_elem_of_here)).
      by apply elem_of_nil in Hv.
    + exists k.2.
      apply (visits_uniform fuel v k.2 (visit_uniform fuel k.2) _ _ _ _ Ev).
      * by apply entry_uniform.
      * intros n Hn. by apply elem_of_nil in Hn.
Qed.

Lemma wallSets_uniform sets :
  wallSets walls wallMap wallIdToAB = Some sets ->
  Forall (fun s => s <> [] /\ exists d, uniform Math_atan2 walls d s) sets.
Proof.
  unfold wallSets. cbv zeta. intros H.
  destruct (fold_left _ wallMap (Some ([], []))) as [[vk' sets'] |] eqn:E;
    [| done].
  cbn in H. injection H as <-.
  by apply entries_uniform in E.
Qed.

End Buckets.

(** X20. When no two plain walls of the scene have the same id, every wall
    that [combineSceneWalls] creates is the bounding segment of a group of
    plain walls that is not empty and whose walls all have the same direction
    bucket: walls of different direction buckets are never merged. *)
Theorem combineSceneWalls_same_bucket CONST Math_atan2 sceneWalls newWalls b :
  let walls := filter (fun w => Scene.plain CONST w = true) sceneWalls in
  NoDup (map Scene.id walls) ->
  Scene.combineSceneWalls CONST Math_atan2 sceneWalls = Some newWalls ->
  b ∈ newWalls ->
  exists (group : list nat) (d : Z),
    group <> [] /\ b = Scene.bounding walls group /\
    forall n, n ∈ group ->
      exists w, walls !! n = Some w /\ w ∈ sceneWalls /\
                Scene.plain CONST w = true /\ Scene.bucket Math_atan2 w = d.
Proof.
  intros walls Hnd Hret Hb. unfold Scene.combineSceneWalls in Hret.
  fold walls in Hret.
  pose proof (buildMaps_grouped Math_atan2 (imap (fun n w => (n, w)) walls) []
                ([], ∅)) as Hg.
  unfold Scene.buildMaps in Hret.
  destruct (fold_left _ (imap _ walls) _) as [wallMap wallIdToAB].
  rewrite app_nil_l in Hg.
  assert (grouped Math_atan2 (imap (fun n w => (n, w)) walls)
            (wallMap, wallIdToAB)) as Hgrouped.
  { apply Hg.
    - assert (map (fun e : nat * Scene.Wall => Scene.id e.2)
                  (imap (fun n w => (n, w)) walls) = map Scene.id walls) as ->;
        [| done].
      apply list_eq. intros i.
      rewrite !list_lookup_fmap, list_lookup_imap.
      by destruct (walls !! i).
    - split; [| split]; cbn [fst snd].
      + intros n w H. by apply elem_of_nil in H.
      + intros k v H. by apply elem_of_nil in H.
      + intros k v n H. by apply elem_of_nil in H. }
  destruct (Scene.wallSets walls wallMap wallIdToAB) as [sets |] eqn:Es;
    [| done].
  cbn in Hret. injection Hret as <-.
  apply list_elem_of_fmap in Hb as (s & -> & Hs).
  pose proof (wallSets_uniform Math_atan2 walls wallMap wallIdToAB Hgrouped
                sets Es) as Hall.
  eapply Forall_forall in Hall as (Hne & d & Hu); [| exact Hs].
  exists s, d. split; [done |]. split; [done |].
  intros n Hn. destruct (Hu n Hn) as (w & Hw & Hd).
  exists w. split; [done |].
  assert (w ∈ walls) as Hin by (by eapply list_elem_of_lookup_2).
  apply list_elem_of_filter in Hin as [Hp Hin]. done.
Qed.

Lemma combineSceneWalls_same_bucket_witness :
  exists newWalls b (group : list nat),
    Scene.combineSceneWalls foundry (fun _ _ => 0%Q) wall_row = Some newWalls /\
    b ∈ newWalls /\ group <> [].
Proof.
  destruct (Scene.combineSceneWalls foundry (fun _ _ => 0%Q) wall_row)
    as [newWalls |] eqn:E; [| exfalso; revert E; vm_compute; discriminate].
  assert (exists b, b ∈ newWalls) as [b Hb].
  { revert E. vm_compute. intros [= <-]. eexists. apply list_elem_of_here. }
  assert (NoDup (map Scene.id
                   (filter (fun w => Scene.plain foundry w = true) wall_row)))
    as Hnd.
  { vm_compute. repeat constructor.
    - intros H. apply list_elem_of_singleton in H. discriminate.
    - intros H. by apply elem_of_nil in H. }
  destruct (combineSceneWalls_same_bucket foundry (fun _ _ => 0%Q) wall_row
              newWalls b Hnd E Hb) as (group & d & Hne & _).
  exists newWalls, b, group. split; [reflexivity |]. split; [exact Hb | exact Hne].
Defined.

(** ** The sizes that [sceneToWalls] infers *)
Section Inferred.
Import SceneToWalls.

Lemma adjust_range rounds grid w h sub : forall r,
  1 <= r -> 1 <= adjust rounds grid w h sub r <= r.
Proof.
  induction rounds as [| rounds IH]; intros r Hr; cbn [adjust]; [lia |].
  unfold fractional. destruct (Z.ltb_spec 1 r) as [Hlt | Hge]; cbn [andb].
  - destruct (above_inverse _ _); [| lia].
    specialize (IH (r - 1) ltac:(lia)). lia.
  - lia.
Qed.

Lemma Math_round_ge_1 q : (1 <= q)%Q -> 1 <= JS.Math_round q.
Proof.
  intros Hq. unfold JS.Math_round.
  rewrite <- (Qfloor_Z 1) at 1. apply Qfloor_resp_le.
  change (inject_Z 1) with 1%Q. Lqa.lra.
Qed.

Lemma Math_round_le q : (inject_Z (JS.Math_round q) <= q + (1 # 2))%Q.
Proof. unfold JS.Math_round. apply Qfloor_le. Qed.

Lemma Qfloor_div_int a b :
  0 < b -> Qfloor (inject_Z a / inject_Z b) = a / b.
Proof.
  intros Hb.
  assert (0 < inject_Z b)%Q as Hbq by (rewrite <- (Zlt_Qlt 0); lia).
  pose proof (Z.div_mod a b ltac:(lia)) as Hdm.
  pose proof (Z.mod_pos_bound a b Hb) as Hm.
  assert (inject_Z a == inject_Z (a / b) * inject_Z b + inject_Z (a mod b))%Q
    as Ea.
  { rewrite <- inject_Z_mult, <- inject_Z_plus.
    rewrite Hdm at 1. by rewrite Z.mul_comm. }
  assert (0 <= inject_Z (a mod b))%Q as Hm0 by (rewrite <- (Zle_Qle 0); lia).
  assert (inject_Z (a mod b) < inject_Z b)%Q as Hm1
    by (rewrite <- Zlt_Qlt; lia).
  apply Z.le_antisymm.
  - apply Z.lt_succ_r. rewrite <- (Qfloor_Z (Z.succ (a / b))).
    assert (inject_Z a / inject_Z b < inject_Z (Z.succ (a / b)))%Q as Hlt.
    { apply Qlt_shift_div_r; [done |].
      unfold Z.succ. rewrite inject_Z_plus. rewrite Ea.
      change (inject_Z 1) with 1%Q. Lqa.lra. }
    apply Z.lt_nge. intros Hge.
    assert (inject_Z (Qfloor (inject_Z (Z.succ (a / b))))
            <= inject_Z (Qfloor (inject_Z a / inject_Z b)))%Q as H1
      by (by rewrite <- Zle_Qle).
    rewrite Qfloor_Z in H1.
    pose proof (Qfloor_le (inject_Z a / inject_Z b)). Lqa.lra.
  - rewrite <- (Qfloor_Z (a / b)) at 1. apply Qfloor_resp_le.
    apply Qle_shift_div_l; [done |]. rewrite Ea. Lqa.lra.
Qed.

Lemma whole_cells_spec a b :
  0 < b ->
  exists n, whole_cells a b = Some (n * b) /\ n * b <= a < n * b + b.
Proof.
  intros Hb. unfold whole_cells.
  destruct (Z.eqb_spec b 0) as [E | _]; [lia |].
  rewrite Qfloor_div_int by done. exists (a / b). split; [done |].
  pose proof (Z.div_mod a b ltac:(lia)). pose proof (Z.mod_pos_bound a b Hb).
  lia.
Qed.

(** With the default resolution scale the cell has a size. *)
Lemma default_scale grid sub :
  (1 <= sub)%Q -> (sub <= grid)%Q ->
  (inject_Z (JS.Math_round (Qmax (grid / (sub * 7)) 1)) * sub <= grid)%Q.
Proof.
  intros Hs Hg.
  assert (0 < sub * 7)%Q as Hs7 by Lqa.lra.
  destruct (Qlt_le_dec 1 (grid / (sub * 7))) as [Hbig | Hsmall].
  - assert (JS.Math_round (Qmax (grid / (sub * 7)) 1)
            = JS.Math_round (grid / (sub * 7))) as ->.
    { unfold JS.Math_round. apply Qfloor_comp.
      rewrite Q.max_l by (by apply Qlt_le_weak). reflexivity. }
    pose proof (Math_round_le (grid / (sub * 7))) as Hr.
    assert (sub * 7 < grid)%Q as Hg7.
    { apply (Qmult_lt_r _ _ (sub * 7)) in Hbig; [| done].
      assert (grid / (sub * 7) * (sub * 7) == grid)%Q as E
        by (field; Lqa.lra).
      rewrite E in Hbig. Lqa.lra. }
    assert (inject_Z (JS.Math_round (grid / (sub * 7))) * sub
            <= (grid / (sub * 7) + (1 # 2)) * sub)%Q as H1
      by (apply Qmult_le_compat_r; [done | Lqa.lra]).
    assert ((grid / (sub * 7) + (1 # 2)) * sub
            == grid * (1 # 7) + sub * (1 # 2))%Q as E
      by (field; Lqa.lra).
    rewrite E in H1. Lqa.lra.
  - assert (JS.Math_round (Qmax (grid / (sub * 7)) 1) = 1) as ->.
    { unfold JS.Math_round.
      rewrite (Qfloor_comp _ (1 + (1 # 2)))
        by (rewrite Q.max_r by done; reflexivity).
      reflexivity. }
    change (inject_Z 1) with 1%Q. Lqa.lra.
Qed.

End Inferred.

(** X21. The sizes that [sceneToWalls] infers when no resolution scale is
    given and the grid size is at least the sub-cell scale (which counts as 1
    when it is not given or below 1): the resolution scale is an integer of
    at least 1, the cell size is at least 1, so that the loops of the wall
    extractor advance, and the width and the height of the map are the
    largest multiples of the cell size within the scaled image. *)
Theorem sceneToWalls_whole_cells grid_size grid_gridX scene_width scene_height
    options_subCellScale :
  let grid := SceneToWalls.or_else grid_size (SceneToWalls.or_else grid_gridX 100) in
  let subCellScale := Qmax (SceneToWalls.or_else options_subCellScale 1) 1 in
  let r := SceneToWalls.infer grid_size grid_gridX scene_width scene_height
             options_subCellScale None in
  (subCellScale <= grid)%Q ->
  1 <= SceneToWalls.resolutionScale r /\
  1 <= SceneToWalls.cellSize r /\
  (exists n, SceneToWalls.width r = Some (n * SceneToWalls.cellSize r) /\
             n * SceneToWalls.cellSize r <= SceneToWalls.imgWidth r
             < n * SceneToWalls.cellSize r + SceneToWalls.cellSize r) /\
  (exists n, SceneToWalls.height r = Some (n * SceneToWalls.cellSize r) /\
             n * SceneToWalls.cellSize r <= SceneToWalls.imgHeight r
             < n * SceneToWalls.cellSize r + SceneToWalls.cellSize r).
Proof.
  intros grid sub r Hg.
  assert (1 <= sub)%Q as Hs by apply Q.le_max_r.
  set (r0 := JS.Math_round (Qmax (grid / (sub * 7)) 1)).
  assert (1 <= r0) as Hr0 by (apply Math_round_ge_1, Q.le_max_r).
  pose proof (adjust_range (Z.to_nat r0) grid scene_width scene_height sub r0 Hr0)
    as Hres.
  set (res := SceneToWalls.adjust (Z.to_nat r0) grid scene_width scene_height
                sub r0) in *.
  assert (SceneToWalls.resolutionScale r = res) as Eres by reflexivity.
  assert (SceneToWalls.cellSize r = Qfloor (grid / (inject_Z res * sub))) as Ecell
    by reflexivity.
  assert (1 <= SceneToWalls.cellSize r) as Hcell.
  { rewrite Ecell. rewrite <- (Qfloor_Z 1) at 1. apply Qfloor_resp_le.
    change (inject_Z 1) with 1%Q.
    assert (0 < inject_Z res)%Q as Hpos by (rewrite <- (Zlt_Qlt 0); lia).
    assert (inject_Z res <= inject_Z r0)%Q as Hle by (rewrite <- Zle_Qle; lia).
    pose proof (default_scale grid sub Hs Hg) as Hd. fold r0 in Hd.
    assert (inject_Z res * sub <= inject_Z r0 * sub)%Q as Hm
      by (apply Qmult_le_compat_r; [done | Lqa.lra]).
    apply Qle_shift_div_l; [Lqa.nra | Lqa.lra]. }
  split; [lia |]. split; [done |]. split.
  - apply whole_cells_spec. lia.
  - apply whole_cells_spec. lia.
Qed.

Lemma sceneToWalls_whole_cells_witness :
  1 <= SceneToWalls.resolutionScale
         (SceneToWalls.infer (Some 100%Q) None 1000 805 None None) /\
  1 <= SceneToWalls.cellSize
         (SceneToWalls.infer (Some 100%Q) None 1000 805 None None).
Proof.
  destruct (sceneToWalls_whole_cells (Some 100%Q) None 1000 805 None
              ltac:(vm_compute; discriminate)) as (Hres & Hcell & _ & _).
  split; [exact Hres | exact Hcell].
Defined.

(** X22. When the sub-cell scale is above a positive grid size and no
    resolution scale is given, [sceneToWalls] infers the resolution scale 1
    and the cell size 0, and the width and the height of the map are [NaN]:
    there are no cells to look for walls in. *)
Theorem sceneToWalls_no_cells grid_size grid_gridX scene_width scene_height
    options_subCellScale :
  let grid := SceneToWalls.or_else grid_size (SceneToWalls.or_else grid_gridX 100) in
  let subCellScale := Qmax (SceneToWalls.or_else options_subCellScale 1) 1 in
  let r := SceneToWalls.infer grid_size grid_gridX scene_width scene_height
             options_subCellScale None in
  (0 < grid)%Q -> (grid < subCellScale)%Q ->
  SceneToWalls.resolutionScale r = 1 /\ SceneToWalls.cellSize r = 0 /\
  SceneToWalls.width r = None /\ SceneToWalls.height r = None.
Proof.
  intros grid sub r Hpos Hlt.
  assert (1 <= sub)%Q as Hs by apply Q.le_max_r.
  assert (JS.Math_round (Qmax (grid / (sub * 7)) 1) = 1) as Hr0.
  { unfold JS.Math_round.
    rewrite (Qfloor_comp _ (1 + (1 # 2))); [reflexivity |].
    rewrite Q.max_r; [reflexivity |].
    apply Qle_shift_div_r; Lqa.lra. }
  assert (SceneToWalls.resolutionScale r = 1) as Eres.
  { unfold r, SceneToWalls.infer. cbv zeta. cbn [SceneToWalls.resolutionScale].
    fold grid sub. rewrite Hr0. reflexivity. }
  assert (SceneToWalls.cellSize r = 0) as Ecell.
  { unfold r, SceneToWalls.infer. cbv zeta. cbn [SceneToWalls.cellSize].
    fold grid sub. rewrite Hr0.
    change (SceneToWalls.adjust (Z.to_nat 1) grid scene_width scene_height sub 1)
      with 1.
    apply Z.le_antisymm.
    - apply Z.lt_succ_r. change (Z.succ 0) with 1.
      apply Z.lt_nge. intros Hge.
      assert (inject_Z 1 <= inject_Z (Qfloor (grid / (inject_Z 1 * sub))))%Q as H1
        by (by rewrite <- Zle_Qle).
      pose proof (Qfloor_le (grid / (inject_Z 1 * sub))) as H2.
      assert (grid / (inject_Z 1 * sub) < 1)%Q as H3.
      { apply Qlt_shift_div_r; change (inject_Z 1) with 1%Q; Lqa.lra. }
      change (inject_Z 1) with 1%Q in *. Lqa.lra.
    - rewrite <- (Qfloor_Z 0) at 1. apply Qfloor_resp_le.
      change (inject_Z 0) with 0%Q. change (inject_Z 1) with 1%Q.
      apply Qle_shift_div_l; Lqa.lra. }
  split; [done |]. split; [done |].
  assert (forall a, SceneToWalls.whole_cells a (SceneToWalls.cellSize r) = None)
    as Hnone by (intros a; by rewrite Ecell).
  split; apply Hnone.
Qed.

Lemma sceneToWalls_no_cells_witness :
  SceneToWalls.cellSize
    (SceneToWalls.infer (Some 2%Q) None 1000 800 (Some 3%Q) None) = 0 /\
  SceneToWalls.width
    (SceneToWalls.infer (Some 2%Q) None 1000 800 (Some 3%Q) None) = None.
Proof.
  destruct (sceneToWalls_no_cells (Some 2%Q) None 1000 800 (Some 3%Q)
              ltac:(reflexivity) ltac:(reflexivity)) as (_ & Hcell & Hw & _).
  split; [exact Hcell | exact Hw].
Defined.

Section BlurValues.
Import JS Ops.

(** What a pass stores for a window of samples [smp]. *)
Lemma pass_value (kernel : list Q) hs (smp : Z -> Z) :
  0 <= hs -> len kernel = 2 * hs + 1 -> (Qsum kernel == 1)%Q ->
  Forall (fun c => 0 <= c)%Q kernel ->
  (forall k, - hs <= k < hs + 1 -> 0 <= smp k <= 255) ->
  let q := sum_over (range (- hs) (hs + 1))
             (fun k => inject_Z (smp k) * coeff kernel (k + hs))%Q in
  nearest_byte (to_byte q) q /\
  forall lo hi,
    (forall k, - hs <= k <= hs -> lo <= smp k <= hi) ->
    lo <= to_byte q <= hi.
Proof.
  intros Hhs Hk Hsum Hpos Hb q.
  pose proof (weighted_mean_range kernel hs smp 0 255 Hhs Hk Hsum Hpos Hb)
    as Hq. fold q in Hq.
  assert (to_byte q = round_half_even q) as Hv.
  { unfold to_byte. cbn.
    pose proof (round_half_even_range q 0 255 Hq). unfold clamp. lia. }
  split.
  - split.
    + apply to_byte_range; [lia | lia | done].
    + rewrite Hv. pose proof (round_half_even_near q) as [H1 H2].
      apply Qabs_Qle_condition. split; Lqa.lra.
  - intros lo hi Hs.
    assert (Z.max lo 0 <= to_byte q <= Z.min hi 255) as [H1 H2].
    { apply to_byte_range; [lia | lia |].
      apply weighted_mean_range; try done.
      intros k Hkr. specialize (Hb k Hkr).
      destruct (Hs k) as [? ?]; [lia |]. lia. }
    lia.
Qed.

(** The cells of a pass are bytes. *)
Lemma raster_bytes (a : list Z) w h (f : Z -> Z -> Q) :
  0 < w -> 0 < h -> len a = w * h ->
  (forall x y, 0 <= x < w -> 0 <= y < h ->
     get a (y * w + x) = Some (to_byte (f x y))) ->
  Forall byte a.
Proof.
  intros Hw Hh Hlen Hg. apply Forall_lookup_2. intros i v Hi.
  assert (0 <= Z.of_nat i < w * h) as Hj.
  { apply lookup_lt_Some in Hi. unfold len in Hlen. lia. }
  destruct (cell_row_col w h (Z.of_nat i) Hw Hj) as (E & Hx & Hy).
  specialize (Hg _ _ Hx Hy). rewrite <- E in Hg.
  unfold get in Hg. destruct (Z.of_nat i <? 0) eqn:En; [lia |].
  rewrite Nat2Z.id, Hi in Hg. injection Hg as ->.
  apply (to_uint8_clamped_byte (Some _)).
Qed.

Lemma byte_samples (d : list Z) n j :
  len d = n -> Forall byte d -> 0 <= j < n -> 0 <= sample d j <= 255.
Proof.
  intros Hlen Hb Hj. destruct (get_is_Some d j) as [v Hv]; [lia |].
  rewrite (sample_get _ _ _ Hv). by eapply get_byte.
Qed.

End BlurValues.



(** The rounding of the products and quotients that decide a radius or a
    comparison: 0.1 and 0.3 as doubles; an integer above 2^53 that is half-way
    between two doubles goes to the even one; for sigma =
    1.6666666666666667 the product sigma * 3 is the double 5, so the radius
    is 5, where the ceiling of the exact product is 6; and 3 of 10 is not
    above the threshold 0.3. *)
Lemma double_examples :
  (JS.double (1 # 10) == 3602879701896397 # 36028797018963968)%Q /\
  (JS.double (3 # 10) == 5404319552844595 # 18014398509481984)%Q /\
  (JS.double 9007199254740993 == 9007199254740992)%Q /\
  (JS.double (five_thirds * 3) == 5)%Q /\
  Qceiling (five_thirds * 3) = 6 /\
  Ops.halfSize five_thirds = 5 /\
  Inside.exceeds 3 10 (JS.double (3 # 10)) = false /\
  Inside.exceeds 4 10 (JS.double (3 # 10)) = true.
Proof. vm_compute. repeat split; discriminate. Qed.

Section Palette.
Import JS KMeans.

(** After at least one iteration the centroids are the means of the
    clusters the loop ends with. *)
Lemma mainLoop_means n : forall pixels k threshold centroids clusters,
  (n = 0%nat -> centroids = newCentroids pixels clusters k) ->
  let r := mainLoop n pixels k threshold centroids clusters in
  r.2 = newCentroids pixels r.1 k.
Proof.
  induction n as [| n IH]; intros pixels k threshold centroids clusters H0.
  - cbn. by apply H0.
  - cbn [mainLoop]. cbv zeta.
    destruct (converged _ _ _ _); [done |].
    apply IH. done.
Qed.

Lemma elem_of_members p j zs : p ∈ members j zs <-> (p, j) ∈ zs.
Proof.
  unfold members. rewrite list_elem_of_fmap. split.
  - intros ([p' c] & -> & Hin). apply list_elem_of_filter in Hin as [Hc Hin].
    cbn in Hc. by subst c.
  - intros Hin. exists (p, j). split; [done |].
    apply list_elem_of_filter. by split.
Qed.

(** The mean of numbers between 0 and 255. *)
Lemma mean_range (ch : Point -> Q) (M : list Point) :
  M <> [] ->
  (forall p, p ∈ M -> 0 <= ch p <= 255)%Q ->
  (0 <= Qsum (map ch M) / inject_Z (Z.of_nat (length M)) <= 255)%Q.
Proof.
  intros Hne Hb.
  assert (0 < inject_Z (Z.of_nat (length M)))%Q as Hn.
  { rewrite <- (Zlt_Qlt 0). destruct M; [done | cbn [length]; lia]. }
  assert (0 <= Qsum (map ch M)
          /\ Qsum (map ch M) <= 255 * inject_Z (Z.of_nat (length M)))%Q
    as [Hlo Hhi].
  { clear Hne Hn. induction M as [| p M IH].
    - split; vm_compute; discriminate.
    - cbn [map length]. rewrite Qsum_cons, Nat2Z.inj_succ.
      unfold Z.succ. rewrite inject_Z_plus.
      destruct IH as [IH1 IH2].
      { intros q Hq. apply Hb. by apply list_elem_of_further. }
      destruct (Hb p) as [H1 H2]; [apply list_elem_of_here |].
      change (inject_Z 1) with 1%Q. split; Lqa.lra. }
  split.
  - apply Qle_shift_div_l; [done |]. Lqa.lra.
  - apply Qle_shift_div_r; [done |]. Lqa.lra.
Qed.

Lemma Math_round_byte q : (0 <= q <= 255)%Q -> byte (Math_round q).
Proof.
  intros [Hlo Hhi]. unfold Math_round, byte. split.
  - rewrite <- (Qfloor_Z 0). apply Qfloor_resp_le.
    change (inject_Z 0) with 0%Q. Lqa.lra.
  - assert (Qfloor (q + (1 # 2)) <= Qfloor (inject_Z 255 + (1 # 2))) as H.
    { apply Qfloor_resp_le. change (inject_Z 255) with 255%Q. Lqa.lra. }
    etrans; [exact H |]. vm_compute. discriminate.
Qed.

Lemma paletteColour_mean (M : list Point) :
  M <> [] ->
  (forall p, p ∈ M ->
     (0 <= red p <= 255)%Q /\ (0 <= green p <= 255)%Q /\ (0 <= blue p <= 255)%Q) ->
  paletteColour (pdiv (psum M (0, 0, 0)%Q) (Z.of_nat (length M)))
  = (rounded_mean red M, rounded_mean green M, rounded_mean blue M).
Proof.
  intros Hne Hb.
  destruct (psum_channels M (0, 0, 0)%Q) as (Hr & Hg & Hbl).
  destruct (psum M (0, 0, 0)%Q) as [[r g] b]. cbn in Hr, Hg, Hbl.
  unfold paletteColour, pdiv, rounded_mean.
  assert (forall (ch : Point -> Q) v,
            (v == 0 + Qsum (map ch M))%Q ->
            (forall p, p ∈ M -> (0 <= ch p <= 255)%Q) ->
            to_uint8_clamped
              (Some (inject_Z (Math_round (v / inject_Z (Z.of_nat (length M))))))
            = Math_round (Qsum (map ch M) / inject_Z (Z.of_nat (length M))))
    as H.
  { intros ch v Hv Hch.
    assert (Math_round (v / inject_Z (Z.of_nat (length M)))
            = Math_round (Qsum (map ch M) / inject_Z (Z.of_nat (length M))))
      as ->.
    { unfold Math_round. apply Qfloor_comp. rewrite Hv, Qplus_0_l. reflexivity. }
    apply (to_uint8_clamped_num _).
    apply Math_round_byte. by apply mean_range. }
  rewrite (H red r Hr), (H green g Hg), (H blue b Hbl); [done | | |];
    intros p Hp; by destruct (Hb p Hp) as (? & ? & ?).
Qed.

Lemma pixelsOf_lookup img q :
  rgba_buffer img -> 0 <= q < width img * height img ->
  exists r g b,
    pixelsOf (data img) !! Z.to_nat q
    = Some (inject_Z r, inject_Z g, inject_Z b) /\
    get (data img) (q * 4) = Some r /\
    get (data img) (q * 4 + 1) = Some g /\
    get (data img) (q * 4 + 2) = Some b /\
    byte r /\ byte g /\ byte b.
Proof.
  intros (Hw & Hh & Hlen & Hb) Hq.
  destruct (get_is_Some (data img) (q * 4)) as [r Hr]; [lia |].
  destruct (get_is_Some (data img) (q * 4 + 1)) as [g Hg]; [lia |].
  destruct (get_is_Some (data img) (q * 4 + 2)) as [b Hbl]; [lia |].
  exists r, g, b. repeat split; try done; try (by eapply get_byte).
  unfold pixelsOf, loop_values. rewrite list_lookup_fmap, list_lookup_fmap.
  rewrite lookup_seq_lt.
  - cbn. rewrite Z2Nat.id by lia.
    replace (0 + q * 4) with (q * 4) by lia.
    by rewrite (sample_get _ _ _ Hr), (sample_get _ _ _ Hg),
      (sample_get _ _ _ Hbl).
  - assert ((len (data img) - 0 + 4 - 1) / 4 = width img * height img) as E.
    { symmetry. apply (Z.div_unique_pos _ _ _ 3); lia. }
    rewrite E. lia.
Qed.

Lemma pixelsOf_bytes img p :
  rgba_buffer img -> p ∈ pixelsOf (data img) ->
  (0 <= red p <= 255)%Q /\ (0 <= green p <= 255)%Q /\ (0 <= blue p <= 255)%Q.
Proof.
  intros Hwf Hp. apply list_elem_of_lookup in Hp as [i Hi].
  pose proof (pixelsOf_length img Hwf) as Hl.
  assert (0 <= Z.of_nat i < width img * height img) as Hq.
  { apply lookup_lt_Some in Hi. unfold len in Hl. lia. }
  destruct (pixelsOf_lookup img (Z.of_nat i) Hwf Hq)
    as (r & g & b & Hp & _ & _ & _ & Br & Bg & Bb).
  rewrite Nat2Z.id in Hp.
  pose proof (eq_trans (eq_sym Hi) Hp) as E. injection E as ->.
  unfold red, green, blue, byte in *. cbn.
  change 0%Q with (inject_Z 0). change 255%Q with (inject_Z 255).
  rewrite <- !Zle_Qle. lia.
Qed.

End Palette.



Section FirstIteration.
Import JS KMeans.

Lemma iterations_first n pixels k threshold c0 seeds clusters :
  iterations n pixels k threshold c0 !! 0%nat = Some (seeds, clusters) ->
  seeds = c0 /\ clusters = assign pixels c0 k.
Proof. destruct n as [| n]; [done |]. cbn. by intros [= <- <-]. Qed.

Lemma initializeCentroidsKMeansPP_among Math_random pixels k seeds :
  initializeCentroidsKMeansPP Math_random pixels k = Some seeds ->
  Forall (fun s => s ∈ pixels) seeds.
Proof.
  unfold initializeCentroidsKMeansPP.
  destruct (get pixels _) as [first |] eqn:Ef; [| done].
  cbn [mbind option_bind]. intros H.
  assert (first ∈ pixels) as Hin.
  { unfold get in Ef. destruct (_ <? 0); [done |].
    by eapply list_elem_of_lookup_2. }
  assert (pixels <> []) as Hne
    by (intros E; rewrite E in Hin; by apply elem_of_nil in Hin).
  destruct (seeds_pixels Math_random pixels (seq 1 (k - 1)) Hne [first])
    as (cs & Hcs & Hall); [by constructor |].
  pose proof (eq_trans (eq_sym H) Hcs) as E. by injection E as ->.
Qed.

End FirstIteration.



